(** * The Papaya Network Protocol client: codec, request cycle and status table

    A model of the two TypeScript sources of the client, the file that
    exports class PNP (src/unnamed/part_000) and src/PapayaClient.ts, and of
    the parts of the Node.js platform they call: Buffer, String, JSON and
    the crypto module with AES-256 in CBC mode.  The platform is modelled
    after its documented behaviour; the two sources are transcribed
    statement by statement.  The connection classes, whose methods hand
    callbacks to the socket, are run in a model of the event loop.
    Definitions come first, the proofs after them. *)

From Stdlib Require Import String Ascii List Arith NArith ZArith Bool Lia ZifyNat ZifyN Btauto
  DecimalString.
From Stdlib Require Import Strings.Byte.
Import ListNotations.

(** * Bytes, buffers and JavaScript strings *)

(** A [Buffer] is a sequence of octets.  A JavaScript string is a sequence
    of UTF-16 code units, each below 65536. *)
Definition Buffer := list byte.
Definition jsstring := list N.

(** The octet with value [n mod 256]. *)
Definition byte_of_N (n : N) : byte :=
match Byte.of_N (n mod 256)%N with
| Some b => b
| None => x00
end.

(** An ASCII literal as a JavaScript string. *)
Definition lit (s : string) : jsstring :=
map N_of_ascii (list_ascii_of_string s).

Definition jsstring_eqb (a b : jsstring) : bool :=
if list_eq_dec N.eq_dec a b then true else false.

(** Bitwise exclusive or of two octets. *)
Definition bxor (a b : byte) : byte :=
let '(a0, (a1, (a2, (a3, (a4, (a5, (a6, a7))))))) := Byte.to_bits a in
let '(b0, (b1, (b2, (b3, (b4, (b5, (b6, b7))))))) := Byte.to_bits b in
Byte.of_bits (xorb a0 b0, (xorb a1 b1, (xorb a2 b2, (xorb a3 b3,
  (xorb a4 b4, (xorb a5 b5, (xorb a6 b6, xorb a7 b7))))))).

(** The 256 octets in increasing order. *)
Definition all_bytes : list byte :=
map (fun n => byte_of_N (N.of_nat n)) (seq 0 256).

(** ** String.prototype.split, Array.prototype.shift and join *)

(** [s.split(sep)] for a separator of one code unit: the pieces of [s]
    between occurrences of [sep]; never an empty array. *)
Fixpoint split (sep : N) (s : jsstring) : list jsstring :=
match s with
| [] => [[]]
| c :: t =>
    if (c =? sep)%N then [] :: split sep t
    else match split sep t with
         | p :: ps => (c :: p) :: ps
         | [] => [[c]]
         end
end.

(** [a.shift()]: the removed first element ([None] is [undefined]) and
    the array that is left. *)
Definition shift {A : Type} (a : list A) : option A * list A :=
match a with
| [] => (None, [])
| x :: r => (Some x, r)
end.

(** [a.join(sep)]. *)
Fixpoint join (sep : jsstring) (a : list jsstring) : jsstring :=
match a with
| [] => []
| p :: ps =>
    match ps with
    | [] => p
    | _ :: _ => p ++ sep ++ join sep ps
    end
end.

(** The part of [s] in front of the first [sep] (all of [s] when there
    is none), and the part behind it (empty when there is none). *)
Fixpoint before (sep : N) (s : jsstring) : jsstring :=
match s with
| [] => []
| c :: t => if (c =? sep)%N then [] else c :: before sep t
end.

Fixpoint after (sep : N) (s : jsstring) : jsstring :=
match s with
| [] => []
| c :: t => if (c =? sep)%N then t else after sep t
end.

Definition contains (sep : N) (s : jsstring) : bool :=
existsb (fun c => (c =? sep)%N) s.

(** ** Hexadecimal encoding *)

Module Hex.
Local Open Scope N_scope.

(** The lowercase hexadecimal digit of a nibble. *)
Definition digit (n : N) : N :=
if n <? 10 then 48 + n else 87 + n.

(** The value of a hexadecimal digit of either case. *)
Definition digit_value (c : N) : option N :=
if (48 <=? c) && (c <=? 57) then Some (c - 48)
else if (97 <=? c) && (c <=? 102) then Some (c - 87)
else if (65 <=? c) && (c <=? 70) then Some (c - 55)
else None.

(** The value the hexadecimal decoder of Buffer and of the cipher
    objects gives a code unit of a string: the decoder casts the code
    unit to an octet before it looks the digit up, so that only the low
    eight bits count (U+0130 is read as the digit 0). *)
Definition unhex (c : N) : option N := digit_value (c mod 256).

(** [buf.toString("hex")]: two lowercase digits per octet. *)
Definition encode (b : Buffer) : jsstring :=
flat_map (fun x => [digit (Byte.to_N x / 16); digit (Byte.to_N x mod 16)]) b.

(** [Buffer.from(s, "hex")]: pairs of digits are decoded from the left;
    decoding stops, without an error, at the first pair that is not two
    hexadecimal digits, and a trailing single character is ignored. *)
Fixpoint decode (s : jsstring) : Buffer :=
match s with
| c1 :: c2 :: t =>
    match unhex c1, unhex c2 with
    | Some h, Some l => byte_of_N (16 * h + l) :: decode t
    | _, _ => []
    end
| _ => []
end.

Definition is_lower_hex (c : N) : bool :=
((48 <=? c) && (c <=? 57)) || ((97 <=? c) && (c <=? 102)).

End Hex.

(** ** UTF-8 *)

Module Utf8.
Local Open Scope N_scope.

Definition is_high_surrogate (c : N) : bool := (0xD800 <=? c) && (c <=? 0xDBFF).
Definition is_low_surrogate (c : N) : bool := (0xDC00 <=? c) && (c <=? 0xDFFF).

(** [String.prototype.isWellFormed]: code units below 65536 with every
    surrogate part of a high-low pair.  These are the strings that have a
    UTF-8 encoding of their own. *)
Fixpoint isWellFormed (s : jsstring) : bool :=
match s with
| [] => true
| c :: t =>
    if is_high_surrogate c then
      match t with
      | d :: t' => is_low_surrogate d && isWellFormed t'
      | [] => false
      end
    else negb (is_low_surrogate c) && (c <? 65536) && isWellFormed t
end.

(** The UTF-8 bytes of one code point; [x / 64] is [x >> 6] and
    [x mod 64] is [x & 0x3F]. *)
Definition encode_code_point (cp : N) : Buffer :=
if cp <? 0x80 then [byte_of_N cp]
else if cp <? 0x800 then
  [byte_of_N (0xC0 + cp / 64); byte_of_N (0x80 + cp mod 64)]
else if cp <? 0x10000 then
  [byte_of_N (0xE0 + cp / 4096); byte_of_N (0x80 + (cp / 64) mod 64);
   byte_of_N (0x80 + cp mod 64)]
else
  [byte_of_N (0xF0 + cp / 262144); byte_of_N (0x80 + (cp / 4096) mod 64);
   byte_of_N (0x80 + (cp / 64) mod 64); byte_of_N (0x80 + cp mod 64)].

Definition replacement : N := 0xFFFD.

(** The code point of a surrogate pair. *)
Definition pair_code_point (hi lo : N) : N :=
0x10000 + (hi - 0xD800) * 1024 + (lo - 0xDC00).

(** Encoding of a string as Node writes it ([Buffer.from(s, "utf8")],
    [cipher.update(s, "utf8")]): a surrogate pair gives the four bytes of
    its code point, an unpaired surrogate gives the bytes of U+FFFD. *)
Fixpoint encode (s : jsstring) : Buffer :=
match s with
| [] => []
| c :: t =>
    if is_high_surrogate c then
      match t with
      | d :: t' =>
          if is_low_surrogate d
          then encode_code_point (pair_code_point c d) ++ encode t'
          else encode_code_point replacement ++ encode t
      | [] => encode_code_point replacement
      end
    else if is_low_surrogate c then encode_code_point replacement ++ encode t
    else encode_code_point c ++ encode t
end.

(** The code units of a decoded code point. *)
Definition code_units (cp : N) : jsstring :=
if cp <? 0x10000 then [cp]
else [0xD800 + (cp - 0x10000) / 1024; 0xDC00 + (cp - 0x10000) mod 1024].

(** State of the decoder inside a multi-byte sequence: the code point
    collected so far, the continuation bytes still needed, and the range
    the next byte must lie in. *)
Record dstate := { cp : N; needed : nat; lower : N; upper : N }.

(** A byte met outside a sequence: the code units it yields at once, and
    the sequence it opens, if any. *)
Definition lead (b : N) : jsstring * option dstate :=
if b <=? 0x7F then ([b], None)
else if (0xC2 <=? b) && (b <=? 0xDF) then
  ([], Some {| cp := b - 0xC0; needed := 1; lower := 0x80; upper := 0xBF |})
else if (0xE0 <=? b) && (b <=? 0xEF) then
  ([], Some {| cp := b - 0xE0; needed := 2;
               lower := if b =? 0xE0 then 0xA0 else 0x80;
               upper := if b =? 0xED then 0x9F else 0xBF |})
else if (0xF0 <=? b) && (b <=? 0xF4) then
  ([], Some {| cp := b - 0xF0; needed := 3;
               lower := if b =? 0xF0 then 0x90 else 0x80;
               upper := if b =? 0xF4 then 0x8F else 0xBF |})
else ([replacement], None).

(** [buf.toString("utf8")]: every maximal ill-formed part is replaced by
    U+FFFD and decoding goes on at the byte that broke the sequence; a
    byte order mark is kept. *)
Fixpoint decode_from (st : option dstate) (bs : Buffer) : jsstring :=
match bs with
| [] =>
    match st with
    | None => []
    | Some _ => [replacement]
    end
| x :: t =>
    let b := Byte.to_N x in
    match st with
    | None => let '(out, st') := lead b in out ++ decode_from st' t
    | Some s =>
        if (lower s <=? b) && (b <=? upper s) then
          let cp' := cp s * 64 + b mod 64 in
          match needed s with
          | S (S n) =>
              decode_from
                (Some {| cp := cp'; needed := S n; lower := 0x80; upper := 0xBF |}) t
          | _ => code_units cp' ++ decode_from None t
          end
        else
          replacement :: (let '(out, st') := lead b in out ++ decode_from st' t)
    end
end.

Definition decode (bs : Buffer) : jsstring := decode_from None bs.

End Utf8.

(** A code point that has a UTF-8 encoding of its own: not above
    U+10FFFF and no surrogate. *)
Definition scalar (c : N) : Prop :=
(c < 0x110000)%N /\ ~ (0xD800 <= c <= 0xDFFF)%N.

(** ** Buffer.from and Buffer.prototype.toString *)

Inductive BufferEncoding := utf8 | hex.

Module BufferOps.

Definition from (s : jsstring) (enc : BufferEncoding) : Buffer :=
match enc with
| utf8 => Utf8.encode s
| hex => Hex.decode s
end.

Definition toString (b : Buffer) (enc : BufferEncoding) : jsstring :=
match enc with
| utf8 => Utf8.decode b
| hex => Hex.encode b
end.

End BufferOps.

(** * AES-256 (FIPS 197), the cipher named by the algorithm string *)

Module AES.

(** ** The field GF(2^8) *)

(** Multiplication by x modulo x^8 + x^4 + x^3 + x + 1. *)
Definition xtime (a : byte) : byte :=
let '(a0, (a1, (a2, (a3, (a4, (a5, (a6, a7))))))) := Byte.to_bits a in
Byte.of_bits (a7, (xorb a0 a7, (a1, (xorb a2 a7, (xorb a3 a7, (a4, (a5, a6))))))).

Definition bits_of (b : byte) : list bool :=
let '(b0, (b1, (b2, (b3, (b4, (b5, (b6, b7))))))) := Byte.to_bits b in
[b0; b1; b2; b3; b4; b5; b6; b7].

Fixpoint gmul_bits (a : byte) (bits : list bool) : byte :=
match bits with
| [] => x00
| bit :: r => bxor (if bit then a else x00) (gmul_bits (xtime a) r)
end.

(** The product of two field elements. *)
Definition gmul (a b : byte) : byte := gmul_bits a (bits_of b).

Fixpoint gpow (a : byte) (n : nat) : byte :=
match n with
| O => x01
| S m => gmul a (gpow a m)
end.

(** The multiplicative inverse, with 0 mapped to 0. *)
Definition ginv (a : byte) : byte := gpow a 254.

Definition rotl1 (a : byte) : byte :=
let '(a0, (a1, (a2, (a3, (a4, (a5, (a6, a7))))))) := Byte.to_bits a in
Byte.of_bits (a7, (a0, (a1, (a2, (a3, (a4, (a5, a6))))))).

(** The affine map of SubBytes (FIPS 197, 5.1.1). *)
Definition affine (b : byte) : byte :=
let r1 := rotl1 b in
let r2 := rotl1 r1 in
let r3 := rotl1 r2 in
let r4 := rotl1 r3 in
bxor (bxor (bxor (bxor (bxor b r1) r2) r3) r4) x63.

Definition sbox_table : list byte :=
Eval vm_compute in map (fun b => affine (ginv b)) all_bytes.

Definition sbox (b : byte) : byte := nth (Byte.to_nat b) sbox_table x00.

Definition inv_sbox_table : list byte :=
Eval vm_compute in
  map (fun y => match find (fun x => Byte.eqb (sbox x) y) all_bytes with
                | Some x => x
                | None => x00
                end) all_bytes.

Definition inv_sbox (b : byte) : byte := nth (Byte.to_nat b) inv_sbox_table x00.

Definition mul2 (a : byte) : byte := xtime a.
Definition mul3 (a : byte) : byte := bxor (xtime a) a.
Definition mul9 (a : byte) : byte := bxor (xtime (xtime (xtime a))) a.
Definition mul11 (a : byte) : byte :=
bxor (bxor (xtime (xtime (xtime a))) (xtime a)) a.
Definition mul13 (a : byte) : byte :=
bxor (bxor (xtime (xtime (xtime a))) (xtime (xtime a))) a.
Definition mul14 (a : byte) : byte :=
bxor (bxor (xtime (xtime (xtime a))) (xtime (xtime a))) (xtime a).

(** ** State, words and the round transformations *)

(** A word is a column of four octets; the state and a round key are four
    words. *)
Definition word : Type := byte * byte * byte * byte.
Definition state : Type := word * word * word * word.

Definition xor_word (u v : word) : word :=
let '(u0, u1, u2, u3) := u in
let '(v0, v1, v2, v3) := v in
(bxor u0 v0, bxor u1 v1, bxor u2 v2, bxor u3 v3).

Definition map_word (f : byte -> byte) (u : word) : word :=
let '(u0, u1, u2, u3) := u in (f u0, f u1, f u2, f u3).

Definition map_state (f : word -> word) (s : state) : state :=
let '(c0, c1, c2, c3) := s in (f c0, f c1, f c2, f c3).

Definition add_round_key (s k : state) : state :=
let '(c0, c1, c2, c3) := s in
let '(k0, k1, k2, k3) := k in
(xor_word c0 k0, xor_word c1 k1, xor_word c2 k2, xor_word c3 k3).

Definition sub_bytes : state -> state := map_state (map_word sbox).
Definition inv_sub_bytes : state -> state := map_state (map_word inv_sbox).

(** Row r of the state is rotated left by r places. *)
Definition shift_rows (s : state) : state :=
let '((a0, a1, a2, a3), (b0, b1, b2, b3), (c0, c1, c2, c3), (d0, d1, d2, d3)) := s in
((a0, b1, c2, d3), (b0, c1, d2, a3), (c0, d1, a2, b3), (d0, a1, b2, c3)).

Definition inv_shift_rows (s : state) : state :=
let '((a0, a1, a2, a3), (b0, b1, b2, b3), (c0, c1, c2, c3), (d0, d1, d2, d3)) := s in
((a0, d1, c2, b3), (b0, a1, d2, c3), (c0, b1, a2, d3), (d0, c1, b2, a3)).

Definition mix_column (u : word) : word :=
let '(a0, a1, a2, a3) := u in
(bxor (bxor (bxor (mul2 a0) (mul3 a1)) a2) a3,
 bxor (bxor (bxor a0 (mul2 a1)) (mul3 a2)) a3,
 bxor (bxor (bxor a0 a1) (mul2 a2)) (mul3 a3),
 bxor (bxor (bxor (mul3 a0) a1) a2) (mul2 a3)).

Definition inv_mix_column (u : word) : word :=
let '(a0, a1, a2, a3) := u in
(bxor (bxor (bxor (mul14 a0) (mul11 a1)) (mul13 a2)) (mul9 a3),
 bxor (bxor (bxor (mul9 a0) (mul14 a1)) (mul11 a2)) (mul13 a3),
 bxor (bxor (bxor (mul13 a0) (mul9 a1)) (mul14 a2)) (mul11 a3),
 bxor (bxor (bxor (mul11 a0) (mul13 a1)) (mul9 a2)) (mul14 a3)).

Definition mix_columns : state -> state := map_state mix_column.
Definition inv_mix_columns : state -> state := map_state inv_mix_column.

(** ** Key expansion for a 256-bit key (Nk = 8, Nr = 14) *)

Definition rot_word (u : word) : word :=
let '(u0, u1, u2, u3) := u in (u1, u2, u3, u0).

Definition sub_word : word -> word := map_word sbox.

(** The next eight words from the previous eight and the round constant. *)
Definition expand8 (rc : byte) (ws : list word) : list word :=
match ws with
| [w0; w1; w2; w3; w4; w5; w6; w7] =>
    let n0 := xor_word w0 (xor_word (sub_word (rot_word w7)) (rc, x00, x00, x00)) in
    let n1 := xor_word w1 n0 in
    let n2 := xor_word w2 n1 in
    let n3 := xor_word w3 n2 in
    let n4 := xor_word w4 (sub_word n3) in
    let n5 := xor_word w5 n4 in
    let n6 := xor_word w6 n5 in
    let n7 := xor_word w7 n6 in
    [n0; n1; n2; n3; n4; n5; n6; n7]
| _ => ws
end.

Definition rcon : list byte := [x01; x02; x04; x08; x10; x20; x40].

Fixpoint expand (rcs : list byte) (ws : list word) : list word :=
ws ++ match rcs with
      | [] => []
      | rc :: r => expand r (expand8 rc ws)
      end.

Fixpoint words_of (bs : list byte) : list word :=
match bs with
| b0 :: b1 :: b2 :: b3 :: t => (b0, b1, b2, b3) :: words_of t
| _ => []
end.

Fixpoint group4 (ws : list word) : list state :=
match ws with
| w0 :: w1 :: w2 :: w3 :: t => (w0, w1, w2, w3) :: group4 t
| _ => []
end.

(** The fifteen round keys of a 32-byte key. *)
Definition round_keys (key : list byte) : list state :=
firstn 15 (group4 (expand rcon (words_of key))).

(** ** Cipher and inverse cipher *)

(** The rounds after the initial key addition; the last one has no
    MixColumns. *)
Fixpoint rounds (ks : list state) (s : state) : state :=
match ks with
| [] => s
| k :: ks' =>
    match ks' with
    | [] => add_round_key (shift_rows (sub_bytes s)) k
    | _ :: _ => rounds ks' (add_round_key (mix_columns (shift_rows (sub_bytes s))) k)
    end
end.

Definition cipher (rks : list state) (s : state) : state :=
match rks with
| [] => s
| k0 :: ks => rounds ks (add_round_key s k0)
end.

Fixpoint inv_rounds (ks : list state) (s : state) : state :=
match ks with
| [] => s
| k :: ks' =>
    match ks' with
    | [] => inv_sub_bytes (inv_shift_rows (add_round_key s k))
    | _ :: _ =>
        inv_sub_bytes (inv_shift_rows (inv_mix_columns (add_round_key (inv_rounds ks' s) k)))
    end
end.

Definition inv_cipher (rks : list state) (s : state) : state :=
match rks with
| [] => s
| k0 :: ks => add_round_key (inv_rounds ks s) k0
end.

(** ** Blocks of sixteen octets *)

Definition state_of (b : list byte) : option state :=
match words_of b with
| [w0; w1; w2; w3] => if Nat.eqb (List.length b) 16 then Some (w0, w1, w2, w3) else None
| _ => None
end.

Definition bytes_of_word (u : word) : list byte :=
let '(u0, u1, u2, u3) := u in [u0; u1; u2; u3].

Definition bytes_of (s : state) : list byte :=
let '(c0, c1, c2, c3) := s in
bytes_of_word c0 ++ bytes_of_word c1 ++ bytes_of_word c2 ++ bytes_of_word c3.

(** Encryption and decryption of one block; anything that is not a block
    is left as it is (the callers below only pass blocks). *)
Definition encrypt_block (key : list byte) (b : list byte) : list byte :=
match state_of b with
| Some s => bytes_of (cipher (round_keys key) s)
| None => b
end.

Definition decrypt_block (key : list byte) (b : list byte) : list byte :=
match state_of b with
| Some s => bytes_of (inv_cipher (round_keys key) s)
| None => b
end.

End AES.

(** * Exceptions and results *)

(** The exceptions the modelled calls can raise, by Node's error code. *)
Inductive Error :=
| ERR_CRYPTO_UNKNOWN_CIPHER
| ERR_CRYPTO_INVALID_IV
| ERR_CRYPTO_INVALID_KEYLEN
| ERR_OSSL_WRONG_FINAL_BLOCK_LENGTH
| ERR_OSSL_BAD_DECRYPT
| ERR_INVALID_ARG_VALUE
| ERR_INVALID_ARG_TYPE
| ERR_SOCKET_BAD_PORT
| SyntaxError
| SocketError (msg : jsstring)
| NoReason.

(** The outcome of a synchronous call: a value or a thrown exception. *)
Inductive Result (A : Type) :=
| Ok (a : A)
| Throw (e : Error).
Arguments Ok {A} a.
Arguments Throw {A} e.

Definition Result_bind {A B : Type} (r : Result A) (k : A -> Result B) : Result B :=
match r with
| Ok a => k a
| Throw e => Throw e
end.

Declare Scope result_scope.
Delimit Scope result_scope with result.
Notation "x <- r ;; k" := (Result_bind r (fun x => k))
  (at level 61, r at next level, right associativity) : result_scope.
Notation "' p <- r ;; k" := (Result_bind r (fun x => let p := x in k))
  (at level 61, p pattern, r at next level, right associativity) : result_scope.

Definition threw {A : Type} (r : Result A) : bool :=
match r with
| Ok _ => false
| Throw _ => true
end.

(** * CBC mode with PKCS#7 padding, as OpenSSL's EVP layer runs it *)

Module CBC.

Definition block_size : nat := 16.

Definition xor_bytes (a b : list byte) : list byte :=
map (fun p => bxor (fst p) (snd p)) (combine a b).

Fixpoint blocks_fuel (fuel : nat) (l : list byte) : list (list byte) :=
match fuel with
| O => []
| S f =>
    match l with
    | [] => []
    | _ :: _ => firstn block_size l :: blocks_fuel f (skipn block_size l)
    end
end.

(** The input cut into consecutive blocks of sixteen octets (the last one
    shorter when the length is not a multiple of sixteen). *)
Definition blocks (l : list byte) : list (list byte) := blocks_fuel (length l) l.

(** c_i = E_k(p_i xor c_(i-1)), with c_0 the chaining value. *)
Fixpoint encrypt_blocks (key chain : list byte) (ps : list (list byte))
  : list (list byte) :=
match ps with
| [] => []
| p :: r =>
    let c := AES.encrypt_block key (xor_bytes p chain) in
    c :: encrypt_blocks key c r
end.

(** p_i = D_k(c_i) xor c_(i-1). *)
Fixpoint decrypt_blocks (key chain : list byte) (cs : list (list byte))
  : list (list byte) :=
match cs with
| [] => []
| c :: r => xor_bytes (AES.decrypt_block key c) chain :: decrypt_blocks key c r
end.

(** The padding that fills the last block: n octets of value n, 1 <= n <= 16. *)
Definition padding (len : nat) : list byte :=
let n := block_size - len mod block_size in
repeat (byte_of_N (N.of_nat n)) n.

Definition pad (m : list byte) : list byte := m ++ padding (length m).

(** The check of the final decrypted block: its last octet n must be in
    1..16 and the last n octets must all be n; what is in front of them is
    the output. *)
Definition unpad (b : list byte) : option (list byte) :=
let n := Byte.to_nat (last b x00) in
if (n =? 0) || (block_size <? n) then None
else if forallb (fun x => Byte.eqb x (last b x00)) (skipn (block_size - n) b)
     then Some (firstn (block_size - n) b)
     else None.

(** The whole encryption and decryption of a message, for reference. *)
Definition encrypt (key iv m : list byte) : list byte :=
concat (encrypt_blocks key iv (blocks (pad m))).

Definition decrypt (key iv c : list byte) : Result (list byte) :=
if (length c =? 0) || negb (length c mod block_size =? 0)
then Throw ERR_OSSL_WRONG_FINAL_BLOCK_LENGTH
else
  let ps := decrypt_blocks key iv (blocks c) in
  match unpad (last ps []) with
  | Some tail => Ok (concat (removelast ps) ++ tail)
  | None => Throw ERR_OSSL_BAD_DECRYPT
  end.

End CBC.

(** A list of whole blocks. *)
Definition whole (bs : list (list byte)) : Prop :=
Forall (fun b => length b = CBC.block_size) bs.

(** * The crypto module: cipher objects *)

Definition aes_256_cbc : jsstring := lit "aes-256-cbc".

(** [Cipheriv]: the object [crypto.createCipheriv] returns.  It keeps the
    key, the chaining value and the input octets that do not fill a block
    yet. *)
Module Cipheriv.

Record t := { key : list byte; chain : list byte; buf : list byte }.

(** [cipher.update(data)] on octets: every complete block of the pending
    input is encrypted and returned. *)
Definition update_bytes (c : t) (data : Buffer) : Buffer * t :=
let input := buf c ++ data in
let n := length input / CBC.block_size * CBC.block_size in
let cs := CBC.encrypt_blocks (key c) (chain c) (CBC.blocks (firstn n input)) in
(concat cs, {| key := key c; chain := last cs (chain c); buf := skipn n input |}).

(** [cipher.final()] on octets: the pending input is padded to one block,
    which is encrypted and returned. *)
Definition final_bytes (c : t) : Buffer :=
let n := CBC.block_size - length (buf c) in
AES.encrypt_block (key c)
  (CBC.xor_bytes (buf c ++ repeat (byte_of_N (N.of_nat n)) n) (chain c)).

(** [cipher.update(data, inputEncoding, outputEncoding)] on a string. *)
Definition update (c : t) (data : jsstring) (inputEncoding outputEncoding : BufferEncoding)
  : jsstring * t :=
let '(out, c') := update_bytes c (BufferOps.from data inputEncoding) in
(BufferOps.toString out outputEncoding, c').

(** [cipher.final(outputEncoding)]. *)
Definition final (c : t) (outputEncoding : BufferEncoding) : jsstring :=
BufferOps.toString (final_bytes c) outputEncoding.

End Cipheriv.

(** [Decipheriv]: the object [crypto.createDecipheriv] returns.  Besides
    key, chaining value and incomplete input it holds back the last
    decrypted block, which may carry the padding. *)
Module Decipheriv.

Record t := {
  key : list byte;
  chain : list byte;
  buf : list byte;
  held : option (list byte)
}.

(** [decipher.update(data)]: complete blocks are decrypted; when the
    input ends on a block boundary the last decrypted block is kept for
    [final]. *)
Definition update (d : t) (data : Buffer) : Buffer * t :=
match data with
| [] => ([], d)
| _ :: _ =>
    let input := buf d ++ data in
    let n := length input / CBC.block_size * CBC.block_size in
    let cs := CBC.blocks (firstn n input) in
    let ps := match held d with
              | Some h => [h]
              | None => []
              end ++ CBC.decrypt_blocks (key d) (chain d) cs in
    let chain' := last cs (chain d) in
    match skipn n input with
    | [] =>
        match ps with
        | [] => ([], {| key := key d; chain := chain'; buf := []; held := None |})
        | _ :: _ =>
            (concat (removelast ps),
             {| key := key d; chain := chain'; buf := []; held := Some (last ps []) |})
        end
    | rest =>
        (concat ps, {| key := key d; chain := chain'; buf := rest; held := None |})
    end
end.

(** [decipher.final()]: fails when input is left over or no block was
    held back, and when the held block's padding is wrong. *)
Definition final (d : t) : Result Buffer :=
match buf d, held d with
| [], Some h =>
    match CBC.unpad h with
    | Some p => Ok p
    | None => Throw ERR_OSSL_BAD_DECRYPT
    end
| _, _ => Throw ERR_OSSL_WRONG_FINAL_BLOCK_LENGTH
end.

(** [validateEncoding]: a string given with the hex input encoding must
    have an even length. *)
Definition validateEncoding (data : jsstring) (enc : BufferEncoding) : Result unit :=
match enc with
| hex => if Nat.even (length data) then Ok tt else Throw ERR_INVALID_ARG_VALUE
| utf8 => Ok tt
end.

(** [decipher.update(data, inputEncoding)] on a string, giving octets. *)
Definition update_string (d : t) (data : jsstring) (inputEncoding : BufferEncoding)
  : Result (Buffer * t) :=
(_ <- validateEncoding data inputEncoding ;;
 Ok (update d (BufferOps.from data inputEncoding)))%result.

End Decipheriv.

Module crypto.

(** The checks of [createCipheriv] and [createDecipheriv] for the one
    algorithm the sources name: the IV must have 16 octets and the key 32. *)
Definition check (algorithm : jsstring) (key iv : Buffer) : Result unit :=
if negb (jsstring_eqb algorithm aes_256_cbc) then Throw ERR_CRYPTO_UNKNOWN_CIPHER
else if negb (length iv =? 16) then Throw ERR_CRYPTO_INVALID_IV
else if negb (length key =? 32) then Throw ERR_CRYPTO_INVALID_KEYLEN
else Ok tt.

Definition createCipheriv (algorithm : jsstring) (key iv : Buffer) : Result Cipheriv.t :=
(_ <- check algorithm key iv ;;
 Ok {| Cipheriv.key := key; Cipheriv.chain := iv; Cipheriv.buf := [] |})%result.

Definition createDecipheriv (algorithm : jsstring) (key iv : Buffer) : Result Decipheriv.t :=
(_ <- check algorithm key iv ;;
 Ok {| Decipheriv.key := key; Decipheriv.chain := iv; Decipheriv.buf := [];
       Decipheriv.held := None |})%result.

End crypto.

(** * The world outside the program *)

(** What the socket delivers next. *)
Inductive SocketEvent :=
| OnData (chunk : Buffer)
| OnError (msg : jsstring).

(** What the program did to the socket. *)
Inductive IOEvent :=
| EvWrite (data : Buffer)
| EvReceive.

(** The octets the system's random generator will hand out and how many
    were drawn so far; the outcome of each socket write to come ([None]
    is success; success too once the list is used up); the events the
    socket will deliver; the socket operations performed so far. *)
Record World := {
  entropy : nat -> byte;
  drawn : nat;
  write_faults : list (option jsstring);
  incoming : list SocketEvent;
  trace : list IOEvent
}.

(** [crypto.randomBytes(n)]. *)
Definition randomBytes (n : nat) (w : World) : Buffer * World :=
(map (entropy w) (seq (drawn w) n),
 {| entropy := entropy w; drawn := drawn w + n;
    write_faults := write_faults w; incoming := incoming w; trace := trace w |}).

(** The state of a promise once the event loop has run. *)
Inductive Settled (A : Type) :=
| Fulfilled (a : A)
| Rejected (e : Error)
| Pending.
Arguments Fulfilled {A} a.
Arguments Rejected {A} e.
Arguments Pending {A}.

(** An asynchronous computation acts on the world and leaves a promise. *)
Definition Async (A : Type) : Type := World -> Settled A * World.

Definition Async_ret {A : Type} (a : A) : Async A := fun w => (Fulfilled a, w).

(** [await]: go on with the value of a fulfilled promise; a rejection is
    rethrown, and nothing after a promise that stays pending runs. *)
Definition Async_bind {A B : Type} (m : Async A) (k : A -> Async B) : Async B :=
fun w =>
  match m w with
  | (Fulfilled a, w') => k a w'
  | (Rejected e, w') => (Rejected e, w')
  | (Pending, w') => (Pending, w')
  end.

(** A synchronous call inside an async function: its exception rejects
    the function's promise. *)
Definition sync {A : Type} (f : World -> Result A * World) : Async A :=
fun w =>
  match f w with
  | (Ok a, w') => (Fulfilled a, w')
  | (Throw e, w') => (Rejected e, w')
  end.

Definition pure_sync {A : Type} (r : Result A) : Async A := sync (fun w => (r, w)).

Declare Scope async_scope.
Delimit Scope async_scope with async.
Notation "x <- m ;; k" := (Async_bind m (fun x => k))
  (at level 61, m at next level, right associativity) : async_scope.

(** * JSON *)

(** A JavaScript value as far as JSON knows it.  An object is its list of
    properties in the order they were created.  A number is kept as its
    JSON text: the model does not compute with IEEE doubles. *)
#[warnings="-register-all"]
Inductive JSValue :=
| JNull
| JBool (b : bool)
| JNumber (text : jsstring)
| JString (s : jsstring)
| JArray (items : list JSValue)
| JObject (props : list (jsstring * JSValue)).

Module JSON.
Local Open Scope N_scope.

Definition ch (a : ascii) : N := N_of_ascii a.
Definition dquote : N := 34.

(** ** Property order *)

Definition is_digit (c : N) : bool := (48 <=? c) && (c <=? 57).

Fixpoint digits_value (acc : N) (s : jsstring) : N :=
match s with
| [] => acc
| c :: t => digits_value (10 * acc + (c - 48)) t
end.

(** The array index a property key stands for, if it is the canonical
    decimal form of an integer below 2^32 - 1. *)
Definition array_index (k : jsstring) : option N :=
match k with
| [] => None
| c :: t =>
    if forallb is_digit k && (negb (c =? 48) || (length t =? 0)%nat)
       && (length k <=? 10)%nat && (digits_value 0 k <? 4294967295)
    then Some (digits_value 0 k)
    else None
end.

Fixpoint insert_index {A : Type} (i : N) (x : A) (l : list (N * A)) : list (N * A) :=
match l with
| [] => [(i, x)]
| (j, y) :: r => if i <? j then (i, x) :: l else (j, y) :: insert_index i x r
end.

Fixpoint index_props {A : Type} (l : list (jsstring * A)) : list (N * (jsstring * A)) :=
match l with
| [] => []
| (k, v) :: r =>
    match array_index k with
    | Some i => insert_index i (k, v) (index_props r)
    | None => index_props r
    end
end.

(** The order in which the own properties of an object are enumerated:
    array indices in increasing order, then the other keys in the order
    of their creation. *)
Definition enumerate {A : Type} (props : list (jsstring * A)) : list (jsstring * A) :=
map snd (index_props props)
  ++ filter (fun p => match array_index (fst p) with
                      | Some _ => false
                      | None => true
                      end) props.

(** ** JSON.stringify *)

Definition hex4 (c : N) : jsstring :=
[Hex.digit (c / 4096 mod 16); Hex.digit (c / 256 mod 16);
 Hex.digit (c / 16 mod 16); Hex.digit (c mod 16)].

Definition unicode_escape (c : N) : jsstring := lit "\u" ++ hex4 c.

(** The characters of a string between the quotes: quote, backslash and
    control characters are escaped, and so is a surrogate that has no
    partner. *)
Fixpoint quote_body (s : jsstring) : jsstring :=
match s with
| [] => []
| c :: t =>
    if c =? 8 then lit "\b" ++ quote_body t
    else if c =? 9 then lit "\t" ++ quote_body t
    else if c =? 10 then lit "\n" ++ quote_body t
    else if c =? 12 then lit "\f" ++ quote_body t
    else if c =? 13 then lit "\r" ++ quote_body t
    else if c =? dquote then [ch "\"; dquote] ++ quote_body t
    else if c =? ch "\" then lit "\\" ++ quote_body t
    else if c <? 32 then unicode_escape c ++ quote_body t
    else if Utf8.is_high_surrogate c then
      match t with
      | d :: t' =>
          if Utf8.is_low_surrogate d then c :: d :: quote_body t'
          else unicode_escape c ++ quote_body t
      | [] => unicode_escape c
      end
    else if Utf8.is_low_surrogate c then unicode_escape c ++ quote_body t
    else c :: quote_body t
end.

Definition quote (s : jsstring) : jsstring := [dquote] ++ quote_body s ++ [dquote].

(** [JSON.stringify(v)] without indentation: the members of an object
    come in its enumeration order. *)
Fixpoint stringify (v : JSValue) : jsstring :=
match v with
| JNull => lit "null"
| JBool true => lit "true"
| JBool false => lit "false"
| JNumber text => text
| JString s => quote s
| JArray items => lit "[" ++ join (lit ",") (map stringify items) ++ lit "]"
| JObject props =>
    lit "{"
    ++ join (lit ",")
         (map (fun m => quote (fst m) ++ lit ":" ++ snd m)
              (enumerate (map (fun p => (fst p, stringify (snd p))) props)))
    ++ lit "}"
end.

(** ** JSON.parse *)

Definition is_ws (c : N) : bool :=
(c =? 32) || (c =? 9) || (c =? 10) || (c =? 13).

Fixpoint skip_ws (s : jsstring) : jsstring :=
match s with
| [] => []
| c :: t => if is_ws c then skip_ws t else s
end.

Fixpoint strip_prefix (p s : jsstring) : option jsstring :=
match p with
| [] => Some s
| a :: p' =>
    match s with
    | [] => None
    | c :: t => if c =? a then strip_prefix p' t else None
    end
end.

Definition simple_escape (e : N) : option N :=
if e =? dquote then Some dquote
else if e =? ch "\" then Some (ch "\")
else if e =? ch "/" then Some (ch "/")
else if e =? ch "b" then Some 8
else if e =? ch "f" then Some 12
else if e =? ch "n" then Some 10
else if e =? ch "r" then Some 13
else if e =? ch "t" then Some 9
else None.

Definition cons_fst (c : N) (r : option (jsstring * jsstring)) : option (jsstring * jsstring) :=
match r with
| Some (s, rest) => Some (c :: s, rest)
| None => None
end.

(** The text after an opening quote: the string's value and what follows
    the closing quote. *)
Fixpoint parse_string (s : jsstring) : option (jsstring * jsstring) :=
match s with
| [] => None
| c :: t =>
    if c =? dquote then Some ([], t)
    else if c =? ch "\" then
      match t with
      | [] => None
      | e :: t' =>
          if e =? ch "u" then
            match t' with
            | h1 :: h2 :: h3 :: h4 :: t'' =>
                match Hex.digit_value h1, Hex.digit_value h2, Hex.digit_value h3,
                      Hex.digit_value h4 with
                | Some a, Some b, Some c', Some d =>
                    cons_fst (4096 * a + 256 * b + 16 * c' + d) (parse_string t'')
                | _, _, _, _ => None
                end
            | _ => None
            end
          else
            match simple_escape e with
            | Some x => cons_fst x (parse_string t')
            | None => None
            end
      end
    else if c <? 32 then None
    else cons_fst c (parse_string t)
end.

Fixpoint span_digits (s : jsstring) : jsstring * jsstring :=
match s with
| [] => ([], [])
| c :: t =>
    if is_digit c then let '(ds, r) := span_digits t in (c :: ds, r) else ([], s)
end.

(** A number: an optional minus sign; 0, or a digit from 1 to 9 followed
    by any digits; optionally a point and one or more digits; optionally
    e or E, an optional sign and one or more digits.  The text read and
    what follows it. *)
Definition parse_number (s : jsstring) : option (jsstring * jsstring) :=
let '(sign, s1) :=
  match s with
  | c :: t => if c =? ch "-" then ([c], t) else ([], s)
  | [] => ([], s)
  end in
match s1 with
| [] => None
| d :: t =>
    if negb (is_digit d) then None
    else
      let '(int, s2) := if d =? 48 then ([d], t)
                        else let '(ds, r) := span_digits t in (d :: ds, r) in
      let frac :=
        match s2 with
        | c :: t2 =>
            if c =? ch "." then
              match span_digits t2 with
              | ([], _) => None
              | (ds, r) => Some (c :: ds, r)
              end
            else Some ([], s2)
        | [] => Some ([], s2)
        end in
      match frac with
      | None => None
      | Some (fr, s3) =>
          match s3 with
          | c :: t3 =>
              if (c =? ch "e") || (c =? ch "E") then
                let '(esign, s4) :=
                  match t3 with
                  | g :: t4 => if (g =? ch "+") || (g =? ch "-") then ([g], t4) else ([], t3)
                  | [] => ([], t3)
                  end in
                match span_digits s4 with
                | ([], _) => None
                | (ds, r) => Some (sign ++ int ++ fr ++ [c] ++ esign ++ ds, r)
                end
              else Some (sign ++ int ++ fr, s3)
          | [] => Some (sign ++ int ++ fr, s3)
          end
      end
end.

(** A member of an object being built: a key that is there already gets
    the new value at its old place. *)
Fixpoint define (props : list (jsstring * JSValue)) (k : jsstring) (v : JSValue)
  : list (jsstring * JSValue) :=
match props with
| [] => [(k, v)]
| (k', v') :: r => if jsstring_eqb k' k then (k, v) :: r else (k', v') :: define r k v
end.

(** A value with the white space in front of it; the elements of an
    array after its opening bracket; the members of an object from a key
    on.  Each call passes less fuel on. *)
Fixpoint parse_value (fuel : nat) (s : jsstring) {struct fuel}
  : option (JSValue * jsstring) :=
match fuel with
| O => None
| S f =>
    match skip_ws s with
    | [] => None
    | c :: t =>
        if c =? ch "{" then
          match skip_ws t with
          | [] => None
          | c2 :: t2 =>
              if c2 =? ch "}" then Some (JObject [], t2)
              else parse_members f (c2 :: t2) []
          end
        else if c =? ch "[" then
          match skip_ws t with
          | [] => None
          | c2 :: t2 =>
              if c2 =? ch "]" then Some (JArray [], t2)
              else parse_elements f (c2 :: t2) []
          end
        else if c =? dquote then
          match parse_string t with
          | Some (str, r) => Some (JString str, r)
          | None => None
          end
        else if c =? ch "t" then
          match strip_prefix (lit "rue") t with
          | Some r => Some (JBool true, r)
          | None => None
          end
        else if c =? ch "f" then
          match strip_prefix (lit "alse") t with
          | Some r => Some (JBool false, r)
          | None => None
          end
        else if c =? ch "n" then
          match strip_prefix (lit "ull") t with
          | Some r => Some (JNull, r)
          | None => None
          end
        else
          match parse_number (c :: t) with
          | Some (text, r) => Some (JNumber text, r)
          | None => None
          end
    end
end
with parse_elements (fuel : nat) (s : jsstring) (acc : list JSValue) {struct fuel}
  : option (JSValue * jsstring) :=
match fuel with
| O => None
| S f =>
    match parse_value f s with
    | None => None
    | Some (v, r) =>
        match skip_ws r with
        | [] => None
        | c :: t =>
            if c =? ch "," then parse_elements f t (acc ++ [v])
            else if c =? ch "]" then Some (JArray (acc ++ [v]), t)
            else None
        end
    end
end
with parse_members (fuel : nat) (s : jsstring) (acc : list (jsstring * JSValue))
  {struct fuel} : option (JSValue * jsstring) :=
match fuel with
| O => None
| S f =>
    match s with
    | [] => None
    | c :: t =>
        if negb (c =? dquote) then None
        else
          match parse_string t with
          | None => None
          | Some (k, r) =>
              match skip_ws r with
              | [] => None
              | c2 :: t2 =>
                  if negb (c2 =? ch ":") then None
                  else
                    match parse_value f t2 with
                    | None => None
                    | Some (v, r2) =>
                        match skip_ws r2 with
                        | [] => None
                        | c3 :: t3 =>
                            if c3 =? ch "," then parse_members f (skip_ws t3) (define acc k v)
                            else if c3 =? ch "}" then Some (JObject (define acc k v), t3)
                            else None
                        end
                    end
              end
          end
    end
end.

(** [JSON.parse(text)]: one value with nothing but white space around
    it; anything else is a SyntaxError.  Every nested call consumes a
    character first, so the fuel is never used up. *)
Definition parse (text : jsstring) : Result JSValue :=
match parse_value (S (length text)) text with
| Some (v, r) =>
    match skip_ws r with
    | [] => Ok v
    | _ :: _ => Throw SyntaxError
    end
| None => Throw SyntaxError
end.

(** The own property of an object with the given key. *)
Definition get (v : JSValue) (k : jsstring) : option JSValue :=
match v with
| JObject props =>
    match find (fun p => jsstring_eqb (fst p) k) props with
    | Some p => Some (snd p)
    | None => None
    end
| _ => None
end.

Definition has (v : JSValue) (k : jsstring) : bool :=
match get v k with
| Some _ => true
| None => false
end.

End JSON.

(** A string all of whose elements are code units. *)
Definition valid_string (s : jsstring) : bool := forallb (fun c => (c <? 65536)%N) s.

Definition is_ascii (s : jsstring) : bool := forallb (fun c => (c <? 128)%N) s.

(** A value all of whose strings and keys are strings of code units. *)
Fixpoint valid_value (v : JSValue) : bool :=
match v with
| JNull => true
| JBool _ => true
| JNumber text => is_ascii text
| JString s => valid_string s
| JArray items => forallb valid_value items
| JObject props => forallb (fun p => valid_string (fst p) && valid_value (snd p)) props
end.

(** Induction over a value and the values inside it. *)
Section JSValue_induction.
Variable P : JSValue -> Prop.
Hypothesis Hnull : P JNull.
Hypothesis Hbool : forall b, P (JBool b).
Hypothesis Hnumber : forall text, P (JNumber text).
Hypothesis Hstring : forall s, P (JString s).
Hypothesis Harray : forall items, Forall P items -> P (JArray items).
Hypothesis Hobject : forall props, Forall (fun p => P (snd p)) props -> P (JObject props).

Fixpoint JSValue_ind2 (v : JSValue) : P v :=
match v with
| JNull => Hnull
| JBool b => Hbool b
| JNumber text => Hnumber text
| JString s => Hstring s
| JArray items =>
    Harray items
      ((fix go (l : list JSValue) : Forall P l :=
          match l with
          | [] => Forall_nil P
          | x :: r => Forall_cons x (JSValue_ind2 x) (go r)
          end) items)
| JObject props =>
    Hobject props
      ((fix go (l : list (jsstring * JSValue)) : Forall (fun p => P (snd p)) l :=
          match l with
          | [] => Forall_nil _
          | p :: r => Forall_cons p (JSValue_ind2 (snd p)) (go r)
          end) props)
end.
End JSValue_induction.

(** The promise an async function leaves when its body ends with the
    given result. *)
Definition settle {A : Type} (r : Result A) : Settled A :=
match r with
| Ok a => Fulfilled a
| Throw e => Rejected e
end.


(** A string of an even number of hexadecimal digits. *)
Definition is_hex_string (s : jsstring) : bool :=
Nat.even (length s)
&& forallb (fun c => match Hex.digit_value c with
                     | Some _ => true
                     | None => false
                     end) s.

(** * The client of src/unnamed/part_000 (class PNP) *)

Module PNP.

(** ** class PNPConnection

    The socket itself lives in the [World]; the console output that
    [debugMode] switches on has no effect on any result and is left out. *)
Module PNPConnection.

Record t := { host : jsstring; port : N; debugMode : bool }.

Definition constructor (host : jsstring) (port : N) (debugMode : bool) : t :=
{| host := host; port := port; debugMode := debugMode |}.

(** [send(data)]: [socket.write(data, cb)]; the promise is rejected with
    the error the callback gets, and resolved otherwise. *)
Definition send (this : t) (data : Buffer) : Async unit :=
fun w =>
  let fault := hd None (write_faults w) in
  let w' := {| entropy := entropy w; drawn := drawn w;
               write_faults := tl (write_faults w); incoming := incoming w;
               trace := trace w ++ [EvWrite data] |} in
  match fault with
  | Some msg => (Rejected (SocketError msg), w')
  | None => (Fulfilled tt, w')
  end.

(** [receive()]: resolved with the next chunk the socket delivers
    ([socket.once("data", ...)]), rejected with the error of an error
    event; pending for ever when the socket delivers nothing. *)
Definition receive (this : t) : Async Buffer :=
fun w =>
  let w' := {| entropy := entropy w; drawn := drawn w;
               write_faults := write_faults w; incoming := tl (incoming w);
               trace := trace w ++ [EvReceive] |} in
  match incoming w with
  | OnData data :: _ => (Fulfilled data, w')
  | OnError msg :: _ => (Rejected (SocketError msg), w')
  | [] => (Pending, w')
  end.

Definition setDebugMode (this : t) (mode : bool) : t :=
{| host := host this; port := port this; debugMode := mode |}.

End PNPConnection.

(** ** class PNPEncryption *)
Module PNPEncryption.

Record t := { algorithm : jsstring; key : Buffer }.

Definition constructor (w : World) : t * World :=
let '(key, w') := randomBytes 32 w in
({| algorithm := aes_256_cbc; key := key |}, w').

Definition encrypt (this : t) (data : jsstring) (w : World) : Result Buffer * World :=
let '(iv, w') := randomBytes 16 w in
((cipher <- crypto.createCipheriv (algorithm this) (key this) iv ;;
  let '(encrypted, cipher) := Cipheriv.update cipher data utf8 hex in
  let encrypted := encrypted ++ Cipheriv.final cipher hex in
  Ok (BufferOps.from (BufferOps.toString iv hex ++ lit ":" ++ encrypted) utf8))%result,
 w').

Definition decrypt (this : t) (data : Buffer) : Result jsstring :=
let textParts := split (JSON.ch ":") (BufferOps.toString data utf8) in
let '(first, textParts) := shift textParts in
(iv <- match first with
       | Some part => Ok (BufferOps.from part hex)
       | None => Throw ERR_INVALID_ARG_TYPE
       end ;;
 let encryptedText := BufferOps.from (join (lit ":") textParts) hex in
 decipher <- crypto.createDecipheriv (algorithm this) (key this) iv ;;
 let '(head, decipher) := Decipheriv.update decipher encryptedText in
 tail <- Decipheriv.final decipher ;;
 let decrypted := head ++ tail in
 Ok (BufferOps.toString decrypted utf8))%result.

End PNPEncryption.

(** ** class PNP *)

Record t := { connection : PNPConnection.t; encryption : PNPEncryption.t }.

Definition constructor (host : jsstring) (port : N) (debugMode : bool) (w : World)
  : t * World :=
let connection := PNPConnection.constructor host port debugMode in
let '(encryption, w') := PNPEncryption.constructor w in
({| connection := connection; encryption := encryption |}, w').

Definition sendRequest (this : t) (request : JSValue) : Async JSValue :=
let data := JSON.stringify request in
(encrypted <- sync (PNPEncryption.encrypt (encryption this) data) ;;
 _ <- PNPConnection.send (connection this) encrypted ;;
 responseEncrypted <- PNPConnection.receive (connection this) ;;
 responseData <- pure_sync (PNPEncryption.decrypt (encryption this) responseEncrypted) ;;
 pure_sync (JSON.parse responseData))%async.

Definition setDebugMode (this : t) (mode : bool) : t :=
{| connection := PNPConnection.setDebugMode (connection this) mode;
   encryption := encryption this |}.

End PNP.

(** * The client of src/PapayaClient.ts (class PNPClient) *)

Module PapayaClient.

(** ** class PNPConnection: as above, without the debug flag, and a
    failed write rejects the promise of [send] without a reason. *)
Module PNPConnection.

Record t := { host : jsstring; port : N }.

Definition constructor (host : jsstring) (port : N) : t :=
{| host := host; port := port |}.

Definition send (this : t) (data : Buffer) : Async unit :=
fun w =>
  let fault := hd None (write_faults w) in
  let w' := {| entropy := entropy w; drawn := drawn w;
               write_faults := tl (write_faults w); incoming := incoming w;
               trace := trace w ++ [EvWrite data] |} in
  match fault with
  | Some _ => (Rejected NoReason, w')
  | None => (Fulfilled tt, w')
  end.

Definition receive (this : t) : Async Buffer :=
fun w =>
  let w' := {| entropy := entropy w; drawn := drawn w;
               write_faults := write_faults w; incoming := tl (incoming w);
               trace := trace w ++ [EvReceive] |} in
  match incoming w with
  | OnData data :: _ => (Fulfilled data, w')
  | OnError msg :: _ => (Rejected (SocketError msg), w')
  | [] => (Pending, w')
  end.

End PNPConnection.

(** ** class PNPEncryption: key and IV are given to the constructor. *)
Module PNPEncryption.

Record t := { algorithm : jsstring; key : Buffer; iv : Buffer }.

Definition constructor (key iv : Buffer) : t :=
{| algorithm := aes_256_cbc; key := key; iv := iv |}.

Definition encrypt (this : t) (data : jsstring) : Result jsstring :=
(cipher <- crypto.createCipheriv (algorithm this) (key this) (iv this) ;;
 let '(encrypted, cipher) := Cipheriv.update cipher data utf8 hex in
 let encrypted := encrypted ++ Cipheriv.final cipher hex in
 Ok encrypted)%result.

(** The two pieces [update] and [final] return are decoded by the string
    decoder of the decipher object, which carries an unfinished character
    from the first piece over to the second: together they are the
    decoding of the concatenated octets. *)
Definition decrypt (this : t) (data : Buffer) : Result jsstring :=
(decipher <- crypto.createDecipheriv (algorithm this) (key this) (iv this) ;;
 '(head, decipher) <- Decipheriv.update_string decipher (BufferOps.toString data utf8) hex ;;
 tail <- Decipheriv.final decipher ;;
 let decrypted := BufferOps.toString (head ++ tail) utf8 in
 Ok decrypted)%result.

End PNPEncryption.

(** ** class PNPClient *)

Record t := { connection : PNPConnection.t; encryption : PNPEncryption.t }.

Definition constructor (host : jsstring) (port : N) (key iv : Buffer) : t :=
{| connection := PNPConnection.constructor host port;
   encryption := PNPEncryption.constructor key iv |}.

Definition sendRequest (this : t) (request : JSValue) : Async JSValue :=
let data := JSON.stringify request in
(encrypted <- pure_sync (PNPEncryption.encrypt (encryption this) data) ;;
 _ <- PNPConnection.send (connection this) (BufferOps.from encrypted utf8) ;;
 responseEncrypted <- PNPConnection.receive (connection this) ;;
 responseData <- pure_sync (PNPEncryption.decrypt (encryption this) responseEncrypted) ;;
 pure_sync (JSON.parse responseData))%async.

End PapayaClient.

(** * enum Status (the same in both files) *)

Module Status.

Inductive t :=
(* 1xx Informational Responses *)
| Continue | SwitchingProtocols | Processing | EarlyHints
(* 2xx Success Responses *)
| OK | Created | Accepted | NonAuthoritativeInformation | NoContent
| ResetContent | PartialContent | MultiStatus | AlreadyReported | IMUsed
(* 3xx Redirection Messages *)
| MultipleChoices | MovedPermanently | Found | SeeOther | NotModified
| UseProxy | TemporaryRedirect | PermanentRedirect
(* 4xx Client Errors *)
| BadRequest | Unauthorized | PaymentRequired | Forbidden | NotFound
| MethodNotAllowed | NotAcceptable | ProxyAuthenticationRequired
| RequestTimeout | Conflict | Gone | LengthRequired | PreconditionFailed
| PayloadTooLarge | URITooLong | UnsupportedMediaType | RangeNotSatisfiable
| ExpectationFailed | ImATeapot | MisdirectedRequest | UnprocessableEntity
| Locked | FailedDependency | TooEarly | UpgradeRequired
| PreconditionRequired | TooManyRequests | RequestHeaderFieldsTooLarge
| UnavailableForLegalReasons
(* 5xx Server Errors *)
| InternalServerError | NotImplemented | BadGateway | ServiceUnavailable
| GatewayTimeout | HTTPVersionNotSupported | VariantAlsoNegotiates
| InsufficientStorage | LoopDetected | NotExtended
| NetworkAuthenticationRequired.

(** The number each member is declared with. *)
Definition value (s : t) : Z :=
match s with
| Continue => 100
| SwitchingProtocols => 101
| Processing => 102
| EarlyHints => 103
| OK => 200
| Created => 201
| Accepted => 202
| NonAuthoritativeInformation => 203
| NoContent => 204
| ResetContent => 205
| PartialContent => 206
| MultiStatus => 207
| AlreadyReported => 208
| IMUsed => 226
| MultipleChoices => 300
| MovedPermanently => 301
| Found => 302
| SeeOther => 303
| NotModified => 304
| UseProxy => 305
| TemporaryRedirect => 307
| PermanentRedirect => 308
| BadRequest => 400
| Unauthorized => 401
| PaymentRequired => 402
| Forbidden => 403
| NotFound => 404
| MethodNotAllowed => 405
| NotAcceptable => 406
| ProxyAuthenticationRequired => 407
| RequestTimeout => 408
| Conflict => 409
| Gone => 410
| LengthRequired => 411
| PreconditionFailed => 412
| PayloadTooLarge => 413
| URITooLong => 414
| UnsupportedMediaType => 415
| RangeNotSatisfiable => 416
| ExpectationFailed => 417
| ImATeapot => 418
| MisdirectedRequest => 421
| UnprocessableEntity => 422
| Locked => 423
| FailedDependency => 424
| TooEarly => 425
| UpgradeRequired => 426
| PreconditionRequired => 428
| TooManyRequests => 429
| RequestHeaderFieldsTooLarge => 431
| UnavailableForLegalReasons => 451
| InternalServerError => 500
| NotImplemented => 501
| BadGateway => 502
| ServiceUnavailable => 503
| GatewayTimeout => 504
| HTTPVersionNotSupported => 505
| VariantAlsoNegotiates => 506
| InsufficientStorage => 507
| LoopDetected => 508
| NotExtended => 510
| NetworkAuthenticationRequired => 511
end%Z.

(** The five groups the declaration is laid out in. *)
Inductive Class := Informational | Success | Redirection | ClientError | ServerError.

Definition class (s : t) : Class :=
match s with
| Continue | SwitchingProtocols | Processing | EarlyHints => Informational
| OK | Created | Accepted | NonAuthoritativeInformation | NoContent
| ResetContent | PartialContent | MultiStatus | AlreadyReported | IMUsed => Success
| MultipleChoices | MovedPermanently | Found | SeeOther | NotModified
| UseProxy | TemporaryRedirect | PermanentRedirect => Redirection
| BadRequest | Unauthorized | PaymentRequired | Forbidden | NotFound
| MethodNotAllowed | NotAcceptable | ProxyAuthenticationRequired
| RequestTimeout | Conflict | Gone | LengthRequired | PreconditionFailed
| PayloadTooLarge | URITooLong | UnsupportedMediaType | RangeNotSatisfiable
| ExpectationFailed | ImATeapot | MisdirectedRequest | UnprocessableEntity
| Locked | FailedDependency | TooEarly | UpgradeRequired
| PreconditionRequired | TooManyRequests | RequestHeaderFieldsTooLarge
| UnavailableForLegalReasons => ClientError
| InternalServerError | NotImplemented | BadGateway | ServiceUnavailable
| GatewayTimeout | HTTPVersionNotSupported | VariantAlsoNegotiates
| InsufficientStorage | LoopDetected | NotExtended
| NetworkAuthenticationRequired => ServerError
end.

Definition class_digit (c : Class) : Z :=
match c with
| Informational => 1
| Success => 2
| Redirection => 3
| ClientError => 4
| ServerError => 5
end%Z.

(** Every member, in the order of the declaration. *)
Definition members : list t :=
[Continue; SwitchingProtocols; Processing; EarlyHints;
 OK; Created; Accepted; NonAuthoritativeInformation; NoContent;
 ResetContent; PartialContent; MultiStatus; AlreadyReported; IMUsed;
 MultipleChoices; MovedPermanently; Found; SeeOther; NotModified;
 UseProxy; TemporaryRedirect; PermanentRedirect;
 BadRequest; Unauthorized; PaymentRequired; Forbidden; NotFound;
 MethodNotAllowed; NotAcceptable; ProxyAuthenticationRequired;
 RequestTimeout; Conflict; Gone; LengthRequired; PreconditionFailed;
 PayloadTooLarge; URITooLong; UnsupportedMediaType; RangeNotSatisfiable;
 ExpectationFailed; ImATeapot; MisdirectedRequest; UnprocessableEntity;
 Locked; FailedDependency; TooEarly; UpgradeRequired;
 PreconditionRequired; TooManyRequests; RequestHeaderFieldsTooLarge;
 UnavailableForLegalReasons;
 InternalServerError; NotImplemented; BadGateway; ServiceUnavailable;
 GatewayTimeout; HTTPVersionNotSupported; VariantAlsoNegotiates;
 InsufficientStorage; LoopDetected; NotExtended;
 NetworkAuthenticationRequired].

End Status.

(** * Codecs that can encrypt, and the wire text *)

(** A codec as the constructor of part_000 makes it: the algorithm of
    the source and a key of 32 octets. *)
Definition well_keyed (this : PNP.PNPEncryption.t) : Prop :=
PNP.PNPEncryption.algorithm this = aes_256_cbc /\
length (PNP.PNPEncryption.key this) = 32.

(** A codec of src/PapayaClient.ts whose constructor was given a key of
    32 and an IV of 16 octets. *)
Definition well_keyed_old (this : PapayaClient.PNPEncryption.t) : Prop :=
PapayaClient.PNPEncryption.algorithm this = aes_256_cbc /\
length (PapayaClient.PNPEncryption.key this) = 32 /\
length (PapayaClient.PNPEncryption.iv this) = 16.

(** The wire text of an IV and a ciphertext: hex(IV) ":" hex(ciphertext). *)
Definition wire (iv ct : Buffer) : jsstring :=
Hex.encode iv ++ lit ":" ++ Hex.encode ct.

(** * Sample values *)

(** A world whose random generator yields 3, 10, 17, ... *)
Definition sample_world : World :=
{| entropy := fun n => byte_of_N (N.of_nat (7 * n + 3)); drawn := 0;
   write_faults := []; incoming := []; trace := [] |}.

(** A world whose random generator yields the same octet for ever. *)
Definition stuck_world : World :=
{| entropy := fun _ => x00; drawn := 0;
   write_faults := []; incoming := []; trace := [] |}.

(** The payload or text of a result, empty when there is none. *)
Definition value_or_nil {A : Type} (r : Result (list A)) : list A :=
match r with
| Ok a => a
| Throw _ => []
end.

(** A request with its fields in the order of the interface. *)
Definition request_of (method path : jsstring) (headers : list (jsstring * JSValue))
  (body : jsstring) : JSValue :=
JObject [(lit "method", JString method); (lit "path", JString path);
         (lit "headers", JObject headers); (lit "body", JString body)].


(** ** interface PNPRequest *)





(** * The event loop: the socket as an event emitter, promises, the console *)

(** The decimal digits of a number, as a template literal prints the
    lengths and port numbers met here. *)
Definition decimal (n : N) : jsstring := lit (NilEmpty.string_of_uint (N.to_uint n)).

(** The list with its element at index [i], if there is one, replaced. *)
Fixpoint replace_nth {A : Type} (i : nat) (x : A) (l : list A) : list A :=
match l, i with
| [], _ => []
| _ :: r, O => x :: r
| y :: r, S j => y :: replace_nth j x r
end.

Module Loop.

(** The events of the socket that the sources listen to. *)
Inductive EventName := ev_connect | ev_data | ev_error.

Definition EventName_eqb (a b : EventName) : bool :=
match a, b with
| ev_connect, ev_connect => true
| ev_data, ev_data => true
| ev_error, ev_error => true
| _, _ => false
end.

(** What a listener or a callback is called with: nothing, the chunk of
    a data event, or an [Error] with a message. *)
Inductive Arg :=
| no_argument
| chunk (data : Buffer)
| failure (message : jsstring).

(** The values promises are resolved with. *)
Inductive Value :=
| undefined
| buffer (data : Buffer)
| json (v : JSValue).

Inductive ConsoleLine :=
| console_log (text : jsstring)
| console_error (text : jsstring).

(** The calls made on the socket. *)
Inductive SocketCall :=
| call_connect (port : N) (host : jsstring)
| call_write (data : Buffer)
| call_end.

(** What the outside does: the socket emits an event; or the callback of
    the oldest write that is not finished yet is called, without or with
    an error; or that write fails and takes the socket with it ([broken]):
    its callback is called with the error and the socket, which is
    destroyed with that error, emits it as an error event in the same
    turn, before any microtask runs.  [write_failed] is the failure that
    is followed by no event, as that of a write to a socket that was
    destroyed before. *)
Inductive Happening :=
| connected
| received (data : Buffer)
| errored (message : jsstring)
| written
| write_failed (message : jsstring)
| broken (message : jsstring).

(** The happenings that bring an error event. *)
Definition brings_error (h : Happening) : bool :=
match h with
| errored _ => true
| broken _ => true
| _ => false
end.

Section Loop.

(** The object the methods run on, and the function values of the
    program: those given to the socket as listeners and callbacks, and
    the remainders of async functions behind an [await]. *)
Variables (Object Callback Continuation : Type).

Record Listener := { event : EventName; one_time : bool; callback : Callback }.

(** The fields of the object; the system's random generator; the
    listeners of the socket in the order they were added; the callbacks
    of the writes that are not finished, oldest first; the promises made so
    far; the functions waiting for a promise; the microtask queue; the
    lines printed; the calls made on the socket; the exception that
    ended the process, if one did. *)
Record State := {
  this : Object;
  os : World;
  listeners : list Listener;
  writes : list Callback;
  promises : list (Settled Value);
  reactions : list (nat * Continuation);
  microtasks : list (Continuation * Settled Value);
  console : list ConsoleLine;
  socket : list SocketCall;
  uncaught : option Error
}.

Definition set_this (x : Object) (st : State) : State :=
{| this := x; os := os st; listeners := listeners st; writes := writes st;
   promises := promises st; reactions := reactions st; microtasks := microtasks st;
   console := console st; socket := socket st; uncaught := uncaught st |}.

Definition set_os (x : World) (st : State) : State :=
{| this := this st; os := x; listeners := listeners st; writes := writes st;
   promises := promises st; reactions := reactions st; microtasks := microtasks st;
   console := console st; socket := socket st; uncaught := uncaught st |}.

Definition set_listeners (x : list Listener) (st : State) : State :=
{| this := this st; os := os st; listeners := x; writes := writes st;
   promises := promises st; reactions := reactions st; microtasks := microtasks st;
   console := console st; socket := socket st; uncaught := uncaught st |}.

Definition set_writes (x : list Callback) (st : State) : State :=
{| this := this st; os := os st; listeners := listeners st; writes := x;
   promises := promises st; reactions := reactions st; microtasks := microtasks st;
   console := console st; socket := socket st; uncaught := uncaught st |}.

Definition set_promises (x : list (Settled Value)) (st : State) : State :=
{| this := this st; os := os st; listeners := listeners st; writes := writes st;
   promises := x; reactions := reactions st; microtasks := microtasks st;
   console := console st; socket := socket st; uncaught := uncaught st |}.

Definition set_reactions (x : list (nat * Continuation)) (st : State) : State :=
{| this := this st; os := os st; listeners := listeners st; writes := writes st;
   promises := promises st; reactions := x; microtasks := microtasks st;
   console := console st; socket := socket st; uncaught := uncaught st |}.

Definition set_microtasks (x : list (Continuation * Settled Value)) (st : State) : State :=
{| this := this st; os := os st; listeners := listeners st; writes := writes st;
   promises := promises st; reactions := reactions st; microtasks := x;
   console := console st; socket := socket st; uncaught := uncaught st |}.

Definition set_console (x : list ConsoleLine) (st : State) : State :=
{| this := this st; os := os st; listeners := listeners st; writes := writes st;
   promises := promises st; reactions := reactions st; microtasks := microtasks st;
   console := x; socket := socket st; uncaught := uncaught st |}.

Definition set_socket (x : list SocketCall) (st : State) : State :=
{| this := this st; os := os st; listeners := listeners st; writes := writes st;
   promises := promises st; reactions := reactions st; microtasks := microtasks st;
   console := console st; socket := x; uncaught := uncaught st |}.

Definition set_uncaught (x : option Error) (st : State) : State :=
{| this := this st; os := os st; listeners := listeners st; writes := writes st;
   promises := promises st; reactions := reactions st; microtasks := microtasks st;
   console := console st; socket := socket st; uncaught := x |}.

(** A process that has just started: nothing was done to the socket, no
    promise was made, nothing was printed. *)
Definition start (x : Object) (w : World) : State :=
{| this := x; os := w; listeners := []; writes := []; promises := [];
   reactions := []; microtasks := []; console := []; socket := [];
   uncaught := None |}.

(** ** The console *)

Definition log (text : jsstring) (st : State) : State :=
set_console (console st ++ [console_log text]) st.

Definition error (text : jsstring) (st : State) : State :=
set_console (console st ++ [console_error text]) st.

(** ** Promises *)

(** [new Promise(...)]: the promise is known by its number. *)
Definition new_promise (st : State) : nat * State :=
(length (promises st), set_promises (promises st ++ [Pending]) st).

Definition state_of (p : nat) (st : State) : Settled Value :=
nth p (promises st) Pending.

(** [resolve] and [reject] act on a pending promise only; the functions
    that wait for it are queued as microtasks, in the order they began
    to wait. *)
Definition settle_promise (p : nat) (r : Settled Value) (st : State) : State :=
match nth_error (promises st) p with
| Some Pending =>
    let waiting := filter (fun x => fst x =? p) (reactions st) in
    let others := filter (fun x => negb (fst x =? p)) (reactions st) in
    set_microtasks (microtasks st ++ map (fun x => (snd x, r)) waiting)
      (set_reactions others (set_promises (replace_nth p r (promises st)) st))
| _ => st
end.

Definition resolve (p : nat) (v : Value) : State -> State := settle_promise p (Fulfilled v).

Definition reject (p : nat) (e : Error) : State -> State := settle_promise p (Rejected e).

(** [await p] inside an async function: the rest of the function waits
    for the promise, or is queued at once when the promise is settled. *)
Definition await (p : nat) (k : Continuation) (st : State) : State :=
match state_of p st with
| Pending => set_reactions (reactions st ++ [(p, k)]) st
| r => set_microtasks (microtasks st ++ [(k, r)]) st
end.

(** ** The socket *)

(** [socket.on(name, f)] and [socket.once(name, f)]. *)
Definition on (name : EventName) (f : Callback) (st : State) : State :=
set_listeners (listeners st ++ [{| event := name; one_time := false; callback := f |}]) st.

Definition once (name : EventName) (f : Callback) (st : State) : State :=
set_listeners (listeners st ++ [{| event := name; one_time := true; callback := f |}]) st.

(** A port the socket accepts: a whole number from 0 to 65535.  (Of the
    numbers of TypeScript the model has the whole numbers from 0 on.) *)
Definition valid_port (port : N) : bool := (port <? 65536)%N.

(** [socket.connect(port, host, f)]: [f] becomes a one-time listener of
    the connect event; after that the port is checked, and a port that
    is out of range is thrown (a RangeError) before anything is done to
    reach the host.  The calls that threw are not in the list of calls. *)
Definition socket_connect (port : N) (host : jsstring) (f : Callback) (st : State)
  : Result unit * State :=
let st := once ev_connect f st in
if valid_port port
then (Ok tt, set_socket (socket st ++ [call_connect port host]) st)
else (Throw ERR_SOCKET_BAD_PORT, st).

(** [socket.write(data, f)]. *)
Definition socket_write (data : Buffer) (f : Callback) (st : State) : State :=
set_writes (writes st ++ [f]) (set_socket (socket st ++ [call_write data]) st).

(** [socket.end()]. *)
Definition socket_end (st : State) : State :=
set_socket (socket st ++ [call_end]) st.

Definition listens (name : EventName) (l : Listener) : bool :=
EventName_eqb (event l) name.

(** The number of listeners the socket has for an event. *)
Definition listenerCount (name : EventName) (st : State) : nat :=
length (filter (listens name) (listeners st)).

(** ** Notions for the statements about the loop *)

(** From one state to a later one, as far as the program is concerned:
    a promise that was settled is as it was, and a listener that was
    added with [on] is still there. *)
Definition keeps (st st' : State) : Prop :=
(forall p r, nth_error (promises st) p = Some r -> r <> Pending ->
             nth_error (promises st') p = Some r) /\
(forall l, In l (listeners st) -> one_time l = false -> In l (listeners st')).

(** The same, and the process has not ended in between. *)
Definition grows (st st' : State) : Prop :=
keeps st st' /\ uncaught st' = uncaught st.

(** The socket has a listener for errors that stays. *)
Definition has_error_listener (st : State) : Prop :=
exists l, In l (listeners st) /\ event l = ev_error /\ one_time l = false.

(** ** Running the program's functions *)

(** What a callback does when it is called, and what the rest of an
    async function does with the outcome of the promise it waited for;
    and an upper bound of the number of microtasks a continuation leads
    to, itself included. *)
Variable invoke : Callback -> Arg -> State -> State.
Variable resume : Continuation -> Settled Value -> State -> State.
Variable cost : Continuation -> nat.

(** [socket.emit(name, a)]: the listeners of the event are called in the
    order they were added, the one-time listeners among them being
    removed first. *)
Definition emit (name : EventName) (a : Arg) (st : State) : State :=
let called := filter (listens name) (listeners st) in
let kept := filter (fun l => negb (listens name l && one_time l)) (listeners st) in
fold_left (fun s l => invoke (callback l) a s) called (set_listeners kept st).

(** The callback of the oldest unfinished write is called. *)
Definition complete_write (a : Arg) (st : State) : State :=
match writes st with
| [] => st
| f :: rest => invoke f a (set_writes rest st)
end.

Definition queue_cost (q : list (Continuation * Settled Value)) : nat :=
list_sum (map (fun j => cost (fst j)) q).

Definition waiting_cost (l : list (nat * Continuation)) : nat :=
list_sum (map (fun x => cost (snd x)) l).

(** The microtasks are run, first in first out, until none is left. *)
Fixpoint drain_fuel (fuel : nat) (st : State) : State :=
match fuel with
| O => st
| S f =>
    match microtasks st with
    | [] => st
    | (k, r) :: rest => drain_fuel f (resume k r (set_microtasks rest st))
    end
end.

Definition drain (st : State) : State :=
drain_fuel (queue_cost (microtasks st) + waiting_cost (reactions st)) st.

(** The socket emits an error: an error event that no listener waits
    for is thrown, which ends the process. *)
Definition emit_error (message : jsstring) (st : State) : State :=
match filter (listens ev_error) (listeners st) with
| [] => set_uncaught (Some (SocketError message)) st
| _ :: _ => emit ev_error (failure message) st
end.

(** What a happening makes the program run. *)
Definition turn (h : Happening) (st : State) : State :=
match h with
| connected => emit ev_connect no_argument st
| received data => emit ev_data (chunk data) st
| errored message => emit_error message st
| written => complete_write no_argument st
| write_failed message => complete_write (failure message) st
| broken message =>
    match writes st with
    | [] => st
    | _ :: _ => emit_error message (complete_write (failure message) st)
    end
end.

(** The end of a turn: the microtasks are run, unless the process has
    ended in the turn. *)
Definition finish (st : State) : State :=
match uncaught st with
| Some _ => st
| None => drain st
end.

(** One turn of the event loop.  The microtask queue is run empty before
    the turn and after it; nothing runs in a process that has ended, so
    that the microtasks which were queued in the turn of an uncaught
    error are never run. *)
Definition happen (h : Happening) (st : State) : State :=
match uncaught st with
| Some _ => st
| None => finish (turn h (drain st))
end.

End Loop.

Arguments this {Object Callback Continuation} _.
Arguments os {Object Callback Continuation} _.
Arguments listeners {Object Callback Continuation} _.
Arguments writes {Object Callback Continuation} _.
Arguments promises {Object Callback Continuation} _.
Arguments reactions {Object Callback Continuation} _.
Arguments microtasks {Object Callback Continuation} _.
Arguments console {Object Callback Continuation} _.
Arguments socket {Object Callback Continuation} _.
Arguments uncaught {Object Callback Continuation} _.
Arguments event {Callback} _.
Arguments one_time {Callback} _.
Arguments callback {Callback} _.
Arguments set_this {Object Callback Continuation} _ _.
Arguments set_os {Object Callback Continuation} _ _.
Arguments set_listeners {Object Callback Continuation} _ _.
Arguments set_writes {Object Callback Continuation} _ _.
Arguments set_promises {Object Callback Continuation} _ _.
Arguments set_reactions {Object Callback Continuation} _ _.
Arguments set_microtasks {Object Callback Continuation} _ _.
Arguments set_console {Object Callback Continuation} _ _.
Arguments set_socket {Object Callback Continuation} _ _.
Arguments set_uncaught {Object Callback Continuation} _ _.
Arguments start {Object} Callback Continuation _ _.
Arguments log {Object Callback Continuation} _ _.
Arguments error {Object Callback Continuation} _ _.
Arguments new_promise {Object Callback Continuation} _.
Arguments state_of {Object Callback Continuation} _ _.
Arguments settle_promise {Object Callback Continuation} _ _ _.
Arguments resolve {Object Callback Continuation} _ _ _.
Arguments reject {Object Callback Continuation} _ _ _.
Arguments await {Object Callback Continuation} _ _ _.
Arguments on {Object Callback Continuation} _ _ _.
Arguments once {Object Callback Continuation} _ _ _.
Arguments socket_connect {Object Callback Continuation} _ _ _ _.
Arguments socket_write {Object Callback Continuation} _ _ _.
Arguments socket_end {Object Callback Continuation} _.
Arguments listens {Callback} _ _.
Arguments listenerCount {Object Callback Continuation} _ _.
Arguments emit {Object Callback Continuation} _ _ _ _.
Arguments complete_write {Object Callback Continuation} _ _ _.
Arguments queue_cost {Continuation} _ _.
Arguments waiting_cost {Continuation} _ _.
Arguments drain_fuel {Object Callback Continuation} _ _ _.
Arguments drain {Object Callback Continuation} _ _ _.
Arguments emit_error {Object Callback Continuation} _ _ _.
Arguments turn {Object Callback Continuation} _ _ _.
Arguments finish {Object Callback Continuation} _ _ _.
Arguments happen {Object Callback Continuation} _ _ _ _ _.
Arguments keeps {Object Callback Continuation} _ _.
Arguments grows {Object Callback Continuation} _ _.
Arguments has_error_listener {Object Callback Continuation} _.

(** The promise of an async function that returns a parsed document, as
    a promise of the event loop. *)
Definition answer (r : Settled JSValue) : Settled Value :=
match r with
| Fulfilled v => Fulfilled (json v)
| Rejected e => Rejected e
| Pending => Pending
end.

(** What happens to one request when the outside behaves as a [World]
    says: the write fails, and the socket emits the error; or the write
    is done and the socket emits what comes in next, if anything does. *)
Definition happenings_of (w : World) : list Happening :=
match hd None (write_faults w) with
| Some message => [broken message]
| None =>
    written
    :: match incoming w with
       | OnData data :: _ => [received data]
       | OnError message :: _ => [errored message]
       | [] => []
       end
end.


End Loop.

(** * The client of src/unnamed/part_000 in the event loop

    The methods of the classes PNPConnection and PNP as they act on the
    socket, the promises and the console.  The arrow functions of the
    source are the constructors of [Callback], with the promise whose
    [resolve] and [reject] they hold; the parts of the async functions
    behind an [await] are the constructors of [Continuation], with the
    promise the async function returned. *)

Module PNPLoop.
Import Loop.

Inductive Callback :=
| connect_listener (promise : nat)
| connect_on_error (promise : nat)
| write_callback (data : Buffer) (promise : nat)
| data_listener (promise : nat)
| receive_on_error (promise : nat).

Inductive Continuation :=
| connect_awaited (outer : nat)
| send_awaited (outer : nat)
| receive_awaited (outer : nat).

Definition State : Type := Loop.State PNP.t Callback Continuation.

(** [if (this.debugMode) console.log(text)]. *)
Definition debug (text : jsstring) (st : State) : State :=
if PNP.PNPConnection.debugMode (PNP.connection (this st)) then log text st else st.

(** ** class PNPConnection *)
Module PNPConnection.

Definition connect (st : State) : nat * State :=
let c := PNP.connection (this st) in
let '(p, st) := new_promise st in
match socket_connect (PNP.PNPConnection.port c) (PNP.PNPConnection.host c)
        (connect_listener p) st with
| (Throw e, st) => (p, reject p e st)
| (Ok _, st) => (p, on ev_error (connect_on_error p) st)
end.

Definition send (data : Buffer) (st : State) : nat * State :=
let '(p, st) := new_promise st in
(p, socket_write data (write_callback data p) st).

Definition receive (st : State) : nat * State :=
let '(p, st) := new_promise st in
let st := once ev_data (data_listener p) st in
let st := on ev_error (receive_on_error p) st in
(p, st).

Definition close (st : State) : State :=
debug (lit "Connection closed") (socket_end st).

Definition setDebugMode (mode : bool) (st : State) : State :=
set_this {| PNP.connection := PNP.PNPConnection.setDebugMode (PNP.connection (this st)) mode;
            PNP.encryption := PNP.encryption (this st) |} st.

End PNPConnection.

(** The bodies of the arrow functions. *)
Definition invoke (f : Callback) (a : Arg) (st : State) : State :=
let host := PNP.PNPConnection.host (PNP.connection (this st)) in
let port := PNP.PNPConnection.port (PNP.connection (this st)) in
match f with
| connect_listener p =>
    resolve p undefined
      (debug (lit "Connected to " ++ host ++ lit ":" ++ decimal port) st)
| connect_on_error p =>
    match a with
    | failure message =>
        reject p (SocketError message) (debug (lit "Error: " ++ message) st)
    | _ => st
    end
| write_callback data p =>
    match a with
    | failure message =>
        reject p (SocketError message) (debug (lit "Error: " ++ message) st)
    | _ =>
        resolve p undefined
          (debug (lit "Sent data to " ++ host ++ lit ":" ++ decimal port
                  ++ lit " (length: " ++ decimal (N.of_nat (length data)) ++ lit ")") st)
    end
| data_listener p =>
    match a with
    | chunk data =>
        resolve p (buffer data)
          (debug (lit "Got data from " ++ host ++ lit ":" ++ decimal port
                  ++ lit " (length: " ++ decimal (N.of_nat (length data)) ++ lit ")") st)
    | _ => st
    end
| receive_on_error p =>
    match a with
    | failure message =>
        reject p (SocketError message) (debug (lit "Error: " ++ message) st)
    | _ => st
    end
end.

(** ** class PNP *)

Definition constructor (host : jsstring) (port : N) (debugMode : bool) (w : World) : State :=
let '(this, w') := PNP.constructor host port debugMode w in
start Callback Continuation this w'.

Definition connect (st : State) : nat * State :=
let '(outer, st) := new_promise st in
let '(p, st) := PNPConnection.connect st in
(outer, await p (connect_awaited outer) st).

Definition sendRequest (request : JSValue) (st : State) : nat * State :=
let '(outer, st) := new_promise st in
let data := JSON.stringify request in
let '(encrypted, w) := PNP.PNPEncryption.encrypt (PNP.encryption (this st)) data (os st) in
let st := set_os w st in
match encrypted with
| Throw e => (outer, reject outer e st)
| Ok encrypted =>
    let '(p, st) := PNPConnection.send encrypted st in
    (outer, await p (send_awaited outer) st)
end.

Definition close (st : State) : State := PNPConnection.close st.

Definition setDebugMode (mode : bool) (st : State) : State :=
PNPConnection.setDebugMode mode st.

(** The async functions behind their awaits: a rejected promise is
    thrown at the [await], which rejects the promise of the function. *)
Definition resume (k : Continuation) (r : Settled Value) (st : State) : State :=
match k, r with
| _, Pending => st
| connect_awaited outer, Fulfilled _ => resolve outer undefined st
| connect_awaited outer, Rejected e => reject outer e st
| send_awaited outer, Fulfilled _ =>
    let '(p, st) := PNPConnection.receive st in
    await p (receive_awaited outer) st
| send_awaited outer, Rejected e => reject outer e st
| receive_awaited outer, Fulfilled (buffer responseEncrypted) =>
    match PNP.PNPEncryption.decrypt (PNP.encryption (this st)) responseEncrypted with
    | Throw e => reject outer e st
    | Ok responseData =>
        match JSON.parse responseData with
        | Throw e => reject outer e st
        | Ok response => resolve outer (json response) st
        end
    end
| receive_awaited outer, Fulfilled _ => st
| receive_awaited outer, Rejected e => reject outer e st
end.

Definition cost (k : Continuation) : nat :=
match k with
| connect_awaited _ => 1
| send_awaited _ => 2
| receive_awaited _ => 1
end.

(** ** What a program and the outside do, one after the other *)

Inductive Action :=
| do_connect
| do_sendRequest (request : JSValue)
| do_close
| do_setDebugMode (mode : bool)
| do_connection_connect
| do_connection_send (data : Buffer)
| do_connection_receive
| outside (h : Happening).

Definition act (a : Action) (st : State) : State :=
match uncaught st with
| Some _ => st
| None =>
    match a with
    | do_connect => snd (connect st)
    | do_sendRequest request => snd (sendRequest request st)
    | do_close => close st
    | do_setDebugMode mode => setDebugMode mode st
    | do_connection_connect => snd (PNPConnection.connect st)
    | do_connection_send data => snd (PNPConnection.send data st)
    | do_connection_receive => snd (PNPConnection.receive st)
    | outside h => happen invoke resume cost h st
    end
end.

Definition run (actions : list Action) (st : State) : State :=
fold_left (fun s a => act a s) actions st.

(** ** Notions for the statements about the loop *)

(** A state without what the debug flag governs: the flag itself is
    put to false and the console is emptied. *)
Definition silent (st : State) : State :=
set_console [] (PNPConnection.setDebugMode false st).

(** A function that goes on in the same way whatever the flag and the
    console were. *)
Definition blind (f : State -> State) : Prop :=
forall st, silent (f st) = silent (f (silent st)).

(** The promise an arrow function settles. *)
Definition promise_of (f : Callback) : nat :=
match f with
| connect_listener p => p
| connect_on_error p => p
| write_callback _ p => p
| data_listener p => p
| receive_on_error p => p
end.

(** What [if (this.debugMode) console.log(text)] prints. *)
Definition printed (this : PNP.t) (text : jsstring) : list ConsoleLine :=
if PNP.PNPConnection.debugMode (PNP.connection this) then [console_log text] else [].

(** A state in which no call is under way: no write is unfinished, no
    function waits for a promise, the process is alive. *)
Definition quiet (st : State) : Prop :=
writes st = [] /\ reactions st = [] /\ microtasks st = [] /\ uncaught st = None.

(** The listeners of the socket belong to promises that were made. *)
Definition tidy (st : State) : Prop :=
Forall (fun l => promise_of (callback l) < length (promises st)) (listeners st).

(** One request after the other, each followed by the end of its write
    and by the chunk that is its response. *)
Definition exchanges (l : list (JSValue * Buffer)) : list Action :=
flat_map (fun x => [do_sendRequest (fst x); outside written; outside (received (snd x))]) l.

(** The calls and happenings that bring neither data nor an error. *)
Definition no_data_no_error (a : Action) : bool :=
match a with
| do_close => true
| do_setDebugMode _ => true
| outside connected => true
| outside written => true
| outside (write_failed _) => true
| _ => false
end.

(** The state of a client whose request, the promise number [n], was
    written and that waits in [receive] for the response: the listeners
    of that [receive] are the last two of the socket, the function waits
    for its promise, and nothing else is under way. *)
Definition waits_for_response (n : nat) (w : World) (s : State) : Prop :=
exists t L P C K,
  length P = n /\ Forall (fun l => promise_of (callback l) < n) L /\
  s = {| this := t; os := w;
         listeners :=
           L ++ [ {| event := ev_data; one_time := true; callback := data_listener (n + 2) |};
                  {| event := ev_error; one_time := false;
                     callback := receive_on_error (n + 2) |} ];
         writes := [];
         promises := P ++ [Pending; Fulfilled undefined; Pending];
         reactions := [(n + 2, receive_awaited n)];
         microtasks := []; console := C; socket := K; uncaught := None |}.

(** A client that was just made, in a world whose socket will deliver
    the given events. *)
Definition sample_client (incoming : list SocketEvent) : State :=
constructor (lit "localhost") 947 true
  {| entropy := entropy sample_world; drawn := 0; write_faults := [];
     incoming := incoming; trace := [] |}.

(** A client that was just made, in a world in which the first write
    fails with the given message. *)
Definition failing_client (message : jsstring) : State :=
constructor (lit "localhost") 947 true
  {| entropy := entropy sample_world; drawn := 0; write_faults := [Some message];
     incoming := []; trace := [] |}.

End PNPLoop.

(** * The client of src/PapayaClient.ts in the event loop

    As for part_000.  This file has no debug flag: it prints every time,
    some lines with [console.error]; the error listener of [connect] and
    the callback of [send] reject without a reason. *)

Module PNPClientLoop.
Import Loop.

Inductive Callback :=
| connect_listener (promise : nat)
| connect_on_error (promise : nat)
| write_callback (promise : nat)
| data_listener (promise : nat)
| receive_on_error (promise : nat).

Inductive Continuation :=
| connect_awaited (outer : nat)
| send_awaited (outer : nat)
| receive_awaited (outer : nat).

Definition State : Type := Loop.State PapayaClient.t Callback Continuation.

(** ** class PNPConnection *)
Module PNPConnection.

Definition connect (st : State) : nat * State :=
let c := PapayaClient.connection (this st) in
let '(p, st) := new_promise st in
match socket_connect (PapayaClient.PNPConnection.port c) (PapayaClient.PNPConnection.host c)
        (connect_listener p) st with
| (Throw e, st) => (p, reject p e st)
| (Ok _, st) => (p, on ev_error (connect_on_error p) st)
end.

Definition send (data : Buffer) (st : State) : nat * State :=
let '(p, st) := new_promise st in
(p, socket_write data (write_callback p) st).

Definition receive (st : State) : nat * State :=
let '(p, st) := new_promise st in
let st := once ev_data (data_listener p) st in
let st := on ev_error (receive_on_error p) st in
(p, st).

Definition close (st : State) : State :=
log (lit "Connection closed") (socket_end st).

End PNPConnection.

(** The bodies of the arrow functions. *)
Definition invoke (f : Callback) (a : Arg) (st : State) : State :=
let host := PapayaClient.PNPConnection.host (PapayaClient.connection (this st)) in
let port := PapayaClient.PNPConnection.port (PapayaClient.connection (this st)) in
match f with
| connect_listener p =>
    resolve p undefined (log (lit "Connected to " ++ host ++ lit ":" ++ decimal port) st)
| connect_on_error p =>
    match a with
    | failure message => reject p NoReason (error (lit "Caught an error " ++ message) st)
    | _ => st
    end
| write_callback p =>
    match a with
    | failure message =>
        reject p NoReason
          (error (lit "Caught an error when trying to send a request: " ++ message) st)
    | _ => resolve p undefined st
    end
| data_listener p =>
    match a with
    | chunk data =>
        resolve p (buffer data)
          (log (lit "Got a response with length: " ++ decimal (N.of_nat (length data))) st)
    | _ => st
    end
| receive_on_error p =>
    match a with
    | failure message =>
        reject p (SocketError message)
          (log (lit "Caught an error when getting a response: " ++ message) st)
    | _ => st
    end
end.

(** ** class PNPClient *)

Definition constructor (host : jsstring) (port : N) (key iv : Buffer) (w : World) : State :=
start Callback Continuation (PapayaClient.constructor host port key iv) w.

Definition connect (st : State) : nat * State :=
let '(outer, st) := new_promise st in
let '(p, st) := PNPConnection.connect st in
(outer, await p (connect_awaited outer) st).

Definition sendRequest (request : JSValue) (st : State) : nat * State :=
let '(outer, st) := new_promise st in
let data := JSON.stringify request in
match PapayaClient.PNPEncryption.encrypt (PapayaClient.encryption (this st)) data with
| Throw e => (outer, reject outer e st)
| Ok encrypted =>
    let '(p, st) := PNPConnection.send (BufferOps.from encrypted utf8) st in
    (outer, await p (send_awaited outer) st)
end.

Definition close (st : State) : State := PNPConnection.close st.

Definition resume (k : Continuation) (r : Settled Value) (st : State) : State :=
match k, r with
| _, Pending => st
| connect_awaited outer, Fulfilled _ => resolve outer undefined st
| connect_awaited outer, Rejected e => reject outer e st
| send_awaited outer, Fulfilled _ =>
    let '(p, st) := PNPConnection.receive st in
    await p (receive_awaited outer) st
| send_awaited outer, Rejected e => reject outer e st
| receive_awaited outer, Fulfilled (buffer responseEncrypted) =>
    match PapayaClient.PNPEncryption.decrypt (PapayaClient.encryption (this st))
            responseEncrypted with
    | Throw e => reject outer e st
    | Ok responseData =>
        match JSON.parse responseData with
        | Throw e => reject outer e st
        | Ok response => resolve outer (json response) st
        end
    end
| receive_awaited outer, Fulfilled _ => st
| receive_awaited outer, Rejected e => reject outer e st
end.

Definition cost (k : Continuation) : nat :=
match k with
| connect_awaited _ => 1
| send_awaited _ => 2
| receive_awaited _ => 1
end.

Inductive Action :=
| do_connect
| do_sendRequest (request : JSValue)
| do_close
| do_connection_connect
| do_connection_send (data : Buffer)
| do_connection_receive
| outside (h : Happening).

Definition act (a : Action) (st : State) : State :=
match uncaught st with
| Some _ => st
| None =>
    match a with
    | do_connect => snd (connect st)
    | do_sendRequest request => snd (sendRequest request st)
    | do_close => close st
    | do_connection_connect => snd (PNPConnection.connect st)
    | do_connection_send data => snd (PNPConnection.send data st)
    | do_connection_receive => snd (PNPConnection.receive st)
    | outside h => happen invoke resume cost h st
    end
end.

Definition run (actions : list Action) (st : State) : State :=
fold_left (fun s a => act a s) actions st.

(** ** Notions for the statements about the loop *)

(** The promise an arrow function settles. *)
Definition promise_of (f : Callback) : nat :=
match f with
| connect_listener p => p
| connect_on_error p => p
| write_callback p => p
| data_listener p => p
| receive_on_error p => p
end.

(** A state in which no call is under way: no write is unfinished, no
    function waits for a promise, the process is alive. *)
Definition quiet (st : State) : Prop :=
writes st = [] /\ reactions st = [] /\ microtasks st = [] /\ uncaught st = None.

(** The listeners of the socket belong to promises that were made. *)
Definition tidy (st : State) : Prop :=
Forall (fun l => promise_of (callback l) < length (promises st)) (listeners st).

(** One request after the other, each followed by the end of its write
    and by the chunk that is its response. *)
Definition exchanges (l : list (JSValue * Buffer)) : list Action :=
flat_map (fun x => [do_sendRequest (fst x); outside written; outside (received (snd x))]) l.

(** A client that was just made, with a key of 32 and an IV of 16
    octets, in a world whose socket will deliver the given events. *)
Definition sample_client (incoming : list SocketEvent) : State :=
constructor (lit "localhost") 947 (repeat x00 32) (repeat x01 16)
  {| entropy := entropy sample_world; drawn := 0; write_faults := [];
     incoming := incoming; trace := [] |}.

(** A client that was just made, with a key of 32 and an IV of 16
    octets, in a world in which the first write fails with the given
    message. *)
Definition failing_client (message : jsstring) : State :=
constructor (lit "localhost") 947 (repeat x00 32) (repeat x01 16)
  {| entropy := entropy sample_world; drawn := 0; write_faults := [Some message];
     incoming := []; trace := [] |}.

End PNPClientLoop.

(** * Buffers as objects: who can change the octets of a key

    A Buffer is an object, and whoever holds a reference to it can
    change its octets ([buf[i] = x]).  The codec of part_000 keeps its
    key in a Buffer that its constructor makes; the codec of
    src/PapayaClient.ts keeps the Buffers that its caller hands to the
    constructor.  Here the codecs hold references, and the methods read
    the octets a Buffer holds at the time of the call. *)

Module Memory.

(** A reference to a Buffer: its number among the Buffers that exist. *)
Definition Ref : Type := nat.

Definition Heap : Type := list Buffer.

(** A new Buffer with the given octets. *)
Definition alloc (octets : Buffer) (h : Heap) : Ref * Heap := (length h, h ++ [octets]).

Definition read (r : Ref) (h : Heap) : Buffer := nth r h [].

(** [buf[i] = x]; an index that is out of range is ignored. *)
Definition store (r : Ref) (i : nat) (x : byte) (h : Heap) : Heap :=
replace_nth r (replace_nth i x (read r h)) h.

End Memory.

(** ** class PNPEncryption of part_000, its key in a Buffer of its own *)
Module PNPObject.
Import Memory.

Record t := { algorithm : jsstring; key : Ref }.

(** [this.key = crypto.randomBytes(32)]: the Buffer is made here, and
    the reference to it is kept in the private field alone. *)
Definition constructor (h : Heap) (w : World) : t * Heap * World :=
let '(octets, w') := randomBytes 32 w in
let '(r, h') := alloc octets h in
({| algorithm := aes_256_cbc; key := r |}, h', w').

(** The fields of the object with the octets they hold now. *)
Definition now (this : t) (h : Heap) : PNP.PNPEncryption.t :=
{| PNP.PNPEncryption.algorithm := algorithm this;
   PNP.PNPEncryption.key := read (key this) h |}.

(** [encrypt(data)]: the payload is a new Buffer, which the caller
    gets.  Nothing is written to a Buffer that was there before. *)
Definition encrypt (this : t) (data : jsstring) (h : Heap) (w : World)
  : Result Ref * Heap * World :=
let '(r, w') := PNP.PNPEncryption.encrypt (now this h) data w in
match r with
| Ok payload => let '(p, h') := alloc payload h in (Ok p, h', w')
| Throw e => (Throw e, h, w')
end.

(** [decrypt(data)]: the result is a string. *)
Definition decrypt (this : t) (data : Ref) (h : Heap) : Result jsstring :=
PNP.PNPEncryption.decrypt (now this h) (read data h).

End PNPObject.

(** ** class PNPEncryption of src/PapayaClient.ts, key and IV the
    Buffers of the caller *)
Module PapayaObject.
Import Memory.

Record t := { algorithm : jsstring; key : Ref; iv : Ref }.

(** [this.key = key; this.iv = iv]: the references are stored, the
    Buffers are not copied. *)
Definition constructor (key iv : Ref) : t :=
{| algorithm := aes_256_cbc; key := key; iv := iv |}.

Definition now (this : t) (h : Heap) : PapayaClient.PNPEncryption.t :=
{| PapayaClient.PNPEncryption.algorithm := algorithm this;
   PapayaClient.PNPEncryption.key := read (key this) h;
   PapayaClient.PNPEncryption.iv := read (iv this) h |}.

(** [encrypt(data)] and [decrypt(data)]: both return strings. *)
Definition encrypt (this : t) (data : jsstring) (h : Heap) : Result jsstring :=
PapayaClient.PNPEncryption.encrypt (now this h) data.

Definition decrypt (this : t) (data : Ref) (h : Heap) : Result jsstring :=
PapayaClient.PNPEncryption.decrypt (now this h) (read data h).

End PapayaObject.

(** ** The caller of a codec

    What a program that holds a codec can do: call its two methods, make
    Buffers, and change the octets of the Buffers it holds.  It names a
    Buffer by its place in the list of the references it holds; it has
    no way to a Buffer that it was never given. *)
Module Caller.
Import Memory.

Inductive Step :=
| call_encrypt (data : jsstring)
| call_decrypt (buffer : nat)
| make_buffer (octets : Buffer)
| set_octet (buffer : nat) (index : nat) (octet : byte).

(** The Buffers; the random generator; the references the caller holds,
    in the order it got them; the Buffers it has written to. *)
Record State := {
  heap : Heap;
  world : World;
  held : list Ref;
  stored : list Ref
}.

Section Run.

(** What a call of [encrypt] does to the Buffers and to the random
    generator, and the reference it hands to the caller, if it hands
    one.  ([decrypt] changes nothing and hands out a string.) *)
Variable encrypt : jsstring -> Heap -> World -> option Ref * Heap * World.

Definition step (s : Step) (c : State) : State :=
match s with
| call_encrypt data =>
    let '(r, h, w) := encrypt data (heap c) (world c) in
    {| heap := h; world := w;
       held := match r with
               | Some p => held c ++ [p]
               | None => held c
               end;
       stored := stored c |}
| call_decrypt _ => c
| make_buffer octets =>
    let '(r, h) := alloc octets (heap c) in
    {| heap := h; world := world c; held := held c ++ [r]; stored := stored c |}
| set_octet b i x =>
    match nth_error (held c) b with
    | Some r =>
        {| heap := store r i x (heap c); world := world c; held := held c;
           stored := stored c ++ [r] |}
    | None => c
    end
end.

Definition run (steps : list Step) (c : State) : State :=
fold_left (fun c s => step s c) steps c.

End Run.

End Caller.

(** What [encrypt] of part_000 is to its caller. *)
Definition pnp_encrypt_call (this : PNPObject.t) (data : jsstring) (h : Memory.Heap)
  (w : World) : option Memory.Ref * Memory.Heap * World :=
let '(r, h', w') := PNPObject.encrypt this data h w in
(match r with
 | Ok p => Some p
 | Throw _ => None
 end, h', w').

(** What [encrypt] of src/PapayaClient.ts is to its caller: a string. *)
Definition papaya_encrypt_call (this : PapayaObject.t) (data : jsstring) (h : Memory.Heap)
  (w : World) : option Memory.Ref * Memory.Heap * World :=
(None, h, w).

(** * Proofs *)

(** * The platform model on known values *)

(** FIPS 197, appendix C.3: the AES-256 example vector. *)
Example aes256_fips197_vector :
  AES.encrypt_block
    (Hex.decode (lit "000102030405060708090a0b0c0d0e0f101112131415161718191a1b1c1d1e1f"))
    (Hex.decode (lit "00112233445566778899aabbccddeeff"))
  = Hex.decode (lit "8ea2b7ca516745bfeafc49904b496089").
Proof. vm_compute. reflexivity. Qed.

Example sbox_values :
  map AES.sbox [x00; x01; x53; xff] = [x63; x7c; xed; x16] /\
  map AES.inv_sbox [x63; x7c; xed; x16] = [x00; x01; x53; xff].
Proof. split; vm_compute; reflexivity. Qed.

(** What OpenSSL's aes-256-cbc gives for these keys, IVs and plaintexts:
    one padded block for a short plaintext, one more block of padding
    for a plaintext of two whole blocks. *)
Example cbc_known_ciphertexts :
  Hex.encode (CBC.encrypt (repeat x00 32) (repeat x01 16) (Utf8.encode (lit "a")))
    = lit "9edc85f4be4775067d261a8b68227391" /\
  Hex.encode (CBC.encrypt (repeat x00 32) (repeat x01 16) [])
    = lit "3e536c7917a695485ef046bda7c6a3e6" /\
  Hex.encode
    (CBC.encrypt
       (Hex.decode (lit "030a11181f262d343b424950575e656c737a81888f969da4abb2b9c0c7ced5dc"))
       (Hex.decode (lit "e3eaf1f8ff060d141b222930373e454c"))
       (Utf8.encode (lit "hello world, this is a test!!!!!")))
    = lit ("bb16c4cf49a1375258bd79ebe85343d6195e28d1b47355676bc6164ab10f3e8a"
           ++ "f14dff2a9fa472989c9f88c51cee4844").
Proof. vm_compute. repeat split. Qed.

(** The three ways a decryption fails or succeeds. *)
Example cbc_decrypt_outcomes :
  let key := Hex.decode (lit "030a11181f262d343b424950575e656c737a81888f969da4abb2b9c0c7ced5dc") in
  let iv := Hex.decode (lit "e3eaf1f8ff060d141b222930373e454c") in
  CBC.decrypt key iv [] = Throw ERR_OSSL_WRONG_FINAL_BLOCK_LENGTH /\
  CBC.decrypt key iv (Hex.decode (lit "d2486676026f8aaca29c8830ff58d6d5aa"))
    = Throw ERR_OSSL_WRONG_FINAL_BLOCK_LENGTH /\
  CBC.decrypt key iv (Hex.decode (lit "00112233445566778899aabbccddeeff"))
    = Throw ERR_OSSL_BAD_DECRYPT /\
  CBC.decrypt key iv (Hex.decode (lit "d2486676026f8aaca29c8830ff58d6d5"))
    = Ok (Utf8.encode (lit "hi")).
Proof. vm_compute. repeat split. Qed.

(** One, two, three and four octets per code point; U+FFFD for a
    surrogate without partner and for each ill-formed part. *)
Example utf8_known_values :
  Utf8.encode [0x41; 0xE9; 0x20AC; 0xD83D; 0xDE00]%N
    = [x41; xc3; xa9; xe2; x82; xac; xf0; x9f; x98; x80] /\
  Utf8.encode [0xD800]%N = [xef; xbf; xbd] /\
  Utf8.decode [xe0; x80; x41; xf0; x9f] = [0xFFFD; 0xFFFD; 0x41; 0xFFFD]%N /\
  Utf8.decode [xef; xbb; xbf; x41] = [0xFEFF; 0x41]%N.
Proof. vm_compute. repeat split. Qed.

Example hex_known_values :
  Hex.encode [x00; xff; x1a] = lit "00ff1a" /\
  Hex.decode (lit "00FF1azz12") = [x00; xff; x1a] /\
  Hex.decode (lit "abc") = [xab] /\
  Hex.decode (lit "") = [].
Proof. vm_compute. repeat split. Qed.

Example split_known_values :
  split 58 (lit "ab:cd:ef") = [lit "ab"; lit "cd"; lit "ef"] /\
  split 58 (lit "") = [[]] /\
  split 58 (lit ":") = [[]; []] /\
  join (lit ":") (snd (shift (split 58 (lit "ab:cd:ef")))) = lit "cd:ef".
Proof. vm_compute. repeat split. Qed.

Example json_parse_known_values :
  JSON.parse (lit "{}") = Ok (JObject []) /\
  JSON.parse (lit " [1, -2.5e+10 ,true,false,null, {}, [] ] ")
    = Ok (JArray [JNumber (lit "1"); JNumber (lit "-2.5e+10"); JBool true; JBool false;
                  JNull; JObject []; JArray []]) /\
  map JSON.parse [lit "01"; lit "1."; lit "[1,]"; lit ""; lit "-"; lit "1e"; lit "tru";
                  lit "{} x"; lit "{"]
    = repeat (Throw SyntaxError) 9.
Proof. vm_compute. repeat split. Qed.

(** The request of the interface's simplest shape survives the whole
    cycle: serialised, encrypted, decrypted and parsed again it is the
    request. *)
Example request_survives_the_cycle :
  let this := fst (PNP.PNPEncryption.constructor sample_world) in
  let request := request_of (lit "get") (lit "/") [] (lit "") in
  (payload <- fst (PNP.PNPEncryption.encrypt this (JSON.stringify request) sample_world) ;;
   text <- PNP.PNPEncryption.decrypt this payload ;;
   JSON.parse text)%result = Ok request.
Proof. vm_compute. reflexivity. Qed.

(** A string with a surrogate that has no partner does not come back:
    its encoding is that of U+FFFD. *)
Example lone_surrogate_is_replaced :
  let this := fst (PNP.PNPEncryption.constructor sample_world) in
  (payload <- fst (PNP.PNPEncryption.encrypt this [0xD800%N] sample_world) ;;
   PNP.PNPEncryption.decrypt this payload)%result = Ok [0xFFFD%N].
Proof. vm_compute. reflexivity. Qed.

(** * Octets *)

Ltac nlia := zify; Z.to_euclidean_division_equations; lia.

Lemma to_N_lt (b : byte) : (Byte.to_N b < 256)%N.
Proof. pose proof (Byte.to_N_bounded b). lia. Qed.

Lemma to_N_byte_of_N (n : N) : (n < 256)%N -> Byte.to_N (byte_of_N n) = n.
Proof.
  intro H. unfold byte_of_N. rewrite N.mod_small by exact H.
  destruct (Byte.of_N n) as [b|] eqn:E.
  - now apply Byte.to_of_N.
  - apply Byte.of_N_None_iff in E. lia.
Qed.

Lemma byte_of_N_to_N (b : byte) : byte_of_N (Byte.to_N b) = b.
Proof.
  unfold byte_of_N. rewrite N.mod_small by apply to_N_lt.
  now rewrite Byte.of_to_N.
Qed.

Lemma to_nat_to_N (b : byte) : Byte.to_nat b = N.to_nat (Byte.to_N b).
Proof. apply Byte.to_nat_via_N. Qed.

(** * split, shift and join *)

Lemma split_not_nil (sep : N) (s : jsstring) : split sep s <> [].
Proof.
  destruct s as [|c t]; simpl; [discriminate|].
  destruct (c =? sep)%N; [discriminate|].
  destruct (split sep t); discriminate.
Qed.

Lemma split_before_after (sep : N) (s : jsstring) :
  split sep s =
  before sep s :: (if contains sep s then split sep (after sep s) else []).
Proof.
  induction s as [|c t IH]; simpl; [reflexivity|].
  destruct (c =? sep)%N; simpl; [reflexivity|].
  rewrite IH. reflexivity.
Qed.

Lemma join_split (sep : N) (s : jsstring) : join [sep] (split sep s) = s.
Proof.
  induction s as [|c t IH]; simpl; [reflexivity|].
  destruct (c =? sep)%N eqn:E.
  - apply N.eqb_eq in E. subst c.
    destruct (split sep t) as [|p ps] eqn:Es; [now apply split_not_nil in Es|].
    simpl. f_equal. exact IH.
  - destruct (split sep t) as [|p ps] eqn:Es; [now apply split_not_nil in Es|].
    destruct ps; simpl in *; now rewrite <- IH.
Qed.

Lemma after_no_sep (sep : N) (s : jsstring) : contains sep s = false -> after sep s = [].
Proof.
  induction s as [|c t IH]; simpl; [reflexivity|].
  destruct (c =? sep)%N; simpl; [discriminate|exact IH].
Qed.

(** What [decrypt] takes from the text it is given: the first piece is
    the text in front of the first separator, and the other pieces joined
    again are the text behind it. *)
Lemma shift_split (sep : N) (s : jsstring) :
  fst (shift (split sep s)) = Some (before sep s) /\
  join [sep] (snd (shift (split sep s))) = after sep s.
Proof.
  rewrite split_before_after. simpl. split; [reflexivity|].
  destruct (contains sep s) eqn:E.
  - apply join_split.
  - simpl. symmetry. now apply after_no_sep.
Qed.

Lemma before_app_sep (sep : N) (a b : jsstring) :
  contains sep a = false -> before sep (a ++ sep :: b) = a.
Proof.
  induction a as [|c t IH]; simpl.
  - now rewrite N.eqb_refl.
  - destruct (c =? sep)%N; simpl; [discriminate|]. intro H. now rewrite IH.
Qed.

Lemma after_app_sep (sep : N) (a b : jsstring) :
  contains sep a = false -> after sep (a ++ sep :: b) = b.
Proof.
  induction a as [|c t IH]; simpl.
  - now rewrite N.eqb_refl.
  - destruct (c =? sep)%N; simpl; [discriminate|]. exact IH.
Qed.

Lemma before_no_sep (sep : N) (s : jsstring) : contains sep s = false -> before sep s = s.
Proof.
  induction s as [|c t IH]; simpl; [reflexivity|].
  destruct (c =? sep)%N; simpl; [discriminate|]. intro H. now rewrite IH.
Qed.

(** * Hexadecimal *)

Lemma digit_lt_256 (n : N) : (n < 16)%N -> (Hex.digit n < 256)%N.
Proof. intro H. unfold Hex.digit. destruct (n <? 10)%N; lia. Qed.

Lemma unhex_digit (n : N) : (n < 16)%N -> Hex.unhex (Hex.digit n) = Some n.
Proof.
  intro H. unfold Hex.unhex. rewrite N.mod_small by now apply digit_lt_256.
  unfold Hex.digit, Hex.digit_value.
  destruct (N.ltb_spec n 10).
  - replace ((48 <=? 48 + n)%N && (48 + n <=? 57)%N) with true.
    + f_equal. lia.
    + symmetry. apply andb_true_iff. split; apply N.leb_le; lia.
  - replace ((48 <=? 87 + n)%N && (87 + n <=? 57)%N) with false.
    + replace ((97 <=? 87 + n)%N && (87 + n <=? 102)%N) with true.
      * f_equal. lia.
      * symmetry. apply andb_true_iff. split; apply N.leb_le; lia.
    + symmetry. apply andb_false_iff. right. apply N.leb_gt. lia.
Qed.

Lemma is_lower_hex_digit (n : N) : (n < 16)%N -> Hex.is_lower_hex (Hex.digit n) = true.
Proof.
  intro H. unfold Hex.digit, Hex.is_lower_hex.
  destruct (N.ltb_spec n 10); apply orb_true_iff; [left|right];
    apply andb_true_iff; split; apply N.leb_le; lia.
Qed.

Lemma hex_decode_encode_app (b : Buffer) (rest : jsstring) :
  Hex.decode (Hex.encode b ++ rest) = b ++ Hex.decode rest.
Proof.
  induction b as [|x b IH]; [reflexivity|].
  pose proof (to_N_lt x) as Hx.
  cbn [Hex.encode flat_map app Hex.decode].
  rewrite !unhex_digit by nlia.
  fold (Hex.encode b). rewrite IH. cbn [app]. f_equal.
  replace (16 * (Byte.to_N x / 16) + Byte.to_N x mod 16)%N with (Byte.to_N x) by nlia.
  apply byte_of_N_to_N.
Qed.

Lemma hex_decode_encode (b : Buffer) : Hex.decode (Hex.encode b) = b.
Proof.
  rewrite <- (app_nil_r (Hex.encode b)), hex_decode_encode_app.
  apply app_nil_r.
Qed.

Lemma length_hex_encode (b : Buffer) : length (Hex.encode b) = 2 * length b.
Proof.
  induction b as [|x b IH]; [reflexivity|].
  cbn [Hex.encode flat_map app length]. fold (Hex.encode b). rewrite IH. lia.
Qed.

Lemma hex_encode_app (a b : Buffer) : Hex.encode (a ++ b) = Hex.encode a ++ Hex.encode b.
Proof. apply flat_map_app. Qed.

Lemma hex_encode_lower (b : Buffer) : forallb Hex.is_lower_hex (Hex.encode b) = true.
Proof.
  induction b as [|x b IH]; [reflexivity|].
  pose proof (to_N_lt x) as Hx.
  cbn [Hex.encode flat_map app forallb]. fold (Hex.encode b).
  rewrite !is_lower_hex_digit by nlia. exact IH.
Qed.

Lemma lower_hex_lt_128 (c : N) : Hex.is_lower_hex c = true -> (c < 128)%N.
Proof.
  unfold Hex.is_lower_hex. rewrite orb_true_iff, !andb_true_iff, !N.leb_le. lia.
Qed.

Lemma lower_hex_no_sep (s : jsstring) :
  forallb Hex.is_lower_hex s = true -> contains 58 s = false.
Proof.
  induction s as [|c t IH]; simpl; [reflexivity|].
  rewrite andb_true_iff. intros [Hc Ht]. rewrite (IH Ht), orb_false_r.
  apply N.eqb_neq. intros ->. discriminate.
Qed.

(** * UTF-8: decoding undoes encoding on well-formed strings *)

(** Settle the comparisons of the goal that arithmetic decides. *)
Ltac decide_cmp :=
  repeat match goal with
         | |- context [(?a <=? ?b)%N] =>
             first [ replace (a <=? b)%N with true by (symmetry; apply N.leb_le; nlia)
                   | replace (a <=? b)%N with false by (symmetry; apply N.leb_gt; nlia) ]
         | |- context [(?a <? ?b)%N] =>
             first [ replace (a <? b)%N with true by (symmetry; apply N.ltb_lt; nlia)
                   | replace (a <? b)%N with false by (symmetry; apply N.ltb_ge; nlia) ]
         end;
  cbn [andb orb negb].

Lemma decode_from_cont (s : Utf8.dstate) (x : byte) (t : Buffer) :
  (Utf8.lower s <= Byte.to_N x <= Utf8.upper s)%N ->
  Utf8.decode_from (Some s) (x :: t) =
  match Utf8.needed s with
  | S (S n) =>
      Utf8.decode_from
        (Some {| Utf8.cp := Utf8.cp s * 64 + Byte.to_N x mod 64; Utf8.needed := S n;
                 Utf8.lower := 0x80; Utf8.upper := 0xBF |}) t
  | _ => Utf8.code_units (Utf8.cp s * 64 + Byte.to_N x mod 64) ++ Utf8.decode_from None t
  end.
Proof.
  intros [Hl Hu]. cbn [Utf8.decode_from].
  apply N.leb_le in Hl, Hu. rewrite Hl, Hu. reflexivity.
Qed.

Lemma decode_from_lead (x : byte) (t : Buffer) :
  Utf8.decode_from None (x :: t) =
  fst (Utf8.lead (Byte.to_N x)) ++ Utf8.decode_from (snd (Utf8.lead (Byte.to_N x))) t.
Proof. cbn [Utf8.decode_from]. now destruct (Utf8.lead (Byte.to_N x)). Qed.

Lemma decode_encode_code_point (c : N) (rest : Buffer) :
  scalar c ->
  Utf8.decode_from None (Utf8.encode_code_point c ++ rest) =
  Utf8.code_units c ++ Utf8.decode_from None rest.
Proof.
  intros [Hlt Hns]. unfold Utf8.encode_code_point.
  destruct (N.ltb_spec c 0x80) as [H1|H1];
    [|destruct (N.ltb_spec c 0x800) as [H2|H2];
      [|destruct (N.ltb_spec c 0x10000) as [H3|H3]]];
    cbn [app]; rewrite decode_from_lead;
    rewrite to_N_byte_of_N by nlia; unfold Utf8.lead; decide_cmp; cbn [fst snd app].
  - unfold Utf8.code_units. decide_cmp. reflexivity.
  - rewrite decode_from_cont
      by (cbn [Utf8.lower Utf8.upper]; rewrite to_N_byte_of_N by nlia; nlia).
    cbn [Utf8.needed Utf8.cp]. rewrite to_N_byte_of_N by nlia.
    f_equal. f_equal. nlia.
  - rewrite decode_from_cont
      by (cbn [Utf8.lower Utf8.upper]; rewrite to_N_byte_of_N by nlia;
          destruct (N.eqb_spec (224 + c / 4096) 224);
          destruct (N.eqb_spec (224 + c / 4096) 237); nlia).
    cbn [Utf8.needed Utf8.cp]. rewrite to_N_byte_of_N by nlia.
    rewrite decode_from_cont
      by (cbn [Utf8.lower Utf8.upper]; rewrite to_N_byte_of_N by nlia; nlia).
    cbn [Utf8.needed Utf8.cp]. rewrite to_N_byte_of_N by nlia.
    f_equal. f_equal. nlia.
  - rewrite decode_from_cont
      by (cbn [Utf8.lower Utf8.upper]; rewrite to_N_byte_of_N by nlia;
          destruct (N.eqb_spec (240 + c / 262144) 240);
          destruct (N.eqb_spec (240 + c / 262144) 244); nlia).
    cbn [Utf8.needed Utf8.cp]. rewrite to_N_byte_of_N by nlia.
    rewrite decode_from_cont
      by (cbn [Utf8.lower Utf8.upper]; rewrite to_N_byte_of_N by nlia; nlia).
    cbn [Utf8.needed Utf8.cp]. rewrite to_N_byte_of_N by nlia.
    rewrite decode_from_cont
      by (cbn [Utf8.lower Utf8.upper]; rewrite to_N_byte_of_N by nlia; nlia).
    cbn [Utf8.needed Utf8.cp]. rewrite to_N_byte_of_N by nlia.
    f_equal. f_equal. nlia.
Qed.

Lemma is_high_surrogate_true (c : N) :
  Utf8.is_high_surrogate c = true <-> (0xD800 <= c <= 0xDBFF)%N.
Proof. unfold Utf8.is_high_surrogate. rewrite andb_true_iff, !N.leb_le. tauto. Qed.

Lemma is_low_surrogate_true (c : N) :
  Utf8.is_low_surrogate c = true <-> (0xDC00 <= c <= 0xDFFF)%N.
Proof. unfold Utf8.is_low_surrogate. rewrite andb_true_iff, !N.leb_le. tauto. Qed.

Lemma is_high_surrogate_false (c : N) :
  Utf8.is_high_surrogate c = false <-> ~ (0xD800 <= c <= 0xDBFF)%N.
Proof.
  rewrite <- is_high_surrogate_true. destruct (Utf8.is_high_surrogate c); intuition congruence.
Qed.

Lemma is_low_surrogate_false (c : N) :
  Utf8.is_low_surrogate c = false <-> ~ (0xDC00 <= c <= 0xDFFF)%N.
Proof.
  rewrite <- is_low_surrogate_true. destruct (Utf8.is_low_surrogate c); intuition congruence.
Qed.

Lemma code_units_pair (h l : N) :
  (0xD800 <= h <= 0xDBFF)%N -> (0xDC00 <= l <= 0xDFFF)%N ->
  Utf8.code_units (Utf8.pair_code_point h l) = [h; l] /\
  scalar (Utf8.pair_code_point h l).
Proof.
  intros Hh Hl. unfold Utf8.code_units, Utf8.pair_code_point, scalar.
  split; [|nlia]. decide_cmp. f_equal; [|f_equal]; nlia.
Qed.

Lemma code_units_bmp (c : N) : (c < 65536)%N -> Utf8.code_units c = [c].
Proof. intro H. unfold Utf8.code_units. decide_cmp. reflexivity. Qed.

(** Induction over a well-formed string: one code unit that is no
    surrogate, or a surrogate pair, at a time. *)
Lemma isWellFormed_ind (P : jsstring -> Prop) :
  P [] ->
  (forall c t, (c < 65536)%N -> ~ (0xD800 <= c <= 0xDFFF)%N ->
               Utf8.isWellFormed t = true -> P t -> P (c :: t)) ->
  (forall h l t, (0xD800 <= h <= 0xDBFF)%N -> (0xDC00 <= l <= 0xDFFF)%N ->
                 Utf8.isWellFormed t = true -> P t -> P (h :: l :: t)) ->
  forall s, Utf8.isWellFormed s = true -> P s.
Proof.
  intros Hnil Hone Hpair s.
  assert (H : forall n s, length s <= n -> Utf8.isWellFormed s = true -> P s).
  { clear s. induction n as [|n IH]; intros s Hn Hwf.
    - destruct s; [exact Hnil|simpl in Hn; lia].
    - destruct s as [|c t]; [exact Hnil|].
      cbn [Utf8.isWellFormed] in Hwf.
      destruct (Utf8.is_high_surrogate c) eqn:Eh.
      + destruct t as [|d t']; [discriminate|].
        apply andb_true_iff in Hwf as [Hd Ht'].
        apply is_high_surrogate_true in Eh. apply is_low_surrogate_true in Hd.
        apply Hpair; auto. apply IH; auto. simpl in Hn. lia.
      + apply andb_true_iff in Hwf as [Hc Ht].
        apply andb_true_iff in Hc as [Hl Hc].
        apply negb_true_iff in Hl. apply N.ltb_lt in Hc.
        apply is_high_surrogate_false in Eh. apply is_low_surrogate_false in Hl.
        apply Hone; auto; [lia|]. apply IH; auto. simpl in Hn. lia. }
  intro Hwf. now apply (H (length s)).
Qed.

(** Decoding the UTF-8 encoding of a well-formed string gives the string. *)
Lemma utf8_decode_encode (s : jsstring) :
  Utf8.isWellFormed s = true -> Utf8.decode (Utf8.encode s) = s.
Proof.
  unfold Utf8.decode. revert s. apply isWellFormed_ind.
  - reflexivity.
  - intros c t Hc Hns Ht IH. cbn [Utf8.encode].
    assert (Eh : Utf8.is_high_surrogate c = false) by (apply is_high_surrogate_false; lia).
    assert (El : Utf8.is_low_surrogate c = false) by (apply is_low_surrogate_false; lia).
    rewrite Eh, El, decode_encode_code_point, IH by (split; lia).
    now rewrite code_units_bmp.
  - intros h l t Hh Hl Ht IH. cbn [Utf8.encode].
    assert (Eh : Utf8.is_high_surrogate h = true) by (now apply is_high_surrogate_true).
    assert (El : Utf8.is_low_surrogate l = true) by (now apply is_low_surrogate_true).
    destruct (code_units_pair h l Hh Hl) as [Hcu Hsc].
    rewrite Eh, El, decode_encode_code_point, IH, Hcu by exact Hsc.
    reflexivity.
Qed.

(** ** Strings of ASCII characters *)

Lemma is_ascii_app (a b : jsstring) : is_ascii (a ++ b) = is_ascii a && is_ascii b.
Proof. apply forallb_app. Qed.

Lemma utf8_encode_ascii (s : jsstring) :
  is_ascii s = true -> Utf8.encode s = map byte_of_N s.
Proof.
  induction s as [|c t IH]; [reflexivity|].
  cbn [is_ascii forallb]. rewrite andb_true_iff, N.ltb_lt. intros [Hc Ht].
  cbn [Utf8.encode map].
  assert (Eh : Utf8.is_high_surrogate c = false) by (apply is_high_surrogate_false; lia).
  assert (El : Utf8.is_low_surrogate c = false) by (apply is_low_surrogate_false; lia).
  rewrite Eh, El. unfold Utf8.encode_code_point. decide_cmp.
  cbn [app]. f_equal. now apply IH.
Qed.

Lemma is_ascii_wf (s : jsstring) : is_ascii s = true -> Utf8.isWellFormed s = true.
Proof.
  induction s as [|c t IH]; [reflexivity|].
  cbn [is_ascii forallb]. rewrite andb_true_iff, N.ltb_lt. intros [Hc Ht].
  cbn [Utf8.isWellFormed].
  assert (Eh : Utf8.is_high_surrogate c = false) by (apply is_high_surrogate_false; lia).
  assert (El : Utf8.is_low_surrogate c = false) by (apply is_low_surrogate_false; lia).
  rewrite Eh, El. cbn [negb andb].
  apply andb_true_iff. split; [apply N.ltb_lt; lia|now apply IH].
Qed.

Lemma length_utf8_encode_ascii (s : jsstring) :
  is_ascii s = true -> length (Utf8.encode s) = length s.
Proof. intro H. rewrite utf8_encode_ascii by exact H. apply length_map. Qed.

Lemma lower_hex_ascii (s : jsstring) :
  forallb Hex.is_lower_hex s = true -> is_ascii s = true.
Proof.
  unfold is_ascii. rewrite !forallb_forall. intros H c Hc.
  apply N.ltb_lt. apply lower_hex_lt_128. now apply H.
Qed.

(** * AES-256: the inverse cipher undoes the cipher *)

(** Every octet is [Byte.of_bits] of eight booleans: replace the octet
    variables of the goal by their bits. *)
Ltac to_bits_of b :=
  rewrite <- (Byte.of_bits_to_bits b);
  destruct (Byte.to_bits b) as [? [? [? [? [? [? [? ?]]]]]]].

Ltac bits_eq :=
  repeat match goal with
         | |- (_, _) = (_, _) => f_equal
         | |- Byte.of_bits _ = Byte.of_bits _ => f_equal
         end;
  try btauto.

Lemma bxor_cancel_r (a b : byte) : bxor (bxor a b) b = a.
Proof.
  to_bits_of a. to_bits_of b. unfold bxor.
  repeat (rewrite !Byte.to_bits_of_bits; cbn beta iota zeta).
  bits_eq.
Qed.

Lemma inv_sbox_sbox (b : byte) : AES.inv_sbox (AES.sbox b) = b.
Proof. destruct b; reflexivity. Qed.

Lemma xor_word_cancel_r (u v : AES.word) : AES.xor_word (AES.xor_word u v) v = u.
Proof.
  destruct u as [[[u0 u1] u2] u3], v as [[[v0 v1] v2] v3].
  cbv [AES.xor_word]. now rewrite !bxor_cancel_r.
Qed.

Lemma add_round_key_cancel (s k : AES.state) :
  AES.add_round_key (AES.add_round_key s k) k = s.
Proof.
  destruct s as [[[c0 c1] c2] c3], k as [[[k0 k1] k2] k3].
  cbv [AES.add_round_key]. now rewrite !xor_word_cancel_r.
Qed.

Lemma inv_sub_bytes_sub_bytes (s : AES.state) :
  AES.inv_sub_bytes (AES.sub_bytes s) = s.
Proof.
  destruct s as [[[[[[a0 a1] a2] a3] [[[b0 b1] b2] b3]] [[[c0 c1] c2] c3]] [[[d0 d1] d2] d3]].
  cbv [AES.inv_sub_bytes AES.sub_bytes AES.map_state AES.map_word].
  now rewrite !inv_sbox_sbox.
Qed.

Lemma inv_shift_rows_shift_rows (s : AES.state) :
  AES.inv_shift_rows (AES.shift_rows s) = s.
Proof.
  destruct s as [[[[[[a0 a1] a2] a3] [[[b0 b1] b2] b3]] [[[c0 c1] c2] c3]] [[[d0 d1] d2] d3]].
  reflexivity.
Qed.

Lemma inv_mix_column_mix_column (u : AES.word) :
  AES.inv_mix_column (AES.mix_column u) = u.
Proof.
  destruct u as [[[a b] c] d].
  to_bits_of a. to_bits_of b. to_bits_of c. to_bits_of d.
  unfold AES.inv_mix_column, AES.mix_column, AES.mul2, AES.mul3, AES.mul9,
    AES.mul11, AES.mul13, AES.mul14, AES.xtime, bxor.
  repeat (rewrite !Byte.to_bits_of_bits; cbn beta iota zeta).
  bits_eq.
Qed.

Lemma inv_mix_columns_mix_columns (s : AES.state) :
  AES.inv_mix_columns (AES.mix_columns s) = s.
Proof.
  destruct s as [[[c0 c1] c2] c3].
  cbv [AES.inv_mix_columns AES.mix_columns AES.map_state].
  now rewrite !inv_mix_column_mix_column.
Qed.

Lemma inv_rounds_rounds (ks : list AES.state) (s : AES.state) :
  AES.inv_rounds ks (AES.rounds ks s) = s.
Proof.
  revert s. induction ks as [|k ks IH]; intro s; [reflexivity|].
  destruct ks as [|k' ks'].
  - cbn. now rewrite add_round_key_cancel, inv_shift_rows_shift_rows,
      inv_sub_bytes_sub_bytes.
  - change (AES.rounds (k :: k' :: ks') s)
      with (AES.rounds (k' :: ks')
              (AES.add_round_key (AES.mix_columns (AES.shift_rows (AES.sub_bytes s))) k)).
    change (AES.inv_rounds (k :: k' :: ks') ?x)
      with (AES.inv_sub_bytes (AES.inv_shift_rows (AES.inv_mix_columns
              (AES.add_round_key (AES.inv_rounds (k' :: ks') x) k)))).
    now rewrite IH, add_round_key_cancel, inv_mix_columns_mix_columns,
      inv_shift_rows_shift_rows, inv_sub_bytes_sub_bytes.
Qed.

Lemma inv_cipher_cipher (rks : list AES.state) (s : AES.state) :
  AES.inv_cipher rks (AES.cipher rks s) = s.
Proof.
  destruct rks as [|k0 ks]; [reflexivity|].
  cbn [AES.cipher AES.inv_cipher].
  now rewrite inv_rounds_rounds, add_round_key_cancel.
Qed.

Lemma state_of_bytes_of (s : AES.state) : AES.state_of (AES.bytes_of s) = Some s.
Proof.
  destruct s as [[[[[[a0 a1] a2] a3] [[[b0 b1] b2] b3]] [[[c0 c1] c2] c3]] [[[d0 d1] d2] d3]].
  reflexivity.
Qed.

Lemma length_bytes_of (s : AES.state) : List.length (AES.bytes_of s) = 16.
Proof.
  destruct s as [[[[[[a0 a1] a2] a3] [[[b0 b1] b2] b3]] [[[c0 c1] c2] c3]] [[[d0 d1] d2] d3]].
  reflexivity.
Qed.

Lemma state_of_Some (b : list byte) (s : AES.state) :
  AES.state_of b = Some s -> b = AES.bytes_of s.
Proof.
  unfold AES.state_of.
  do 17 (destruct b as [|? b]; try discriminate).
  - cbn. intros [= <-]. reflexivity.
  - cbn. destruct b as [|? [|? [|? [|? ?]]]]; discriminate.
Qed.

Lemma state_of_length (b : list byte) :
  List.length b = 16 -> exists s, AES.state_of b = Some s.
Proof.
  intro H. do 17 (destruct b as [|? b]; try discriminate).
  eexists. reflexivity.
Qed.

(** Decrypting an encrypted block gives the block back, whatever the key. *)
Lemma decrypt_block_encrypt_block (key b : list byte) :
  AES.decrypt_block key (AES.encrypt_block key b) = b.
Proof.
  unfold AES.encrypt_block.
  destruct (AES.state_of b) as [s|] eqn:E.
  - unfold AES.decrypt_block. rewrite state_of_bytes_of, inv_cipher_cipher.
    symmetry. now apply state_of_Some.
  - unfold AES.decrypt_block. now rewrite E.
Qed.

Lemma length_encrypt_block (key b : list byte) :
  List.length (AES.encrypt_block key b) = List.length b.
Proof.
  unfold AES.encrypt_block.
  destruct (AES.state_of b) as [s|] eqn:E; [|reflexivity].
  apply state_of_Some in E. subst b. now rewrite !length_bytes_of.
Qed.

Lemma length_decrypt_block (key b : list byte) :
  List.length (AES.decrypt_block key b) = List.length b.
Proof.
  unfold AES.decrypt_block.
  destruct (AES.state_of b) as [s|] eqn:E; [|reflexivity].
  apply state_of_Some in E. subst b. now rewrite !length_bytes_of.
Qed.

(** * CBC mode and padding *)

Lemma length_xor_bytes (a b : list byte) :
  length (CBC.xor_bytes a b) = Nat.min (length a) (length b).
Proof. unfold CBC.xor_bytes. now rewrite length_map, length_combine. Qed.

Lemma xor_bytes_cancel (a b : list byte) :
  length a <= length b -> CBC.xor_bytes (CBC.xor_bytes a b) b = a.
Proof.
  unfold CBC.xor_bytes. revert b.
  induction a as [|x a IH]; intros [|y b] H; simpl in *; try reflexivity; try lia.
  rewrite bxor_cancel_r. f_equal. apply IH. lia.
Qed.

(** ** Cutting into blocks *)

Lemma blocks_fuel_enough (f : nat) (l : list byte) :
  length l <= f -> CBC.blocks_fuel f l = CBC.blocks l.
Proof.
  unfold CBC.blocks.
  assert (H : forall n f l, length l <= n -> length l <= f ->
                            CBC.blocks_fuel f l = CBC.blocks_fuel (length l) l).
  { clear. induction n as [|n IH]; intros f l Hn Hf.
    - destruct l; [now destruct f|simpl in Hn; lia].
    - destruct l as [|x l]; [now destruct f|].
      destruct f as [|f]; [simpl in Hf; lia|].
      cbn [CBC.blocks_fuel length]. f_equal.
      assert (Hs : length (skipn CBC.block_size (x :: l)) <= length l).
      { rewrite length_skipn. unfold CBC.block_size. simpl. lia. }
      rewrite (IH f) by (simpl in *; lia).
      rewrite (IH (length l)) by (simpl in *; lia). reflexivity. }
  intro Hf. now apply (H (length l)).
Qed.

Lemma blocks_nil : CBC.blocks [] = [].
Proof. reflexivity. Qed.

Lemma blocks_cons_app (b rest : list byte) :
  length b = CBC.block_size -> CBC.blocks (b ++ rest) = b :: CBC.blocks rest.
Proof.
  intro Hb. unfold CBC.blocks at 1.
  destruct b as [|x b]; [discriminate|].
  cbn [app length CBC.blocks_fuel].
  change (x :: b ++ rest) with ((x :: b) ++ rest).
  rewrite firstn_app, skipn_app, Hb, Nat.sub_diag.
  rewrite firstn_all2 by lia. rewrite skipn_all2 by lia.
  cbn [firstn skipn app]. rewrite app_nil_r. f_equal.
  apply blocks_fuel_enough. rewrite length_app. lia.
Qed.

Lemma blocks_short (b : list byte) :
  0 < length b <= CBC.block_size -> CBC.blocks b = [b].
Proof.
  intros [H0 H1]. unfold CBC.blocks.
  destruct b as [|x b]; [simpl in H0; lia|].
  cbn [length CBC.blocks_fuel].
  rewrite firstn_all2 by exact H1. rewrite skipn_all2 by exact H1.
  now destruct (length b).
Qed.

Lemma concat_blocks (l : list byte) : concat (CBC.blocks l) = l.
Proof.
  assert (H : forall n l, length l <= n -> concat (CBC.blocks l) = l).
  { clear. induction n as [|n IH]; intros l Hn.
    - destruct l; [reflexivity|simpl in Hn; lia].
    - destruct l as [|x l]; [reflexivity|].
      unfold CBC.blocks. cbn [length CBC.blocks_fuel concat].
      rewrite blocks_fuel_enough.
      + rewrite IH; [apply firstn_skipn|].
        rewrite length_skipn. unfold CBC.block_size. simpl in *. lia.
      + rewrite length_skipn. unfold CBC.block_size. simpl. lia. }
  now apply (H (length l)).
Qed.

Lemma blocks_app_whole (a rest : list byte) :
  length a mod CBC.block_size = 0 ->
  CBC.blocks (a ++ rest) = CBC.blocks a ++ CBC.blocks rest /\ whole (CBC.blocks a).
Proof.
  remember (length a) as n eqn:Hn. revert a Hn.
  induction n as [n IH] using lt_wf_ind. intros a Hn Hm.
  destruct a as [|x a]; [split; [reflexivity|constructor]|].
  set (l := x :: a) in *.
  assert (Hpos : 0 < length l) by (unfold l; simpl; lia).
  assert (Hlen : CBC.block_size <= length l).
  { unfold CBC.block_size in *.
    destruct (Nat.lt_ge_cases (length l) 16) as [Hlt|]; [|assumption].
    rewrite Hn, Nat.mod_small in Hm by exact Hlt. lia. }
  rewrite <- (firstn_skipn CBC.block_size l).
  assert (Hf : length (firstn CBC.block_size l) = CBC.block_size)
    by (rewrite length_firstn; lia).
  assert (Hs : length (skipn CBC.block_size l) = length l - CBC.block_size)
    by apply length_skipn.
  rewrite <- app_assoc.
  rewrite (blocks_cons_app _ (skipn CBC.block_size l ++ rest) Hf).
  rewrite (blocks_cons_app _ (skipn CBC.block_size l) Hf).
  assert (Hlt : length (skipn CBC.block_size l) < n)
    by (rewrite Hs; unfold CBC.block_size in *; lia).
  assert (Hm' : length (skipn CBC.block_size l) mod CBC.block_size = 0)
    by (rewrite Hs; unfold CBC.block_size in *; subst n; nlia).
  destruct (IH _ Hlt (skipn CBC.block_size l) eq_refl Hm') as [E W].
  rewrite E. split; [reflexivity|]. constructor; assumption.
Qed.

Lemma length_concat_whole (bs : list (list byte)) :
  whole bs -> length (concat bs) = CBC.block_size * length bs.
Proof.
  induction 1 as [|b bs Hb _ IH]; [reflexivity|].
  cbn [concat length]. rewrite length_app, IH, Hb. lia.
Qed.

Lemma length_blocks_whole (a : list byte) :
  length a mod CBC.block_size = 0 -> length (CBC.blocks a) = length a / CBC.block_size.
Proof.
  intro Hm. destruct (blocks_app_whole a [] Hm) as [_ W].
  apply length_concat_whole in W. rewrite concat_blocks in W.
  rewrite W. unfold CBC.block_size. now rewrite Nat.mul_comm, Nat.div_mul.
Qed.

(** ** Chaining *)

Lemma last_cons {A : Type} (x d : A) (l : list A) : last (x :: l) d = last l x.
Proof.
  revert x d. induction l as [|y l IH]; intros x d; [reflexivity|].
  change (last (x :: y :: l) d) with (last (y :: l) d).
  now rewrite !(IH y).
Qed.

Lemma encrypt_blocks_app (key chain : list byte) (a b : list (list byte)) :
  CBC.encrypt_blocks key chain (a ++ b) =
  CBC.encrypt_blocks key chain a
    ++ CBC.encrypt_blocks key (last (CBC.encrypt_blocks key chain a) chain) b.
Proof.
  revert chain. induction a as [|p a IH]; intro chain; [reflexivity|].
  cbn [app CBC.encrypt_blocks]. rewrite IH. f_equal. f_equal.
  now rewrite last_cons.
Qed.

Lemma length_encrypt_blocks (key chain : list byte) (ps : list (list byte)) :
  length (CBC.encrypt_blocks key chain ps) = length ps.
Proof.
  revert chain. induction ps as [|p ps IH]; intro chain; simpl; [reflexivity|].
  now rewrite IH.
Qed.

Lemma whole_encrypt_blocks (key chain : list byte) (ps : list (list byte)) :
  length chain = CBC.block_size -> whole ps ->
  whole (CBC.encrypt_blocks key chain ps).
Proof.
  intros Hc W. revert chain Hc.
  induction W as [|p ps Hp _ IH]; intros chain Hc; [constructor|].
  cbn [CBC.encrypt_blocks].
  assert (Hl : length (AES.encrypt_block key (CBC.xor_bytes p chain)) = CBC.block_size).
  { rewrite length_encrypt_block, length_xor_bytes, Hp, Hc. apply Nat.min_id. }
  constructor; [exact Hl|]. now apply IH.
Qed.

(** Decrypting the chain of encrypted blocks gives the plain blocks. *)
Lemma decrypt_blocks_encrypt_blocks (key chain : list byte) (ps : list (list byte)) :
  length chain = CBC.block_size -> whole ps ->
  CBC.decrypt_blocks key chain (CBC.encrypt_blocks key chain ps) = ps.
Proof.
  intros Hc W. revert chain Hc.
  induction W as [|p ps Hp _ IH]; intros chain Hc; [reflexivity|].
  cbn [CBC.encrypt_blocks CBC.decrypt_blocks].
  rewrite decrypt_block_encrypt_block, xor_bytes_cancel by lia.
  f_equal. apply IH.
  rewrite length_encrypt_block, length_xor_bytes, Hp, Hc. apply Nat.min_id.
Qed.

(** ** Padding *)

Lemma length_padding (len : nat) :
  length (CBC.padding len) = CBC.block_size - len mod CBC.block_size.
Proof. unfold CBC.padding. apply repeat_length. Qed.

Lemma padding_bounds (len : nat) :
  0 < length (CBC.padding len) <= CBC.block_size.
Proof.
  rewrite length_padding. unfold CBC.block_size.
  pose proof (Nat.mod_upper_bound len 16). lia.
Qed.

Lemma length_pad (m : list byte) :
  length (CBC.pad m) = CBC.block_size * (length m / CBC.block_size + 1).
Proof.
  unfold CBC.pad. rewrite length_app, length_padding. unfold CBC.block_size.
  pose proof (Nat.div_mod_eq (length m) 16).
  pose proof (Nat.mod_upper_bound (length m) 16). lia.
Qed.

Lemma last_app_repeat {A : Type} (l : list A) (x d : A) (n : nat) :
  0 < n -> last (l ++ repeat x n) d = x.
Proof.
  intro Hn. destruct n as [|n]; [lia|].
  replace (repeat x (S n)) with (repeat x n ++ [x]).
  - now rewrite app_assoc, last_last.
  - change [x] with (repeat x 1). rewrite <- repeat_app. f_equal. lia.
Qed.

(** The check of the padding accepts the last block of a padded message
    and returns what was in front of the padding. *)
Lemma unpad_padded (r : list byte) :
  length r < CBC.block_size ->
  CBC.unpad (r ++ CBC.padding (length r)) = Some r.
Proof.
  intro Hr. unfold CBC.unpad, CBC.padding.
  rewrite Nat.mod_small by exact Hr.
  set (n := CBC.block_size - length r).
  assert (Hn : 0 < n <= 16) by (unfold n, CBC.block_size in *; lia).
  rewrite last_app_repeat by lia.
  assert (Hv : Byte.to_nat (byte_of_N (N.of_nat n)) = n).
  { rewrite to_nat_to_N, to_N_byte_of_N by lia. lia. }
  rewrite Hv.
  replace (n =? 0) with false by (symmetry; apply Nat.eqb_neq; lia).
  replace (CBC.block_size <? n) with false
    by (symmetry; apply Nat.ltb_ge; unfold CBC.block_size; lia).
  cbn [orb].
  replace (CBC.block_size - n) with (length r) by (unfold n; lia).
  rewrite skipn_app, Nat.sub_diag, skipn_all. cbn [skipn app].
  rewrite firstn_app, Nat.sub_diag, firstn_all. cbn [firstn]. rewrite app_nil_r.
  replace (forallb _ _) with true; [reflexivity|].
  symmetry. apply forallb_forall. intros x Hx.
  apply repeat_spec in Hx. subst x. apply Byte.byte_dec_lb. reflexivity.
Qed.

Lemma pad_split (m : list byte) :
  let n := length m / CBC.block_size * CBC.block_size in
  CBC.pad m = firstn n m ++ (skipn n m ++ CBC.padding (length (skipn n m))) /\
  length (firstn n m) mod CBC.block_size = 0 /\
  length (skipn n m) < CBC.block_size /\
  CBC.padding (length m) = CBC.padding (length (skipn n m)).
Proof.
  intro n. unfold CBC.block_size in *.
  pose proof (Nat.div_mod_eq (length m) 16) as Hdm.
  pose proof (Nat.mod_upper_bound (length m) 16) as Hub.
  assert (Hs : length (skipn n m) = length m mod 16)
    by (rewrite length_skipn; unfold n; lia).
  assert (Hf : length (firstn n m) = n) by (rewrite length_firstn; unfold n; lia).
  assert (Hp : CBC.padding (length m) = CBC.padding (length (skipn n m))).
  { unfold CBC.padding, CBC.block_size. rewrite Hs.
    now rewrite Nat.Div0.mod_mod. }
  repeat split.
  - unfold CBC.pad. rewrite Hp, app_assoc, firstn_skipn. reflexivity.
  - rewrite Hf. unfold n. apply Nat.Div0.mod_mul.
  - lia.
  - exact Hp.
Qed.

(** The blocks of a padded message: the whole blocks of the message, and
    one last block made of the rest and the padding. *)
Lemma blocks_pad (m : list byte) :
  let n := length m / CBC.block_size * CBC.block_size in
  CBC.blocks (CBC.pad m) =
  CBC.blocks (firstn n m) ++ [skipn n m ++ CBC.padding (length (skipn n m))] /\
  whole (CBC.blocks (firstn n m)) /\
  length (skipn n m ++ CBC.padding (length (skipn n m))) = CBC.block_size.
Proof.
  intro n. destruct (pad_split m) as (E & Hm & Hr & _). fold n in E, Hm, Hr.
  assert (Hl : length (skipn n m ++ CBC.padding (length (skipn n m))) = CBC.block_size).
  { rewrite length_app, length_padding.
    rewrite Nat.mod_small by exact Hr. lia. }
  destruct (blocks_app_whole (firstn n m)
              (skipn n m ++ CBC.padding (length (skipn n m))) Hm) as [Eb W].
  rewrite E, Eb.
  rewrite (blocks_short (skipn n m ++ CBC.padding (length (skipn n m))))
    by (rewrite Hl; unfold CBC.block_size; lia).
  auto.
Qed.

Lemma whole_blocks_pad (m : list byte) : whole (CBC.blocks (CBC.pad m)).
Proof.
  destruct (blocks_pad m) as (E & W & Hl). rewrite E.
  apply Forall_app. split; [exact W|]. constructor; [exact Hl|constructor].
Qed.

Lemma length_cbc_encrypt (key iv m : list byte) :
  length iv = CBC.block_size ->
  length (CBC.encrypt key iv m) = CBC.block_size * (length m / CBC.block_size + 1).
Proof.
  intro Hiv. unfold CBC.encrypt.
  rewrite length_concat_whole
    by (apply whole_encrypt_blocks; [exact Hiv|apply whole_blocks_pad]).
  rewrite length_encrypt_blocks.
  pose proof (whole_blocks_pad m) as W. apply length_concat_whole in W.
  rewrite concat_blocks, length_pad in W. lia.
Qed.

Lemma blocks_concat_whole (bs : list (list byte)) :
  whole bs -> CBC.blocks (concat bs) = bs.
Proof.
  induction 1 as [|b bs Hb _ IH]; [reflexivity|].
  cbn [concat]. now rewrite blocks_cons_app, IH.
Qed.

(** Decrypting the encryption of a message gives the message. *)
Lemma cbc_decrypt_encrypt (key iv m : list byte) :
  length iv = CBC.block_size ->
  CBC.decrypt key iv (CBC.encrypt key iv m) = Ok m.
Proof.
  intro Hiv. unfold CBC.decrypt.
  rewrite length_cbc_encrypt by exact Hiv.
  replace (CBC.block_size * (length m / CBC.block_size + 1) =? 0) with false
    by (symmetry; apply Nat.eqb_neq; unfold CBC.block_size; lia).
  rewrite Nat.mul_comm, Nat.Div0.mod_mul. cbn [Nat.eqb negb orb].
  unfold CBC.encrypt.
  rewrite blocks_concat_whole
    by (apply whole_encrypt_blocks; [exact Hiv|apply whole_blocks_pad]).
  rewrite decrypt_blocks_encrypt_blocks by (try exact Hiv; apply whole_blocks_pad).
  destruct (blocks_pad m) as (E & W & Hl). rewrite E.
  destruct (pad_split m) as (_ & _ & Hr & _).
  rewrite last_last, removelast_last, unpad_padded by exact Hr.
  rewrite concat_blocks. now rewrite firstn_skipn.
Qed.

(** * The cipher objects run CBC with padding *)

(** One [update] followed by [final] on a new cipher object returns,
    together, the CBC encryption of the padded input. *)
Lemma cipher_update_final (key iv data : list byte) :
  let c := {| Cipheriv.key := key; Cipheriv.chain := iv; Cipheriv.buf := [] |} in
  fst (Cipheriv.update_bytes c data)
    ++ Cipheriv.final_bytes (snd (Cipheriv.update_bytes c data))
  = CBC.encrypt key iv data.
Proof.
  cbv zeta. unfold Cipheriv.update_bytes, Cipheriv.final_bytes, CBC.encrypt.
  cbn [fst snd Cipheriv.key Cipheriv.chain Cipheriv.buf app].
  set (n := length data / CBC.block_size * CBC.block_size).
  destruct (blocks_pad data) as (E & W & Hl). fold n in E, W, Hl.
  destruct (pad_split data) as (_ & _ & Hr & _). fold n in Hr.
  rewrite E, encrypt_blocks_app, concat_app. f_equal.
  cbn [CBC.encrypt_blocks concat]. rewrite app_nil_r.
  unfold CBC.padding. rewrite Nat.mod_small by exact Hr. reflexivity.
Qed.

Lemma blocks_not_nil (l : list byte) : l <> [] -> CBC.blocks l <> [].
Proof. destruct l; [congruence|]. discriminate. Qed.

Lemma decrypt_blocks_not_nil (key chain : list byte) (cs : list (list byte)) :
  cs <> [] -> CBC.decrypt_blocks key chain cs <> [].
Proof. destruct cs; [congruence|]. discriminate. Qed.

(** One [update] followed by [final] on a new decipher object is the CBC
    decryption of the input, with the same failures. *)
Lemma decipher_update_final (key iv ct : list byte) :
  let d := {| Decipheriv.key := key; Decipheriv.chain := iv; Decipheriv.buf := [];
              Decipheriv.held := None |} in
  (tail <- Decipheriv.final (snd (Decipheriv.update d ct)) ;;
   Ok (fst (Decipheriv.update d ct) ++ tail))%result
  = CBC.decrypt key iv ct.
Proof.
  cbv zeta. destruct ct as [|x t]; [reflexivity|].
  set (ct := x :: t). unfold CBC.decrypt.
  replace (length ct =? 0) with false by reflexivity. cbn [orb].
  unfold Decipheriv.update. fold ct.
  cbn [Decipheriv.key Decipheriv.chain Decipheriv.buf Decipheriv.held app].
  change (match ct with [] => _ | _ :: _ => ?b end) with b.
  set (n := length ct / CBC.block_size * CBC.block_size).
  pose proof (Nat.div_mod_eq (length ct) CBC.block_size) as Hdm.
  assert (Hs : length (skipn n ct) = length ct mod CBC.block_size)
    by (rewrite length_skipn; unfold n; lia).
  destruct (Nat.eqb_spec (length ct mod CBC.block_size) 0) as [Hm|Hm]; cbn [negb].
  - assert (Hn : n = length ct) by (unfold n; lia).
    rewrite Hn, skipn_all, firstn_all.
    destruct (CBC.decrypt_blocks key iv (CBC.blocks ct)) as [|p ps] eqn:Eps.
    { exfalso. revert Eps. apply decrypt_blocks_not_nil, blocks_not_nil. discriminate. }
    cbn [fst snd]. unfold Decipheriv.final. cbn [Decipheriv.buf Decipheriv.held].
    destruct (CBC.unpad (last (p :: ps) [])); reflexivity.
  - destruct (skipn n ct) as [|y r] eqn:Er; [cbn [length] in Hs; congruence|].
    reflexivity.
Qed.

(** * JSON.stringify returns a well-formed string *)

Lemma wf_app (a b : jsstring) :
  Utf8.isWellFormed a = true -> Utf8.isWellFormed b = true ->
  Utf8.isWellFormed (a ++ b) = true.
Proof.
  intros Ha Hb. revert a Ha. apply isWellFormed_ind.
  - exact Hb.
  - intros c t Hc Hns Ht IH. cbn [app Utf8.isWellFormed].
    assert (Eh : Utf8.is_high_surrogate c = false) by (apply is_high_surrogate_false; lia).
    assert (El : Utf8.is_low_surrogate c = false) by (apply is_low_surrogate_false; lia).
    rewrite Eh, El, IH. cbn [negb andb]. rewrite andb_true_r. now apply N.ltb_lt.
  - intros h l t Hh Hl Ht IH. cbn [app Utf8.isWellFormed].
    assert (Eh : Utf8.is_high_surrogate h = true) by (now apply is_high_surrogate_true).
    assert (El : Utf8.is_low_surrogate l = true) by (now apply is_low_surrogate_true).
    now rewrite Eh, El, IH.
Qed.

Lemma wf_ascii_app (a b : jsstring) :
  is_ascii a = true -> Utf8.isWellFormed b = true -> Utf8.isWellFormed (a ++ b) = true.
Proof. intros Ha Hb. apply wf_app; [now apply is_ascii_wf|exact Hb]. Qed.

Lemma hex4_ascii (c : N) : is_ascii (JSON.hex4 c) = true.
Proof.
  unfold JSON.hex4. apply lower_hex_ascii. cbn [forallb].
  rewrite !is_lower_hex_digit by nlia. reflexivity.
Qed.

Lemma unicode_escape_ascii (c : N) : is_ascii (JSON.unicode_escape c) = true.
Proof. unfold JSON.unicode_escape. rewrite is_ascii_app, hex4_ascii. reflexivity. Qed.

Lemma wf_quote_body (s : jsstring) :
  valid_string s = true -> Utf8.isWellFormed (JSON.quote_body s) = true.
Proof.
  remember (length s) as n eqn:Hn. revert s Hn.
  induction n as [n IH] using lt_wf_ind. intros s Hn Hv.
  destruct s as [|c t]; [reflexivity|].
  cbn [valid_string forallb] in Hv. apply andb_true_iff in Hv as [Hc Ht].
  apply N.ltb_lt in Hc. fold (valid_string t) in Ht.
  assert (IHt : Utf8.isWellFormed (JSON.quote_body t) = true)
    by (apply (IH (length t)); [subst n; simpl; lia|reflexivity|exact Ht]).
  cbn [JSON.quote_body].
  repeat match goal with
         | |- context [if (?a =? ?b)%N then _ else _] =>
             destruct (N.eqb_spec a b);
             [apply wf_ascii_app; [reflexivity|exact IHt]|]
         end.
  destruct (N.ltb_spec c 32);
    [apply wf_ascii_app; [apply unicode_escape_ascii|exact IHt]|].
  destruct (Utf8.is_high_surrogate c) eqn:Eh.
  - destruct t as [|d t'].
    + apply is_ascii_wf, unicode_escape_ascii.
    + destruct (Utf8.is_low_surrogate d) eqn:El.
      * cbn [Utf8.isWellFormed]. rewrite Eh, El. cbn [andb].
        cbn [valid_string forallb] in Ht. apply andb_true_iff in Ht as [_ Ht'].
        apply (IH (length t')); [subst n; simpl; lia|reflexivity|exact Ht'].
      * apply wf_ascii_app; [apply unicode_escape_ascii|exact IHt].
  - destruct (Utf8.is_low_surrogate c) eqn:El.
    + apply wf_ascii_app; [apply unicode_escape_ascii|exact IHt].
    + cbn [Utf8.isWellFormed]. rewrite Eh, El, IHt. cbn [negb andb].
      rewrite andb_true_r. now apply N.ltb_lt.
Qed.

Lemma wf_quote (s : jsstring) :
  valid_string s = true -> Utf8.isWellFormed (JSON.quote s) = true.
Proof.
  intro Hv. unfold JSON.quote.
  apply wf_ascii_app; [reflexivity|].
  apply wf_app; [now apply wf_quote_body|reflexivity].
Qed.

Lemma wf_join (sep : jsstring) (parts : list jsstring) :
  Utf8.isWellFormed sep = true ->
  Forall (fun p => Utf8.isWellFormed p = true) parts ->
  Utf8.isWellFormed (join sep parts) = true.
Proof.
  intros Hs. induction 1 as [|p ps Hp Hps IH]; [reflexivity|].
  cbn [join]. destruct ps as [|q qs]; [exact Hp|].
  apply wf_app; [exact Hp|]. apply wf_app; [exact Hs|exact IH].
Qed.

(** The enumeration of an object's properties lists properties of the
    object. *)
Lemma In_insert_index {A : Type} (i j : N) (x y : A) (l : list (N * A)) :
  In (i, x) (JSON.insert_index j y l) -> (i, x) = (j, y) \/ In (i, x) l.
Proof.
  induction l as [|[k z] l IH]; cbn [JSON.insert_index].
  - intros [H|[]]; auto.
  - destruct (j <? k)%N.
    + intros [H|H]; auto.
    + intros [H|H]; [right; left; exact H|].
      destruct (IH H) as [E|E]; [left; exact E|right; right; exact E].
Qed.

Lemma In_index_props {A : Type} (i : N) (p : jsstring * A) (l : list (jsstring * A)) :
  In (i, p) (JSON.index_props l) -> In p l.
Proof.
  induction l as [|[k v] l IH]; cbn [JSON.index_props]; [intros []|].
  destruct (JSON.array_index k).
  - intro H. apply In_insert_index in H as [E|H].
    + left. now inversion E.
    + right. now apply IH.
  - intro H. right. now apply IH.
Qed.

Lemma In_enumerate {A : Type} (p : jsstring * A) (l : list (jsstring * A)) :
  In p (JSON.enumerate l) -> In p l.
Proof.
  unfold JSON.enumerate. rewrite in_app_iff, in_map_iff, filter_In.
  intros [[[i q] [E H]]|[H _]]; [|exact H].
  cbn [snd] in E. subst q. now apply In_index_props in H.
Qed.

Lemma wf_stringify (v : JSValue) :
  valid_value v = true -> Utf8.isWellFormed (JSON.stringify v) = true.
Proof.
  induction v as [|b|text|s|items IH|props IH] using JSValue_ind2; intro Hv.
  - reflexivity.
  - destruct b; reflexivity.
  - cbn in *. now apply is_ascii_wf.
  - cbn in *. now apply wf_quote.
  - cbn [JSON.stringify]. cbn [valid_value] in Hv.
    apply wf_ascii_app; [reflexivity|].
    apply wf_app; [|reflexivity].
    apply wf_join; [reflexivity|].
    rewrite Forall_forall in *. intros p Hp.
    apply in_map_iff in Hp as [x [<- Hx]].
    apply IH; [exact Hx|].
    rewrite forallb_forall in Hv. now apply Hv.
  - cbn [JSON.stringify]. cbn [valid_value] in Hv.
    apply wf_ascii_app; [reflexivity|].
    apply wf_app; [|reflexivity].
    apply wf_join; [reflexivity|].
    rewrite Forall_forall in *. intros m Hm.
    apply in_map_iff in Hm as [q [<- Hq]].
    apply In_enumerate in Hq. apply in_map_iff in Hq as [p [<- Hp]].
    rewrite forallb_forall in Hv. specialize (Hv p Hp).
    apply andb_true_iff in Hv as [Hk Hval]. cbn [fst snd].
    apply wf_app; [now apply wf_quote|].
    apply wf_ascii_app; [reflexivity|]. now apply IH.
Qed.

(** * The two codecs in terms of CBC *)

Lemma jsstring_eqb_refl (s : jsstring) : jsstring_eqb s s = true.
Proof. unfold jsstring_eqb. destruct (list_eq_dec N.eq_dec s s); congruence. Qed.

Lemma jsstring_eqb_eq (a b : jsstring) : jsstring_eqb a b = true <-> a = b.
Proof.
  unfold jsstring_eqb. destruct (list_eq_dec N.eq_dec a b); split; congruence.
Qed.

Lemma length_randomBytes (n : nat) (w : World) : length (fst (randomBytes n w)) = n.
Proof. unfold randomBytes. cbn [fst]. now rewrite length_map, length_seq. Qed.

Lemma check_ok (key iv : Buffer) :
  length key = 32 -> length iv = 16 -> crypto.check aes_256_cbc key iv = Ok tt.
Proof.
  intros Hk Hi. unfold crypto.check.
  now rewrite jsstring_eqb_refl, Hk, Hi.
Qed.

Lemma check_bad_iv (key iv : Buffer) :
  length iv <> 16 -> crypto.check aes_256_cbc key iv = Throw ERR_CRYPTO_INVALID_IV.
Proof.
  intro Hi. unfold crypto.check. rewrite jsstring_eqb_refl. cbn [negb].
  apply Nat.eqb_neq in Hi. now rewrite Hi.
Qed.

(** The hexadecimal text both codecs produce for a plaintext. *)
Lemma cipher_hex (key iv : Buffer) (data : jsstring) :
  let c := {| Cipheriv.key := key; Cipheriv.chain := iv; Cipheriv.buf := [] |} in
  fst (Cipheriv.update c data utf8 hex)
    ++ Cipheriv.final (snd (Cipheriv.update c data utf8 hex)) hex
  = Hex.encode (CBC.encrypt key iv (Utf8.encode data)).
Proof.
  cbv zeta. rewrite <- cipher_update_final, hex_encode_app.
  unfold Cipheriv.update, Cipheriv.final. cbn [BufferOps.from BufferOps.toString].
  destruct (Cipheriv.update_bytes _ (Utf8.encode data)) as [out c']. reflexivity.
Qed.

Lemma constructor_well_keyed (w : World) :
  well_keyed (fst (PNP.PNPEncryption.constructor w)).
Proof.
  unfold PNP.PNPEncryption.constructor, well_keyed.
  destruct (randomBytes 32 w) as [k w'] eqn:E. cbn.
  split; [reflexivity|]. change k with (fst (k, w')). rewrite <- E.
  apply length_randomBytes.
Qed.

(** * The wire text *)

Lemma wire_parts (iv ct : Buffer) :
  before 58 (wire iv ct) = Hex.encode iv /\ after 58 (wire iv ct) = Hex.encode ct.
Proof.
  unfold wire. change (lit ":") with [58%N]. cbn [app].
  pose proof (lower_hex_no_sep _ (hex_encode_lower iv)) as Hn.
  split; [now apply before_app_sep|now apply after_app_sep].
Qed.

Lemma wire_ascii (iv ct : Buffer) : is_ascii (wire iv ct) = true.
Proof.
  unfold wire. rewrite !is_ascii_app.
  rewrite (lower_hex_ascii (Hex.encode iv)), (lower_hex_ascii (Hex.encode ct))
    by apply hex_encode_lower.
  reflexivity.
Qed.

Lemma length_wire (iv ct : Buffer) :
  length (wire iv ct) = 2 * length iv + 1 + 2 * length ct.
Proof.
  unfold wire. rewrite !length_app, !length_hex_encode. cbn [length lit map
    list_ascii_of_string]. lia.
Qed.

Lemma decode_wire (iv ct : Buffer) : Utf8.decode (Utf8.encode (wire iv ct)) = wire iv ct.
Proof. apply utf8_decode_encode, is_ascii_wf, wire_ascii. Qed.

Lemma wire_inj (iv1 ct1 iv2 ct2 : Buffer) :
  Utf8.encode (wire iv1 ct1) = Utf8.encode (wire iv2 ct2) -> iv1 = iv2 /\ ct1 = ct2.
Proof.
  intro H. apply (f_equal Utf8.decode) in H. rewrite !decode_wire in H.
  destruct (wire_parts iv1 ct1) as [B1 A1]. destruct (wire_parts iv2 ct2) as [B2 A2].
  split.
  - rewrite <- (hex_decode_encode iv1), <- (hex_decode_encode iv2), <- B1, <- B2.
    now rewrite H.
  - rewrite <- (hex_decode_encode ct1), <- (hex_decode_encode ct2), <- A1, <- A2.
    now rewrite H.
Qed.

Lemma wire_has_sep (iv ct : Buffer) : contains 58 (wire iv ct) = true.
Proof.
  unfold wire, contains. rewrite !existsb_app. cbn. now rewrite orb_true_r.
Qed.

(** ** The codec of part_000 *)

Section PNP_codec.

Variable this : PNP.PNPEncryption.t.
Hypothesis Hkeyed : well_keyed this.

Lemma pnp_encrypt_eq (data : jsstring) (w : World) :
  PNP.PNPEncryption.encrypt this data w =
  (Ok (Utf8.encode
         (wire (fst (randomBytes 16 w))
               (CBC.encrypt (PNP.PNPEncryption.key this) (fst (randomBytes 16 w))
                  (Utf8.encode data)))),
   snd (randomBytes 16 w)).
Proof.
  destruct Hkeyed as [Ha Hk]. unfold PNP.PNPEncryption.encrypt.
  pose proof (length_randomBytes 16 w) as Hiv.
  destruct (randomBytes 16 w) as [iv w']. cbn [fst snd] in *.
  unfold crypto.createCipheriv. rewrite Ha, check_ok by assumption.
  cbn [Result_bind].
  pose proof (cipher_hex (PNP.PNPEncryption.key this) iv data) as Hc. cbv zeta in Hc.
  destruct (Cipheriv.update _ data utf8 hex) as [encrypted cipher].
  cbn [fst snd] in Hc. rewrite Hc. reflexivity.
Qed.

Lemma pnp_decrypt_eq (data : Buffer) :
  PNP.PNPEncryption.decrypt this data =
  let text := Utf8.decode data in
  let iv := Hex.decode (before 58 text) in
  let ct := Hex.decode (after 58 text) in
  if length iv =? 16
  then (plain <- CBC.decrypt (PNP.PNPEncryption.key this) iv ct ;;
        Ok (Utf8.decode plain))%result
  else Throw ERR_CRYPTO_INVALID_IV.
Proof.
  destruct Hkeyed as [Ha Hk]. unfold PNP.PNPEncryption.decrypt. cbv zeta.
  cbn [BufferOps.toString BufferOps.from].
  change (JSON.ch ":") with 58%N. change (lit ":") with [58%N].
  destruct (shift_split 58 (Utf8.decode data)) as [Hf Hj].
  destruct (shift (split 58 (Utf8.decode data))) as [first parts].
  cbn [fst snd] in Hf, Hj. rewrite Hf, Hj. cbn [Result_bind].
  unfold crypto.createDecipheriv. rewrite Ha.
  destruct (Nat.eqb_spec (length (Hex.decode (before 58 (Utf8.decode data)))) 16) as [Hi|Hi].
  - rewrite check_ok by assumption. cbn [Result_bind].
    rewrite <- decipher_update_final.
    destruct (Decipheriv.update _ _) as [head decipher]. cbn [fst snd].
    destruct (Decipheriv.final decipher); reflexivity.
  - rewrite check_bad_iv by assumption. reflexivity.
Qed.

(** A payload without a colon leaves no ciphertext: decrypt throws. *)
Lemma pnp_decrypt_no_sep (data : Buffer) :
  contains 58 (Utf8.decode data) = false ->
  threw (PNP.PNPEncryption.decrypt this data) = true.
Proof.
  intro Hc. rewrite pnp_decrypt_eq. cbv zeta.
  rewrite (after_no_sep _ _ Hc). cbn [Hex.decode].
  destruct (_ =? 16); reflexivity.
Qed.

(** Decrypting, with the key and the IV it was made with, the wire text
    of the encryption of a well-formed string gives the string. *)
Lemma pnp_roundtrip (x : jsstring) (w : World) :
  Utf8.isWellFormed x = true ->
  exists payload,
    fst (PNP.PNPEncryption.encrypt this x w) = Ok payload /\
    PNP.PNPEncryption.decrypt this payload = Ok x.
Proof.
  intro Hx. rewrite pnp_encrypt_eq. cbn [fst].
  eexists. split; [reflexivity|].
  rewrite pnp_decrypt_eq. cbv zeta.
  rewrite decode_wire.
  destruct (wire_parts (fst (randomBytes 16 w))
              (CBC.encrypt (PNP.PNPEncryption.key this) (fst (randomBytes 16 w))
                 (Utf8.encode x))) as [Hb Ha].
  rewrite Hb, Ha, !hex_decode_encode, length_randomBytes. cbn [Nat.eqb].
  rewrite cbc_decrypt_encrypt by apply length_randomBytes.
  cbn [Result_bind]. now rewrite utf8_decode_encode.
Qed.

End PNP_codec.

(** ** The codec of src/PapayaClient.ts *)

Section PapayaClient_codec.

Variable this : PapayaClient.PNPEncryption.t.

Lemma old_encrypt_general (data : jsstring) :
  PapayaClient.PNPEncryption.encrypt this data =
  (_ <- crypto.check (PapayaClient.PNPEncryption.algorithm this)
          (PapayaClient.PNPEncryption.key this) (PapayaClient.PNPEncryption.iv this) ;;
   Ok (Hex.encode (CBC.encrypt (PapayaClient.PNPEncryption.key this)
                     (PapayaClient.PNPEncryption.iv this) (Utf8.encode data))))%result.
Proof.
  unfold PapayaClient.PNPEncryption.encrypt, crypto.createCipheriv.
  destruct (crypto.check _ _ _) as [[]|e]; [|reflexivity].
  cbn [Result_bind].
  pose proof (cipher_hex (PapayaClient.PNPEncryption.key this)
                (PapayaClient.PNPEncryption.iv this) data) as Hc. cbv zeta in Hc.
  destruct (Cipheriv.update _ data utf8 hex) as [encrypted cipher].
  cbn [fst snd] in Hc. now rewrite Hc.
Qed.

Lemma old_decrypt_general (data : Buffer) :
  PapayaClient.PNPEncryption.decrypt this data =
  (_ <- crypto.check (PapayaClient.PNPEncryption.algorithm this)
          (PapayaClient.PNPEncryption.key this) (PapayaClient.PNPEncryption.iv this) ;;
   if Nat.even (length (Utf8.decode data))
   then (plain <- CBC.decrypt (PapayaClient.PNPEncryption.key this)
                    (PapayaClient.PNPEncryption.iv this) (Hex.decode (Utf8.decode data)) ;;
         Ok (Utf8.decode plain))
   else Throw ERR_INVALID_ARG_VALUE)%result.
Proof.
  unfold PapayaClient.PNPEncryption.decrypt, crypto.createDecipheriv.
  destruct (crypto.check _ _ _) as [[]|e]; [|reflexivity].
  cbn [Result_bind BufferOps.toString].
  unfold Decipheriv.update_string, Decipheriv.validateEncoding.
  destruct (Nat.even (length (Utf8.decode data))); [|reflexivity].
  cbn [Result_bind BufferOps.from].
  rewrite <- decipher_update_final.
  destruct (Decipheriv.update _ _) as [head decipher]. cbn [fst snd].
  destruct (Decipheriv.final decipher); reflexivity.
Qed.

Hypothesis Hkeyed : well_keyed_old this.

Lemma old_check_ok :
  crypto.check (PapayaClient.PNPEncryption.algorithm this)
    (PapayaClient.PNPEncryption.key this) (PapayaClient.PNPEncryption.iv this) = Ok tt.
Proof. destruct Hkeyed as (Ha & Hk & Hi). rewrite Ha. now apply check_ok. Qed.

Lemma old_encrypt_eq (data : jsstring) :
  PapayaClient.PNPEncryption.encrypt this data =
  Ok (Hex.encode (CBC.encrypt (PapayaClient.PNPEncryption.key this)
                    (PapayaClient.PNPEncryption.iv this) (Utf8.encode data))).
Proof. now rewrite old_encrypt_general, old_check_ok. Qed.

Lemma old_decrypt_eq (data : Buffer) :
  PapayaClient.PNPEncryption.decrypt this data =
  let text := Utf8.decode data in
  if Nat.even (length text)
  then (plain <- CBC.decrypt (PapayaClient.PNPEncryption.key this)
                   (PapayaClient.PNPEncryption.iv this) (Hex.decode text) ;;
        Ok (Utf8.decode plain))%result
  else Throw ERR_INVALID_ARG_VALUE.
Proof. now rewrite old_decrypt_general, old_check_ok. Qed.

Lemma old_roundtrip (x : jsstring) :
  Utf8.isWellFormed x = true ->
  exists text,
    PapayaClient.PNPEncryption.encrypt this x = Ok text /\
    PapayaClient.PNPEncryption.decrypt this (BufferOps.from text utf8) = Ok x.
Proof.
  intro Hx. rewrite old_encrypt_eq.
  eexists. split; [reflexivity|].
  rewrite old_decrypt_eq. cbv zeta. cbn [BufferOps.from].
  rewrite utf8_decode_encode
    by (apply is_ascii_wf, lower_hex_ascii, hex_encode_lower).
  rewrite length_hex_encode, Nat.even_mul. cbn [Nat.even orb].
  rewrite hex_decode_encode.
  destruct Hkeyed as (_ & _ & Hi).
  rewrite cbc_decrypt_encrypt by exact Hi.
  cbn [Result_bind]. now rewrite utf8_decode_encode.
Qed.

End PapayaClient_codec.

(** * sendRequest *)

(** What [sendRequest] of part_000 does to the world and what it leaves,
    step by step. *)
Lemma pnp_sendRequest_eq (this : PNP.t) (request : JSValue) (w : World) :
  well_keyed (PNP.encryption this) ->
  let iv := fst (randomBytes 16 w) in
  let encrypted :=
    Utf8.encode (wire iv (CBC.encrypt (PNP.PNPEncryption.key (PNP.encryption this)) iv
                            (Utf8.encode (JSON.stringify request)))) in
  PNP.sendRequest this request w =
  match hd None (write_faults w) with
  | Some msg =>
      (Rejected (SocketError msg),
       {| entropy := entropy w; drawn := drawn w + 16;
          write_faults := tl (write_faults w); incoming := incoming w;
          trace := trace w ++ [EvWrite encrypted] |})
  | None =>
      (match incoming w with
       | OnData data :: _ =>
           settle (text <- PNP.PNPEncryption.decrypt (PNP.encryption this) data ;;
                   JSON.parse text)%result
       | OnError msg :: _ => Rejected (SocketError msg)
       | [] => Pending
       end,
       {| entropy := entropy w; drawn := drawn w + 16;
          write_faults := tl (write_faults w); incoming := tl (incoming w);
          trace := (trace w ++ [EvWrite encrypted]) ++ [EvReceive] |})
  end.
Proof.
  intros Hk iv encrypted.
  unfold PNP.sendRequest, Async_bind, pure_sync, sync.
  rewrite pnp_encrypt_eq by exact Hk. fold iv. fold encrypted.
  unfold PNP.PNPConnection.send, PNP.PNPConnection.receive, randomBytes.
  destruct w as [en dr wf inc tr].
  cbn [fst snd entropy drawn write_faults incoming trace].
  destruct (hd None wf) as [msg|]; [reflexivity|].
  destruct inc as [|[data|msg] rest];
    cbn [fst snd entropy drawn write_faults incoming trace tl]; try reflexivity.
  destruct (PNP.PNPEncryption.decrypt (PNP.encryption this) data) as [text|e];
    cbn [Result_bind settle]; [|reflexivity].
  destruct (JSON.parse text); reflexivity.
Qed.

Lemma old_sendRequest_eq (this : PapayaClient.t) (request : JSValue) (w : World) :
  well_keyed_old (PapayaClient.encryption this) ->
  let encrypted :=
    Utf8.encode (Hex.encode
      (CBC.encrypt (PapayaClient.PNPEncryption.key (PapayaClient.encryption this))
         (PapayaClient.PNPEncryption.iv (PapayaClient.encryption this))
         (Utf8.encode (JSON.stringify request)))) in
  PapayaClient.sendRequest this request w =
  match hd None (write_faults w) with
  | Some msg =>
      (Rejected NoReason,
       {| entropy := entropy w; drawn := drawn w;
          write_faults := tl (write_faults w); incoming := incoming w;
          trace := trace w ++ [EvWrite encrypted] |})
  | None =>
      (match incoming w with
       | OnData data :: _ =>
           settle (text <- PapayaClient.PNPEncryption.decrypt (PapayaClient.encryption this) data ;;
                   JSON.parse text)%result
       | OnError msg :: _ => Rejected (SocketError msg)
       | [] => Pending
       end,
       {| entropy := entropy w; drawn := drawn w;
          write_faults := tl (write_faults w); incoming := tl (incoming w);
          trace := (trace w ++ [EvWrite encrypted]) ++ [EvReceive] |})
  end.
Proof.
  intros Hk encrypted.
  unfold PapayaClient.sendRequest, Async_bind, pure_sync, sync.
  rewrite old_encrypt_eq by exact Hk. cbn [BufferOps.from]. fold encrypted.
  unfold PapayaClient.PNPConnection.send, PapayaClient.PNPConnection.receive.
  destruct w as [en dr wf inc tr].
  cbn [fst snd entropy drawn write_faults incoming trace].
  destruct (hd None wf) as [msg|]; [reflexivity|].
  destruct inc as [|[data|msg] rest];
    cbn [fst snd entropy drawn write_faults incoming trace tl]; try reflexivity.
  destruct (PapayaClient.PNPEncryption.decrypt _ data) as [text|e];
    cbn [Result_bind settle]; [|reflexivity].
  destruct (JSON.parse text); reflexivity.
Qed.

Lemma parse_throws_SyntaxError (text : jsstring) (e : Error) :
  JSON.parse text = Throw e -> e = SyntaxError.
Proof.
  unfold JSON.parse.
  destruct (JSON.parse_value _ text) as [[v r]|]; [|congruence].
  destruct (JSON.skip_ws r); congruence.
Qed.

Lemma pnp_constructor_well_keyed (host : jsstring) (port : N) (debugMode : bool) (w : World) :
  well_keyed (PNP.encryption (fst (PNP.constructor host port debugMode w))).
Proof.
  unfold PNP.constructor.
  pose proof (constructor_well_keyed w) as H.
  destruct (PNP.PNPEncryption.constructor w) as [enc w']. exact H.
Qed.

(** * The Buffers of a codec and its caller *)

Section Caller_facts.
Import Memory Caller.

Lemma length_replace (A : Type) (i : nat) (x : A) (l : list A) :
  length (replace_nth i x l) = length l.
Proof.
  revert i. induction l as [|y l IH]; intros [|i]; cbn [replace_nth length]; auto.
Qed.

Lemma nth_replace_other (A : Type) (i j : nat) (x d : A) (l : list A) :
  i <> j -> nth j (replace_nth i x l) d = nth j l d.
Proof.
  revert i j. induction l as [|y l IH]; intros [|i] [|j] H; cbn [replace_nth nth];
    try reflexivity; try congruence.
  apply IH. congruence.
Qed.

Lemma length_store (r : Ref) (i : nat) (x : byte) (h : Heap) :
  length (store r i x h) = length h.
Proof. apply length_replace. Qed.

Lemma read_store_other (r r' : Ref) (i : nat) (x : byte) (h : Heap) :
  r <> r' -> read r' (store r i x h) = read r' h.
Proof. intro H. unfold read, store. now apply nth_replace_other. Qed.

Lemma read_app (r : Ref) (h extra : Heap) : r < length h -> read r (h ++ extra) = read r h.
Proof. intro H. unfold read. now apply app_nth1. Qed.

Variable encrypt : jsstring -> Heap -> World -> option Ref * Heap * World.

(** [encrypt] leaves the Buffers that were there as they are, and the
    reference it hands out is to a new one. *)
Hypothesis encrypt_adds :
  forall data h w,
    exists extra, snd (fst (encrypt data h w)) = h ++ extra /\
                  forall p, fst (fst (encrypt data h w)) = Some p -> length h <= p.

Lemma step_heap_grows (s : Step) (c : State) :
  length (heap c) <= length (heap (step encrypt s c)).
Proof.
  destruct s as [data|b|octets|b i x]; cbn [step].
  - destruct (encrypt_adds data (heap c) (world c)) as (extra & He & _).
    destruct (encrypt data (heap c) (world c)) as [[r h] w]. cbn [fst snd heap] in *.
    rewrite He, length_app. lia.
  - lia.
  - cbn [alloc heap]. rewrite length_app. lia.
  - destruct (nth_error (held c) b); cbn [heap]; [rewrite length_store|]; lia.
Qed.

Lemma step_stored (s : Step) (c : State) (r : Ref) :
  In r (stored c) -> In r (stored (step encrypt s c)).
Proof.
  intro H. destruct s as [data|b|octets|b i x]; cbn [step].
  - destruct (encrypt data (heap c) (world c)) as [[r0 h] w]. exact H.
  - exact H.
  - exact H.
  - destruct (nth_error (held c) b); cbn [stored]; [apply in_or_app; now left|exact H].
Qed.

Lemma run_stored (steps : list Step) (c : State) (r : Ref) :
  In r (stored c) -> In r (stored (run encrypt steps c)).
Proof.
  revert c. induction steps as [|s steps IH]; intros c H; [exact H|].
  cbn [run fold_left]. apply IH. now apply step_stored.
Qed.

(** A step changes the octets of the Buffers it stores to, and of no
    other that was there. *)
Lemma step_read (s : Step) (c : State) (r : Ref) :
  r < length (heap c) -> ~ In r (stored (step encrypt s c)) ->
  read r (heap (step encrypt s c)) = read r (heap c).
Proof.
  intros Hr Hs. destruct s as [data|b|octets|b i x]; cbn [step] in *.
  - destruct (encrypt_adds data (heap c) (world c)) as (extra & He & _).
    destruct (encrypt data (heap c) (world c)) as [[r0 h] w]. cbn [fst snd heap] in *.
    rewrite He. now apply read_app.
  - reflexivity.
  - cbn [alloc heap]. now apply read_app.
  - destruct (nth_error (held c) b) as [r0|]; [|reflexivity].
    cbn [heap stored] in *. apply read_store_other.
    intros ->. apply Hs, in_or_app. right. now left.
Qed.

Lemma run_read (steps : list Step) (c : State) (r : Ref) :
  r < length (heap c) -> ~ In r (stored (run encrypt steps c)) ->
  read r (heap (run encrypt steps c)) = read r (heap c).
Proof.
  revert c. induction steps as [|s steps IH]; intros c Hr Hs; [reflexivity|].
  cbn [run fold_left] in *. fold (run encrypt steps (step encrypt s c)) in *.
  rewrite IH; [|pose proof (step_heap_grows s c); lia|exact Hs].
  apply step_read; [exact Hr|].
  intro H. apply Hs. now apply run_stored.
Qed.

(** The caller stores to Buffers it holds, and a Buffer it does not hold
    and that is there already never comes into its hands. *)
Lemma step_out_of_reach (s : Step) (c : State) (r : Ref) :
  r < length (heap c) -> ~ In r (held c) -> ~ In r (stored c) ->
  ~ In r (held (step encrypt s c)) /\ ~ In r (stored (step encrypt s c)).
Proof.
  intros Hr Hh Hs. destruct s as [data|b|octets|b i x]; cbn [step].
  - destruct (encrypt_adds data (heap c) (world c)) as (extra & _ & Hp).
    destruct (encrypt data (heap c) (world c)) as [[[p|] h] w]; cbn [fst snd held stored] in *;
      [|auto].
    split; [|exact Hs]. intro H. apply in_app_or in H as [H|[->|[]]]; [auto|].
    specialize (Hp r eq_refl). lia.
  - auto.
  - cbn [alloc held stored]. split; [|exact Hs].
    intro H. apply in_app_or in H as [H|[<-|[]]]; [auto|lia].
  - destruct (nth_error (held c) b) as [r0|] eqn:E; [|auto].
    cbn [held stored]. split; [exact Hh|].
    intro H. apply in_app_or in H as [H|[<-|[]]]; [auto|].
    apply Hh. eapply nth_error_In. exact E.
Qed.

Lemma run_out_of_reach (steps : list Step) (c : State) (r : Ref) :
  r < length (heap c) -> ~ In r (held c) -> ~ In r (stored c) ->
  ~ In r (stored (run encrypt steps c)).
Proof.
  revert c. induction steps as [|s steps IH]; intros c Hr Hh Hs; [exact Hs|].
  cbn [run fold_left]. fold (run encrypt steps (step encrypt s c)).
  destruct (step_out_of_reach s c r Hr Hh Hs) as [Hh' Hs'].
  apply IH; [pose proof (step_heap_grows s c); lia|exact Hh'|exact Hs'].
Qed.

End Caller_facts.

Lemma pnp_encrypt_call_adds (this : PNPObject.t) (data : jsstring) (h : Memory.Heap)
  (w : World) :
  exists extra, snd (fst (pnp_encrypt_call this data h w)) = h ++ extra /\
                forall p, fst (fst (pnp_encrypt_call this data h w)) = Some p -> length h <= p.
Proof.
  unfold pnp_encrypt_call, PNPObject.encrypt.
  destruct (PNP.PNPEncryption.encrypt _ data w) as [[payload|e] w']; cbn [Memory.alloc fst snd].
  - exists [payload]. split; [reflexivity|]. intros p [= <-]. lia.
  - exists []. split; [now rewrite app_nil_r|]. discriminate.
Qed.

Lemma papaya_encrypt_call_adds (this : PapayaObject.t) (data : jsstring) (h : Memory.Heap)
  (w : World) :
  exists extra, snd (fst (papaya_encrypt_call this data h w)) = h ++ extra /\
                forall p, fst (fst (papaya_encrypt_call this data h w)) = Some p ->
                          length h <= p.
Proof. exists []. split; [cbn; now rewrite app_nil_r|discriminate]. Qed.

(** * Properties of the client *)

(** C1.  Decrypting what encrypt returned, on the same codec, gives the
    plaintext back, for every well-formed string (the empty one too) and
    so for the JSON text of every request; in both files.  In
    src/PapayaClient.ts encrypt returns a string, which sendRequest turns
    into octets with Buffer.from, and the codec must have been given a
    key of 32 and an IV of 16 octets for encrypt to return at all. *)
Theorem decrypt_encrypt_roundtrip :
  (forall (w0 w : World) (x : jsstring),
     Utf8.isWellFormed x = true ->
     exists payload,
       fst (PNP.PNPEncryption.encrypt (fst (PNP.PNPEncryption.constructor w0)) x w)
         = Ok payload /\
       PNP.PNPEncryption.decrypt (fst (PNP.PNPEncryption.constructor w0)) payload = Ok x)
  /\
  (forall (w0 w : World) (r : JSValue),
     valid_value r = true ->
     exists payload,
       fst (PNP.PNPEncryption.encrypt (fst (PNP.PNPEncryption.constructor w0))
              (JSON.stringify r) w) = Ok payload /\
       PNP.PNPEncryption.decrypt (fst (PNP.PNPEncryption.constructor w0)) payload
         = Ok (JSON.stringify r))
  /\
  (forall (key iv : Buffer) (x : jsstring),
     length key = 32 -> length iv = 16 -> Utf8.isWellFormed x = true ->
     exists text,
       PapayaClient.PNPEncryption.encrypt (PapayaClient.PNPEncryption.constructor key iv) x
         = Ok text /\
       PapayaClient.PNPEncryption.decrypt (PapayaClient.PNPEncryption.constructor key iv)
         (BufferOps.from text utf8) = Ok x)
  /\
  (forall (key iv : Buffer) (r : JSValue),
     length key = 32 -> length iv = 16 -> valid_value r = true ->
     exists text,
       PapayaClient.PNPEncryption.encrypt (PapayaClient.PNPEncryption.constructor key iv)
         (JSON.stringify r) = Ok text /\
       PapayaClient.PNPEncryption.decrypt (PapayaClient.PNPEncryption.constructor key iv)
         (BufferOps.from text utf8) = Ok (JSON.stringify r)).
Proof.
  repeat split.
  - intros w0 w x Hx. apply pnp_roundtrip; [apply constructor_well_keyed|exact Hx].
  - intros w0 w r Hr. apply pnp_roundtrip; [apply constructor_well_keyed|].
    now apply wf_stringify.
  - intros key iv x Hk Hi Hx. apply old_roundtrip; [|exact Hx].
    repeat split; assumption.
  - intros key iv r Hk Hi Hr. apply old_roundtrip; [|now apply wf_stringify].
    repeat split; assumption.
Qed.

Lemma decrypt_encrypt_roundtrip_witness :
  (exists payload,
     fst (PNP.PNPEncryption.encrypt (fst (PNP.PNPEncryption.constructor sample_world))
            [] sample_world) = Ok payload /\
     PNP.PNPEncryption.decrypt (fst (PNP.PNPEncryption.constructor sample_world)) payload
       = Ok [])
  /\
  (exists text,
     PapayaClient.PNPEncryption.encrypt
       (PapayaClient.PNPEncryption.constructor (repeat x00 32) (repeat x01 16))
       (JSON.stringify (request_of (lit "get") (lit "/") [] (lit ""))) = Ok text /\
     PapayaClient.PNPEncryption.decrypt
       (PapayaClient.PNPEncryption.constructor (repeat x00 32) (repeat x01 16))
       (BufferOps.from text utf8)
       = Ok (JSON.stringify (request_of (lit "get") (lit "/") [] (lit "")))).
Proof.
  split.
  - apply (proj1 decrypt_encrypt_roundtrip sample_world sample_world []). reflexivity.
  - apply (proj2 (proj2 (proj2 decrypt_encrypt_roundtrip))); reflexivity.
Defined.


(** C10.  In part_000 the payload encrypt returns for a plaintext of n
    UTF-8 octets has 33 + 32 * (n / 16 + 1) octets: 32 hexadecimal digits
    of IV, the colon, and the padded ciphertext in hexadecimal.  The
    length depends on n alone, so plaintexts of equal length in octets
    give payloads of equal length. *)
Theorem encrypt_payload_length (w0 w : World) (data : jsstring) :
  exists payload,
    fst (PNP.PNPEncryption.encrypt (fst (PNP.PNPEncryption.constructor w0)) data w)
      = Ok payload /\
    length payload = 33 + 32 * (length (Utf8.encode data) / 16 + 1).
Proof.
  rewrite pnp_encrypt_eq by apply constructor_well_keyed. cbn [fst].
  eexists. split; [reflexivity|].
  rewrite length_utf8_encode_ascii by apply wire_ascii.
  rewrite length_wire, length_randomBytes.
  rewrite length_cbc_encrypt by apply length_randomBytes.
  unfold CBC.block_size.
  generalize (length (Utf8.encode data) / 16). intro q. lia.
Qed.

(** C9.  In part_000 decrypt throws (invalid initialization vector) on
    every payload whose text in front of the first colon does not
    hex-decode to exactly 16 octets, the empty payload among them; and it
    throws on every payload without a colon, whatever its text decodes
    to: when that is 16 octets the ciphertext is empty and final fails.
    The text is the UTF-8 decoding of the payload, as decrypt takes it. *)
Theorem decrypt_rejects_short_iv (w0 : World) (data : Buffer) :
  (length (Hex.decode (before 58 (Utf8.decode data))) <> 16 ->
   PNP.PNPEncryption.decrypt (fst (PNP.PNPEncryption.constructor w0)) data
     = Throw ERR_CRYPTO_INVALID_IV)
  /\
  (contains 58 (Utf8.decode data) = false ->
   threw (PNP.PNPEncryption.decrypt (fst (PNP.PNPEncryption.constructor w0)) data) = true).
Proof.
  split.
  - intro H. rewrite pnp_decrypt_eq by apply constructor_well_keyed. cbv zeta.
    apply Nat.eqb_neq in H. now rewrite H.
  - intro H. apply pnp_decrypt_no_sep; [apply constructor_well_keyed|exact H].
Qed.

Lemma decrypt_rejects_short_iv_witness :
  PNP.PNPEncryption.decrypt (fst (PNP.PNPEncryption.constructor sample_world)) []
    = Throw ERR_CRYPTO_INVALID_IV
  /\
  PNP.PNPEncryption.decrypt (fst (PNP.PNPEncryption.constructor sample_world))
    (Utf8.encode (lit "00112233445566778899aabbccddeeff00"))
    = Throw ERR_CRYPTO_INVALID_IV
  /\
  threw (PNP.PNPEncryption.decrypt (fst (PNP.PNPEncryption.constructor sample_world))
           (Utf8.encode (lit "00112233445566778899aabbccddeeff"))) = true.
Proof.
  split; [|split].
  - apply (proj1 (decrypt_rejects_short_iv sample_world [])). vm_compute. lia.
  - apply (proj1 (decrypt_rejects_short_iv sample_world
                    (Utf8.encode (lit "00112233445566778899aabbccddeeff00")))).
    vm_compute. lia.
  - apply (proj2 (decrypt_rejects_short_iv sample_world
                    (Utf8.encode (lit "00112233445566778899aabbccddeeff")))).
    vm_compute. reflexivity.
Defined.

(** C2, counterexample.  The codec of src/PapayaClient.ts draws no IV and
    returns the hexadecimal ciphertext alone: what it returns for the
    empty plaintext is no text of the form hex(IV):hex(ciphertext). *)
Lemma old_encrypt_has_no_iv_part :
  exists text,
    PapayaClient.PNPEncryption.encrypt
      (PapayaClient.PNPEncryption.constructor (repeat x00 32) (repeat x01 16)) [] = Ok text /\
    length text = 32 /\
    forall iv ct, text <> wire iv ct.
Proof.
  rewrite old_encrypt_general.
  eexists. split; [reflexivity|]. split.
  - rewrite length_hex_encode, length_cbc_encrypt; reflexivity.
  - intros iv ct E. pose proof (wire_has_sep iv ct) as Hs. rewrite <- E in Hs.
    rewrite lower_hex_no_sep in Hs by apply hex_encode_lower. discriminate.
Qed.

(** C2, amended.  In part_000 every call of encrypt draws 16 octets from
    the random generator as IV and returns the octets of the text
    hex(IV) ":" hex(ciphertext), one octet per character, where the
    ciphertext is the CBC encryption of the padded UTF-8 plaintext under
    the key of the instance and that IV, and both halves are lowercase
    hexadecimal, the first of 32 digits.  In src/PapayaClient.ts encrypt
    returns hex(ciphertext) alone, under the key and the IV the
    constructor was given, when these have 32 and 16 octets. *)
Theorem encrypt_wire_payload :
  (forall (w0 w : World) (data : jsstring),
     let this := fst (PNP.PNPEncryption.constructor w0) in
     let iv := fst (randomBytes 16 w) in
     let ct := CBC.encrypt (PNP.PNPEncryption.key this) iv (Utf8.encode data) in
     PNP.PNPEncryption.encrypt this data w
       = (Ok (BufferOps.from (wire iv ct) utf8), snd (randomBytes 16 w)) /\
     BufferOps.from (wire iv ct) utf8 = map byte_of_N (wire iv ct) /\
     iv = map (entropy w) (seq (drawn w) 16) /\
     length iv = 16 /\
     drawn (snd (randomBytes 16 w)) = drawn w + 16 /\
     length (Hex.encode iv) = 32 /\
     forallb Hex.is_lower_hex (Hex.encode iv) = true /\
     forallb Hex.is_lower_hex (Hex.encode ct) = true)
  /\
  (forall (key iv : Buffer) (data : jsstring),
     PapayaClient.PNPEncryption.encrypt (PapayaClient.PNPEncryption.constructor key iv) data
     = (_ <- crypto.check aes_256_cbc key iv ;;
        Ok (Hex.encode (CBC.encrypt key iv (Utf8.encode data))))%result).
Proof.
  split.
  - intros w0 w data this iv ct.
    split; [apply pnp_encrypt_eq, constructor_well_keyed|].
    split; [apply utf8_encode_ascii, wire_ascii|].
    split; [reflexivity|].
    split; [apply length_randomBytes|].
    split; [reflexivity|].
    split; [rewrite length_hex_encode; unfold iv; now rewrite length_randomBytes|].
    split; apply hex_encode_lower.
  - intros key iv data. apply old_encrypt_general.
Qed.

(** C3, counterexample.  Two successive encrypt calls with the same
    plaintext return the same text on a codec of src/PapayaClient.ts,
    which uses the IV of the instance each time; and the same payload on
    a codec of part_000 when the random generator repeats itself. *)
Lemma successive_payloads_coincide :
  (let this := PapayaClient.PNPEncryption.constructor (repeat x00 32) (repeat x01 16) in
   exists text,
     PapayaClient.PNPEncryption.encrypt this (lit "a") = Ok text /\
     PapayaClient.PNPEncryption.encrypt this (lit "a") = Ok text)
  /\
  (let this := fst (PNP.PNPEncryption.constructor stuck_world) in
   let w1 := snd (PNP.PNPEncryption.constructor stuck_world) in
   let first := PNP.PNPEncryption.encrypt this (lit "a") w1 in
   let second := PNP.PNPEncryption.encrypt this (lit "a") (snd first) in
   exists payload, fst first = Ok payload /\ fst second = Ok payload).
Proof.
  split.
  - cbv zeta. rewrite old_encrypt_general. eexists. split; reflexivity.
  - cbv zeta. rewrite !pnp_encrypt_eq by apply constructor_well_keyed.
    eexists. split; reflexivity.
Qed.

(** C3, amended.  In part_000 two successive encrypt calls on one codec
    with the same plaintext both return a payload, and the two payloads
    are equal exactly when the random generator hands out the same 16
    octets for both IVs: the IV is drawn anew for each call and is not
    compared with earlier ones.  In src/PapayaClient.ts whatever encrypt
    returns is the hexadecimal CBC ciphertext under the key and the IV of
    the instance, the same for every call with that plaintext. *)
Theorem successive_payloads :
  (forall (w0 w : World) (data : jsstring),
     let this := fst (PNP.PNPEncryption.constructor w0) in
     let first := PNP.PNPEncryption.encrypt this data w in
     let second := PNP.PNPEncryption.encrypt this data (snd first) in
     exists p1 p2,
       fst first = Ok p1 /\ fst second = Ok p2 /\
       (p1 = p2 <->
        map (entropy w) (seq (drawn w) 16) = map (entropy w) (seq (drawn w + 16) 16)))
  /\
  (forall (this : PapayaClient.PNPEncryption.t) (data text : jsstring),
     PapayaClient.PNPEncryption.encrypt this data = Ok text ->
     text = Hex.encode (CBC.encrypt (PapayaClient.PNPEncryption.key this)
                          (PapayaClient.PNPEncryption.iv this) (Utf8.encode data))).
Proof.
  split.
  - intros w0 w data this first second. subst first second.
    rewrite !pnp_encrypt_eq by apply constructor_well_keyed. cbn [fst snd].
    do 2 eexists. split; [reflexivity|]. split; [reflexivity|].
    unfold randomBytes. cbn [fst snd entropy drawn]. split.
    + intro H. now apply wire_inj in H.
    + intro H. now rewrite H.
  - intros this data text. rewrite old_encrypt_general.
    destruct (crypto.check _ _ _); cbn [Result_bind]; congruence.
Qed.

Lemma successive_payloads_witness :
  (exists p1 p2,
     fst (PNP.PNPEncryption.encrypt (fst (PNP.PNPEncryption.constructor sample_world))
            (lit "a") sample_world) = Ok p1 /\
     fst (PNP.PNPEncryption.encrypt (fst (PNP.PNPEncryption.constructor sample_world))
            (lit "a")
            (snd (PNP.PNPEncryption.encrypt (fst (PNP.PNPEncryption.constructor sample_world))
                    (lit "a") sample_world))) = Ok p2 /\
     (p1 = p2 <->
      map (entropy sample_world) (seq (drawn sample_world) 16)
      = map (entropy sample_world) (seq (drawn sample_world + 16) 16)))
  /\
  lit "9edc85f4be4775067d261a8b68227391"
  = Hex.encode (CBC.encrypt (repeat x00 32) (repeat x01 16) (Utf8.encode (lit "a"))).
Proof.
  split.
  - exact (proj1 successive_payloads sample_world sample_world (lit "a")).
  - apply (proj2 successive_payloads
             (PapayaClient.PNPEncryption.constructor (repeat x00 32) (repeat x01 16))
             (lit "a")).
    vm_compute. reflexivity.
Defined.

(** C7, counterexample.  The constructor of src/PapayaClient.ts takes
    the key from its caller and keeps it as it is, here a key of one
    octet.  And it keeps the Buffer of its caller, not a copy: after the
    caller has changed the first octet of that Buffer, the codec works
    with another key, encrypts the same text to another payload and
    cannot decrypt what it encrypted before. *)
Lemma caller_supplies_the_key :
  PapayaClient.PNPEncryption.key (PapayaClient.PNPEncryption.constructor [x2a] []) = [x2a]
  /\ length (PapayaClient.PNPEncryption.key
               (PapayaClient.PNPEncryption.constructor [x2a] [])) <> 32
  /\ let h := [repeat x00 32; repeat x01 16] in
     let this := PapayaObject.constructor 0 1 in
     let before_ :=
       Caller.run (papaya_encrypt_call this)
         [Caller.call_encrypt (lit "a");
          Caller.make_buffer (Utf8.encode (lit "9edc85f4be4775067d261a8b68227391"))]
         {| Caller.heap := h; Caller.world := sample_world; Caller.held := [0; 1];
            Caller.stored := [] |} in
     let after_ :=
       Caller.run (papaya_encrypt_call this) [Caller.set_octet 0 0 x01] before_ in
     Memory.read (PapayaObject.key this) (Caller.heap before_) = repeat x00 32 /\
     PapayaObject.encrypt this (lit "a") (Caller.heap before_)
     = Ok (lit "9edc85f4be4775067d261a8b68227391") /\
     PapayaObject.decrypt this 2 (Caller.heap before_) = Ok (lit "a") /\
     Memory.read (PapayaObject.key this) (Caller.heap after_) = x01 :: repeat x00 31 /\
     PapayaObject.encrypt this (lit "a") (Caller.heap after_)
     = Ok (lit "9a41fd0bd3525bf0a1807d03f5cac398") /\
     PapayaObject.decrypt this 2 (Caller.heap after_) = Throw ERR_OSSL_BAD_DECRYPT.
Proof.
  split; [reflexivity|]. split; [cbn; lia|].
  vm_compute. repeat split.
Qed.

(** C7, amended.  In part_000 the constructor draws the key, 32 octets,
    from the random generator into a Buffer that it makes, and the
    reference to that Buffer is in the private field alone.  Whatever a
    caller does with the codec and with the Buffers it holds (calls of
    encrypt and decrypt, making Buffers, changing octets of Buffers it
    holds, the payloads that encrypt handed out among them), the key
    Buffer holds the octets drawn at construction, and every encrypt and
    every decrypt works with that key.  In src/PapayaClient.ts the
    constructor stores the two Buffers its caller hands to it, of
    whatever length; encrypt and decrypt do not write to them and work
    with the octets the two hold at the time of the call, which are
    those of the construction for as long as the caller has not written
    to them. *)
Theorem codec_key_lifetime :
  (forall (h : Memory.Heap) (w : World),
     let made := PNPObject.constructor h w in
     let this := fst (fst made) in
     let h0 := snd (fst made) in
     let w0 := snd made in
     let key := map (entropy w) (seq (drawn w) 32) in
     PNPObject.key this = length h /\ h0 = h ++ [key] /\
     Memory.read (PNPObject.key this) h0 = key /\
     length key = 32 /\
     drawn w0 = drawn w + 32 /\
     PNPObject.now this h0 = fst (PNP.PNPEncryption.constructor w) /\
     forall (held : list Memory.Ref) (steps : list Caller.Step),
       Forall (fun r => r < length h) held ->
       let c := Caller.run (pnp_encrypt_call this) steps
                  {| Caller.heap := h0; Caller.world := w0; Caller.held := held;
                     Caller.stored := [] |} in
       Memory.read (PNPObject.key this) (Caller.heap c) = key /\
       (forall (data : jsstring) (w' : World),
          PNPObject.encrypt this data (Caller.heap c) w'
          = (Ok (length (Caller.heap c)),
             Caller.heap c
               ++ [Utf8.encode
                     (wire (fst (randomBytes 16 w'))
                        (CBC.encrypt key (fst (randomBytes 16 w')) (Utf8.encode data)))],
             snd (randomBytes 16 w'))) /\
       (forall data : Memory.Ref,
          PNPObject.decrypt this data (Caller.heap c)
          = let text := Utf8.decode (Memory.read data (Caller.heap c)) in
            if length (Hex.decode (before 58 text)) =? 16
            then (plain <- CBC.decrypt key (Hex.decode (before 58 text))
                             (Hex.decode (after 58 text)) ;;
                  Ok (Utf8.decode plain))%result
            else Throw ERR_CRYPTO_INVALID_IV))
  /\
  (forall (key iv : Memory.Ref) (h : Memory.Heap) (w : World) (held : list Memory.Ref)
          (steps : list Caller.Step),
     let this := PapayaObject.constructor key iv in
     let c := Caller.run (papaya_encrypt_call this) steps
                {| Caller.heap := h; Caller.world := w; Caller.held := held;
                   Caller.stored := [] |} in
     PapayaObject.key this = key /\
     PapayaObject.iv this = iv /\
     (key < length h -> ~ In key (Caller.stored c) ->
      Memory.read key (Caller.heap c) = Memory.read key h) /\
     (iv < length h -> ~ In iv (Caller.stored c) ->
      Memory.read iv (Caller.heap c) = Memory.read iv h) /\
     (forall data : jsstring,
        PapayaObject.encrypt this data (Caller.heap c)
        = (_ <- crypto.check aes_256_cbc (Memory.read key (Caller.heap c))
                  (Memory.read iv (Caller.heap c)) ;;
           Ok (Hex.encode (CBC.encrypt (Memory.read key (Caller.heap c))
                             (Memory.read iv (Caller.heap c)) (Utf8.encode data))))%result) /\
     (forall data : Memory.Ref,
        PapayaObject.decrypt this data (Caller.heap c)
        = let text := Utf8.decode (Memory.read data (Caller.heap c)) in
          (_ <- crypto.check aes_256_cbc (Memory.read key (Caller.heap c))
                  (Memory.read iv (Caller.heap c)) ;;
           if Nat.even (length text)
           then (plain <- CBC.decrypt (Memory.read key (Caller.heap c))
                            (Memory.read iv (Caller.heap c)) (Hex.decode text) ;;
                 Ok (Utf8.decode plain))
           else Throw ERR_INVALID_ARG_VALUE)%result)).
Proof.
  split.
  - intros h w made this h0 w0 key.
    assert (Hthis : PNPObject.key this = length h) by reflexivity.
    assert (Hh0 : h0 = h ++ [key]) by reflexivity.
    assert (Hread : Memory.read (PNPObject.key this) h0 = key).
    { rewrite Hthis, Hh0. unfold Memory.read. now rewrite nth_middle. }
    assert (Hlen : length key = 32).
    { unfold key. now rewrite length_map, length_seq. }
    split; [exact Hthis|]. split; [exact Hh0|]. split; [exact Hread|].
    split; [exact Hlen|]. split; [reflexivity|].
    split; [unfold PNPObject.now; rewrite Hread; reflexivity|].
    intros held steps Hheld c.
    assert (Hkey : Memory.read (PNPObject.key this) (Caller.heap c) = key).
    { rewrite <- Hread. unfold c.
      assert (Hin : PNPObject.key this < length h0).
      { rewrite Hthis, Hh0, length_app. cbn [length]. lia. }
      apply (run_read _ (pnp_encrypt_call_adds this)); [exact Hin|].
      apply (run_out_of_reach _ (pnp_encrypt_call_adds this)); cbn [Caller.heap Caller.held
        Caller.stored]; [exact Hin| |intros []].
      intro H. rewrite Forall_forall in Hheld. specialize (Hheld _ H). lia. }
    assert (Hnow : PNPObject.now this (Caller.heap c)
                   = {| PNP.PNPEncryption.algorithm := aes_256_cbc;
                        PNP.PNPEncryption.key := key |}).
    { unfold PNPObject.now. now rewrite Hkey. }
    assert (Hwell : well_keyed (PNPObject.now this (Caller.heap c))).
    { rewrite Hnow. split; [reflexivity|exact Hlen]. }
    split; [exact Hkey|]. split.
    + intros data w'. unfold PNPObject.encrypt.
      rewrite pnp_encrypt_eq by exact Hwell. rewrite Hnow.
      cbn [PNP.PNPEncryption.key Memory.alloc]. reflexivity.
    + intro data. unfold PNPObject.decrypt.
      rewrite pnp_decrypt_eq by exact Hwell. rewrite Hnow. reflexivity.
  - intros key iv h w held steps this c.
    split; [reflexivity|]. split; [reflexivity|]. split; [|split; [|split]].
    + intros Hin Hs. now apply (run_read _ (papaya_encrypt_call_adds this)).
    + intros Hin Hs. now apply (run_read _ (papaya_encrypt_call_adds this)).
    + intro data. unfold PapayaObject.encrypt. apply old_encrypt_general.
    + intro data. unfold PapayaObject.decrypt. apply old_decrypt_general.
Qed.

Lemma codec_key_lifetime_witness :
  (Forall (fun r => r < length [[x07]]) [0] /\
   let this := fst (fst (PNPObject.constructor [[x07]] sample_world)) in
   let c := Caller.run (pnp_encrypt_call this)
              [Caller.call_encrypt (lit "hi"); Caller.set_octet 0 0 x2a;
               Caller.set_octet 1 0 x2a; Caller.make_buffer [x00]; Caller.call_decrypt 1]
              {| Caller.heap := snd (fst (PNPObject.constructor [[x07]] sample_world));
                 Caller.world := snd (PNPObject.constructor [[x07]] sample_world);
                 Caller.held := [0]; Caller.stored := [] |} in
   Memory.read (PNPObject.key this) (Caller.heap c)
   = map (entropy sample_world) (seq (drawn sample_world) 32))
  /\
  (let h := [repeat x00 32; repeat x01 16; [x07]] in
   let c := Caller.run (papaya_encrypt_call (PapayaObject.constructor 0 1))
              [Caller.call_encrypt (lit "hi"); Caller.set_octet 2 0 x2a;
               Caller.make_buffer [x00]]
              {| Caller.heap := h; Caller.world := sample_world; Caller.held := [0; 1; 2];
                 Caller.stored := [] |} in
   (0 < length h /\ ~ In 0 (Caller.stored c)) /\
   Memory.read 0 (Caller.heap c) = Memory.read 0 h).
Proof.
  split.
  - assert (H : Forall (fun r => r < length [[x07]]) [0]) by (repeat constructor).
    split; [exact H|].
    exact (proj1 (proj2 (proj2 (proj2 (proj2 (proj2 (proj2
             (proj1 codec_key_lifetime [[x07]] sample_world)))))) [0] _ H)).
  - cbv zeta.
    assert (H1 : 0 < length [repeat x00 32; repeat x01 16; [x07]]) by (cbn; lia).
    assert (H2 : ~ In 0 (Caller.stored
                   (Caller.run (papaya_encrypt_call (PapayaObject.constructor 0 1))
                      [Caller.call_encrypt (lit "hi"); Caller.set_octet 2 0 x2a;
                       Caller.make_buffer [x00]]
                      {| Caller.heap := [repeat x00 32; repeat x01 16; [x07]];
                         Caller.world := sample_world; Caller.held := [0; 1; 2];
                         Caller.stored := [] |}))).
    { vm_compute. intros [H|[]]. discriminate. }
    split; [split; [exact H1|exact H2]|].
    exact (proj1 (proj2 (proj2 (proj2 codec_key_lifetime 0 1 _ sample_world [0; 1; 2] _)))
             H1 H2).
Defined.

(** C4, counterexample.  A payload with two characters that are no
    hexadecimal digits after the ciphertext: the text behind the colon is
    not valid hexadecimal, and decrypt of part_000 returns the plaintext
    all the same, because hex decoding stops at them without an error.
    (What the decoder takes for a digit goes by the low eight bits of a
    character: with U+0130 and a 0 after the ciphertext, the text behind
    the colon is no valid hexadecimal either, the two are read as one
    more octet, and decrypt throws for the length of the ciphertext.) *)
Lemma decrypt_accepts_trailing_garbage :
  let this := fst (PNP.PNPEncryption.constructor sample_world) in
  let w1 := snd (PNP.PNPEncryption.constructor sample_world) in
  let sent := value_or_nil (fst (PNP.PNPEncryption.encrypt this (lit "hi") w1)) in
  let payload := sent ++ Utf8.encode (lit "zz") in
  let dotted := sent ++ [xc4; xb0] ++ Utf8.encode (lit "0") in
  Utf8.decode payload
    = lit "e3eaf1f8ff060d141b222930373e454c:d2486676026f8aaca29c8830ff58d6d5zz" /\
  is_hex_string (after 58 (Utf8.decode payload)) = false /\
  PNP.PNPEncryption.decrypt this payload = Ok (lit "hi") /\
  Utf8.decode dotted
    = lit "e3eaf1f8ff060d141b222930373e454c:d2486676026f8aaca29c8830ff58d6d5"
        ++ [304%N; 48%N] /\
  is_hex_string (after 58 (Utf8.decode dotted)) = false /\
  length (Hex.decode (after 58 (Utf8.decode dotted))) = 17 /\
  PNP.PNPEncryption.decrypt this dotted = Throw ERR_OSSL_WRONG_FINAL_BLOCK_LENGTH.
Proof. vm_compute. repeat split. Qed.

(** C4, amended.  In part_000, with the IV the octets that the text in
    front of the first colon hex-decodes to and the ciphertext the octets
    that the text behind it hex-decodes to (decoding stops without an
    error at the first pair that is not two hexadecimal digits, a
    character counting as the digit its low eight bits spell), decrypt
    throws exactly in these cases: the IV has not 16 octets (invalid
    initialization vector); else the ciphertext is empty or its length
    is no multiple of 16 (wrong final block length); else the padding
    of the last decrypted block is wrong (bad decrypt).  Otherwise it
    returns the decoded plaintext.  A payload without a colon always
    throws.  In src/PapayaClient.ts, where the payload has no IV part,
    decrypt throws when key or IV have the wrong length, when the text
    has an odd length, and when the CBC decryption of what the text
    hex-decodes to fails in one of the two ways above. *)
Theorem decrypt_failures :
  (forall (w0 : World) (data : Buffer),
     let this := fst (PNP.PNPEncryption.constructor w0) in
     let text := Utf8.decode data in
     let iv := Hex.decode (before 58 text) in
     let ct := Hex.decode (after 58 text) in
     let plain := CBC.decrypt_blocks (PNP.PNPEncryption.key this) iv (CBC.blocks ct) in
     PNP.PNPEncryption.decrypt this data
     = (if negb (length iv =? 16) then Throw ERR_CRYPTO_INVALID_IV
        else if (length ct =? 0) || negb (length ct mod 16 =? 0)
             then Throw ERR_OSSL_WRONG_FINAL_BLOCK_LENGTH
             else match CBC.unpad (last plain []) with
                  | None => Throw ERR_OSSL_BAD_DECRYPT
                  | Some tail => Ok (Utf8.decode (concat (removelast plain) ++ tail))
                  end)
     /\ (contains 58 text = false -> threw (PNP.PNPEncryption.decrypt this data) = true))
  /\
  (forall (key iv data : Buffer),
     let text := Utf8.decode data in
     let plain := CBC.decrypt_blocks key iv (CBC.blocks (Hex.decode text)) in
     PapayaClient.PNPEncryption.decrypt (PapayaClient.PNPEncryption.constructor key iv) data
     = (_ <- crypto.check aes_256_cbc key iv ;;
        if negb (Nat.even (length text)) then Throw ERR_INVALID_ARG_VALUE
        else if (length (Hex.decode text) =? 0)
                || negb (length (Hex.decode text) mod 16 =? 0)
             then Throw ERR_OSSL_WRONG_FINAL_BLOCK_LENGTH
             else match CBC.unpad (last plain []) with
                  | None => Throw ERR_OSSL_BAD_DECRYPT
                  | Some tail => Ok (Utf8.decode (concat (removelast plain) ++ tail))
                  end)%result).
Proof.
  split.
  - intros w0 data this text iv ct plain. split.
    + subst plain ct iv text this.
      rewrite pnp_decrypt_eq by apply constructor_well_keyed. cbv zeta.
      destruct (length _ =? 16); [|reflexivity]. cbn [negb].
      unfold CBC.decrypt, CBC.block_size.
      destruct ((length _ =? 0) || negb (length _ mod 16 =? 0)); [reflexivity|].
      destruct (CBC.unpad _); reflexivity.
    + intro Hc. apply pnp_decrypt_no_sep; [apply constructor_well_keyed|exact Hc].
  - intros key iv data text plain. rewrite old_decrypt_general.
    cbn [PapayaClient.PNPEncryption.constructor PapayaClient.PNPEncryption.algorithm
         PapayaClient.PNPEncryption.key PapayaClient.PNPEncryption.iv].
    destruct (crypto.check aes_256_cbc key iv) as [[]|e]; [|reflexivity].
    cbn [Result_bind]. subst plain text.
    destruct (Nat.even _); [|reflexivity]. cbn [negb].
    unfold CBC.decrypt, CBC.block_size.
    destruct ((length _ =? 0) || negb (length _ mod 16 =? 0)); [reflexivity|].
    destruct (CBC.unpad _); reflexivity.
Qed.

Lemma decrypt_failures_witness :
  threw (PNP.PNPEncryption.decrypt (fst (PNP.PNPEncryption.constructor sample_world))
           (Utf8.encode (lit "e3eaf1f8ff060d141b222930373e454c"))) = true.
Proof.
  apply (proj2 (proj1 decrypt_failures sample_world
                  (Utf8.encode (lit "e3eaf1f8ff060d141b222930373e454c")))).
  vm_compute. reflexivity.
Defined.

(** C5, counterexample.  The socket delivers the encryption of the JSON
    text of an empty object: sendRequest of part_000 is fulfilled with
    that object, which has none of status, headers and body. *)
Lemma response_without_fields_is_returned :
  let client := fst (PNP.constructor (lit "localhost") 947 false sample_world) in
  let w1 := snd (PNP.constructor (lit "localhost") 947 false sample_world) in
  let reply :=
    value_or_nil (fst (PNP.PNPEncryption.encrypt (PNP.encryption client) (lit "{}") w1)) in
  let w := {| entropy := entropy w1; drawn := drawn w1; write_faults := [];
              incoming := [OnData reply]; trace := [] |} in
  fst (PNP.sendRequest client (request_of (lit "get") (lit "/") [] (lit "")) w)
    = Fulfilled (JObject []) /\
  JSON.has (JObject []) (lit "status") = false /\
  JSON.has (JObject []) (lit "headers") = false /\
  JSON.has (JObject []) (lit "body") = false.
Proof. vm_compute. repeat split. Qed.

(** C5, amended.  When the write succeeded and the socket delivered a
    chunk that decrypts to a text, sendRequest is fulfilled with the
    value JSON.parse returns for the text, whatever members it has or
    lacks, and rejected with the SyntaxError of JSON.parse when the text
    is no JSON; no other check is made on the parsed document.  In both
    files. *)
Theorem sendRequest_parse_outcome :
  (forall (w0 : World) (host : jsstring) (port : N) (debugMode : bool)
          (request : JSValue) (w : World) (data : Buffer) (rest : list SocketEvent)
          (text : jsstring),
     let this := fst (PNP.constructor host port debugMode w0) in
     hd None (write_faults w) = None ->
     incoming w = OnData data :: rest ->
     PNP.PNPEncryption.decrypt (PNP.encryption this) data = Ok text ->
     fst (PNP.sendRequest this request w) = settle (JSON.parse text) /\
     (forall e, JSON.parse text = Throw e ->
                fst (PNP.sendRequest this request w) = Rejected SyntaxError))
  /\
  (forall (host : jsstring) (port : N) (key iv : Buffer)
          (request : JSValue) (w : World) (data : Buffer) (rest : list SocketEvent)
          (text : jsstring),
     let this := PapayaClient.constructor host port key iv in
     length key = 32 -> length iv = 16 ->
     hd None (write_faults w) = None ->
     incoming w = OnData data :: rest ->
     PapayaClient.PNPEncryption.decrypt (PapayaClient.encryption this) data = Ok text ->
     fst (PapayaClient.sendRequest this request w) = settle (JSON.parse text) /\
     (forall e, JSON.parse text = Throw e ->
                fst (PapayaClient.sendRequest this request w) = Rejected SyntaxError)).
Proof.
  split.
  - intros w0 host port debugMode request w data rest text this Hw Hi Hd.
    assert (E : fst (PNP.sendRequest this request w) = settle (JSON.parse text)).
    { unfold this. rewrite pnp_sendRequest_eq by apply pnp_constructor_well_keyed.
      cbv zeta. rewrite Hw, Hi. cbn [fst]. fold this. now rewrite Hd. }
    split; [exact E|]. intros e He. rewrite E, He.
    apply parse_throws_SyntaxError in He. now subst e.
  - intros host port key iv request w data rest text this Hk Hv Hw Hi Hd.
    assert (E : fst (PapayaClient.sendRequest this request w) = settle (JSON.parse text)).
    { unfold this. rewrite old_sendRequest_eq by (repeat split; assumption).
      cbv zeta. rewrite Hw, Hi. cbn [fst]. fold this. now rewrite Hd. }
    split; [exact E|]. intros e He. rewrite E, He.
    apply parse_throws_SyntaxError in He. now subst e.
Qed.

Lemma sendRequest_parse_outcome_witness :
  let client := fst (PNP.constructor (lit "localhost") 947 false sample_world) in
  let reply :=
    Utf8.encode (lit "e3eaf1f8ff060d141b222930373e454c:d2486676026f8aaca29c8830ff58d6d5") in
  let w := {| entropy := entropy sample_world; drawn := 48; write_faults := [];
              incoming := [OnData reply]; trace := [] |} in
  fst (PNP.sendRequest client (request_of (lit "get") (lit "/") [] (lit "")) w)
    = settle (JSON.parse (lit "hi")) /\
  (forall e, JSON.parse (lit "hi") = Throw e ->
     fst (PNP.sendRequest client (request_of (lit "get") (lit "/") [] (lit "")) w)
       = Rejected SyntaxError).
Proof.
  cbv zeta.
  apply (proj1 sendRequest_parse_outcome sample_world (lit "localhost") 947%N false
           (request_of (lit "get") (lit "/") [] (lit ""))
           {| entropy := entropy sample_world; drawn := 48; write_faults := [];
              incoming := [OnData (Utf8.encode
                (lit "e3eaf1f8ff060d141b222930373e454c:d2486676026f8aaca29c8830ff58d6d5"))];
              trace := [] |}
           (Utf8.encode (lit "e3eaf1f8ff060d141b222930373e454c:d2486676026f8aaca29c8830ff58d6d5"))
           [] (lit "hi")).
  - reflexivity.
  - reflexivity.
  - vm_compute. reflexivity.
Defined.







(** * The status table *)

Lemma members_complete (s : Status.t) : In s Status.members.
Proof. destruct s; unfold Status.members; simpl; tauto. Qed.

Lemma members_values_distinct : NoDup (map Status.value Status.members).
Proof.
  unfold Status.members. cbn [map Status.value].
  repeat (constructor; [cbn [In]; intuition discriminate|]). constructor.
Qed.

Lemma value_injective (a b : Status.t) : Status.value a = Status.value b -> a = b.
Proof. destruct a; destruct b; first [reflexivity|discriminate]. Qed.

(** C8.  The members of Status (the same enum in both files) have
    pairwise distinct values, every value lies between 100 and 511, and
    its hundreds digit is the one of the group the member is declared
    in, one of five; NotFound is 404 and OK is 200. *)
Theorem status_table :
  NoDup (map Status.value Status.members) /\
  (forall s : Status.t, In s Status.members) /\
  (forall a b : Status.t, a <> b -> Status.value a <> Status.value b) /\
  (forall s : Status.t, (100 <= Status.value s <= 511)%Z) /\
  (forall s : Status.t,
     (Status.value s / 100 = Status.class_digit (Status.class s))%Z /\
     (1 <= Status.class_digit (Status.class s) <= 5)%Z) /\
  Status.value Status.NotFound = 404%Z /\
  Status.value Status.OK = 200%Z /\
  length Status.members = 62.
Proof.
  split; [exact members_values_distinct|].
  split; [exact members_complete|].
  split; [intros a b Hab E; apply Hab; now apply value_injective|].
  split; [intro s; destruct s; cbn; lia|].
  split; [intro s; destruct s; cbn; split; first [reflexivity|lia]|].
  repeat split.
Qed.

Lemma status_table_witness :
  Status.value Status.NotFound <> Status.value Status.OK.
Proof.
  apply (proj1 (proj2 (proj2 status_table)) Status.NotFound Status.OK).
  discriminate.
Defined.

(** * Further properties of the two codecs *)

(** Hexadecimal decoding stops at a character that is no digit, wherever
    it stands in its pair. *)
Lemma hex_decode_stops (c : N) (x u : jsstring) :
  Hex.unhex c = None -> Hex.decode (x ++ c :: u) = Hex.decode x.
Proof.
  intro Hc. remember (length x) as n eqn:Hn. revert x Hn.
  induction n as [n IH] using lt_wf_ind. intros x Hn.
  destruct x as [|c1 [|c2 t]].
  - cbn [app Hex.decode]. destruct u; [reflexivity|].
    rewrite Hc. reflexivity.
  - cbn [app Hex.decode]. rewrite Hc. now destruct (Hex.unhex c1).
  - cbn [app Hex.decode].
    destruct (Hex.unhex c1); [|reflexivity].
    destruct (Hex.unhex c2); [|reflexivity].
    f_equal. apply (IH (length t)); [cbn [length] in Hn; lia|reflexivity].
Qed.

Lemma contains_app (sep : N) (a b : jsstring) :
  contains sep (a ++ b) = contains sep a || contains sep b.
Proof. unfold contains. apply existsb_app. Qed.

Lemma before_app_has_sep (sep : N) (a b : jsstring) :
  contains sep a = true -> before sep (a ++ b) = before sep a.
Proof.
  induction a as [|c t IH]; [discriminate|]. cbn [contains existsb app before].
  destruct (c =? sep)%N; [reflexivity|]. cbn [orb]. intro H. f_equal. now apply IH.
Qed.

Lemma after_app_has_sep (sep : N) (a b : jsstring) :
  contains sep a = true -> after sep (a ++ b) = after sep a ++ b.
Proof.
  induction a as [|c t IH]; [discriminate|]. cbn [contains existsb app after].
  destruct (c =? sep)%N; [reflexivity|]. cbn [orb]. intro H. now apply IH.
Qed.

Lemma wf_lit_colon : Utf8.isWellFormed (lit ":") = true.
Proof. reflexivity. Qed.

Section PNP_codec_more.

Variable this : PNP.PNPEncryption.t.
Hypothesis Hkeyed : well_keyed this.

(** What follows a second colon never reaches the cipher. *)
Lemma pnp_decrypt_second_colon (t u : jsstring) :
  Utf8.isWellFormed t = true -> Utf8.isWellFormed u = true ->
  contains 58 t = true ->
  PNP.PNPEncryption.decrypt this (Utf8.encode (t ++ lit ":" ++ u))
  = PNP.PNPEncryption.decrypt this (Utf8.encode t).
Proof.
  intros Ht Hu Hc.
  rewrite !(pnp_decrypt_eq this Hkeyed). cbv zeta.
  rewrite !utf8_decode_encode by (try apply wf_app; try apply wf_app; auto).
  rewrite before_app_has_sep by exact Hc.
  rewrite after_app_has_sep by exact Hc.
  change (lit ":" ++ u) with (58%N :: u).
  now rewrite hex_decode_stops by reflexivity.
Qed.

End PNP_codec_more.

(** ** The chaining value in CBC decryption *)

Lemma bxor_tweak (a b d : byte) : bxor (bxor a b) (bxor b d) = bxor a d.
Proof.
  to_bits_of a. to_bits_of b. to_bits_of d. unfold bxor.
  repeat (rewrite !Byte.to_bits_of_bits; cbn beta iota zeta).
  bits_eq.
Qed.

Lemma xor_bytes_tweak (a iv d : list byte) :
  length a = length iv -> length iv = length d ->
  CBC.xor_bytes (CBC.xor_bytes a iv) (CBC.xor_bytes iv d) = CBC.xor_bytes a d.
Proof.
  revert iv d. induction a as [|x a IH]; intros [|y iv] [|z d]; try discriminate.
  - reflexivity.
  - intros [= H1] [= H2]. unfold CBC.xor_bytes in *. cbn [combine map fst snd].
    rewrite bxor_tweak. f_equal. now apply IH.
Qed.

Lemma removelast_cons {A : Type} (x : A) (l : list A) :
  l <> [] -> removelast (x :: l) = x :: removelast l.
Proof. destruct l; [congruence|reflexivity]. Qed.

Lemma last_cons_ne {A : Type} (x d : A) (l : list A) :
  l <> [] -> last (x :: l) d = last l d.
Proof. destruct l; [congruence|reflexivity]. Qed.

(** Decryption of a first block and the ciphertext behind it: the IV
    enters the first block of the plaintext alone. *)
Lemma cbc_decrypt_cons (key iv c1 ct : list byte) :
  length c1 = CBC.block_size -> ct <> [] ->
  CBC.decrypt key iv (c1 ++ ct)
  = (p <- CBC.decrypt key c1 ct ;;
     Ok (CBC.xor_bytes (AES.decrypt_block key c1) iv ++ p))%result.
Proof.
  intros Hc Hne. unfold CBC.decrypt.
  assert (Hl : length ct <> 0) by (destruct ct; [congruence|cbn; lia]).
  rewrite length_app, Hc.
  replace (CBC.block_size + length ct =? 0) with false
    by (symmetry; apply Nat.eqb_neq; unfold CBC.block_size; lia).
  replace (length ct =? 0) with false by (symmetry; now apply Nat.eqb_neq).
  replace ((CBC.block_size + length ct) mod CBC.block_size)
    with (length ct mod CBC.block_size)
    by (unfold CBC.block_size; generalize (length ct); intro n;
        zify; Z.to_euclidean_division_equations; lia).
  cbn [orb].
  destruct (negb (length ct mod CBC.block_size =? 0)); [reflexivity|].
  rewrite (blocks_cons_app c1 ct Hc). cbn [CBC.decrypt_blocks].
  assert (Hd : CBC.decrypt_blocks key c1 (CBC.blocks ct) <> [])
    by now apply decrypt_blocks_not_nil, blocks_not_nil.
  rewrite (last_cons_ne _ _ _ Hd), (removelast_cons _ _ Hd).
  destruct (CBC.unpad _); cbn [Result_bind concat]; [|reflexivity].
  now rewrite <- app_assoc.
Qed.

(** The ciphertext of a message of sixteen octets or more: the first
    block, and the encryption of the rest chained to it. *)
Lemma cbc_encrypt_cons (key iv m : list byte) :
  CBC.block_size <= length m ->
  let c1 := AES.encrypt_block key (CBC.xor_bytes (firstn CBC.block_size m) iv) in
  CBC.encrypt key iv m = c1 ++ CBC.encrypt key c1 (skipn CBC.block_size m).
Proof.
  intros Hm c1. unfold CBC.encrypt.
  assert (Hp : CBC.pad m = firstn CBC.block_size m ++ CBC.pad (skipn CBC.block_size m)).
  { unfold CBC.pad. rewrite app_assoc, firstn_skipn. f_equal.
    unfold CBC.padding. rewrite length_skipn.
    replace ((length m - CBC.block_size) mod CBC.block_size)
      with (length m mod CBC.block_size); [reflexivity|].
    unfold CBC.block_size in *. revert Hm. generalize (length m). intros n Hn.
    zify; Z.to_euclidean_division_equations; lia. }
  rewrite Hp.
  rewrite blocks_cons_app by (rewrite length_firstn; lia).
  reflexivity.
Qed.

Lemma cbc_encrypt_not_nil (key iv m : list byte) :
  length iv = CBC.block_size -> CBC.encrypt key iv m <> [].
Proof.
  intros Hiv E. apply (f_equal (@length byte)) in E.
  rewrite length_cbc_encrypt in E by exact Hiv. unfold CBC.block_size in E.
  cbn [length] in E. generalize dependent (length m / 16). intros q E. lia.
Qed.

(** Decrypting under another IV: the difference of the two IVs shows in
    the first sixteen octets of the plaintext and nowhere else. *)
Lemma cbc_decrypt_other_iv (key iv delta m : list byte) :
  length iv = CBC.block_size -> length delta = CBC.block_size ->
  CBC.block_size <= length m ->
  CBC.decrypt key (CBC.xor_bytes iv delta) (CBC.encrypt key iv m)
  = Ok (CBC.xor_bytes (firstn CBC.block_size m) delta ++ skipn CBC.block_size m).
Proof.
  intros Hiv Hd Hm.
  rewrite (cbc_encrypt_cons key iv m Hm). cbv zeta.
  set (b1 := firstn CBC.block_size m).
  assert (Hb : length b1 = CBC.block_size) by (unfold b1; rewrite length_firstn; lia).
  assert (Hx : length (CBC.xor_bytes b1 iv) = CBC.block_size)
    by (rewrite length_xor_bytes; lia).
  set (c1 := AES.encrypt_block key (CBC.xor_bytes b1 iv)).
  assert (Hc : length c1 = CBC.block_size)
    by (unfold c1; now rewrite length_encrypt_block).
  rewrite cbc_decrypt_cons; [|exact Hc|now apply cbc_encrypt_not_nil].
  rewrite cbc_decrypt_encrypt by exact Hc. cbn [Result_bind].
  unfold c1. rewrite decrypt_block_encrypt_block.
  rewrite xor_bytes_tweak by lia. reflexivity.
Qed.

(** Equal beginnings of two messages, in whole blocks, give equal
    beginnings of their ciphertexts under the same key and IV. *)
Lemma cbc_encrypt_common_prefix (key : list byte) (k : nat) :
  forall (iv m1 m2 : list byte),
  length iv = CBC.block_size ->
  CBC.block_size * k <= length m1 -> CBC.block_size * k <= length m2 ->
  firstn (CBC.block_size * k) m1 = firstn (CBC.block_size * k) m2 ->
  firstn (CBC.block_size * k) (CBC.encrypt key iv m1)
  = firstn (CBC.block_size * k) (CBC.encrypt key iv m2).
Proof.
  induction k as [|k IH]; intros iv m1 m2 Hiv H1 H2 E.
  - now rewrite Nat.mul_0_r.
  - replace (CBC.block_size * S k) with (CBC.block_size + CBC.block_size * k) in * by lia.
    assert (E1 : firstn CBC.block_size m1 = firstn CBC.block_size m2).
    { apply (f_equal (firstn CBC.block_size)) in E.
      rewrite !firstn_firstn in E.
      now replace (Nat.min CBC.block_size (CBC.block_size + CBC.block_size * k))
        with CBC.block_size in E by lia. }
    assert (E2 : firstn (CBC.block_size * k) (skipn CBC.block_size m1)
                 = firstn (CBC.block_size * k) (skipn CBC.block_size m2)).
    { rewrite !firstn_skipn_comm. now rewrite E. }
    rewrite (cbc_encrypt_cons key iv m1), (cbc_encrypt_cons key iv m2) by lia.
    cbv zeta. rewrite <- E1.
    set (c1 := AES.encrypt_block key (CBC.xor_bytes (firstn CBC.block_size m1) iv)).
    assert (Hc : length c1 = CBC.block_size).
    { unfold c1. rewrite length_encrypt_block, length_xor_bytes, length_firstn. lia. }
    rewrite !firstn_app, Hc.
    replace (CBC.block_size + CBC.block_size * k - CBC.block_size)
      with (CBC.block_size * k) by lia.
    f_equal. apply IH; [exact Hc|rewrite length_skipn; lia|rewrite length_skipn; lia|exact E2].
Qed.

Lemma firstn_hex_encode (n : nat) (b : Buffer) :
  firstn (2 * n) (Hex.encode b) = Hex.encode (firstn n b).
Proof.
  revert b. induction n as [|n IH]; intro b; [reflexivity|].
  destruct b as [|x b]; [reflexivity|].
  replace (2 * S n) with (S (S (2 * n))) by lia.
  unfold Hex.encode in *. cbn [flat_map app firstn]. now rewrite IH.
Qed.

(** Decoding the first characters of a hexadecimal text gives the first
    octets; an odd character at the end is dropped. *)
Lemma hex_decode_firstn (j : nat) (b : Buffer) :
  Hex.decode (firstn j (Hex.encode b)) = firstn (j / 2) b.
Proof.
  revert b. induction j as [j IH] using lt_wf_ind. intro b.
  destruct j as [|[|j]].
  - reflexivity.
  - destruct b as [|x b]; [reflexivity|].
    unfold Hex.encode. cbn [flat_map app firstn Hex.decode]. reflexivity.
  - replace (S (S j) / 2) with (S (j / 2))
      by (zify; Z.to_euclidean_division_equations; lia).
    destruct b as [|x b]; [reflexivity|].
    pose proof (hex_decode_encode_app [x] (firstn j (Hex.encode b))) as H.
    unfold Hex.encode in *. cbn [flat_map app firstn] in *.
    rewrite H. cbn [app]. f_equal. apply IH. lia.
Qed.

Section PapayaClient_codec_more.

Variables key iv : Buffer.

(** A codec made with an IV that has not sixteen octets, or with such an
    IV and a key that has not thirty-two, throws on every call. *)
Lemma old_check_fails_encrypt (e : Error) (data : jsstring) :
  crypto.check aes_256_cbc key iv = Throw e ->
  PapayaClient.PNPEncryption.encrypt (PapayaClient.PNPEncryption.constructor key iv) data
  = Throw e.
Proof.
  intro H. rewrite old_encrypt_general.
  cbn [PapayaClient.PNPEncryption.constructor PapayaClient.PNPEncryption.algorithm
       PapayaClient.PNPEncryption.key PapayaClient.PNPEncryption.iv].
  now rewrite H.
Qed.

Lemma old_check_fails_decrypt (e : Error) (data : Buffer) :
  crypto.check aes_256_cbc key iv = Throw e ->
  PapayaClient.PNPEncryption.decrypt (PapayaClient.PNPEncryption.constructor key iv) data
  = Throw e.
Proof.
  intro H. rewrite old_decrypt_general.
  cbn [PapayaClient.PNPEncryption.constructor PapayaClient.PNPEncryption.algorithm
       PapayaClient.PNPEncryption.key PapayaClient.PNPEncryption.iv].
  now rewrite H.
Qed.

Lemma old_check_fails_sendRequest (e : Error) (host : jsstring) (port : N)
  (request : JSValue) (w : World) :
  crypto.check aes_256_cbc key iv = Throw e ->
  PapayaClient.sendRequest (PapayaClient.constructor host port key iv) request w
  = (Rejected e, w).
Proof.
  intro H. unfold PapayaClient.sendRequest, Async_bind, pure_sync, sync.
  cbn [PapayaClient.encryption PapayaClient.constructor].
  now rewrite (old_check_fails_encrypt e _ H).
Qed.

Lemma check_bad_key : length iv = 16 -> length key <> 32 ->
  crypto.check aes_256_cbc key iv = Throw ERR_CRYPTO_INVALID_KEYLEN.
Proof.
  intros Hi Hk. unfold crypto.check. rewrite jsstring_eqb_refl. cbn [negb].
  apply Nat.eqb_eq in Hi. apply Nat.eqb_neq in Hk. now rewrite Hi, Hk.
Qed.

End PapayaClient_codec_more.

Lemma firstn_plus {A : Type} (a b : nat) (l : list A) :
  firstn (a + b) l = firstn a l ++ firstn b (skipn a l).
Proof.
  revert l. induction a as [|a IH]; intro l; [reflexivity|].
  destruct l as [|x l]; [cbn [skipn]; now rewrite !firstn_nil|].
  cbn [Nat.add firstn skipn app]. now rewrite IH.
Qed.

(** Decryption of the first blocks of a ciphertext alone: the padding
    check is made on the block of the plaintext that has become the
    last, and what passes it is taken for padding. *)
Lemma cbc_decrypt_first_blocks (key : list byte) (k : nat) :
  forall (iv m : list byte),
  length iv = CBC.block_size ->
  CBC.block_size * S k <= length m ->
  CBC.decrypt key iv (firstn (CBC.block_size * S k) (CBC.encrypt key iv m))
  = match CBC.unpad (firstn CBC.block_size (skipn (CBC.block_size * k) m)) with
    | None => Throw ERR_OSSL_BAD_DECRYPT
    | Some tail => Ok (firstn (CBC.block_size * k) m ++ tail)
    end.
Proof.
  induction k as [|k IH]; intros iv m Hiv Hm.
  - rewrite Nat.mul_1_r in *. rewrite Nat.mul_0_r. cbn [skipn firstn app].
    rewrite (cbc_encrypt_cons key iv m Hm). cbv zeta.
    set (b1 := firstn CBC.block_size m).
    assert (Hb : length b1 = CBC.block_size) by (unfold b1; rewrite length_firstn; lia).
    set (c1 := AES.encrypt_block key (CBC.xor_bytes b1 iv)).
    assert (Hc : length c1 = CBC.block_size).
    { unfold c1. rewrite length_encrypt_block, length_xor_bytes. lia. }
    rewrite firstn_app, Hc, Nat.sub_diag, firstn_all2 by lia.
    cbn [firstn]. rewrite app_nil_r.
    unfold CBC.decrypt. rewrite Hc. unfold CBC.block_size at 1 2 3.
    cbn [Nat.eqb Nat.modulo Nat.divmod fst snd orb negb Nat.sub].
    rewrite blocks_short by (rewrite Hc; unfold CBC.block_size; lia).
    cbn [CBC.decrypt_blocks last removelast concat app].
    unfold c1. rewrite decrypt_block_encrypt_block, xor_bytes_cancel by lia.
    destruct (CBC.unpad b1); reflexivity.
  - replace (CBC.block_size * S (S k)) with (CBC.block_size + CBC.block_size * S k) in * by lia.
    assert (Hm1 : CBC.block_size <= length m) by lia.
    rewrite (cbc_encrypt_cons key iv m Hm1). cbv zeta.
    set (b1 := firstn CBC.block_size m).
    assert (Hb : length b1 = CBC.block_size) by (unfold b1; rewrite length_firstn; lia).
    set (c1 := AES.encrypt_block key (CBC.xor_bytes b1 iv)).
    assert (Hc : length c1 = CBC.block_size).
    { unfold c1. rewrite length_encrypt_block, length_xor_bytes. lia. }
    rewrite firstn_app, Hc, firstn_all2 by lia.
    replace (CBC.block_size + CBC.block_size * S k - CBC.block_size)
      with (CBC.block_size * S k) by lia.
    assert (Hrest : CBC.block_size * S k <= length (skipn CBC.block_size m))
      by (rewrite length_skipn; lia).
    rewrite cbc_decrypt_cons; [|exact Hc|].
    2:{ intro E. apply (f_equal (@length byte)) in E.
        rewrite length_firstn, length_cbc_encrypt in E by exact Hc.
        cbn [length] in E. unfold CBC.block_size in *.
        generalize dependent (length (skipn 16 m) / 16). intros q E. lia. }
    rewrite (IH c1 (skipn CBC.block_size m) Hc Hrest).
    rewrite skipn_skipn.
    replace (CBC.block_size * k + CBC.block_size) with (CBC.block_size * S k) by lia.
    unfold c1. rewrite decrypt_block_encrypt_block, xor_bytes_cancel by lia.
    destruct (CBC.unpad _); cbn [Result_bind]; [|reflexivity].
    f_equal. rewrite app_assoc. f_equal.
    replace (CBC.block_size * S k) with (CBC.block_size + CBC.block_size * k) by lia.
    unfold b1. symmetry. apply firstn_plus.
Qed.

(** * What the codecs accept and reveal *)

Lemma is_ascii_firstn (j : nat) (s : jsstring) :
  is_ascii s = true -> is_ascii (firstn j s) = true.
Proof.
  revert j. induction s as [|c t IH]; intros [|j] H; try reflexivity.
  unfold is_ascii in *. cbn [firstn forallb] in *.
  apply andb_true_iff in H as [Hc Ht]. rewrite Hc. now apply IH.
Qed.

Lemma decode_ascii_octets (s : jsstring) :
  is_ascii s = true -> Utf8.decode (map byte_of_N s) = s.
Proof.
  intro H. rewrite <- (utf8_encode_ascii s H).
  apply utf8_decode_encode, is_ascii_wf, H.
Qed.

(** X1.  In part_000 decrypt takes nothing from what follows a second
    colon: a payload text with a colon in it, and the same text with a
    colon and any further text behind it, give the same result (the rest
    of the split is joined again and hex decoding stops at the colon).
    The texts are well-formed strings, sent as UTF-8. *)
Theorem decrypt_ignores_second_colon (w0 : World) (t u : jsstring) :
  Utf8.isWellFormed t = true -> Utf8.isWellFormed u = true ->
  contains 58 t = true ->
  PNP.PNPEncryption.decrypt (fst (PNP.PNPEncryption.constructor w0))
    (Utf8.encode (t ++ lit ":" ++ u))
  = PNP.PNPEncryption.decrypt (fst (PNP.PNPEncryption.constructor w0)) (Utf8.encode t).
Proof.
  intros Ht Hu Hc. apply pnp_decrypt_second_colon; auto using constructor_well_keyed.
Qed.

Lemma decrypt_ignores_second_colon_witness :
  PNP.PNPEncryption.decrypt (fst (PNP.PNPEncryption.constructor sample_world))
    (Utf8.encode (lit "e3eaf1f8ff060d141b222930373e454c:d2486676026f8aaca29c8830ff58d6d5"
                  ++ lit ":" ++ lit "00:not hexadecimal"))
  = PNP.PNPEncryption.decrypt (fst (PNP.PNPEncryption.constructor sample_world))
      (Utf8.encode (lit "e3eaf1f8ff060d141b222930373e454c:d2486676026f8aaca29c8830ff58d6d5")).
Proof.
  apply (decrypt_ignores_second_colon sample_world); reflexivity.
Defined.

(** X2.  In part_000 the payload is not protected against change: when the
    IV part of a payload that encrypt returned for a plaintext of sixteen
    UTF-8 octets or more is replaced by the hexadecimal text of the IV xor
    delta, decrypt does not fail; it returns the text whose octets are
    those of the plaintext with delta xor-ed into the first sixteen. *)
Theorem decrypt_under_other_iv (w0 w : World) (data : jsstring) (delta : Buffer) :
  length delta = 16 -> 16 <= length (Utf8.encode data) ->
  let this := fst (PNP.PNPEncryption.constructor w0) in
  let iv := fst (randomBytes 16 w) in
  let ct := CBC.encrypt (PNP.PNPEncryption.key this) iv (Utf8.encode data) in
  fst (PNP.PNPEncryption.encrypt this data w) = Ok (Utf8.encode (wire iv ct)) /\
  PNP.PNPEncryption.decrypt this (Utf8.encode (wire (CBC.xor_bytes iv delta) ct))
  = Ok (Utf8.decode (CBC.xor_bytes (firstn 16 (Utf8.encode data)) delta
                     ++ skipn 16 (Utf8.encode data))).
Proof.
  intros Hd Hm this iv ct.
  pose proof (constructor_well_keyed w0) as Hk. fold this in Hk.
  split.
  - now rewrite (pnp_encrypt_eq this Hk).
  - rewrite (pnp_decrypt_eq this Hk). cbv zeta.
    rewrite decode_wire.
    destruct (wire_parts (CBC.xor_bytes iv delta) ct) as [-> ->].
    rewrite !hex_decode_encode.
    assert (Hiv : length iv = 16) by apply length_randomBytes.
    rewrite length_xor_bytes, Hiv, Hd. cbn [Nat.min Nat.eqb].
    unfold ct. rewrite (cbc_decrypt_other_iv _ iv delta _ Hiv Hd Hm).
    reflexivity.
Qed.

Lemma decrypt_under_other_iv_witness :
  let this := fst (PNP.PNPEncryption.constructor sample_world) in
  let iv := fst (randomBytes 16 sample_world) in
  let ct := CBC.encrypt (PNP.PNPEncryption.key this) iv
              (Utf8.encode (lit "pay 100 to alice")) in
  PNP.PNPEncryption.decrypt this
    (Utf8.encode (wire (CBC.xor_bytes iv (x00 :: x00 :: x00 :: x00 :: x08 :: repeat x00 11)) ct))
  = Ok (lit "pay 900 to alice").
Proof.
  intros this iv ct.
  pose proof (proj2 (decrypt_under_other_iv sample_world sample_world
                       (lit "pay 100 to alice")
                       (x00 :: x00 :: x00 :: x00 :: x08 :: repeat x00 11)
                       eq_refl (le_n 16))) as H.
  cbv zeta in H. fold this iv ct in H. rewrite H.
  vm_compute. reflexivity.
Defined.

Lemma odd_length_wire (iv ct : Buffer) : Nat.even (length (wire iv ct)) = false.
Proof.
  rewrite length_wire.
  replace (2 * length iv + 1 + 2 * length ct) with (1 + 2 * (length iv + length ct)) by lia.
  now rewrite Nat.even_add_mul_2.
Qed.

(** X3.  The codecs of the two files do not understand each other,
    whatever their keys: decrypt of part_000 throws on every text that
    encrypt of src/PapayaClient.ts returns (it has no colon), and decrypt
    of src/PapayaClient.ts throws on every payload that encrypt of
    part_000 returns (its text has an odd length). *)
Theorem codecs_do_not_interoperate :
  (forall (w0 : World) (key iv : Buffer) (data : jsstring),
     length key = 32 -> length iv = 16 ->
     exists text,
       PapayaClient.PNPEncryption.encrypt (PapayaClient.PNPEncryption.constructor key iv) data
         = Ok text /\
       threw (PNP.PNPEncryption.decrypt (fst (PNP.PNPEncryption.constructor w0))
                (BufferOps.from text utf8)) = true)
  /\
  (forall (w0 w : World) (key iv : Buffer) (data : jsstring),
     exists payload,
       fst (PNP.PNPEncryption.encrypt (fst (PNP.PNPEncryption.constructor w0)) data w)
         = Ok payload /\
       threw (PapayaClient.PNPEncryption.decrypt
                (PapayaClient.PNPEncryption.constructor key iv) payload) = true).
Proof.
  split.
  - intros w0 key iv data Hk Hi.
    rewrite old_encrypt_eq by (repeat split; assumption).
    eexists. split; [reflexivity|].
    apply pnp_decrypt_no_sep; [apply constructor_well_keyed|].
    cbn [BufferOps.from].
    rewrite utf8_decode_encode
      by (apply is_ascii_wf, lower_hex_ascii, hex_encode_lower).
    apply lower_hex_no_sep, hex_encode_lower.
  - intros w0 w key iv data.
    rewrite pnp_encrypt_eq by apply constructor_well_keyed. cbn [fst].
    eexists. split; [reflexivity|].
    rewrite old_decrypt_general.
    destruct (crypto.check _ _ _) as [[]|e]; [|reflexivity].
    cbn [Result_bind]. now rewrite decode_wire, odd_length_wire.
Qed.

Lemma codecs_do_not_interoperate_witness :
  exists text,
    PapayaClient.PNPEncryption.encrypt
      (PapayaClient.PNPEncryption.constructor (repeat x00 32) (repeat x01 16)) (lit "hi")
      = Ok text /\
    threw (PNP.PNPEncryption.decrypt (fst (PNP.PNPEncryption.constructor sample_world))
             (BufferOps.from text utf8)) = true.
Proof.
  apply (proj1 codecs_do_not_interoperate sample_world (repeat x00 32) (repeat x01 16));
    reflexivity.
Defined.

(** X4.  The constructor of the codec of src/PapayaClient.ts checks
    nothing; a wrong length shows at the first use.  With an IV that has
    not sixteen octets every encrypt and every decrypt throws (invalid
    IV), with such an IV and a key that has not thirty-two octets they
    throw (invalid key length); sendRequest of a client made with them is
    rejected with that error and does nothing to the socket. *)
Theorem old_codec_wrong_lengths (host : jsstring) (port : N) (key iv : Buffer) :
  let this := PapayaClient.constructor host port key iv in
  let fails (e : Error) :=
    (forall data : jsstring,
       PapayaClient.PNPEncryption.encrypt (PapayaClient.encryption this) data = Throw e) /\
    (forall data : Buffer,
       PapayaClient.PNPEncryption.decrypt (PapayaClient.encryption this) data = Throw e) /\
    (forall (request : JSValue) (w : World),
       PapayaClient.sendRequest this request w = (Rejected e, w)) in
  (length iv <> 16 -> fails ERR_CRYPTO_INVALID_IV) /\
  (length iv = 16 -> length key <> 32 -> fails ERR_CRYPTO_INVALID_KEYLEN).
Proof.
  intros this fails. subst fails this. cbn beta.
  cbn [PapayaClient.encryption PapayaClient.constructor].
  split.
  - intro Hi. pose proof (check_bad_iv key iv Hi) as H.
    split; [|split]; intros.
    + now apply old_check_fails_encrypt.
    + now apply old_check_fails_decrypt.
    + now apply old_check_fails_sendRequest.
  - intros Hi Hk. pose proof (check_bad_key key iv Hi Hk) as H.
    split; [|split]; intros.
    + now apply old_check_fails_encrypt.
    + now apply old_check_fails_decrypt.
    + now apply old_check_fails_sendRequest.
Qed.

Lemma old_codec_wrong_lengths_witness :
  PapayaClient.sendRequest
    (PapayaClient.constructor (lit "localhost") 947 (repeat x00 16) (repeat x01 16))
    (request_of (lit "get") (lit "/") [] (lit "")) sample_world
  = (Rejected ERR_CRYPTO_INVALID_KEYLEN, sample_world)
  /\
  PapayaClient.PNPEncryption.encrypt
    (PapayaClient.encryption (PapayaClient.constructor (lit "localhost") 947 (repeat x00 32) []))
    (lit "hi")
  = Throw ERR_CRYPTO_INVALID_IV.
Proof.
  split.
  - apply (proj2 (old_codec_wrong_lengths (lit "localhost") 947 (repeat x00 16) (repeat x01 16))).
    + reflexivity.
    + cbn. lia.
  - apply (proj1 (old_codec_wrong_lengths (lit "localhost") 947 (repeat x00 32) [])).
    cbn. lia.
Defined.

(** X5.  In src/PapayaClient.ts, with a key of 32 and an IV of 16 octets,
    encrypt returns for a plaintext of n UTF-8 octets a text of 32 * (n /
    16 + 1) lowercase hexadecimal digits, and sendRequest writes as many
    octets as the text has characters. *)
Theorem old_encrypt_text_length (key iv : Buffer) (data : jsstring) :
  length key = 32 -> length iv = 16 ->
  exists text,
    PapayaClient.PNPEncryption.encrypt (PapayaClient.PNPEncryption.constructor key iv) data
      = Ok text /\
    length text = 32 * (length (Utf8.encode data) / 16 + 1) /\
    forallb Hex.is_lower_hex text = true /\
    length (BufferOps.from text utf8) = length text.
Proof.
  intros Hk Hi. rewrite old_encrypt_eq by (repeat split; assumption).
  cbn [PapayaClient.PNPEncryption.constructor PapayaClient.PNPEncryption.key
       PapayaClient.PNPEncryption.iv].
  eexists. split; [reflexivity|].
  split; [|split].
  - rewrite length_hex_encode, length_cbc_encrypt by exact Hi. unfold CBC.block_size.
    generalize (length (Utf8.encode data) / 16). intro q. lia.
  - apply hex_encode_lower.
  - cbn [BufferOps.from]. apply length_utf8_encode_ascii, lower_hex_ascii, hex_encode_lower.
Qed.

Lemma old_encrypt_text_length_witness :
  exists text,
    PapayaClient.PNPEncryption.encrypt
      (PapayaClient.PNPEncryption.constructor (repeat x00 32) (repeat x01 16))
      (lit "0123456789abcdef") = Ok text /\
    length text = 32 * (length (Utf8.encode (lit "0123456789abcdef")) / 16 + 1) /\
    forallb Hex.is_lower_hex text = true /\
    length (BufferOps.from text utf8) = length text.
Proof.
  apply (old_encrypt_text_length (repeat x00 32) (repeat x01 16)); reflexivity.
Defined.

(** X6.  In src/PapayaClient.ts, where every message is encrypted under
    the IV of the instance, two plaintexts whose UTF-8 octets agree on the
    first 16 * k give texts that agree on the first 32 * k characters: a
    common beginning of two messages shows in their ciphertexts. *)
Theorem old_encrypt_shared_prefix (key iv : Buffer) (a b : jsstring) (k : nat) :
  length key = 32 -> length iv = 16 ->
  16 * k <= length (Utf8.encode a) -> 16 * k <= length (Utf8.encode b) ->
  firstn (16 * k) (Utf8.encode a) = firstn (16 * k) (Utf8.encode b) ->
  exists ta tb,
    PapayaClient.PNPEncryption.encrypt (PapayaClient.PNPEncryption.constructor key iv) a
      = Ok ta /\
    PapayaClient.PNPEncryption.encrypt (PapayaClient.PNPEncryption.constructor key iv) b
      = Ok tb /\
    firstn (32 * k) ta = firstn (32 * k) tb.
Proof.
  intros Hk Hi Ha Hb E. rewrite !old_encrypt_eq by (repeat split; assumption).
  cbn [PapayaClient.PNPEncryption.constructor PapayaClient.PNPEncryption.key
       PapayaClient.PNPEncryption.iv].
  do 2 eexists. split; [reflexivity|]. split; [reflexivity|].
  replace (32 * k) with (2 * (16 * k)) by lia.
  rewrite !firstn_hex_encode. f_equal.
  now apply (cbc_encrypt_common_prefix key k iv).
Qed.

Lemma old_encrypt_shared_prefix_witness :
  exists ta tb,
    PapayaClient.PNPEncryption.encrypt
      (PapayaClient.PNPEncryption.constructor (repeat x00 32) (repeat x01 16))
      (lit "0123456789abcdef, first") = Ok ta /\
    PapayaClient.PNPEncryption.encrypt
      (PapayaClient.PNPEncryption.constructor (repeat x00 32) (repeat x01 16))
      (lit "0123456789abcdef; second") = Ok tb /\
    firstn (32 * 1) ta = firstn (32 * 1) tb.
Proof.
  apply (old_encrypt_shared_prefix (repeat x00 32) (repeat x01 16)
           (lit "0123456789abcdef, first") (lit "0123456789abcdef; second") 1).
  - reflexivity.
  - reflexivity.
  - vm_compute. lia.
  - vm_compute. lia.
  - vm_compute. reflexivity.
Defined.

Lemma lower_hex_firstn (j : nat) (s : jsstring) :
  forallb Hex.is_lower_hex s = true -> forallb Hex.is_lower_hex (firstn j s) = true.
Proof.
  revert j. induction s as [|c t IH]; intros [|j] H; try reflexivity.
  cbn [firstn forallb] in *.
  apply andb_true_iff in H as [Hc Ht]. rewrite Hc. now apply IH.
Qed.

(** The IV and the ciphertext that decrypt of part_000 takes from the
    first [j] characters of a wire text. *)
Lemma wire_cut (iv ct : Buffer) (j : nat) :
  length iv = 16 ->
  Hex.decode (before 58 (firstn j (wire iv ct))) = firstn (j / 2) iv /\
  Hex.decode (after 58 (firstn j (wire iv ct))) = firstn ((j - 33) / 2) ct.
Proof.
  intro Hiv. unfold wire.
  assert (Hl : length (Hex.encode iv) = 32) by (rewrite length_hex_encode; lia).
  destruct (Nat.le_gt_cases j 32) as [Hj|Hj].
  - rewrite firstn_app, Hl. replace (j - 32) with 0 by lia.
    cbn [firstn]. rewrite app_nil_r.
    assert (Hs : contains 58 (firstn j (Hex.encode iv)) = false)
      by apply lower_hex_no_sep, lower_hex_firstn, hex_encode_lower.
    rewrite (before_no_sep _ _ Hs), (after_no_sep _ _ Hs), hex_decode_firstn.
    split; [reflexivity|].
    replace ((j - 33) / 2) with 0; [reflexivity|].
    replace (j - 33) with 0 by lia. reflexivity.
  - rewrite firstn_app, Hl, firstn_all2 by lia.
    change (lit ":" ++ Hex.encode ct) with (58%N :: Hex.encode ct).
    destruct (j - 32) as [|i] eqn:Ei; [lia|]. cbn [firstn].
    assert (Hs : contains 58 (Hex.encode iv) = false)
      by apply lower_hex_no_sep, hex_encode_lower.
    rewrite (before_app_sep _ _ _ Hs), (after_app_sep _ _ _ Hs).
    rewrite hex_decode_encode, hex_decode_firstn.
    replace (j - 33) with i by lia.
    split; [|reflexivity].
    symmetry. apply firstn_all2. rewrite Hiv.
    clear - Hj. zify; Z.to_euclidean_division_equations; lia.
Qed.

(** X7.  In part_000, what decrypt does with a chunk that holds only the
    first j octets of a payload that encrypt returned: it throws (invalid
    IV) when the cut lies inside the IV part; it throws (wrong final block
    length) when the cut lies behind it and what is left of the ciphertext
    part decodes to no octet at all or to a number of octets that is no
    multiple of sixteen; and when what is left decodes to one or more
    whole blocks, the padding check is made on the block of the plaintext
    that has become the last: decrypt throws (bad decrypt) unless that
    block ends like a padding, and then it returns the plaintext in front
    of that padding.  A truncated payload can so be decrypted to a part
    of the plaintext. *)
Theorem truncated_payload (w0 w : World) (data : jsstring) (j : nat) :
  let this := fst (PNP.PNPEncryption.constructor w0) in
  let payload := value_or_nil (fst (PNP.PNPEncryption.encrypt this data w)) in
  let m := Utf8.encode data in
  j < length payload ->
  fst (PNP.PNPEncryption.encrypt this data w) = Ok payload /\
  (j < 32 ->
   PNP.PNPEncryption.decrypt this (firstn j payload) = Throw ERR_CRYPTO_INVALID_IV) /\
  (32 <= j -> j <= 34 \/ ((j - 33) / 2) mod 16 <> 0 ->
   PNP.PNPEncryption.decrypt this (firstn j payload)
   = Throw ERR_OSSL_WRONG_FINAL_BLOCK_LENGTH) /\
  (forall k : nat, (j - 33) / 2 = 16 * S k ->
   16 * S k <= length m /\
   PNP.PNPEncryption.decrypt this (firstn j payload)
   = match CBC.unpad (firstn 16 (skipn (16 * k) m)) with
     | None => Throw ERR_OSSL_BAD_DECRYPT
     | Some tail => Ok (Utf8.decode (firstn (16 * k) m ++ tail))
     end).
Proof.
  intros this payload m. subst payload.
  pose proof (constructor_well_keyed w0) as Hk. fold this in Hk.
  rewrite (pnp_encrypt_eq this Hk). cbn [fst value_or_nil].
  set (iv := fst (randomBytes 16 w)).
  fold m.
  set (ct := CBC.encrypt (PNP.PNPEncryption.key this) iv m).
  assert (Hiv : length iv = 16) by apply length_randomBytes.
  assert (Hct : length ct = 16 * (length m / 16 + 1))
    by (unfold ct; now rewrite length_cbc_encrypt).
  rewrite (utf8_encode_ascii _ (wire_ascii iv ct)), length_map, length_wire, Hiv.
  intro Hj. split; [reflexivity|].
  rewrite firstn_map.
  rewrite (pnp_decrypt_eq this Hk). cbv zeta.
  rewrite (decode_ascii_octets _ (is_ascii_firstn j _ (wire_ascii iv ct))).
  destruct (wire_cut iv ct j Hiv) as [-> ->].
  rewrite !length_firstn, Hiv.
  split; [|split].
  - intro H32.
    replace (Nat.min (j / 2) 16 =? 16) with false; [reflexivity|].
    symmetry. apply Nat.eqb_neq.
    clear - H32. zify; Z.to_euclidean_division_equations; lia.
  - intros H32 Hcut.
    replace (Nat.min (j / 2) 16 =? 16) with true
      by (symmetry; apply Nat.eqb_eq; clear - H32;
          zify; Z.to_euclidean_division_equations; lia).
    unfold CBC.decrypt. rewrite length_firstn.
    replace (Nat.min ((j - 33) / 2) (length ct)) with ((j - 33) / 2)
      by (clear - Hj; zify; Z.to_euclidean_division_equations; lia).
    unfold CBC.block_size.
    destruct Hcut as [H34|Hm].
    + replace ((j - 33) / 2) with 0
        by (clear - H34; zify; Z.to_euclidean_division_equations; lia).
      reflexivity.
    + apply Nat.eqb_neq in Hm. rewrite Hm. cbn [negb]. now rewrite orb_true_r.
  - intros k Hcut.
    assert (H33 : 32 <= j)
      by (clear - Hcut; zify; Z.to_euclidean_division_equations; lia).
    assert (Hlen : 16 * S k <= length m).
    { assert (Hlt : (j - 33) / 2 < length ct)
        by (clear - Hj Hcut; zify; Z.to_euclidean_division_equations; lia).
      rewrite Hcut, Hct in Hlt. clear - Hlt.
      generalize dependent (length m). intros n Hlt.
      zify; Z.to_euclidean_division_equations; lia. }
    split; [exact Hlen|].
    replace (Nat.min (j / 2) 16 =? 16) with true
      by (symmetry; apply Nat.eqb_eq; clear - H33;
          zify; Z.to_euclidean_division_equations; lia).
    rewrite (firstn_all2 (n := j / 2) iv)
      by (rewrite Hiv; clear - H33; zify; Z.to_euclidean_division_equations; lia).
    rewrite Hcut. unfold ct.
    pose proof (cbc_decrypt_first_blocks (PNP.PNPEncryption.key this) k iv m Hiv Hlen) as H.
    unfold CBC.block_size in H. rewrite H.
    destruct (CBC.unpad _); reflexivity.
Qed.

Lemma truncated_payload_witness :
  let this := fst (PNP.PNPEncryption.constructor sample_world) in
  let payload :=
    value_or_nil (fst (PNP.PNPEncryption.encrypt this (lit "0123456789abcdef") sample_world)) in
  let longer :=
    value_or_nil
      (fst (PNP.PNPEncryption.encrypt this
              (lit "0123456789abcde" ++ [1%N] ++ lit "0123456789abcdefg") sample_world)) in
  PNP.PNPEncryption.decrypt this (firstn 20 payload) = Throw ERR_CRYPTO_INVALID_IV /\
  PNP.PNPEncryption.decrypt this (firstn 80 payload)
  = Throw ERR_OSSL_WRONG_FINAL_BLOCK_LENGTH /\
  length longer = 129 /\
  PNP.PNPEncryption.decrypt this (firstn 65 longer) = Ok (lit "0123456789abcde").
Proof.
  intros this payload longer.
  split; [|split; [|split]].
  - apply (proj1 (proj2 (truncated_payload sample_world sample_world
                           (lit "0123456789abcdef") 20 ltac:(vm_compute; lia)))).
    lia.
  - apply (proj1 (proj2 (proj2 (truncated_payload sample_world sample_world
                                  (lit "0123456789abcdef") 80 ltac:(vm_compute; lia))))).
    + lia.
    + right. vm_compute. lia.
  - vm_compute. reflexivity.
  - pose proof (proj2 (proj2 (proj2
                  (truncated_payload sample_world sample_world
                     (lit "0123456789abcde" ++ [1%N] ++ lit "0123456789abcdefg") 65
                     ltac:(vm_compute; lia)))) 0 eq_refl) as [_ H].
    unfold longer, this. rewrite H. vm_compute. reflexivity.
Defined.

(** * The client in the event loop *)

(** Projections of a state that was built with the setters. *)
Ltac fields :=
  cbn [Loop.this Loop.os Loop.listeners Loop.writes Loop.promises Loop.reactions
       Loop.microtasks Loop.console Loop.socket Loop.uncaught
       Loop.set_this Loop.set_os Loop.set_listeners Loop.set_writes Loop.set_promises
       Loop.set_reactions Loop.set_microtasks Loop.set_console Loop.set_socket
       Loop.set_uncaught fst snd] in *.

Section Debug_mode.
Import Loop PNPLoop.

Lemma silent_silent (st : State) : silent (silent st) = silent st.
Proof. reflexivity. Qed.

Lemma blind_compose (f g : State -> State) :
  blind f -> blind g -> blind (fun st => g (f st)).
Proof.
  intros Hf Hg st. cbv beta.
  rewrite (Hg (f st)), (Hf st), <- (Hg (f (silent st))). reflexivity.
Qed.

Lemma blind_debug (text : jsstring) (st : State) : silent (debug text st) = silent st.
Proof. unfold debug. now destruct (PNP.PNPConnection.debugMode _). Qed.

Lemma debug_silent (text : jsstring) (st : State) : debug text (silent st) = silent st.
Proof. reflexivity. Qed.

Lemma blind_settle (p : nat) (r : Settled Value) : blind (settle_promise p r).
Proof.
  intro st. unfold settle_promise. cbn [silent promises set_console PNPConnection.setDebugMode
    set_this]. destruct (nth_error (promises st) p) as [[| |]|]; reflexivity.
Qed.

Lemma blind_await (p : nat) (k : Continuation) : blind (await p k).
Proof.
  intro st. unfold await, state_of. cbn [silent promises set_console
    PNPConnection.setDebugMode set_this].
  destruct (nth p (promises st) Pending); reflexivity.
Qed.

Lemma blind_invoke (f : Callback) (a : Arg) : blind (invoke f a).
Proof.
  intro st. unfold invoke.
  destruct f, a; try reflexivity; unfold resolve, reject;
    rewrite blind_settle, blind_debug, debug_silent; reflexivity.
Qed.

Lemma blind_fold {A : Type} (g : A -> State -> State) (l : list A) :
  (forall x, blind (g x)) -> blind (fun st => fold_left (fun s x => g x s) l st).
Proof.
  intro Hg. induction l as [|x l IH]; intro st; [reflexivity|].
  cbn [fold_left]. rewrite (IH (g x st)), (Hg x st), <- (IH (g x (silent st))).
  reflexivity.
Qed.

Lemma blind_emit (name : EventName) (a : Arg) : blind (emit invoke name a).
Proof.
  intro st. unfold emit.
  change (listeners (silent st)) with (listeners st).
  rewrite (blind_fold (fun l => invoke (callback l) a) _
             (fun l => blind_invoke (callback l) a) (set_listeners _ st)).
  reflexivity.
Qed.

Lemma blind_complete_write (a : Arg) : blind (complete_write invoke a).
Proof.
  intro st. unfold complete_write.
  change (writes (silent st)) with (writes st).
  destruct (writes st) as [|f rest]; [reflexivity|].
  now rewrite blind_invoke.
Qed.

Lemma blind_receive (k : Continuation) :
  blind (fun st => let '(p, st') := PNPConnection.receive st in await p k st').
Proof.
  intro st. unfold PNPConnection.receive, new_promise. cbv beta iota zeta.
  rewrite blind_await. reflexivity.
Qed.

Lemma blind_resume (k : Continuation) (r : Settled Value) : blind (resume k r).
Proof.
  intro st. destruct k as [outer|outer|outer], r as [v|e|];
    try reflexivity; try apply blind_settle.
  - apply (blind_receive (receive_awaited outer)).
  - cbn [resume]. destruct v; try reflexivity.
    change (PNP.encryption (this (silent st))) with (PNP.encryption (this st)).
    destruct (PNP.PNPEncryption.decrypt _ _); [|apply blind_settle].
    destruct (JSON.parse _); apply blind_settle.
Qed.

Lemma blind_drain_fuel (fuel : nat) : blind (drain_fuel resume fuel).
Proof.
  induction fuel as [|f IH]; intro st; [reflexivity|].
  cbn [drain_fuel]. change (microtasks (silent st)) with (microtasks st).
  destruct (microtasks st) as [|[k r] rest]; [reflexivity|].
  rewrite IH, blind_resume, <- IH. reflexivity.
Qed.

Lemma blind_drain : blind (drain resume cost).
Proof. intro st. unfold drain. apply blind_drain_fuel. Qed.

Lemma blind_emit_error (message : jsstring) : blind (emit_error invoke message).
Proof.
  intro st. unfold emit_error. change (listeners (silent st)) with (listeners st).
  destruct (filter _ _); [reflexivity|apply blind_emit].
Qed.

Lemma blind_turn (h : Happening) : blind (turn invoke h).
Proof.
  destruct h; try apply blind_emit; try apply blind_complete_write;
    try apply blind_emit_error.
  intro st. unfold turn. change (writes (silent st)) with (writes st).
  destruct (writes st) as [|f rest] eqn:E; [reflexivity|].
  pose proof (blind_compose _ _ (blind_complete_write (failure message))
                (blind_emit_error message) st) as H.
  cbv beta in H. exact H.
Qed.

(** States that are the same but for flag and console are alive or
    ended together. *)
Lemma silent_uncaught (a b : State) : silent a = silent b -> uncaught a = uncaught b.
Proof. intro H. now apply (f_equal uncaught) in H. Qed.

Lemma blind_happen (h : Happening) : blind (happen invoke resume cost h).
Proof.
  intro st. unfold happen.
  change (uncaught (silent st)) with (uncaught st).
  destruct (uncaught st); [reflexivity|].
  pose proof (blind_compose _ _ blind_drain (blind_turn h) st) as H. cbv beta in H.
  unfold finish. rewrite <- (silent_uncaught _ _ H).
  destruct (uncaught (turn invoke h (drain resume cost st))); [exact H|].
  rewrite (blind_drain (turn invoke h (drain resume cost st))), H, <- blind_drain.
  reflexivity.
Qed.

Lemma blind_connection_connect :
  blind (fun st => snd (PNPConnection.connect st)).
Proof.
  intro st. unfold PNPConnection.connect, new_promise, socket_connect. cbv beta iota zeta.
  change (PNP.PNPConnection.port (PNP.connection (this (silent st))))
    with (PNP.PNPConnection.port (PNP.connection (this st))).
  destruct (valid_port _); cbn [snd]; [reflexivity|].
  unfold reject. rewrite blind_settle. symmetry. rewrite blind_settle. reflexivity.
Qed.

Lemma blind_act (a : Action) : blind (act a).
Proof.
  intro st. unfold act.
  change (uncaught (silent st)) with (uncaught st).
  destruct (uncaught st); [reflexivity|].
  destruct a.
  - unfold connect, PNPConnection.connect, new_promise, socket_connect.
    cbv beta iota zeta.
    assert (Hp : forall x,
              PNP.PNPConnection.port (PNP.connection (this (set_promises x (silent st))))
              = PNP.PNPConnection.port (PNP.connection (this (set_promises x st))))
      by reflexivity.
    rewrite Hp.
    destruct (valid_port _); cbn [snd].
    + rewrite blind_await. symmetry. rewrite blind_await. reflexivity.
    + unfold reject. rewrite blind_await, blind_settle. symmetry.
      rewrite blind_await, blind_settle. reflexivity.
  - unfold sendRequest, new_promise. cbv beta iota zeta.
    change (PNP.encryption (this (set_promises ?x (silent st))))
      with (PNP.encryption (this (set_promises x st))).
    change (os (set_promises ?x (silent st))) with (os (set_promises x st)).
    destruct (PNP.PNPEncryption.encrypt _ _ _) as [[payload|e] w']; cbn [snd].
    + unfold PNPConnection.send, new_promise. cbv beta iota zeta. cbn [snd].
      rewrite blind_await. symmetry. rewrite blind_await. reflexivity.
    + unfold reject. rewrite blind_settle. symmetry. rewrite blind_settle. reflexivity.
  - unfold close, PNPConnection.close. now rewrite blind_debug.
  - reflexivity.
  - apply blind_connection_connect.
  - reflexivity.
  - reflexivity.
  - apply blind_happen.
Qed.

Lemma blind_run (actions : list Action) : blind (run actions).
Proof. unfold run. apply (blind_fold act), blind_act. Qed.

End Debug_mode.

(** ** Lists that grow at the end *)

Lemma nth_error_app_plus {A : Type} (n i : nat) (P l : list A) :
  length P = n -> nth_error (P ++ l) (n + i) = nth_error l i.
Proof.
  intros <-. rewrite nth_error_app2 by lia. f_equal. lia.
Qed.

Lemma nth_error_app_len {A : Type} (n : nat) (P l : list A) :
  length P = n -> nth_error (P ++ l) n = nth_error l 0.
Proof.
  intro H. rewrite <- (nth_error_app_plus n 0 P l H). f_equal. lia.
Qed.

Lemma replace_nth_app_plus {A : Type} (n i : nat) (x : A) (P l : list A) :
  length P = n -> replace_nth (n + i) x (P ++ l) = P ++ replace_nth i x l.
Proof.
  intros <-. induction P as [|y P IH]; [reflexivity|].
  cbn [length Nat.add app replace_nth]. now rewrite IH.
Qed.

Lemma replace_nth_app_len {A : Type} (n : nat) (x : A) (P l : list A) :
  length P = n -> replace_nth n x (P ++ l) = P ++ replace_nth 0 x l.
Proof.
  intro H. rewrite <- (replace_nth_app_plus n 0 x P l H). f_equal. lia.
Qed.

Lemma replace_nth_app_lt {A : Type} (i : nat) (x : A) (P l : list A) :
  i < length P -> replace_nth i x (P ++ l) = replace_nth i x P ++ l.
Proof.
  revert i. induction P as [|y P IH]; intros i Hi; [cbn in Hi; lia|].
  destruct i as [|i]; [reflexivity|].
  cbn [app replace_nth]. rewrite IH by (cbn in Hi; lia). reflexivity.
Qed.

Lemma length_replace_nth {A : Type} (i : nat) (x : A) (l : list A) :
  length (replace_nth i x l) = length l.
Proof.
  revert i. induction l as [|y l IH]; intros [|i]; cbn [replace_nth length]; auto.
Qed.

Lemma nth_error_replace_nth_other {A : Type} (i j : nat) (x : A) (l : list A) :
  i <> j -> nth_error (replace_nth i x l) j = nth_error l j.
Proof.
  revert i j. induction l as [|y l IH]; intros [|i] [|j] H; cbn [replace_nth nth_error];
    try reflexivity; try congruence.
  apply IH. congruence.
Qed.

Lemma nth_error_replace_nth_same {A : Type} (i : nat) (x : A) (l : list A) :
  i < length l -> nth_error (replace_nth i x l) i = Some x.
Proof.
  revert i. induction l as [|y l IH]; intros [|i] H; cbn [replace_nth nth_error length] in *;
    try lia; [reflexivity|]. apply IH. lia.
Qed.

Lemma filter_none {A : Type} (f : A -> bool) (l : list A) :
  (forall x, In x l -> f x = false) -> filter f l = [].
Proof.
  induction l as [|y l IH]; intro H; [reflexivity|].
  cbn [filter]. rewrite (H y) by now left. apply IH. intros x Hx. apply H. now right.
Qed.

Lemma filter_all {A : Type} (f : A -> bool) (l : list A) :
  (forall x, In x l -> f x = true) -> filter f l = l.
Proof.
  induction l as [|y l IH]; intro H; [reflexivity|].
  cbn [filter]. rewrite (H y) by now left. f_equal. apply IH. intros x Hx. apply H. now right.
Qed.

(** ** The event loop, whatever the program *)

Section Loop_facts.
Import Loop.

Context {Object Callback Continuation : Type}.
Local Abbreviation State := (Loop.State Object Callback Continuation).
Variable invoke : Callback -> Arg -> State -> State.
Variable resume : Continuation -> Settled Value -> State -> State.
Variable cost : Continuation -> nat.

(** A state is the record of its fields. *)
Lemma set_console_same (st : State) : set_console (console st) st = st.
Proof. now destruct st. Qed.

Lemma settle_pending (p : nat) (r : Settled Value) (st : State) :
  nth_error (promises st) p = Some Pending ->
  settle_promise p r st
  = set_microtasks
      (microtasks st ++ map (fun x => (snd x, r)) (filter (fun x => fst x =? p) (reactions st)))
      (set_reactions (filter (fun x => negb (fst x =? p)) (reactions st))
         (set_promises (replace_nth p r (promises st)) st)).
Proof. intro H. unfold settle_promise. now rewrite H. Qed.

Lemma settle_settled (p : nat) (r : Settled Value) (st : State) :
  nth_error (promises st) p <> Some Pending -> settle_promise p r st = st.
Proof.
  intro H. unfold settle_promise.
  destruct (nth_error (promises st) p) as [[| |]|]; congruence.
Qed.

Lemma drain_fuel_nil (fuel : nat) (st : State) :
  microtasks st = [] -> drain_fuel resume fuel st = st.
Proof. intro H. destruct fuel; [reflexivity|]. cbn [drain_fuel]. now rewrite H. Qed.

Lemma drain_nil (st : State) : microtasks st = [] -> drain resume cost st = st.
Proof. apply drain_fuel_nil. Qed.

(** *** What was settled stays settled, what listens for good stays *)

Lemma keeps_refl (st : State) : keeps st st.
Proof. split; auto. Qed.

Lemma keeps_trans (a b c : State) : keeps a b -> keeps b c -> keeps a c.
Proof. intros [H1 H2] [H3 H4]. split; eauto. Qed.

Lemma grows_refl (st : State) : grows st st.
Proof. split; [apply keeps_refl|reflexivity]. Qed.

Lemma grows_trans (a b c : State) : grows a b -> grows b c -> grows a c.
Proof.
  intros [H1 H2] [H3 H4]. split; [eapply keeps_trans; eauto|congruence].
Qed.

Lemma grows_keeps (a b : State) : grows a b -> keeps a b.
Proof. now intros [H _]. Qed.

Lemma grows_same (st st' : State) :
  promises st' = promises st -> listeners st' = listeners st ->
  uncaught st' = uncaught st -> grows st st'.
Proof.
  intros Hp Hl Hu. split; [split|exact Hu].
  - intros p r. now rewrite Hp.
  - intros l. now rewrite Hl.
Qed.

Lemma grows_more_promises (st : State) (extra : list (Settled Value)) :
  grows st (set_promises (promises st ++ extra) st).
Proof.
  split; [split|reflexivity]; cbn [promises listeners set_promises]; auto.
  intros p r H _. rewrite nth_error_app1; [exact H|].
  apply nth_error_Some. congruence.
Qed.

Lemma grows_more_listeners (st : State) (extra : list (Listener Callback)) :
  grows st (set_listeners (listeners st ++ extra) st).
Proof.
  split; [split|reflexivity]; cbn [promises listeners set_listeners]; auto.
  intros l H _. apply in_or_app. now left.
Qed.

Lemma grows_settle (p : nat) (r : Settled Value) (st : State) :
  grows st (settle_promise p r st).
Proof.
  unfold settle_promise.
  destruct (nth_error (promises st) p) as [[| |]|] eqn:E; try apply grows_refl.
  split; [split|reflexivity];
    cbn [promises listeners set_microtasks set_reactions set_promises]; auto.
  intros q r0 Hq Hr. rewrite nth_error_replace_nth_other; [exact Hq|].
  intros <-. rewrite E in Hq. congruence.
Qed.

Lemma grows_await (p : nat) (k : Continuation) (st : State) : grows st (await p k st).
Proof.
  unfold await. destruct (state_of p st); now apply grows_same.
Qed.

Lemma grows_new_promise (st : State) : grows st (snd (new_promise st)).
Proof. apply grows_more_promises. Qed.

Lemma grows_on (name : EventName) (f : Callback) (st : State) : grows st (on name f st).
Proof. apply grows_more_listeners. Qed.

Lemma grows_once (name : EventName) (f : Callback) (st : State) : grows st (once name f st).
Proof. apply grows_more_listeners. Qed.

Lemma grows_socket_connect (port : N) (host : jsstring) (f : Callback) (st : State) :
  grows st (snd (socket_connect port host f st)).
Proof.
  unfold socket_connect. cbv zeta.
  destruct (valid_port port); cbn [snd]; [|apply grows_once].
  eapply grows_trans; [apply grows_once|]. now apply grows_same.
Qed.

Lemma grows_socket_write (data : Buffer) (f : Callback) (st : State) :
  grows st (socket_write data f st).
Proof. now apply grows_same. Qed.

Lemma grows_socket_end (st : State) : grows st (socket_end st).
Proof. now apply grows_same. Qed.

Lemma grows_log (text : jsstring) (st : State) : grows st (log text st).
Proof. now apply grows_same. Qed.

Lemma grows_error (text : jsstring) (st : State) : grows st (error text st).
Proof. now apply grows_same. Qed.

Hypothesis invoke_grows : forall f a st, grows st (invoke f a st).
Hypothesis resume_grows : forall k r st, grows st (resume k r st).

Lemma grows_fold (a : Arg) (l : list (Listener Callback)) (st : State) :
  grows st (fold_left (fun s x => invoke (callback x) a s) l st).
Proof.
  revert st. induction l as [|x l IH]; intro st; [apply grows_refl|].
  cbn [fold_left]. eapply grows_trans; [apply invoke_grows|apply IH].
Qed.

Lemma grows_emit (name : EventName) (a : Arg) (st : State) :
  grows st (emit invoke name a st).
Proof.
  unfold emit. eapply grows_trans; [|apply grows_fold].
  split; [split|reflexivity]; cbn [promises listeners set_listeners]; auto.
  intros l Hl Ho. apply filter_In. split; [exact Hl|].
  rewrite Ho. now rewrite andb_false_r.
Qed.

Lemma grows_complete_write (a : Arg) (st : State) :
  grows st (complete_write invoke a st).
Proof.
  unfold complete_write. destruct (writes st) as [|f rest]; [apply grows_refl|].
  eapply grows_trans; [|apply invoke_grows]. now apply grows_same.
Qed.

Lemma grows_drain_fuel (fuel : nat) (st : State) : grows st (drain_fuel resume fuel st).
Proof.
  revert st. induction fuel as [|f IH]; intro st; [apply grows_refl|].
  cbn [drain_fuel]. destruct (microtasks st) as [|[k r] rest]; [apply grows_refl|].
  eapply grows_trans; [|apply IH].
  eapply grows_trans; [|apply resume_grows]. now apply grows_same.
Qed.

Lemma grows_drain (st : State) : grows st (drain resume cost st).
Proof. apply grows_drain_fuel. Qed.

Lemma error_listener_kept (a b : State) :
  keeps a b -> has_error_listener a -> has_error_listener b.
Proof.
  intros [_ H] (l & Hl & He & Ho). exists l. auto.
Qed.

Lemma error_listener_found (st : State) :
  has_error_listener st -> filter (listens ev_error) (listeners st) <> [].
Proof.
  intros (l & Hl & He & Ho) E.
  assert (Hin : In l (filter (listens ev_error) (listeners st))).
  { apply filter_In. split; [exact Hl|]. unfold listens. now rewrite He. }
  rewrite E in Hin. destruct Hin.
Qed.

Lemma grows_emit_error (message : jsstring) (st : State) :
  has_error_listener st -> grows st (emit_error invoke message st).
Proof.
  intro H. unfold emit_error. pose proof (error_listener_found st H) as Hne.
  destruct (filter _ _); [congruence|apply grows_emit].
Qed.

Lemma keeps_emit_error (message : jsstring) (st : State) :
  keeps st (emit_error invoke message st).
Proof.
  unfold emit_error. destruct (filter _ _); [|apply grows_keeps, grows_emit].
  split; auto.
Qed.

(** What a happening makes the program run, when no error goes
    uncaught. *)
Lemma grows_turn (h : Happening) (st : State) :
  (brings_error h = true -> has_error_listener st) -> grows st (turn invoke h st).
Proof.
  intro Hh.
  destruct h; try apply grows_emit; try apply grows_complete_write.
  - apply grows_emit_error, Hh. reflexivity.
  - unfold turn. destruct (writes st) as [|f rest] eqn:E; [apply grows_refl|].
    eapply grows_trans; [apply (grows_complete_write (failure message))|].
    apply grows_emit_error.
    apply (error_listener_kept st); [|apply Hh; reflexivity].
    apply grows_keeps, grows_complete_write.
Qed.

Lemma keeps_turn (h : Happening) (st : State) : keeps st (turn invoke h st).
Proof.
  destruct h; try apply grows_keeps, grows_emit;
    try apply grows_keeps, grows_complete_write.
  - apply keeps_emit_error.
  - unfold turn. destruct (writes st) as [|f rest] eqn:E; [apply keeps_refl|].
    eapply keeps_trans; [apply grows_keeps, (grows_complete_write (failure message))|].
    apply keeps_emit_error.
Qed.

(** A turn of the loop in which no error goes uncaught. *)
Lemma grows_happen (h : Happening) (st : State) :
  (brings_error h = true -> has_error_listener st) ->
  grows st (happen invoke resume cost h st).
Proof.
  intro Hh. unfold happen, finish. destruct (uncaught st) eqn:Eu; [apply grows_refl|].
  assert (Ht : grows st (turn invoke h (drain resume cost st))).
  { eapply grows_trans; [apply grows_drain|]. apply grows_turn.
    intro Hb. apply (error_listener_kept st); [apply grows_keeps, grows_drain|auto]. }
  destruct (uncaught (turn invoke h (drain resume cost st))); [exact Ht|].
  eapply grows_trans; [exact Ht|apply grows_drain].
Qed.

(** Any turn of the loop. *)
Lemma keeps_happen (h : Happening) (st : State) :
  keeps st (happen invoke resume cost h st).
Proof.
  unfold happen, finish. destruct (uncaught st); [apply keeps_refl|].
  assert (Ht : keeps st (turn invoke h (drain resume cost st))).
  { eapply keeps_trans; [apply grows_keeps, grows_drain|apply keeps_turn]. }
  destruct (uncaught (turn invoke h (drain resume cost st))); [exact Ht|].
  eapply keeps_trans; [exact Ht|apply grows_keeps, grows_drain].
Qed.

End Loop_facts.

(** * One request of part_000 in the event loop *)

(** ** Running the loop on a state that is given by its fields *)

Lemma nth_error_plus {A : Type} (i : nat) (P l : list A) :
  nth_error (P ++ l) (length P + i) = nth_error l i.
Proof. now apply nth_error_app_plus. Qed.

Lemma nth_error_len {A : Type} (P l : list A) :
  nth_error (P ++ l) (length P) = nth_error l 0.
Proof. now apply nth_error_app_len. Qed.

Lemma replace_nth_plus {A : Type} (i : nat) (x : A) (P l : list A) :
  replace_nth (length P + i) x (P ++ l) = P ++ replace_nth i x l.
Proof. now apply replace_nth_app_plus. Qed.

Lemma replace_nth_len {A : Type} (x : A) (P l : list A) :
  replace_nth (length P) x (P ++ l) = P ++ replace_nth 0 x l.
Proof. now apply replace_nth_app_len. Qed.

Lemma nth_len {A : Type} (P l : list A) (d : A) : nth (length P) (P ++ l) d = nth 0 l d.
Proof. rewrite <- (app_nth2_plus P l d 0). f_equal. lia. Qed.

Lemma eqb_plus (n i j : nat) : (n + i =? n + j) = (i =? j).
Proof. destruct (Nat.eqb_spec i j); [subst; apply Nat.eqb_refl|apply Nat.eqb_neq; lia]. Qed.

Lemma eqb_plus_l (n i : nat) : (n + S i =? n) = false.
Proof. apply Nat.eqb_neq. lia. Qed.

Lemma eqb_plus_r (n i : nat) : (n =? n + S i) = false.
Proof. apply Nat.eqb_neq. lia. Qed.

Lemma length_app_1 {A : Type} (P : list A) (a : A) : length (P ++ [a]) = length P + 1.
Proof. rewrite length_app. reflexivity. Qed.
Lemma length_app_2 {A : Type} (P : list A) (a b : A) : length (P ++ [a; b]) = length P + 2.
Proof. rewrite length_app. reflexivity. Qed.
Lemma length_app_3 {A : Type} (P : list A) (a b c : A) : length (P ++ [a; b; c]) = length P + 3.
Proof. rewrite length_app. reflexivity. Qed.


(** The steps of the loop, for whatever object, callbacks and
    continuations a client has. *)
Section Loop_steps.
Import Loop.
Context {Object Callback Continuation : Type}.

Local Abbreviation State := (Loop.State Object Callback Continuation).
Local Abbreviation mk t w L W P R M C K U :=
  (Loop.Build_State Object Callback Continuation t w L W P R M C K U).

Lemma set_this_mk (x : Object) t w L W P R M C K U :
  set_this x (mk t w L W P R M C K U)
  = mk x w L W P R M C K U.
Proof. reflexivity. Qed.

Lemma set_os_mk (x : World) t w L W P R M C K U :
  set_os x (mk t w L W P R M C K U)
  = mk t x L W P R M C K U.
Proof. reflexivity. Qed.

Lemma set_promises_mk (x : list (Settled Value)) t w L W P R M C K U :
  set_promises x (mk t w L W P R M C K U)
  = mk t w L W x R M C K U.
Proof. reflexivity. Qed.

Lemma log_mk (text : jsstring) t w L W P R M C K U :
  log text (mk t w L W P R M C K U)
  = mk t w L W P R M (C ++ [console_log text]) K U.
Proof. reflexivity. Qed.

Lemma new_promise_mk  t w L W P R M C K U :
  new_promise (mk t w L W P R M C K U)
  = (length P, mk t w L W (P ++ [Pending]) R M C K U).
Proof. reflexivity. Qed.

Lemma settle_mk (p : nat) (r : Settled Value) t w L W P R M C K U :
  settle_promise p r (mk t w L W P R M C K U)
  = match nth_error P p with
    | Some Pending =>
        mk t w L W (replace_nth p r P) (filter (fun x => negb (fst x =? p)) R) (M ++ map (fun x => (snd x, r)) (filter (fun x => fst x =? p) R)) C K U
    | _ => mk t w L W P R M C K U
    end.
Proof. reflexivity. Qed.

Lemma resolve_mk (p : nat) (v : Value) t w L W P R M C K U :
  resolve p v (mk t w L W P R M C K U)
  = settle_promise p (Fulfilled v) (mk t w L W P R M C K U).
Proof. reflexivity. Qed.

Lemma reject_mk (p : nat) (e : Error) t w L W P R M C K U :
  reject p e (mk t w L W P R M C K U)
  = settle_promise p (Rejected e) (mk t w L W P R M C K U).
Proof. reflexivity. Qed.

Lemma await_mk (p : nat) (k : Continuation) t w L W P R M C K U :
  await p k (mk t w L W P R M C K U)
  = match nth p P Pending with
    | Pending => mk t w L W P (R ++ [(p, k)]) M C K U
    | r => mk t w L W P R (M ++ [(k, r)]) C K U
    end.
Proof. reflexivity. Qed.

Lemma on_mk (name : EventName) (f : Callback) t w L W P R M C K U :
  on name f (mk t w L W P R M C K U)
  = mk t w (L ++ [{| event := name; one_time := false; callback := f |}]) W P R M C K U.
Proof. reflexivity. Qed.

Lemma once_mk (name : EventName) (f : Callback) t w L W P R M C K U :
  once name f (mk t w L W P R M C K U)
  = mk t w (L ++ [{| event := name; one_time := true; callback := f |}]) W P R M C K U.
Proof. reflexivity. Qed.

Lemma socket_connect_mk (port : N) (host : jsstring) (f : Callback) t w L W P R M C K U :
  socket_connect port host f (mk t w L W P R M C K U)
  = if valid_port port
    then (Ok tt,
          mk t w (L ++ [{| event := ev_connect; one_time := true; callback := f |}])
             W P R M C (K ++ [call_connect port host]) U)
    else (Throw ERR_SOCKET_BAD_PORT,
          mk t w (L ++ [{| event := ev_connect; one_time := true; callback := f |}])
             W P R M C K U).
Proof. reflexivity. Qed.

Lemma socket_write_mk (data : Buffer) (f : Callback) t w L W P R M C K U :
  socket_write data f (mk t w L W P R M C K U)
  = mk t w L (W ++ [f]) P R M C (K ++ [call_write data]) U.
Proof. reflexivity. Qed.

Lemma socket_end_mk  t w L W P R M C K U :
  socket_end (mk t w L W P R M C K U)
  = mk t w L W P R M C (K ++ [call_end]) U.
Proof. reflexivity. Qed.

Lemma state_of_mk (p : nat) t w L W P R M C K U :
  state_of p (mk t w L W P R M C K U) = nth p P Pending.
Proof. reflexivity. Qed.

Lemma settle_old (n q : nat) (r : Settled Value) t w L W P Q R M C K U :
  q < n -> length P = n -> (forall x, In x R -> n <= fst x) ->
  exists P',
    length P' = n /\
    settle_promise q r (mk t w L W (P ++ Q) R M C K U) = mk t w L W (P' ++ Q) R M C K U.
Proof.
  intros Hq Hn HR.
  destruct (nth_error (P ++ Q) q) as [[| |]|] eqn:E;
    try (exists P; split; [exact Hn|];
         apply settle_settled; cbn [promises]; rewrite E; congruence).
  exists (replace_nth q r P). split; [now rewrite length_replace_nth|].
  rewrite settle_pending by exact E. fields.
  rewrite replace_nth_app_lt by lia.
  rewrite filter_none, filter_all, app_nil_r; [reflexivity| |].
  - intros x Hx. apply HR in Hx. apply negb_true_iff, Nat.eqb_neq. lia.
  - intros x Hx. apply HR in Hx. apply Nat.eqb_neq. lia.
Qed.

Lemma Forall_filter_incl {A : Type} (Q : A -> Prop) (f : A -> bool) (l : list A) :
  Forall Q l -> Forall Q (filter f l).
Proof.
  rewrite !Forall_forall. intros H x Hx. apply filter_In in Hx. now apply H.
Qed.

Lemma filter_listeners_app3 (f : Listener Callback -> bool) (L : list (Listener Callback))
  (a b : Listener Callback) :
  filter f (L ++ [a; b]) = filter f L ++ filter f [a; b].
Proof. apply filter_app. Qed.

Lemma match_app_cons {A B : Type} (l : list A) (a : A) (X Y : B) :
  match l ++ [a] with
  | [] => X
  | _ :: _ => Y
  end = Y.
Proof. now destruct l. Qed.

Lemma filter_filter_weaker {A : Type} (f g : A -> bool) (l : list A) :
  (forall x, f x = true -> g x = true) -> filter f (filter g l) = filter f l.
Proof.
  intro H. induction l as [|x l IH]; [reflexivity|]. cbn [filter].
  destruct (g x) eqn:Eg; cbn [filter].
  - now rewrite IH.
  - destruct (f x) eqn:Ef; [|exact IH]. rewrite (H x Ef) in Eg. discriminate.
Qed.

Lemma listens_one_event (a b : EventName) (l : Listener Callback) :
  a <> b -> listens a l = true -> listens b l = false.
Proof.
  unfold listens. destruct (event l), a, b; cbn; congruence.
Qed.

Lemma no_listener (name : EventName) (L : list (Listener Callback)) :
  length (filter (listens name) L) = 0 ->
  filter (listens name) L = [] /\
  filter (fun l => negb (listens name l && one_time l)) L = L.
Proof.
  intro H. apply length_zero_iff_nil in H. split; [exact H|].
  apply filter_all. intros x Hx.
  destruct (listens name x) eqn:E; [|reflexivity].
  assert (Hin : In x (filter (listens name) L)) by (apply filter_In; auto).
  rewrite H in Hin. destruct Hin.
Qed.

Lemma listener_added (st : State) (l : Listener Callback) (rest : list (Listener Callback)) :
  event l = ev_error -> one_time l = false ->
  has_error_listener (set_listeners (listeners st ++ l :: rest) st).
Proof.
  intros He Ho. exists l. cbn [listeners set_listeners].
  split; [|auto]. apply in_or_app. right. now left.
Qed.

Lemma error_mk (text : jsstring) t w L W P R M C K U :
  error text (mk t w L W P R M C K U)
  = mk t w L W P R M (C ++ [console_error text]) K U.
Proof. reflexivity. Qed.

Variable invoke : Callback -> Arg -> Loop.State Object Callback Continuation
                  -> Loop.State Object Callback Continuation.
Variable resume : Continuation -> Settled Value -> Loop.State Object Callback Continuation
                  -> Loop.State Object Callback Continuation.
Variable cost : Continuation -> nat.

Lemma emit_mk (name : EventName) (a : Arg) t w L W P R M C K U :
  emit invoke name a (mk t w L W P R M C K U)
  = fold_left (fun s l => invoke (callback l) a s) (filter (listens name) L)
      (mk t w (filter (fun l => negb (listens name l && one_time l)) L) W P R M C K U).
Proof. reflexivity. Qed.
Lemma set_uncaught_mk (x : option Error) t w L W P R M C K U :
  set_uncaught x (mk t w L W P R M C K U) = mk t w L W P R M C K x.
Proof. reflexivity. Qed.

Lemma complete_write_mk (a : Arg) (f : Callback) t w L W P R M C K U :
  complete_write invoke a (mk t w L (f :: W) P R M C K U)
  = invoke f a (mk t w L W P R M C K U).
Proof. reflexivity. Qed.

Lemma complete_write_none_mk (a : Arg) t w L P R M C K U :
  complete_write invoke a (mk t w L [] P R M C K U) = mk t w L [] P R M C K U.
Proof. reflexivity. Qed.

Lemma drain_done_mk t w L W P R C K U :
  drain resume cost (mk t w L W P R [] C K U) = mk t w L W P R [] C K U.
Proof. now apply drain_nil. Qed.

Lemma drain_fuel_done_mk (fuel : nat) t w L W P R C K U :
  drain_fuel resume fuel (mk t w L W P R [] C K U) = mk t w L W P R [] C K U.
Proof. now apply drain_fuel_nil. Qed.

Lemma drain_job_mk (k : Continuation) (r : Settled Value) t w L W P R M C K U :
  drain resume cost (mk t w L W P R ((k, r) :: M) C K U)
  = drain_fuel resume (cost k + queue_cost cost M + waiting_cost cost R)
      (mk t w L W P R ((k, r) :: M) C K U).
Proof. reflexivity. Qed.

Lemma drain_fuel_job_mk (fuel : nat) (k : Continuation) (r : Settled Value)
  t w L W P R M C K U :
  drain_fuel resume (S fuel) (mk t w L W P R ((k, r) :: M) C K U)
  = drain_fuel resume fuel (resume k r (mk t w L W P R M C K U)).
Proof. reflexivity. Qed.

Lemma emit_error_mk (message : jsstring) t w L W P R M C K U :
  emit_error invoke message (mk t w L W P R M C K U)
  = match filter (listens ev_error) L with
    | [] => mk t w L W P R M C K (Some (SocketError message))
    | _ :: _ => emit invoke ev_error (failure message) (mk t w L W P R M C K U)
    end.
Proof. reflexivity. Qed.

Lemma turn_mk (h : Happening) t w L W P R M C K U :
  turn invoke h (mk t w L W P R M C K U)
  = match h with
    | connected => emit invoke ev_connect no_argument (mk t w L W P R M C K U)
    | received data => emit invoke ev_data (chunk data) (mk t w L W P R M C K U)
    | errored message => emit_error invoke message (mk t w L W P R M C K U)
    | written => complete_write invoke no_argument (mk t w L W P R M C K U)
    | write_failed message =>
        complete_write invoke (failure message) (mk t w L W P R M C K U)
    | broken message =>
        match W with
        | [] => mk t w L W P R M C K U
        | _ :: _ =>
            emit_error invoke message
              (complete_write invoke (failure message) (mk t w L W P R M C K U))
        end
    end.
Proof. reflexivity. Qed.

Lemma finish_mk t w L W P R M C K :
  finish resume cost (mk t w L W P R M C K None)
  = drain resume cost (mk t w L W P R M C K None).
Proof. reflexivity. Qed.

Lemma finish_ended_mk (e : Error) t w L W P R M C K :
  finish resume cost (mk t w L W P R M C K (Some e)) = mk t w L W P R M C K (Some e).
Proof. reflexivity. Qed.

Lemma happen_mk (h : Happening) t w L W P R M C K :
  happen invoke resume cost h (mk t w L W P R M C K None)
  = finish resume cost (turn invoke h (drain resume cost (mk t w L W P R M C K None))).
Proof. reflexivity. Qed.


End Loop_steps.

(** Listeners of earlier calls: when each of them prints and settles its
    own promise at most, so do all of them, called one after the other. *)
Section Old_listeners.
Import Loop.
Context {Object Callback Continuation : Type}.
Variable invoke : Callback -> Arg -> Loop.State Object Callback Continuation
                  -> Loop.State Object Callback Continuation.
Variable promise_of : Callback -> nat.

Local Abbreviation mk t w L W P R M C K U :=
  (Loop.Build_State Object Callback Continuation t w L W P R M C K U).

Hypothesis invoke_old :
  forall (n : nat) (f : Callback) (a : Arg) t w L W P Q R M C K U,
    promise_of f < n -> length P = n -> (forall x, In x R -> n <= fst x) ->
    exists P' lines,
      length P' = n /\
      invoke f a (mk t w L W (P ++ Q) R M C K U) = mk t w L W (P' ++ Q) R M (C ++ lines) K U.

Lemma fold_listeners_old (n : nat) (a : Arg) (Ls : list (Listener Callback)) :
  Forall (fun l => promise_of (callback l) < n) Ls ->
  forall t w L W P Q R M C K U,
  length P = n -> (forall x, In x R -> n <= fst x) ->
  exists P' lines,
    length P' = n /\
    fold_left (fun s l => invoke (callback l) a s) Ls (mk t w L W (P ++ Q) R M C K U)
    = mk t w L W (P' ++ Q) R M (C ++ lines) K U.
Proof.
  induction 1 as [|l Ls Hl _ IH]; intros t w L W P Q R M C K U Hn HR.
  - exists P, []. split; [exact Hn|]. cbn [fold_left]. now rewrite app_nil_r.
  - cbn [fold_left].
    destruct (invoke_old n (callback l) a t w L W P Q R M C K U Hl Hn HR)
      as (P1 & lines1 & H1 & ->).
    destruct (IH t w L W P1 Q R M (C ++ lines1) K U H1 HR) as (P2 & lines2 & H2 & ->).
    exists P2, (lines1 ++ lines2). split; [exact H2|]. now rewrite app_assoc.
Qed.

End Old_listeners.

Create Rewrite HintDb mk.
#[export] Hint Rewrite @set_uncaught_mk @set_this_mk @set_os_mk @set_promises_mk @log_mk @error_mk
  @new_promise_mk @settle_mk @resolve_mk @reject_mk @await_mk @on_mk @once_mk
  @socket_connect_mk @socket_write_mk @socket_end_mk @emit_mk @complete_write_mk
  @complete_write_none_mk @drain_done_mk @drain_fuel_done_mk @drain_job_mk @drain_fuel_job_mk
  @happen_mk @turn_mk @emit_error_mk @finish_mk @finish_ended_mk : mk.
#[export] Hint Rewrite <- app_assoc : mk.
#[export] Hint Rewrite <- Nat.add_assoc : mk.
#[export] Hint Rewrite @nth_error_plus @nth_error_len @replace_nth_plus @replace_nth_len
  @app_nth2_plus @nth_len eqb_plus eqb_plus_l eqb_plus_r Nat.eqb_refl @app_nil_r
  @filter_app @fold_left_app @map_app @length_app : mk.

(** * One request of part_000 in the event loop *)

Section PNPLoop_steps.
Import Loop PNPLoop.

Local Abbreviation mk t w L W P R M C K U :=
  (Loop.Build_State PNP.t Callback Continuation t w L W P R M C K U).


Lemma debug_printed_mk (text : jsstring) t w L W P R M C K U :
  debug text (mk t w L W P R M C K U) = mk t w L W P R M (C ++ printed t text) K U.
Proof.
  unfold debug, printed. cbn [this].
  destruct (PNP.PNPConnection.debugMode (PNP.connection t)); [reflexivity|].
  now rewrite app_nil_r.
Qed.

Lemma resume_connect_fulfilled_mk (outer : nat) (v : Value) t w L W P R M C K U :
  resume (connect_awaited outer) (Fulfilled v) (mk t w L W P R M C K U)
  = settle_promise outer (Fulfilled undefined) (mk t w L W P R M C K U).
Proof. reflexivity. Qed.

Lemma resume_connect_rejected_mk (outer : nat) (e : Error) t w L W P R M C K U :
  resume (connect_awaited outer) (Rejected e) (mk t w L W P R M C K U)
  = settle_promise outer (Rejected e) (mk t w L W P R M C K U).
Proof. reflexivity. Qed.

Lemma resume_send_fulfilled_mk (outer : nat) (v : Value) t w L W P R M C K U :
  resume (send_awaited outer) (Fulfilled v) (mk t w L W P R M C K U)
  = await (length P) (receive_awaited outer)
      (mk t w
         (L ++ [ {| event := ev_data; one_time := true; callback := data_listener (length P) |};
                 {| event := ev_error; one_time := false;
                    callback := receive_on_error (length P) |} ])
         W (P ++ [Pending]) R M C K U).
Proof.
  cbn [resume]. unfold PNPConnection.receive, new_promise, once, on.
  cbn [promises listeners set_promises set_listeners]. now rewrite <- app_assoc.
Qed.

Lemma resume_send_rejected_mk (outer : nat) (e : Error) t w L W P R M C K U :
  resume (send_awaited outer) (Rejected e) (mk t w L W P R M C K U)
  = settle_promise outer (Rejected e) (mk t w L W P R M C K U).
Proof. reflexivity. Qed.

Lemma resume_receive_fulfilled_mk (outer : nat) (c : Buffer) t w L W P R M C K U :
  resume (receive_awaited outer) (Fulfilled (buffer c)) (mk t w L W P R M C K U)
  = settle_promise outer
      (answer (settle (text <- PNP.PNPEncryption.decrypt (PNP.encryption t) c ;;
                       JSON.parse text)%result))
      (mk t w L W P R M C K U).
Proof.
  cbn [resume this]. destruct (PNP.PNPEncryption.decrypt _ c) as [text|e];
    cbn [Result_bind settle answer]; [|reflexivity].
  destruct (JSON.parse text); reflexivity.
Qed.

Lemma resume_receive_rejected_mk (outer : nat) (e : Error) t w L W P R M C K U :
  resume (receive_awaited outer) (Rejected e) (mk t w L W P R M C K U)
  = settle_promise outer (Rejected e) (mk t w L W P R M C K U).
Proof. reflexivity. Qed.


Lemma act_mk (a : Action) t w L W P R M C K :
  act a (mk t w L W P R M C K None)
  = match a with
    | do_connect => snd (connect (mk t w L W P R M C K None))
    | do_sendRequest request => snd (sendRequest request (mk t w L W P R M C K None))
    | do_close => close (mk t w L W P R M C K None)
    | do_setDebugMode mode => setDebugMode mode (mk t w L W P R M C K None)
    | do_connection_connect => snd (PNPConnection.connect (mk t w L W P R M C K None))
    | do_connection_send data => snd (PNPConnection.send data (mk t w L W P R M C K None))
    | do_connection_receive => snd (PNPConnection.receive (mk t w L W P R M C K None))
    | outside h => happen invoke resume cost h (mk t w L W P R M C K None)
    end.
Proof. reflexivity. Qed.

Lemma receive_mk t w L W P R M C K U :
  PNPConnection.receive (mk t w L W P R M C K U)
  = (length P,
     mk t w
       (L ++ [ {| event := ev_data; one_time := true; callback := data_listener (length P) |};
               {| event := ev_error; one_time := false;
                  callback := receive_on_error (length P) |} ])
       W (P ++ [Pending]) R M C K U).
Proof.
  unfold PNPConnection.receive. rewrite new_promise_mk. cbv iota beta.
  rewrite once_mk, on_mk, <- app_assoc. reflexivity.
Qed.

Lemma send_mk (data : Buffer) t w L W P R M C K U :
  PNPConnection.send data (mk t w L W P R M C K U)
  = (length P,
     mk t w L (W ++ [write_callback data (length P)]) (P ++ [Pending]) R M C
        (K ++ [call_write data]) U).
Proof. reflexivity. Qed.

Lemma connection_connect_mk t w L W P R M C K U :
  valid_port (PNP.PNPConnection.port (PNP.connection t)) = true ->
  PNPConnection.connect (mk t w L W P R M C K U)
  = (length P,
     mk t w
       (L ++ [ {| event := ev_connect; one_time := true;
                  callback := connect_listener (length P) |};
               {| event := ev_error; one_time := false;
                  callback := connect_on_error (length P) |} ])
       W (P ++ [Pending]) R M C
       (K ++ [call_connect (PNP.PNPConnection.port (PNP.connection t))
                (PNP.PNPConnection.host (PNP.connection t))]) U).
Proof.
  intro Hp. unfold PNPConnection.connect. rewrite new_promise_mk. cbv iota beta zeta.
  cbn [this]. rewrite socket_connect_mk, Hp, on_mk, <- app_assoc. reflexivity.
Qed.

(** [connect] with a port that is out of range: the listener for the
    connect event is there, the promise is rejected, and no listener for
    errors was added. *)
Lemma connection_connect_bad_mk t w L W P C K U :
  valid_port (PNP.PNPConnection.port (PNP.connection t)) = false ->
  PNPConnection.connect (mk t w L W P [] [] C K U)
  = (length P,
     mk t w
       (L ++ [ {| event := ev_connect; one_time := true;
                  callback := connect_listener (length P) |} ])
       W (P ++ [Rejected ERR_SOCKET_BAD_PORT]) [] [] C K U).
Proof.
  intro Hp. unfold PNPConnection.connect. rewrite new_promise_mk. cbv iota beta zeta.
  cbn [this]. rewrite socket_connect_mk, Hp.
  autorewrite with mk. cbn [nth_error replace_nth filter map app]. reflexivity.
Qed.


#[local] Hint Rewrite debug_printed_mk resume_connect_fulfilled_mk resume_connect_rejected_mk
  resume_send_fulfilled_mk resume_send_rejected_mk resume_receive_fulfilled_mk
  resume_receive_rejected_mk act_mk receive_mk send_mk : mk.

(** One step of the loop after the other, each on a state whose fields
    are known. *)
Ltac run_loop :=
  repeat (progress (
    autorewrite with mk;
    cbn [Loop.this Loop.os Loop.listeners Loop.writes Loop.promises Loop.reactions
         Loop.microtasks Loop.console Loop.socket Loop.uncaught
         Loop.EventName_eqb Loop.listens Loop.queue_cost Loop.waiting_cost
         Loop.event Loop.one_time Loop.callback
         PNPLoop.invoke PNPLoop.cost PNPLoop.run
         PNP.connection PNP.encryption PNP.PNPConnection.host PNP.PNPConnection.port
         PNP.PNPConnection.debugMode PNP.PNPConnection.setDebugMode
         fst snd app length filter map fold_left fold_right list_sum nth nth_error
         Nat.add Nat.eqb negb andb orb replace_nth])).

Ltac run_lhs :=
  match goal with
  | |- exists _, ?lhs = _ =>
      let x := fresh "x" in
      let Hx := fresh "Hx" in
      remember lhs as x eqn:Hx; revert Hx; run_loop; intros ->;
      first [ eexists; reflexivity | exists []; rewrite app_nil_r; reflexivity ]
  end.

Lemma debug_mk (text : jsstring) t w L W P R M C K U :
  exists lines,
    debug text (mk t w L W P R M C K U) = mk t w L W P R M (C ++ lines) K U.
Proof.
  unfold debug. cbn [this].
  destruct (PNP.PNPConnection.debugMode (PNP.connection t)).
  - eexists. reflexivity.
  - exists []. now rewrite app_nil_r.
Qed.

(** Settling a promise that no function waits for changes that promise
    at most. *)

(** A listener of an earlier call, when it is called: it prints, and
    settles its own promise at most. *)
Lemma invoke_old (n : nat) (f : Callback) (a : Arg) t w L W P Q R M C K U :
  promise_of f < n -> length P = n -> (forall x, In x R -> n <= fst x) ->
  exists P' lines,
    length P' = n /\
    invoke f a (mk t w L W (P ++ Q) R M C K U) = mk t w L W (P' ++ Q) R M (C ++ lines) K U.
Proof.
  intros Hf Hn HR.
  assert (Hjunk : exists P' lines, length P' = n /\
            mk t w L W (P ++ Q) R M C K U = mk t w L W (P' ++ Q) R M (C ++ lines) K U)
    by (exists P, []; split; [exact Hn|now rewrite app_nil_r]).
  assert (Hsettle : forall q r text, q < n ->
            exists P' lines, length P' = n /\
              settle_promise q r (debug text (mk t w L W (P ++ Q) R M C K U))
              = mk t w L W (P' ++ Q) R M (C ++ lines) K U).
  { intros q r text Hq.
    destruct (debug_mk text t w L W (P ++ Q) R M C K U) as [lines ->].
    destruct (settle_old n q r t w L W P Q R M (C ++ lines) K U Hq Hn HR) as (P' & HP' & ->).
    now exists P', lines. }
  unfold invoke, resolve, reject.
  destruct f; cbn [promise_of] in Hf; destruct a; try exact Hjunk; now apply Hsettle.
Qed.

Lemma fold_old (n : nat) (a : Arg) (Ls : list (Listener Callback)) :
  Forall (fun l => promise_of (callback l) < n) Ls ->
  forall t w L W P Q R M C K U,
  length P = n -> (forall x, In x R -> n <= fst x) ->
  exists P' lines,
    length P' = n /\
    fold_left (fun (s : Loop.State PNP.t Callback Continuation) l => invoke (callback l) a s)
      Ls (mk t w L W (P ++ Q) R M C K U)
    = mk t w L W (P' ++ Q) R M (C ++ lines) K U.
Proof. exact (fold_listeners_old invoke promise_of invoke_old n a Ls). Qed.


(** [sendRequest], up to its first [await]. *)
Lemma sendRequest_mk (r : JSValue) t w L W P R C K :
  well_keyed (PNP.encryption t) ->
  let n := length P in
  let payload :=
    Utf8.encode
      (wire (fst (randomBytes 16 w))
         (CBC.encrypt (PNP.PNPEncryption.key (PNP.encryption t)) (fst (randomBytes 16 w))
            (Utf8.encode (JSON.stringify r)))) in
  sendRequest r (mk t w L W P R [] C K None)
  = (n, mk t (snd (randomBytes 16 w)) L (W ++ [write_callback payload (n + 1)])
          (P ++ [Pending; Pending]) (R ++ [(n + 1, send_awaited n)]) []
          C (K ++ [call_write payload]) None).
Proof.
  intros Hk n payload. subst n. unfold sendRequest. run_loop.
  rewrite (pnp_encrypt_eq _ Hk). fold payload. cbv iota beta. run_loop. reflexivity.
Qed.

(** The write is done: the function goes on to [receive]. *)
Lemma written_mk t w L P C K payload :
  let n := length P in
  exists lines,
    happen invoke resume cost written
      (mk t w L [write_callback payload (n + 1)] (P ++ [Pending; Pending])
          [(n + 1, send_awaited n)] [] C K None)
    = mk t w
        (L ++ [ {| event := ev_data; one_time := true; callback := data_listener (n + 2) |};
                {| event := ev_error; one_time := false;
                   callback := receive_on_error (n + 2) |} ])
        [] (P ++ [Pending; Fulfilled undefined; Pending]) [(n + 2, receive_awaited n)] []
        (C ++ lines) K None.
Proof.
  intro n. subst n. run_lhs.
Qed.

(** The write fails: the function ends there. *)
Lemma write_failed_mk (message : jsstring) t w L P C K payload :
  let n := length P in
  exists lines,
    happen invoke resume cost (write_failed message)
      (mk t w L [write_callback payload (n + 1)] (P ++ [Pending; Pending])
          [(n + 1, send_awaited n)] [] C K None)
    = mk t w L [] (P ++ [Rejected (SocketError message); Rejected (SocketError message)])
        [] [] (C ++ lines) K None.
Proof.
  intro n. subst n. run_lhs.
Qed.


(** The write fails and breaks the socket, which has a listener for
    errors: the callback rejects the promise of [send], the listeners
    are called, and then the function ends. *)
Lemma broken_mk (message : jsstring) t w L P C K payload :
  let n := length P in
  Forall (fun l => promise_of (callback l) < n) L ->
  filter (listens ev_error) L <> [] ->
  exists P' lines,
    length P' = n /\
    happen invoke resume cost (broken message)
      (mk t w L [write_callback payload (n + 1)] (P ++ [Pending; Pending])
          [(n + 1, send_awaited n)] [] C K None)
    = mk t w (filter (fun l => negb (listens ev_error l && one_time l)) L) []
        (P' ++ [Rejected (SocketError message); Rejected (SocketError message)])
        [] [] (C ++ lines) K None.
Proof.
  intros n HL Hne. subst n.
  match goal with
  | |- exists _ _, _ /\ ?lhs = _ => remember lhs as x eqn:Hx
  end.
  revert Hx.
  rewrite happen_mk, drain_done_mk, turn_mk. cbv iota.
  rewrite complete_write_mk. cbn [invoke]. unfold reject.
  rewrite debug_printed_mk, settle_mk. autorewrite with mk.
  cbn [nth_error replace_nth filter map fst snd Nat.eqb negb app].
  autorewrite with mk. cbn [filter map fst snd Nat.eqb negb app].
  destruct (filter (listens ev_error) L) as [|l0 rest] eqn:E; [congruence|].
  match goal with
  | |- context [fold_left ?f (l0 :: rest) (mk ?t0 ?w0 ?L0 ?W0 (P ++ ?Q0) ?R0 ?M0 ?C0 ?K0 ?U0)] =>
      destruct (fold_old (length P) (failure message) (l0 :: rest)
                  ltac:(rewrite <- E; now apply Forall_filter_incl)
                  t0 w0 L0 W0 P Q0 R0 M0 C0 K0 U0 eq_refl)
        as (P' & lines & HP' & ->)
  end.
  { intros y []. }
  rewrite <- HP'.
  run_loop; intros ->; do 2 eexists; (split; [reflexivity|]); reflexivity.
Qed.

(** The same on a socket that has no listener for errors: the error is
    thrown, the process ends, and the function that waits for the
    promise of [send] is never run again. *)
Lemma broken_unheard_mk (message : jsstring) t w L P C K payload :
  let n := length P in
  filter (listens ev_error) L = [] ->
  exists lines,
    happen invoke resume cost (broken message)
      (mk t w L [write_callback payload (n + 1)] (P ++ [Pending; Pending])
          [(n + 1, send_awaited n)] [] C K None)
    = mk t w L [] (P ++ [Pending; Rejected (SocketError message)])
        [] [(send_awaited n, Rejected (SocketError message))] (C ++ lines) K
        (Some (SocketError message)).
Proof.
  intros n Hno. subst n.
  match goal with
  | |- exists _, ?lhs = _ => remember lhs as x eqn:Hx
  end.
  revert Hx.
  rewrite happen_mk, drain_done_mk, turn_mk. cbv iota.
  rewrite complete_write_mk. cbn [invoke]. unfold reject.
  rewrite debug_printed_mk, settle_mk. autorewrite with mk.
  cbn [nth_error replace_nth filter map fst snd Nat.eqb negb app].
  autorewrite with mk. cbn [filter map fst snd Nat.eqb negb app].
  rewrite Hno, finish_ended_mk.
  intros ->. eexists. reflexivity.
Qed.

(** The socket emits data while the function waits in [receive]: every
    data listener is called and removed, the function decrypts the chunk
    and parses the text. *)
Lemma received_mk (c : Buffer) t w L P C K :
  let n := length P in
  Forall (fun l => promise_of (callback l) < n) L ->
  exists P' lines,
    length P' = n /\
    happen invoke resume cost (received c)
      (mk t w
         (L ++ [ {| event := ev_data; one_time := true; callback := data_listener (n + 2) |};
                 {| event := ev_error; one_time := false;
                    callback := receive_on_error (n + 2) |} ])
         [] (P ++ [Pending; Fulfilled undefined; Pending]) [(n + 2, receive_awaited n)] []
         C K None)
    = mk t w
        (filter (fun l => negb (listens ev_data l && one_time l)) L
         ++ [ {| event := ev_error; one_time := false;
                 callback := receive_on_error (n + 2) |} ])
        []
        (P' ++ [answer (settle (text <- PNP.PNPEncryption.decrypt (PNP.encryption t) c ;;
                                JSON.parse text)%result);
                Fulfilled undefined; Fulfilled (buffer c)])
        [] [] (C ++ lines) K None.
Proof.
  intros n HL. subst n.
  match goal with
  | |- exists _ _, _ /\ ?lhs = _ => remember lhs as x eqn:Hx
  end.
  revert Hx.
  rewrite happen_mk, drain_done_mk, turn_mk. cbv iota. rewrite emit_mk.
  rewrite !filter_listeners_app3, fold_left_app.
  cbn [filter listens event one_time EventName_eqb andb negb app].
  match goal with
  | |- context [fold_left ?f (filter ?g L) (mk ?t0 ?w0 ?L0 ?W0 (P ++ ?Q0) ?R0 ?M0 ?C0 ?K0 ?U0)] =>
      destruct (fold_old (length P) (chunk c) (filter g L)
                  (Forall_filter_incl _ g L HL) t0 w0 L0 W0 P Q0 R0 M0 C0 K0 U0 eq_refl)
        as (P' & lines & HP' & ->)
  end.
  { intros y [<-|[]]. cbn [fst]. lia. }
  rewrite <- HP'.
  run_loop; intros ->; do 2 eexists; (split; [reflexivity|]); reflexivity.
Qed.


(** The socket emits an error while the function waits in [receive]:
    every error listener is called, none is removed, and neither is the
    data listener; the function ends with the error. *)
Lemma errored_mk (message : jsstring) t w L P C K :
  let n := length P in
  Forall (fun l => promise_of (callback l) < n) L ->
  exists P' lines,
    length P' = n /\
    happen invoke resume cost (errored message)
      (mk t w
         (L ++ [ {| event := ev_data; one_time := true; callback := data_listener (n + 2) |};
                 {| event := ev_error; one_time := false;
                    callback := receive_on_error (n + 2) |} ])
         [] (P ++ [Pending; Fulfilled undefined; Pending]) [(n + 2, receive_awaited n)] []
         C K None)
    = mk t w
        (filter (fun l => negb (listens ev_error l && one_time l)) L
         ++ [ {| event := ev_data; one_time := true; callback := data_listener (n + 2) |};
              {| event := ev_error; one_time := false;
                 callback := receive_on_error (n + 2) |} ])
        []
        (P' ++ [Rejected (SocketError message); Fulfilled undefined;
                Rejected (SocketError message)])
        [] [] (C ++ lines) K None.
Proof.
  intros n HL. subst n.
  match goal with
  | |- exists _ _, _ /\ ?lhs = _ => remember lhs as x eqn:Hx
  end.
  revert Hx.
  rewrite happen_mk, drain_done_mk, turn_mk. cbv iota. rewrite emit_error_mk.
  rewrite filter_listeners_app3.
  cbn [filter listens event one_time EventName_eqb andb negb app].
  rewrite match_app_cons, emit_mk.
  rewrite !filter_listeners_app3, fold_left_app.
  cbn [filter listens event one_time EventName_eqb andb negb app].
  match goal with
  | |- context [fold_left ?f (filter ?g L) (mk ?t0 ?w0 ?L0 ?W0 (P ++ ?Q0) ?R0 ?M0 ?C0 ?K0 ?U0)] =>
      destruct (fold_old (length P) (failure message) (filter g L)
                  (Forall_filter_incl _ g L HL) t0 w0 L0 W0 P Q0 R0 M0 C0 K0 U0 eq_refl)
        as (P' & lines & HP' & ->)
  end.
  { intros y [<-|[]]. cbn [fst]. lia. }
  rewrite <- HP'.
  run_loop; intros ->; do 2 eexists; (split; [reflexivity|]); reflexivity.
Qed.


Lemma run_cons (a : Action) (l : list Action) (st : State) :
  run (a :: l) st = run l (act a st).
Proof. reflexivity. Qed.

Lemma run_nil (st : State) : run [] st = st.
Proof. reflexivity. Qed.

Lemma run_app (a b : list Action) (st : State) : run (a ++ b) st = run b (run a st).
Proof. unfold run. apply fold_left_app. Qed.

(** One request in a quiet state, answered by a chunk: the state is
    quiet again, and the socket has one more listener for errors. *)
Lemma one_exchange (st : State) (request : JSValue) (c : Buffer) :
  quiet st -> tidy st -> well_keyed (PNP.encryption (this st)) ->
  let st' := run [do_sendRequest request; outside written; outside (received c)] st in
  quiet st' /\ tidy st' /\ this st' = this st /\
  listenerCount ev_error st' = listenerCount ev_error st + 1 /\
  length (promises st') = length (promises st) + 3 /\
  state_of (length (promises st)) st'
  = answer (settle (text <- PNP.PNPEncryption.decrypt (PNP.encryption (this st)) c ;;
                    JSON.parse text)%result).
Proof.
  destruct st as [t w L W P R M C K U]. unfold quiet, tidy.
  cbn [this writes reactions microtasks uncaught listeners promises].
  intros (-> & -> & -> & ->) HL Hk.
  rewrite !run_cons, run_nil, act_mk. cbv iota.
  rewrite (sendRequest_mk request t w L [] P [] C K Hk). cbv zeta. cbn [snd app].
  match goal with |- context [call_write ?x] => set (payload := x) end.
  rewrite act_mk. cbv iota.
  destruct (written_mk t (snd (randomBytes 16 w)) L P C (K ++ [call_write payload]) payload)
    as [lines1 ->].
  rewrite act_mk. cbv iota.
  destruct (received_mk c t (snd (randomBytes 16 w)) L P (C ++ lines1)
              (K ++ [call_write payload]) HL) as (P' & lines & HP' & ->).
  unfold listenerCount.
  cbn [this writes reactions microtasks uncaught listeners promises].
  rewrite state_of_mk, <- HP', nth_len. cbn [nth].
  rewrite !filter_app, !length_app.
  cbn [filter listens event EventName_eqb length].
  rewrite (filter_filter_weaker (listens ev_error)).
  2:{ intros y Hy. rewrite (listens_one_event ev_error ev_data y); [reflexivity|discriminate|exact Hy]. }
  repeat split; try reflexivity.
  apply Forall_app. split.
  - apply Forall_filter_incl. revert HL. apply Forall_impl. intros l Hl. lia.
  - constructor; [|constructor]. cbn [callback promise_of]. lia.
Qed.

Lemma constructor_quiet (host : jsstring) (port : N) (debugMode : bool) (w : World) :
  quiet (constructor host port debugMode w) /\ tidy (constructor host port debugMode w) /\
  well_keyed (PNP.encryption (this (constructor host port debugMode w))).
Proof.
  unfold constructor.
  pose proof (pnp_constructor_well_keyed host port debugMode w) as Hk.
  destruct (PNP.constructor host port debugMode w) as [t w'].
  repeat split; try reflexivity; try apply Hk. constructor.
Qed.

(** X8.  One sendRequest of part_000 in the event loop, begun in a quiet
    and tidy state (no call is under way, the listeners belong to promises
    that were made) with a key as the constructor makes it, when the
    outside does what the world of the state says: the write fails and
    the socket emits the error; or the write is done and the next data
    or error event comes, or none.  When the write is done, or the
    socket had a listener for errors before the call, the promise
    sendRequest returned ends as the promise of the step-by-step model
    of sendRequest does in that world, and no error event goes uncaught;
    the listeners left on the socket by earlier calls are called too,
    and change nothing of this.  When the write fails and the socket had
    no listener for errors, the error event is thrown and ends the
    process. *)
Theorem sendRequest_in_the_loop (st : State) (request : JSValue) :
  quiet st -> tidy st -> well_keyed (PNP.encryption (this st)) ->
  let outer := fst (sendRequest request st) in
  let st' := run (map outside (happenings_of (os st))) (snd (sendRequest request st)) in
  (listenerCount ev_error st <> 0 \/ hd None (write_faults (os st)) = None ->
   state_of outer st' = answer (fst (PNP.sendRequest (this st) request (os st))) /\
   uncaught st' = None) /\
  (listenerCount ev_error st = 0 ->
   forall message : jsstring,
   hd None (write_faults (os st)) = Some message ->
   uncaught st' = Some (SocketError message)).
Proof.
  destruct st as [t w L W P R M C K U]. unfold quiet, tidy, listenerCount.
  cbn [this os writes reactions microtasks uncaught listeners promises].
  intros (-> & -> & -> & ->) HL Hk.
  rewrite (sendRequest_mk request t w L [] P [] C K Hk). cbv zeta. cbn [fst snd app].
  rewrite (pnp_sendRequest_eq t request w Hk). cbv zeta.
  match goal with |- context [call_write ?x] => set (payload := x) end.
  unfold happenings_of.
  destruct (hd None (write_faults w)) as [message|].
  - cbn [map]. rewrite run_cons, run_nil, act_mk. cbv iota. split.
    + intros [Hl|Hn]; [|discriminate].
      assert (Hne : filter (listens ev_error) L <> [])
        by (intro E; rewrite E in Hl; now apply Hl).
      destruct (broken_mk message t (snd (randomBytes 16 w)) L P C
                  (K ++ [call_write payload]) payload HL Hne) as (P' & lines & HP' & ->).
      rewrite state_of_mk, <- HP', nth_len. split; reflexivity.
    + intros Hz message' [= <-]. apply length_zero_iff_nil in Hz.
      destruct (broken_unheard_mk message t (snd (randomBytes 16 w)) L P C
                  (K ++ [call_write payload]) payload Hz) as [lines ->].
      reflexivity.
  - split; [intros _|intros _ message' Hm; discriminate].
    destruct (incoming w) as [|[c|message] rest]; cbn [map fst];
      rewrite run_cons, act_mk; cbv iota;
      destruct (written_mk t (snd (randomBytes 16 w)) L P C (K ++ [call_write payload])
                  payload) as [lines1 ->].
    + rewrite run_nil, state_of_mk, nth_len. split; reflexivity.
    + rewrite run_cons, run_nil, act_mk. cbv iota.
      destruct (received_mk c t (snd (randomBytes 16 w)) L P (C ++ lines1)
                  (K ++ [call_write payload]) HL) as (P' & lines & HP' & ->).
      rewrite state_of_mk, <- HP', nth_len. split; reflexivity.
    + rewrite run_cons, run_nil, act_mk. cbv iota.
      destruct (errored_mk message t (snd (randomBytes 16 w)) L P (C ++ lines1)
                  (K ++ [call_write payload]) HL) as (P' & lines & HP' & ->).
      rewrite state_of_mk, <- HP', nth_len. split; reflexivity.
Qed.

Lemma sendRequest_in_the_loop_witness :
  let request := request_of (lit "get") (lit "/") [] (lit "") in
  (let st :=
     sample_client
       [OnData (Utf8.encode
                  (lit "e3eaf1f8ff060d141b222930373e454c:d2486676026f8aaca29c8830ff58d6d5"))] in
   state_of (fst (sendRequest request st))
     (run (map outside (happenings_of (os st))) (snd (sendRequest request st)))
   = answer (fst (PNP.sendRequest (this st) request (os st))) /\
   uncaught (run (map outside (happenings_of (os st))) (snd (sendRequest request st)))
   = None)
  /\
  (let st := failing_client (lit "EPIPE") in
   uncaught (run (map outside (happenings_of (os st))) (snd (sendRequest request st)))
   = Some (SocketError (lit "EPIPE"))).
Proof.
  intro request. split.
  - intro st.
    apply (proj1 (sendRequest_in_the_loop st request
                    (proj1 (constructor_quiet _ _ _ _))
                    (proj1 (proj2 (constructor_quiet _ _ _ _)))
                    (proj2 (proj2 (constructor_quiet _ _ _ _))))).
    right. reflexivity.
  - intro st.
    apply (proj2 (sendRequest_in_the_loop st request
                    (proj1 (constructor_quiet _ _ _ _))
                    (proj1 (proj2 (constructor_quiet _ _ _ _)))
                    (proj2 (proj2 (constructor_quiet _ _ _ _))))
             eq_refl (lit "EPIPE") eq_refl).
Defined.

(** [connect], up to its [await]. *)
Lemma connect_mk t w L P C K :
  valid_port (PNP.PNPConnection.port (PNP.connection t)) = true ->
  let n := length P in
  connect (mk t w L [] P [] [] C K None)
  = (n, mk t w
          (L ++ [ {| event := ev_connect; one_time := true;
                     callback := connect_listener (n + 1) |};
                  {| event := ev_error; one_time := false;
                     callback := connect_on_error (n + 1) |} ])
          [] (P ++ [Pending; Pending]) [(n + 1, connect_awaited n)] [] C
          (K ++ [call_connect (PNP.PNPConnection.port (PNP.connection t))
                   (PNP.PNPConnection.host (PNP.connection t))]) None).
Proof.
  intros Hp n. subst n. unfold connect. rewrite new_promise_mk. cbv iota beta.
  rewrite (connection_connect_mk t w L [] (P ++ [Pending]) [] [] C K None Hp).
  cbv iota beta. run_loop. reflexivity.
Qed.

(** [connect] with a port that is out of range, up to its [await]. *)
Lemma connect_bad_mk t w L P C K :
  valid_port (PNP.PNPConnection.port (PNP.connection t)) = false ->
  let n := length P in
  connect (mk t w L [] P [] [] C K None)
  = (n, mk t w
          (L ++ [ {| event := ev_connect; one_time := true;
                     callback := connect_listener (n + 1) |} ])
          [] (P ++ [Pending; Rejected ERR_SOCKET_BAD_PORT]) []
          [(connect_awaited n, Rejected ERR_SOCKET_BAD_PORT)] C K None).
Proof.
  intros Hp n. subst n. unfold connect. rewrite new_promise_mk. cbv iota beta.
  rewrite (connection_connect_bad_mk t w L [] (P ++ [Pending]) C K None Hp).
  cbv iota beta. run_loop. reflexivity.
Qed.

(** The socket is connected while [connect] waits. *)
Lemma connected_mk t w L P C K :
  let n := length P in
  Forall (fun l => promise_of (callback l) < n) L ->
  exists P' lines,
    length P' = n /\
    happen invoke resume cost connected
      (mk t w
         (L ++ [ {| event := ev_connect; one_time := true;
                    callback := connect_listener (n + 1) |};
                 {| event := ev_error; one_time := false;
                    callback := connect_on_error (n + 1) |} ])
         [] (P ++ [Pending; Pending]) [(n + 1, connect_awaited n)] [] C K None)
    = mk t w
        (filter (fun l => negb (listens ev_connect l && one_time l)) L
         ++ [ {| event := ev_error; one_time := false;
                 callback := connect_on_error (n + 1) |} ])
        [] (P' ++ [Fulfilled undefined; Fulfilled undefined]) [] []
        (C ++ lines)
        K None.
Proof.
  intros n HL. subst n.
  match goal with
  | |- exists _ _, _ /\ ?lhs = _ => remember lhs as x eqn:Hx
  end.
  revert Hx.
  rewrite happen_mk, drain_done_mk, turn_mk. cbv iota. rewrite emit_mk.
  rewrite !filter_listeners_app3, fold_left_app.
  cbn [filter listens event one_time EventName_eqb andb negb app].
  match goal with
  | |- context [fold_left ?f (filter ?g L) (mk ?t0 ?w0 ?L0 ?W0 (P ++ ?Q0) ?R0 ?M0 ?C0 ?K0 ?U0)] =>
      destruct (fold_old (length P) no_argument (filter g L)
                  (Forall_filter_incl _ g L HL) t0 w0 L0 W0 P Q0 R0 M0 C0 K0 U0 eq_refl)
        as (P' & lines & HP' & ->)
  end.
  { intros y [<-|[]]. cbn [fst]. lia. }
  rewrite <- HP'.
  run_loop; intros ->; do 2 eexists; (split; [reflexivity|]); reflexivity.
Qed.

(** The socket emits an error while [connect] waits. *)
Lemma connect_errored_mk (message : jsstring) t w L P C K :
  let n := length P in
  Forall (fun l => promise_of (callback l) < n) L ->
  exists P' lines,
    length P' = n /\
    happen invoke resume cost (errored message)
      (mk t w
         (L ++ [ {| event := ev_connect; one_time := true;
                    callback := connect_listener (n + 1) |};
                 {| event := ev_error; one_time := false;
                    callback := connect_on_error (n + 1) |} ])
         [] (P ++ [Pending; Pending]) [(n + 1, connect_awaited n)] [] C K None)
    = mk t w
        (filter (fun l => negb (listens ev_error l && one_time l)) L
         ++ [ {| event := ev_connect; one_time := true;
                 callback := connect_listener (n + 1) |};
              {| event := ev_error; one_time := false;
                 callback := connect_on_error (n + 1) |} ])
        [] (P' ++ [Rejected (SocketError message); Rejected (SocketError message)]) [] []
        (C ++ lines)
        K None.
Proof.
  intros n HL. subst n.
  match goal with
  | |- exists _ _, _ /\ ?lhs = _ => remember lhs as x eqn:Hx
  end.
  revert Hx.
  rewrite happen_mk, drain_done_mk, turn_mk. cbv iota. rewrite emit_error_mk.
  rewrite filter_listeners_app3.
  cbn [filter listens event one_time EventName_eqb andb negb app].
  rewrite match_app_cons, emit_mk.
  rewrite !filter_listeners_app3, fold_left_app.
  cbn [filter listens event one_time EventName_eqb andb negb app].
  match goal with
  | |- context [fold_left ?f (filter ?g L) (mk ?t0 ?w0 ?L0 ?W0 (P ++ ?Q0) ?R0 ?M0 ?C0 ?K0 ?U0)] =>
      destruct (fold_old (length P) (failure message) (filter g L)
                  (Forall_filter_incl _ g L HL) t0 w0 L0 W0 P Q0 R0 M0 C0 K0 U0 eq_refl)
        as (P' & lines & HP' & ->)
  end.
  { intros y [<-|[]]. cbn [fst]. lia. }
  rewrite <- HP'.
  run_loop; intros ->; do 2 eexists; (split; [reflexivity|]); reflexivity.
Qed.

(** X9.  connect of part_000 in the event loop, called in a quiet and
    tidy state.  With a port from 0 to 65535 its promise is pending until
    something happens, the connect event fulfils it, and an error event
    rejects it with the error of the socket, which does not go uncaught.
    With a port that is out of range socket.connect throws inside the
    promise: once the microtasks have run the promise of connect is
    rejected with that RangeError, no listener for errors was added and
    nothing was done to reach the host. *)
Theorem connect_in_the_loop (st : State) :
  quiet st -> tidy st ->
  let outer := fst (connect st) in
  let st1 := snd (connect st) in
  (valid_port (PNP.PNPConnection.port (PNP.connection (this st))) = true ->
   state_of outer st1 = Pending /\
   state_of outer (run [outside connected] st1) = Fulfilled undefined /\
   (forall message : jsstring,
     let st2 := run [outside (errored message)] st1 in
     state_of outer st2 = Rejected (SocketError message) /\ uncaught st2 = None)) /\
  (valid_port (PNP.PNPConnection.port (PNP.connection (this st))) = false ->
   state_of outer (drain resume cost st1) = Rejected ERR_SOCKET_BAD_PORT /\
   listenerCount ev_error st1 = listenerCount ev_error st /\
   socket st1 = socket st).
Proof.
  destruct st as [t w L W P R M C K U]. unfold quiet, tidy.
  cbn [this os writes reactions microtasks uncaught listeners promises].
  intros (-> & -> & -> & ->) HL.
  split; intro Hp.
  - rewrite (connect_mk t w L P C K Hp). cbv zeta. cbn [fst snd].
    split; [|split].
    + rewrite state_of_mk, nth_len. reflexivity.
    + rewrite run_cons, run_nil, act_mk. cbv iota.
      destruct (connected_mk t w L P C
                  (K ++ [call_connect (PNP.PNPConnection.port (PNP.connection t))
                           (PNP.PNPConnection.host (PNP.connection t))]) HL)
        as (P' & lines & HP' & ->).
      rewrite state_of_mk, <- HP', nth_len. reflexivity.
    + intro message.
      rewrite run_cons, run_nil, act_mk. cbv iota.
      destruct (connect_errored_mk message t w L P C
                  (K ++ [call_connect (PNP.PNPConnection.port (PNP.connection t))
                           (PNP.PNPConnection.host (PNP.connection t))]) HL)
        as (P' & lines & HP' & ->).
      rewrite state_of_mk, <- HP', nth_len. split; reflexivity.
  - rewrite (connect_bad_mk t w L P C K Hp). cbv zeta. cbn [fst snd].
    unfold listenerCount. cbn [listeners socket].
    rewrite filter_app. cbn [filter listens event EventName_eqb]. rewrite app_nil_r.
    split; [|split; reflexivity].
    run_loop. rewrite state_of_mk, nth_len. reflexivity.
Qed.

Lemma connect_in_the_loop_witness :
  (let st := sample_client [] in
   state_of (fst (connect st))
     (run [outside (errored (lit "ECONNREFUSED"))] (snd (connect st)))
   = Rejected (SocketError (lit "ECONNREFUSED")))
  /\
  (let st := constructor (lit "localhost") 70000 true sample_world in
   state_of (fst (connect st)) (drain resume cost (snd (connect st)))
   = Rejected ERR_SOCKET_BAD_PORT).
Proof.
  split; intro st.
  - apply (proj1 (proj2 (proj2 (proj1 (connect_in_the_loop st (proj1 (constructor_quiet _ _ _ _)) (proj1 (proj2 (constructor_quiet _ _ _ _))))
                                  eq_refl))
                    (lit "ECONNREFUSED"))).
  - apply (proj1 (proj2 (connect_in_the_loop st (proj1 (constructor_quiet _ _ _ _)) (proj1 (proj2 (constructor_quiet _ _ _ _)))) eq_refl)).
Defined.

(** X10.  In part_000 the listeners for the error event pile up: every
    request that is sent and answered, begun in a quiet state, leaves the
    state quiet and the socket with one listener for errors more than it
    had; after any number of such exchanges the socket has as many more
    (receive adds a listener with each call and nothing removes one).  The
    first state is tidy as well, and the codec has a key as the
    constructor makes it. *)
Theorem error_listeners_pile_up (l : list (JSValue * Buffer)) (st : State) :
  quiet st -> tidy st -> well_keyed (PNP.encryption (this st)) ->
  quiet (run (exchanges l) st) /\
  listenerCount ev_error (run (exchanges l) st) = listenerCount ev_error st + length l /\
  length (promises (run (exchanges l) st)) = length (promises st) + 3 * length l.
Proof.
  revert st. induction l as [|[request c] l IH]; intros st Hq Ht Hk.
  - cbn [exchanges flat_map length]. rewrite run_nil. repeat split; try apply Hq; lia.
  - change (exchanges ((request, c) :: l))
      with ([do_sendRequest request; outside written; outside (received c)] ++ exchanges l).
    rewrite run_app.
    destruct (one_exchange st request c Hq Ht Hk) as (Hq' & Ht' & Hthis & He & Hp & _).
    rewrite <- Hthis in Hk.
    destruct (IH _ Hq' Ht' Hk) as (Hq2 & He2 & Hp2).
    split; [exact Hq2|]. rewrite He2, Hp2, He, Hp. cbn [length]. split; lia.
Qed.

Lemma error_listeners_pile_up_witness :
  listenerCount ev_error
    (run (exchanges [(request_of (lit "get") (lit "/") [] (lit ""), []);
                     (request_of (lit "post") (lit "/") [] (lit "x"), [])])
       (sample_client []))
  = listenerCount ev_error (sample_client []) + 2.
Proof.
  apply (error_listeners_pile_up
           [(request_of (lit "get") (lit "/") [] (lit ""), []);
            (request_of (lit "post") (lit "/") [] (lit "x"), [])]
           (sample_client [])); apply constructor_quiet.
Defined.


(** X11.  Two requests of part_000 under way at the same time share one
    response: when sendRequest is called a second time before the first
    response has come, and both writes are done, the first chunk the
    socket emits settles both promises, each with what that one chunk
    decrypts and parses to; the chunk emitted next reaches no listener and
    changes nothing.  (The state before the two calls is quiet, its socket
    has no data listener, and the codec has a key as the constructor makes
    it.) *)
Theorem overlapping_requests (st : State) (r1 r2 : JSValue) (c c2 : Buffer) :
  quiet st -> well_keyed (PNP.encryption (this st)) -> listenerCount ev_data st = 0 ->
  let o1 := fst (sendRequest r1 st) in
  let st1 := snd (sendRequest r1 st) in
  let o2 := fst (sendRequest r2 st1) in
  let st2 := snd (sendRequest r2 st1) in
  let st3 := run [outside written; outside written; outside (received c)] st2 in
  let response :=
    answer (settle (text <- PNP.PNPEncryption.decrypt (PNP.encryption (this st)) c ;;
                    JSON.parse text)%result) in
  o1 <> o2 /\
  state_of o1 st3 = response /\
  state_of o2 st3 = response /\
  run [outside (received c2)] st3 = st3.
Proof.
  destruct st as [t w L W P R M C K U].
  intros Hq Hk Hnone o1 st1 o2 st2 st3 response.
  subst o1 o2 st3 st2 st1 response.
  unfold quiet, listenerCount in *.
  cbn [this os writes reactions microtasks uncaught listeners promises] in Hq, Hk, Hnone.
  destruct Hq as (-> & -> & -> & ->).
  destruct (no_listener ev_data L Hnone) as [Hnil Hkept].
  cbn [this].
  rewrite (sendRequest_mk r1 t w L [] P [] C K Hk). cbv zeta. cbn [fst snd app].
  match goal with |- context [call_write ?x] => set (payload1 := x) end.
  rewrite (sendRequest_mk r2 t _ L _ _ _ C _ Hk). cbv zeta. cbn [fst snd app].
  match goal with
  | |- context [run ?l ?s] => remember (run l s) as st3 eqn:H3
  end.
  revert H3. rewrite !run_cons, !run_nil.
  repeat (progress (run_loop; rewrite ?Hnil, ?Hkept)).
  intros ->.
  rewrite !state_of_mk. autorewrite with mk. cbn [nth].
  split; [lia|]. split; [reflexivity|]. split; [reflexivity|].
  repeat (progress (run_loop; rewrite ?Hnil, ?Hkept)).
  reflexivity.
Qed.

Lemma overlapping_requests_witness :
  let st := sample_client [] in
  let r1 := request_of (lit "get") (lit "/first") [] (lit "") in
  let r2 := request_of (lit "get") (lit "/second") [] (lit "") in
  let c := Utf8.encode (lit "e3eaf1f8ff060d141b222930373e454c:d2486676026f8aaca29c8830ff58d6d5") in
  let o1 := fst (sendRequest r1 st) in
  let st1 := snd (sendRequest r1 st) in
  let o2 := fst (sendRequest r2 st1) in
  let st2 := snd (sendRequest r2 st1) in
  let st3 := run [outside written; outside written; outside (received c)] st2 in
  let response :=
    answer (settle (text <- PNP.PNPEncryption.decrypt (PNP.encryption (this st)) c ;;
                    JSON.parse text)%result) in
  o1 <> o2 /\
  state_of o1 st3 = response /\
  state_of o2 st3 = response /\
  run [outside (received [])] st3 = st3.
Proof.
  intros st r1 r2 c.
  apply (overlapping_requests st r1 r2 c []); try apply constructor_quiet.
  reflexivity.
Defined.

Lemma waiting_step (n : nat) (w : World) (a : Action) (s : State) :
  no_data_no_error a = true -> waits_for_response n w s -> waits_for_response n w (act a s).
Proof.
  intros Ha (t & L0 & P & C & K & HP & HL & ->).
  destruct a as [| | | | | | |[]]; try discriminate; rewrite act_mk; cbv iota.
  - exists t, L0, P, (C ++ printed t (lit "Connection closed")), (K ++ [call_end]).
    split; [exact HP|]. split; [exact HL|]. unfold close, PNPConnection.close.
    now rewrite socket_end_mk, debug_printed_mk.
  - eexists _, L0, P, C, K. split; [exact HP|]. split; [exact HL|]. reflexivity.
  - rewrite happen_mk, drain_done_mk, turn_mk. cbv iota. rewrite emit_mk.
    rewrite !filter_listeners_app3.
    cbn [filter listens event one_time EventName_eqb andb negb app]. rewrite app_nil_r.
    match goal with
    | |- context [fold_left ?f (filter ?g L0) (mk ?t0 ?w0 ?L1 ?W0 (P ++ ?Q0) ?R0 ?M0 ?C0 ?K0 ?U0)] =>
        destruct (fold_old n no_argument (filter g L0)
                    (Forall_filter_incl _ g L0 HL) t0 w0 L1 W0 P Q0 R0 M0 C0 K0 U0 HP)
          as (P' & lines & HP' & ->)
    end.
    { intros y [<-|[]]. cbn [fst]. lia. }
    rewrite finish_mk, drain_done_mk.
    exists t, (filter (fun l => negb (listens ev_connect l && one_time l)) L0), P',
      (C ++ lines), K.
    split; [exact HP'|]. split; [now apply Forall_filter_incl|reflexivity].
  - rewrite happen_mk, drain_done_mk, turn_mk. cbv iota.
    rewrite complete_write_none_mk, finish_mk, drain_done_mk.
    exists t, L0, P, C, K. auto.
  - rewrite happen_mk, drain_done_mk, turn_mk. cbv iota.
    rewrite complete_write_none_mk, finish_mk, drain_done_mk.
    exists t, L0, P, C, K. auto.
Qed.

Lemma waiting_run (n : nat) (w : World) (actions : list Action) :
  forallb no_data_no_error actions = true ->
  forall s, waits_for_response n w s -> waits_for_response n w (run actions s).
Proof.
  induction actions as [|a actions IH]; intros Ha s Hs; [exact Hs|].
  cbn [forallb] in Ha. apply andb_true_iff in Ha as [Ha1 Ha2].
  rewrite run_cons. apply IH; [exact Ha2|]. now apply waiting_step.
Qed.

Lemma waiting_pending (n : nat) (w : World) (s : State) :
  waits_for_response n w s -> state_of n s = Pending /\ uncaught s = None.
Proof.
  intros (t & L0 & P & C & K & HP & HL & ->).
  rewrite state_of_mk, <- HP, nth_len. split; reflexivity.
Qed.

(** X12.  In part_000 nothing but a data event or an error event ends the
    wait for a response: once the write of a request is done, the promise
    of sendRequest stays pending through every sequence of close and
    setDebugMode calls, connect events and ends of writes, and no error
    goes uncaught meanwhile.  There is no timeout, and close settles
    nothing.  (The request is begun in a quiet and tidy state, with a key
    as the constructor makes it.) *)
Theorem response_is_awaited_for_ever (st : State) (request : JSValue)
  (actions : list Action) :
  quiet st -> tidy st -> well_keyed (PNP.encryption (this st)) ->
  forallb no_data_no_error actions = true ->
  let outer := fst (sendRequest request st) in
  let waiting := run [outside written] (snd (sendRequest request st)) in
  state_of outer (run actions waiting) = Pending /\
  uncaught (run actions waiting) = None.
Proof.
  destruct st as [t w L W P R M C K U].
  intros Hq HL Hk Ha outer waiting.
  unfold quiet, tidy in *.
  cbn [this os writes reactions microtasks uncaught listeners promises] in Hq, HL, Hk.
  destruct Hq as (-> & -> & -> & ->).
  assert (Hw : outer = length P /\
               waits_for_response (length P) (snd (randomBytes 16 w)) waiting).
  { subst outer waiting.
    rewrite (sendRequest_mk request t w L [] P [] C K Hk). cbv zeta. cbn [fst snd app].
    match goal with |- context [call_write ?x] => set (payload := x) end.
    rewrite run_cons, run_nil, act_mk. cbv iota.
    destruct (written_mk t (snd (randomBytes 16 w)) L P C (K ++ [call_write payload])
                payload) as [lines1 ->].
    split; [reflexivity|].
    eexists t, L, P, _, _. split; [reflexivity|]. split; [exact HL|reflexivity]. }
  destruct Hw as [-> Hw].
  apply (waiting_pending _ (snd (randomBytes 16 w))).
  now apply waiting_run.
Qed.

Lemma response_is_awaited_for_ever_witness :
  let st := sample_client [] in
  let request := request_of (lit "get") (lit "/") [] (lit "") in
  let actions :=
    [outside connected; do_setDebugMode false; outside written; do_close; do_close] in
  state_of (fst (sendRequest request st))
    (run actions (run [outside written] (snd (sendRequest request st)))) = Pending /\
  uncaught (run actions (run [outside written] (snd (sendRequest request st)))) = None.
Proof.
  intros st request actions.
  apply (response_is_awaited_for_ever st request actions); try apply constructor_quiet.
  reflexivity.
Defined.

(** X13.  In part_000 the debug flag governs printing and nothing else:
    two states that differ in the flag and in what was printed at most are
    taken, by every sequence of calls and happenings (calls of
    setDebugMode among them), to states that again differ in these two at
    most; promises, listeners, unfinished writes, the calls made on the
    socket and an uncaught error are the same. *)
Theorem debug_mode_only_prints (actions : list Action) (st st' : State) :
  silent st = silent st' -> silent (run actions st) = silent (run actions st').
Proof.
  intro H. rewrite (blind_run actions st), (blind_run actions st'). now rewrite H.
Qed.

Lemma debug_mode_only_prints_witness :
  silent (run [do_connect; outside connected;
               do_sendRequest (request_of (lit "get") (lit "/") [] (lit ""));
               outside written; outside (errored (lit "ECONNRESET"))]
            (constructor (lit "localhost") 947 true sample_world))
  = silent (run [do_connect; outside connected;
                 do_sendRequest (request_of (lit "get") (lit "/") [] (lit ""));
                 outside written; outside (errored (lit "ECONNRESET"))]
              (constructor (lit "localhost") 947 false sample_world)).
Proof.
  apply debug_mode_only_prints. reflexivity.
Defined.

(** ** What no call and no happening undoes *)

Lemma grows_debug (text : jsstring) (st : State) : grows st (debug text st).
Proof.
  unfold debug. destruct (PNP.PNPConnection.debugMode _);
    [apply grows_log|apply grows_refl].
Qed.

Lemma invoke_grows (f : Callback) (a : Arg) (st : State) : grows st (invoke f a st).
Proof.
  unfold invoke, resolve, reject.
  destruct f, a; try apply grows_refl;
    (eapply grows_trans; [apply grows_debug|apply grows_settle]).
Qed.

Lemma grows_connection_connect (st : State) :
  grows st (snd (PNPConnection.connect st)).
Proof.
  unfold PNPConnection.connect, new_promise. cbv beta iota zeta.
  match goal with
  | |- context [socket_connect ?p ?h ?f ?s] =>
      pose proof (grows_socket_connect p h f s) as H;
      destruct (socket_connect p h f s) as [[[]|e] s1]
  end; cbn [snd] in *.
  - eapply grows_trans; [apply grows_more_promises|].
    eapply grows_trans; [exact H|apply grows_on].
  - eapply grows_trans; [apply grows_more_promises|].
    eapply grows_trans; [exact H|apply grows_settle].
Qed.

Lemma grows_connection_send (data : Buffer) (st : State) :
  grows st (snd (PNPConnection.send data st)).
Proof.
  unfold PNPConnection.send, new_promise. cbv beta iota zeta. cbn [snd].
  eapply grows_trans; [apply grows_more_promises|apply grows_socket_write].
Qed.

Lemma grows_connection_receive (st : State) : grows st (snd (PNPConnection.receive st)).
Proof.
  unfold PNPConnection.receive, new_promise. cbv beta iota zeta. cbn [snd].
  eapply grows_trans; [apply grows_more_promises|].
  eapply grows_trans; [apply grows_once|apply grows_on].
Qed.

Lemma resume_grows (k : Continuation) (r : Settled Value) (st : State) :
  grows st (resume k r st).
Proof.
  unfold resolve, reject.
  destruct k as [outer|outer|outer], r as [v|e|]; cbn [resume];
    try apply grows_refl; try apply grows_settle.
  - pose proof (grows_connection_receive st) as H.
    destruct (PNPConnection.receive st) as [p st']. cbn [snd] in H.
    eapply grows_trans; [exact H|apply grows_await].
  - destruct v; try apply grows_refl.
    destruct (PNP.PNPEncryption.decrypt _ _); [|apply grows_settle].
    destruct (JSON.parse _); apply grows_settle.
Qed.

Lemma grows_connect (st : State) : grows st (snd (connect st)).
Proof.
  unfold connect.
  pose proof (grows_new_promise st) as H1.
  destruct (new_promise st) as [outer st1]. cbn [snd] in H1.
  pose proof (grows_connection_connect st1) as H2.
  destruct (PNPConnection.connect st1) as [p st2]. cbn [snd] in *.
  eapply grows_trans; [exact H1|]. eapply grows_trans; [exact H2|apply grows_await].
Qed.

Lemma grows_sendRequest (request : JSValue) (st : State) :
  grows st (snd (sendRequest request st)).
Proof.
  unfold sendRequest.
  pose proof (grows_new_promise st) as H1.
  destruct (new_promise st) as [outer st1]. cbn [snd] in H1.
  destruct (PNP.PNPEncryption.encrypt _ _ _) as [[payload|e] w']; cbn [snd].
  - pose proof (grows_connection_send payload (set_os w' st1)) as H2.
    destruct (PNPConnection.send payload (set_os w' st1)) as [p st2]. cbn [snd] in *.
    eapply grows_trans; [exact H1|].
    eapply grows_trans; [|eapply grows_trans; [exact H2|apply grows_await]].
    now apply grows_same.
  - eapply grows_trans; [exact H1|].
    eapply grows_trans; [|apply grows_settle]. now apply grows_same.
Qed.

Lemma act_grows (a : Action) (st : State) :
  (forall h, a = outside h -> brings_error h = true -> has_error_listener st) ->
  grows st (act a st).
Proof.
  intro Ha. unfold act. destruct (uncaught st); [apply grows_refl|].
  destruct a.
  - apply grows_connect.
  - apply grows_sendRequest.
  - unfold close, PNPConnection.close.
    eapply grows_trans; [apply grows_socket_end|apply grows_debug].
  - now apply grows_same.
  - apply grows_connection_connect.
  - apply grows_connection_send.
  - apply grows_connection_receive.
  - apply (grows_happen invoke resume cost invoke_grows resume_grows).
    now apply (Ha h).
Qed.

Lemma act_keeps (a : Action) (st : State) : keeps st (act a st).
Proof.
  destruct a; try (apply grows_keeps, act_grows; discriminate).
  unfold act. destruct (uncaught st); [apply keeps_refl|].
  apply (keeps_happen invoke resume cost invoke_grows resume_grows).
Qed.

Lemma run_keeps (actions : list Action) (st : State) : keeps st (run actions st).
Proof.
  revert st. induction actions as [|a actions IH]; intro st; [apply keeps_refl|].
  rewrite run_cons. eapply keeps_trans; [apply act_keeps|apply IH].
Qed.






(** X15.  In part_000 nothing that is called and nothing that happens
    undoes what was done: a promise that is fulfilled or rejected stays as
    it is (of the listeners that may settle one promise, the first that is
    called wins), and a listener that was added with [on] is never
    removed. *)
Theorem nothing_is_undone (actions : list Action) (st : State) :
  (forall (p : nat) (r : Settled Value),
     nth_error (promises st) p = Some r -> r <> Pending ->
     nth_error (promises (run actions st)) p = Some r) /\
  (forall l : Listener Callback,
     In l (listeners st) -> one_time l = false -> In l (listeners (run actions st))).
Proof. exact (run_keeps actions st). Qed.

Lemma nothing_is_undone_witness :
  let st := run [do_connect; outside connected] (sample_client []) in
  nth_error (promises (run [outside (errored (lit "ECONNRESET")); do_close] st)) 0
  = Some (Fulfilled undefined).
Proof.
  intro st.
  apply (proj1 (nothing_is_undone [outside (errored (lit "ECONNRESET")); do_close] st)).
  - reflexivity.
  - discriminate.
Defined.

End PNPLoop_steps.

(** * The client of src/PapayaClient.ts in the event loop *)

Section PNPClientLoop_steps.
Import Loop PNPClientLoop.

Local Abbreviation mk t w L W P R M C K U :=
  (Loop.Build_State PapayaClient.t Callback Continuation t w L W P R M C K U).

Lemma client_resume_connect_fulfilled_mk (outer : nat) (v : Value) t w L W P R M C K U :
  resume (connect_awaited outer) (Fulfilled v) (mk t w L W P R M C K U)
  = settle_promise outer (Fulfilled undefined) (mk t w L W P R M C K U).
Proof. reflexivity. Qed.

Lemma client_resume_connect_rejected_mk (outer : nat) (e : Error) t w L W P R M C K U :
  resume (connect_awaited outer) (Rejected e) (mk t w L W P R M C K U)
  = settle_promise outer (Rejected e) (mk t w L W P R M C K U).
Proof. reflexivity. Qed.

Lemma client_resume_send_fulfilled_mk (outer : nat) (v : Value) t w L W P R M C K U :
  resume (send_awaited outer) (Fulfilled v) (mk t w L W P R M C K U)
  = await (length P) (receive_awaited outer)
      (mk t w
         (L ++ [ {| event := ev_data; one_time := true; callback := data_listener (length P) |};
                 {| event := ev_error; one_time := false;
                    callback := receive_on_error (length P) |} ])
         W (P ++ [Pending]) R M C K U).
Proof.
  cbn [resume]. unfold PNPConnection.receive, new_promise, once, on.
  cbn [promises listeners set_promises set_listeners]. now rewrite <- app_assoc.
Qed.

Lemma client_resume_send_rejected_mk (outer : nat) (e : Error) t w L W P R M C K U :
  resume (send_awaited outer) (Rejected e) (mk t w L W P R M C K U)
  = settle_promise outer (Rejected e) (mk t w L W P R M C K U).
Proof. reflexivity. Qed.

Lemma client_resume_receive_fulfilled_mk (outer : nat) (c : Buffer) t w L W P R M C K U :
  resume (receive_awaited outer) (Fulfilled (buffer c)) (mk t w L W P R M C K U)
  = settle_promise outer
      (answer (settle (text <- PapayaClient.PNPEncryption.decrypt
                                 (PapayaClient.encryption t) c ;;
                       JSON.parse text)%result))
      (mk t w L W P R M C K U).
Proof.
  cbn [resume this]. destruct (PapayaClient.PNPEncryption.decrypt _ c) as [text|e];
    cbn [Result_bind settle answer]; [|reflexivity].
  destruct (JSON.parse text); reflexivity.
Qed.

Lemma client_resume_receive_rejected_mk (outer : nat) (e : Error) t w L W P R M C K U :
  resume (receive_awaited outer) (Rejected e) (mk t w L W P R M C K U)
  = settle_promise outer (Rejected e) (mk t w L W P R M C K U).
Proof. reflexivity. Qed.

Lemma client_act_mk (a : Action) t w L W P R M C K :
  act a (mk t w L W P R M C K None)
  = match a with
    | do_connect => snd (connect (mk t w L W P R M C K None))
    | do_sendRequest request => snd (sendRequest request (mk t w L W P R M C K None))
    | do_close => close (mk t w L W P R M C K None)
    | do_connection_connect => snd (PNPConnection.connect (mk t w L W P R M C K None))
    | do_connection_send data => snd (PNPConnection.send data (mk t w L W P R M C K None))
    | do_connection_receive => snd (PNPConnection.receive (mk t w L W P R M C K None))
    | outside h => happen invoke resume cost h (mk t w L W P R M C K None)
    end.
Proof. reflexivity. Qed.

Lemma client_receive_mk t w L W P R M C K U :
  PNPConnection.receive (mk t w L W P R M C K U)
  = (length P,
     mk t w
       (L ++ [ {| event := ev_data; one_time := true; callback := data_listener (length P) |};
               {| event := ev_error; one_time := false;
                  callback := receive_on_error (length P) |} ])
       W (P ++ [Pending]) R M C K U).
Proof.
  unfold PNPConnection.receive. rewrite new_promise_mk. cbv iota beta.
  rewrite once_mk, on_mk, <- app_assoc. reflexivity.
Qed.

Lemma client_send_mk (data : Buffer) t w L W P R M C K U :
  PNPConnection.send data (mk t w L W P R M C K U)
  = (length P,
     mk t w L (W ++ [write_callback (length P)]) (P ++ [Pending]) R M C
        (K ++ [call_write data]) U).
Proof. reflexivity. Qed.

Lemma client_connection_connect_mk t w L W P R M C K U :
  valid_port (PapayaClient.PNPConnection.port (PapayaClient.connection t)) = true ->
  PNPConnection.connect (mk t w L W P R M C K U)
  = (length P,
     mk t w
       (L ++ [ {| event := ev_connect; one_time := true;
                  callback := connect_listener (length P) |};
               {| event := ev_error; one_time := false;
                  callback := connect_on_error (length P) |} ])
       W (P ++ [Pending]) R M C
       (K ++ [call_connect (PapayaClient.PNPConnection.port (PapayaClient.connection t))
                (PapayaClient.PNPConnection.host (PapayaClient.connection t))]) U).
Proof.
  intro Hp. unfold PNPConnection.connect. rewrite new_promise_mk. cbv iota beta zeta.
  cbn [this]. rewrite socket_connect_mk, Hp, on_mk, <- app_assoc. reflexivity.
Qed.

(** [connect] with a port that is out of range: the listener for the
    connect event is there, the promise is rejected, and no listener for
    errors was added. *)
Lemma client_connection_connect_bad_mk t w L W P C K U :
  valid_port (PapayaClient.PNPConnection.port (PapayaClient.connection t)) = false ->
  PNPConnection.connect (mk t w L W P [] [] C K U)
  = (length P,
     mk t w
       (L ++ [ {| event := ev_connect; one_time := true;
                  callback := connect_listener (length P) |} ])
       W (P ++ [Rejected ERR_SOCKET_BAD_PORT]) [] [] C K U).
Proof.
  intro Hp. unfold PNPConnection.connect. rewrite new_promise_mk. cbv iota beta zeta.
  cbn [this]. rewrite socket_connect_mk, Hp.
  autorewrite with mk. cbn [nth_error replace_nth filter map app]. reflexivity.
Qed.

#[local] Hint Rewrite client_resume_connect_fulfilled_mk client_resume_connect_rejected_mk
  client_resume_send_fulfilled_mk client_resume_send_rejected_mk
  client_resume_receive_fulfilled_mk client_resume_receive_rejected_mk client_act_mk
  client_receive_mk client_send_mk : mk.

(** One step of the loop after the other, each on a state whose fields
    are known. *)
Ltac run_client_loop :=
  repeat (progress (
    autorewrite with mk;
    cbn [Loop.this Loop.os Loop.listeners Loop.writes Loop.promises Loop.reactions
         Loop.microtasks Loop.console Loop.socket Loop.uncaught
         Loop.EventName_eqb Loop.listens Loop.queue_cost Loop.waiting_cost
         Loop.event Loop.one_time Loop.callback
         PNPClientLoop.invoke PNPClientLoop.cost PNPClientLoop.run
         PapayaClient.connection PapayaClient.encryption
         PapayaClient.PNPConnection.host PapayaClient.PNPConnection.port
         fst snd app length filter map fold_left fold_right list_sum nth nth_error
         Nat.add Nat.eqb negb andb orb replace_nth])).

Ltac run_client_lhs :=
  match goal with
  | |- exists _, ?lhs = _ =>
      let x := fresh "x" in
      let Hx := fresh "Hx" in
      remember lhs as x eqn:Hx; revert Hx; run_client_loop; intros ->;
      first [ eexists; reflexivity | exists []; rewrite app_nil_r; reflexivity ]
  end.

(** A listener of an earlier call, when it is called: it prints, and
    settles its own promise at most. *)
Lemma client_invoke_old (n : nat) (f : Callback) (a : Arg) t w L W P Q R M C K U :
  promise_of f < n -> length P = n -> (forall x, In x R -> n <= fst x) ->
  exists P' lines,
    length P' = n /\
    invoke f a (mk t w L W (P ++ Q) R M C K U) = mk t w L W (P' ++ Q) R M (C ++ lines) K U.
Proof.
  intros Hf Hn HR.
  assert (Hjunk : exists P' lines, length P' = n /\
            mk t w L W (P ++ Q) R M C K U = mk t w L W (P' ++ Q) R M (C ++ lines) K U)
    by (exists P, []; split; [exact Hn|now rewrite app_nil_r]).
  assert (Hsettle : forall q r line, q < n ->
            exists P' lines, length P' = n /\
              settle_promise q r (mk t w L W (P ++ Q) R M (C ++ [line]) K U)
              = mk t w L W (P' ++ Q) R M (C ++ lines) K U).
  { intros q r line Hq.
    destruct (settle_old n q r t w L W P Q R M (C ++ [line]) K U Hq Hn HR) as (P' & HP' & ->).
    now exists P', [line]. }
  assert (Hplain : forall q r, q < n ->
            exists P' lines, length P' = n /\
              settle_promise q r (mk t w L W (P ++ Q) R M C K U)
              = mk t w L W (P' ++ Q) R M (C ++ lines) K U).
  { intros q r Hq.
    destruct (settle_old n q r t w L W P Q R M C K U Hq Hn HR) as (P' & HP' & ->).
    exists P', []. split; [exact HP'|now rewrite app_nil_r]. }
  unfold invoke, resolve, reject.
  destruct f; cbn [promise_of] in Hf; destruct a; rewrite ?log_mk, ?error_mk;
    first [exact Hjunk | now apply Hsettle | now apply Hplain].
Qed.

Lemma client_fold_old (n : nat) (a : Arg) (Ls : list (Listener Callback)) :
  Forall (fun l => promise_of (callback l) < n) Ls ->
  forall t w L W P Q R M C K U,
  length P = n -> (forall x, In x R -> n <= fst x) ->
  exists P' lines,
    length P' = n /\
    fold_left (fun (s : Loop.State PapayaClient.t Callback Continuation) l =>
                 invoke (callback l) a s)
      Ls (mk t w L W (P ++ Q) R M C K U)
    = mk t w L W (P' ++ Q) R M (C ++ lines) K U.
Proof. exact (fold_listeners_old invoke promise_of client_invoke_old n a Ls). Qed.

(** [sendRequest], up to its first [await], when [encrypt] returns. *)
Lemma client_sendRequest_mk (r : JSValue) (text : jsstring) t w L W P R C K :
  PapayaClient.PNPEncryption.encrypt (PapayaClient.encryption t) (JSON.stringify r) = Ok text ->
  let n := length P in
  sendRequest r (mk t w L W P R [] C K None)
  = (n, mk t w L (W ++ [write_callback (n + 1)])
          (P ++ [Pending; Pending]) (R ++ [(n + 1, send_awaited n)]) []
          C (K ++ [call_write (Utf8.encode text)]) None).
Proof.
  intros He n. subst n. unfold sendRequest. run_client_loop.
  rewrite He. cbn [BufferOps.from]. run_client_loop. reflexivity.
Qed.

(** [sendRequest] when [encrypt] throws: nothing is written. *)
Lemma client_sendRequest_throws_mk (r : JSValue) (e : Error) t w L W P R C K :
  PapayaClient.PNPEncryption.encrypt (PapayaClient.encryption t) (JSON.stringify r) = Throw e ->
  (forall x, In x R -> fst x < length P) ->
  sendRequest r (mk t w L W P R [] C K None)
  = (length P, mk t w L W (P ++ [Rejected e]) R [] C K None).
Proof.
  intros He HR. unfold sendRequest. run_client_loop.
  rewrite He. run_client_loop.
  rewrite filter_all, filter_none; [reflexivity| |].
  - intros x Hx. apply HR in Hx. apply Nat.eqb_neq. lia.
  - intros x Hx. apply HR in Hx. apply negb_true_iff, Nat.eqb_neq. lia.
Qed.

(** The write is done: the function goes on to [receive]. *)
Lemma client_written_mk t w L P C K :
  let n := length P in
  happen invoke resume cost written
    (mk t w L [write_callback (n + 1)] (P ++ [Pending; Pending])
        [(n + 1, send_awaited n)] [] C K None)
  = mk t w
      (L ++ [ {| event := ev_data; one_time := true; callback := data_listener (n + 2) |};
              {| event := ev_error; one_time := false;
                 callback := receive_on_error (n + 2) |} ])
      [] (P ++ [Pending; Fulfilled undefined; Pending]) [(n + 2, receive_awaited n)] []
      C K None.
Proof.
  intro n. subst n. run_client_loop. reflexivity.
Qed.

(** The write fails: a line is printed with [console.error] and the
    function ends, with no reason. *)
Lemma client_write_failed_mk (message : jsstring) t w L P C K :
  let n := length P in
  happen invoke resume cost (write_failed message)
    (mk t w L [write_callback (n + 1)] (P ++ [Pending; Pending])
        [(n + 1, send_awaited n)] [] C K None)
  = mk t w L [] (P ++ [Rejected NoReason; Rejected NoReason])
      [] []
      (C ++ [console_error
               (lit "Caught an error when trying to send a request: " ++ message)])
      K None.
Proof.
  intro n. subst n. run_client_loop. reflexivity.
Qed.

(** The write fails and breaks the socket, which has a listener for
    errors: the callback rejects the promise of [send], the listeners
    are called, and then the function ends. *)
Lemma client_broken_mk (message : jsstring) t w L P C K :
  let n := length P in
  Forall (fun l => promise_of (callback l) < n) L ->
  filter (listens ev_error) L <> [] ->
  exists P' lines,
    length P' = n /\
    happen invoke resume cost (broken message)
      (mk t w L [write_callback (n + 1)] (P ++ [Pending; Pending])
          [(n + 1, send_awaited n)] [] C K None)
    = mk t w (filter (fun l => negb (listens ev_error l && one_time l)) L) []
        (P' ++ [Rejected (NoReason); Rejected (NoReason)])
        [] [] (C ++ lines) K None.
Proof.
  intros n HL Hne. subst n.
  match goal with
  | |- exists _ _, _ /\ ?lhs = _ => remember lhs as x eqn:Hx
  end.
  revert Hx.
  rewrite happen_mk, drain_done_mk, turn_mk. cbv iota.
  rewrite complete_write_mk. cbn [invoke]. unfold reject.
  rewrite error_mk, settle_mk. autorewrite with mk.
  cbn [nth_error replace_nth filter map fst snd Nat.eqb negb app].
  autorewrite with mk. cbn [filter map fst snd Nat.eqb negb app].
  destruct (filter (listens ev_error) L) as [|l0 rest] eqn:E; [congruence|].
  match goal with
  | |- context [fold_left ?f (l0 :: rest) (mk ?t0 ?w0 ?L0 ?W0 (P ++ ?Q0) ?R0 ?M0 ?C0 ?K0 ?U0)] =>
      destruct (client_fold_old (length P) (failure message) (l0 :: rest)
                  ltac:(rewrite <- E; now apply Forall_filter_incl)
                  t0 w0 L0 W0 P Q0 R0 M0 C0 K0 U0 eq_refl)
        as (P' & lines & HP' & ->)
  end.
  { intros y []. }
  rewrite <- HP'.
  run_client_loop; intros ->; do 2 eexists; (split; [reflexivity|]); reflexivity.
Qed.

(** The same on a socket that has no listener for errors: the error is
    thrown, the process ends, and the function that waits for the
    promise of [send] is never run again. *)
Lemma client_broken_unheard_mk (message : jsstring) t w L P C K :
  let n := length P in
  filter (listens ev_error) L = [] ->
  exists lines,
    happen invoke resume cost (broken message)
      (mk t w L [write_callback (n + 1)] (P ++ [Pending; Pending])
          [(n + 1, send_awaited n)] [] C K None)
    = mk t w L [] (P ++ [Pending; Rejected (NoReason)])
        [] [(send_awaited n, Rejected (NoReason))] (C ++ lines) K
        (Some (SocketError message)).
Proof.
  intros n Hno. subst n.
  match goal with
  | |- exists _, ?lhs = _ => remember lhs as x eqn:Hx
  end.
  revert Hx.
  rewrite happen_mk, drain_done_mk, turn_mk. cbv iota.
  rewrite complete_write_mk. cbn [invoke]. unfold reject.
  rewrite error_mk, settle_mk. autorewrite with mk.
  cbn [nth_error replace_nth filter map fst snd Nat.eqb negb app].
  autorewrite with mk. cbn [filter map fst snd Nat.eqb negb app].
  rewrite Hno, finish_ended_mk.
  intros ->. eexists. reflexivity.
Qed.

(** The socket emits data while the function waits in [receive]: every
    data listener is called and removed, the function decrypts the chunk
    and parses the text. *)
Lemma client_received_mk (c : Buffer) t w L P C K :
  let n := length P in
  Forall (fun l => promise_of (callback l) < n) L ->
  exists P' lines,
    length P' = n /\
    happen invoke resume cost (received c)
      (mk t w
         (L ++ [ {| event := ev_data; one_time := true; callback := data_listener (n + 2) |};
                 {| event := ev_error; one_time := false;
                    callback := receive_on_error (n + 2) |} ])
         [] (P ++ [Pending; Fulfilled undefined; Pending]) [(n + 2, receive_awaited n)] []
         C K None)
    = mk t w
        (filter (fun l => negb (listens ev_data l && one_time l)) L
         ++ [ {| event := ev_error; one_time := false;
                 callback := receive_on_error (n + 2) |} ])
        []
        (P' ++ [answer (settle (text <- PapayaClient.PNPEncryption.decrypt
                                          (PapayaClient.encryption t) c ;;
                                JSON.parse text)%result);
                Fulfilled undefined; Fulfilled (buffer c)])
        [] [] (C ++ lines) K None.
Proof.
  intros n HL. subst n.
  match goal with
  | |- exists _ _, _ /\ ?lhs = _ => remember lhs as x eqn:Hx
  end.
  revert Hx.
  rewrite happen_mk, drain_done_mk, turn_mk. cbv iota. rewrite emit_mk.
  rewrite !filter_listeners_app3, fold_left_app.
  cbn [filter listens event one_time EventName_eqb andb negb app].
  match goal with
  | |- context [fold_left ?f (filter ?g L) (mk ?t0 ?w0 ?L0 ?W0 (P ++ ?Q0) ?R0 ?M0 ?C0 ?K0 ?U0)] =>
      destruct (client_fold_old (length P) (chunk c) (filter g L)
                  (Forall_filter_incl _ g L HL) t0 w0 L0 W0 P Q0 R0 M0 C0 K0 U0 eq_refl)
        as (P' & lines & HP' & ->)
  end.
  { intros y [<-|[]]. cbn [fst]. lia. }
  rewrite <- HP'.
  run_client_loop; intros ->; do 2 eexists; (split; [reflexivity|]); reflexivity.
Qed.

(** The socket emits an error while the function waits in [receive]:
    every error listener is called, none is removed, and neither is the
    data listener; the function ends with the error. *)
Lemma client_errored_mk (message : jsstring) t w L P C K :
  let n := length P in
  Forall (fun l => promise_of (callback l) < n) L ->
  exists P' lines,
    length P' = n /\
    happen invoke resume cost (errored message)
      (mk t w
         (L ++ [ {| event := ev_data; one_time := true; callback := data_listener (n + 2) |};
                 {| event := ev_error; one_time := false;
                    callback := receive_on_error (n + 2) |} ])
         [] (P ++ [Pending; Fulfilled undefined; Pending]) [(n + 2, receive_awaited n)] []
         C K None)
    = mk t w
        (filter (fun l => negb (listens ev_error l && one_time l)) L
         ++ [ {| event := ev_data; one_time := true; callback := data_listener (n + 2) |};
              {| event := ev_error; one_time := false;
                 callback := receive_on_error (n + 2) |} ])
        []
        (P' ++ [Rejected (SocketError message); Fulfilled undefined;
                Rejected (SocketError message)])
        [] [] (C ++ lines) K None.
Proof.
  intros n HL. subst n.
  match goal with
  | |- exists _ _, _ /\ ?lhs = _ => remember lhs as x eqn:Hx
  end.
  revert Hx.
  rewrite happen_mk, drain_done_mk, turn_mk. cbv iota. rewrite emit_error_mk.
  rewrite filter_listeners_app3.
  cbn [filter listens event one_time EventName_eqb andb negb app].
  rewrite match_app_cons, emit_mk.
  rewrite !filter_listeners_app3, fold_left_app.
  cbn [filter listens event one_time EventName_eqb andb negb app].
  match goal with
  | |- context [fold_left ?f (filter ?g L) (mk ?t0 ?w0 ?L0 ?W0 (P ++ ?Q0) ?R0 ?M0 ?C0 ?K0 ?U0)] =>
      destruct (client_fold_old (length P) (failure message) (filter g L)
                  (Forall_filter_incl _ g L HL) t0 w0 L0 W0 P Q0 R0 M0 C0 K0 U0 eq_refl)
        as (P' & lines & HP' & ->)
  end.
  { intros y [<-|[]]. cbn [fst]. lia. }
  rewrite <- HP'.
  run_client_loop; intros ->; do 2 eexists; (split; [reflexivity|]); reflexivity.
Qed.

Lemma client_run_cons (a : Action) (l : list Action) (st : State) :
  run (a :: l) st = run l (act a st).
Proof. reflexivity. Qed.

Lemma client_run_nil (st : State) : run [] st = st.
Proof. reflexivity. Qed.

Lemma client_constructor_quiet (host : jsstring) (port : N) (key iv : Buffer) (w : World) :
  quiet (constructor host port key iv w) /\ tidy (constructor host port key iv w).
Proof. repeat split; constructor. Qed.

(** ** What no call and no happening undoes *)

Lemma client_invoke_grows (f : Callback) (a : Arg) (st : State) : grows st (invoke f a st).
Proof.
  unfold invoke, resolve, reject.
  destruct f, a; try apply grows_refl; try apply grows_settle;
    (eapply grows_trans; [|apply grows_settle]; first [apply grows_log|apply grows_error]).
Qed.

Lemma client_grows_connection_connect (st : State) :
  grows st (snd (PNPConnection.connect st)).
Proof.
  unfold PNPConnection.connect, new_promise. cbv beta iota zeta.
  match goal with
  | |- context [socket_connect ?p ?h ?f ?s] =>
      pose proof (grows_socket_connect p h f s) as H;
      destruct (socket_connect p h f s) as [[[]|e] s1]
  end; cbn [snd] in *.
  - eapply grows_trans; [apply grows_more_promises|].
    eapply grows_trans; [exact H|apply grows_on].
  - eapply grows_trans; [apply grows_more_promises|].
    eapply grows_trans; [exact H|apply grows_settle].
Qed.

Lemma client_grows_connection_send (data : Buffer) (st : State) :
  grows st (snd (PNPConnection.send data st)).
Proof.
  unfold PNPConnection.send, new_promise. cbv beta iota zeta. cbn [snd].
  eapply grows_trans; [apply grows_more_promises|apply grows_socket_write].
Qed.

Lemma client_grows_connection_receive (st : State) :
  grows st (snd (PNPConnection.receive st)).
Proof.
  unfold PNPConnection.receive, new_promise. cbv beta iota zeta. cbn [snd].
  eapply grows_trans; [apply grows_more_promises|].
  eapply grows_trans; [apply grows_once|apply grows_on].
Qed.

Lemma client_resume_grows (k : Continuation) (r : Settled Value) (st : State) :
  grows st (resume k r st).
Proof.
  unfold resolve, reject.
  destruct k as [outer|outer|outer], r as [v|e|]; cbn [resume];
    try apply grows_refl; try apply grows_settle.
  - pose proof (client_grows_connection_receive st) as H.
    destruct (PNPConnection.receive st) as [p st']. cbn [snd] in H.
    eapply grows_trans; [exact H|apply grows_await].
  - destruct v; try apply grows_refl.
    destruct (PapayaClient.PNPEncryption.decrypt _ _); [|apply grows_settle].
    destruct (JSON.parse _); apply grows_settle.
Qed.

Lemma client_grows_connect (st : State) : grows st (snd (connect st)).
Proof.
  unfold connect.
  pose proof (grows_new_promise st) as H1.
  destruct (new_promise st) as [outer st1]. cbn [snd] in H1.
  pose proof (client_grows_connection_connect st1) as H2.
  destruct (PNPConnection.connect st1) as [p st2]. cbn [snd] in *.
  eapply grows_trans; [exact H1|]. eapply grows_trans; [exact H2|apply grows_await].
Qed.

Lemma client_grows_sendRequest (request : JSValue) (st : State) :
  grows st (snd (sendRequest request st)).
Proof.
  unfold sendRequest.
  pose proof (grows_new_promise st) as H1.
  destruct (new_promise st) as [outer st1]. cbn [snd] in H1.
  destruct (PapayaClient.PNPEncryption.encrypt _ _) as [text|e]; cbn [snd].
  - pose proof (client_grows_connection_send (BufferOps.from text utf8) st1) as H2.
    destruct (PNPConnection.send (BufferOps.from text utf8) st1) as [p st2]. cbn [snd] in *.
    eapply grows_trans; [exact H1|].
    eapply grows_trans; [exact H2|apply grows_await].
  - eapply grows_trans; [exact H1|apply grows_settle].
Qed.

Lemma client_act_grows (a : Action) (st : State) :
  (forall h, a = outside h -> brings_error h = true -> has_error_listener st) ->
  grows st (act a st).
Proof.
  intro Ha. unfold act. destruct (uncaught st); [apply grows_refl|].
  destruct a.
  - apply client_grows_connect.
  - apply client_grows_sendRequest.
  - unfold close, PNPConnection.close.
    eapply grows_trans; [apply grows_socket_end|apply grows_log].
  - apply client_grows_connection_connect.
  - apply client_grows_connection_send.
  - apply client_grows_connection_receive.
  - apply (grows_happen invoke resume cost client_invoke_grows client_resume_grows).
    now apply (Ha h).
Qed.

Lemma client_act_keeps (a : Action) (st : State) : keeps st (act a st).
Proof.
  destruct a; try (apply grows_keeps, client_act_grows; discriminate).
  unfold act. destruct (uncaught st); [apply keeps_refl|].
  apply (keeps_happen invoke resume cost client_invoke_grows client_resume_grows).
Qed.

Lemma client_run_keeps (actions : list Action) (st : State) : keeps st (run actions st).
Proof.
  revert st. induction actions as [|a actions IH]; intro st; [apply keeps_refl|].
  rewrite client_run_cons. eapply keeps_trans; [apply client_act_keeps|apply IH].
Qed.


Lemma nth_of_nth_error {A : Type} (l : list A) (n : nat) (x d : A) :
  nth_error l n = Some x -> nth n l d = x.
Proof. intro H. now apply nth_error_nth. Qed.

(** What the step-by-step model of [sendRequest] gives, by what
    [encrypt] returns. *)
Lemma old_sendRequest_cases (this : PapayaClient.t) (request : JSValue) (w : World) :
  fst (PapayaClient.sendRequest this request w)
  = match PapayaClient.PNPEncryption.encrypt (PapayaClient.encryption this)
            (JSON.stringify request) with
    | Throw e => Rejected e
    | Ok _ =>
        match hd None (write_faults w) with
        | Some _ => Rejected NoReason
        | None =>
            match incoming w with
            | OnData data :: _ =>
                settle (text <- PapayaClient.PNPEncryption.decrypt
                                  (PapayaClient.encryption this) data ;;
                        JSON.parse text)%result
            | OnError msg :: _ => Rejected (SocketError msg)
            | [] => Pending
            end
        end
    end.
Proof.
  unfold PapayaClient.sendRequest, Async_bind, pure_sync, sync.
  destruct (PapayaClient.PNPEncryption.encrypt _ _) as [text|e]; [|reflexivity].
  unfold PapayaClient.PNPConnection.send, PapayaClient.PNPConnection.receive.
  destruct w as [en dr wf inc tr].
  cbn [fst snd entropy drawn write_faults incoming trace].
  destruct (hd None wf) as [msg|]; [reflexivity|].
  destruct inc as [|[data|msg] rest];
    cbn [fst snd entropy drawn write_faults incoming trace tl]; try reflexivity.
  destruct (PapayaClient.PNPEncryption.decrypt _ data) as [text'|e];
    cbn [Result_bind settle fst]; [|reflexivity].
  destruct (JSON.parse text'); reflexivity.
Qed.

(** X16.  One sendRequest of PapayaClient.ts in the event loop, begun in a
    quiet and tidy state, when the outside does what the world of the
    state says: the write fails and the socket emits the error; or the
    write is done and the next data or error event comes, or none.  With
    a key of 32 and an IV of 16 octets: when the write is done, or the
    socket had a listener for errors before the call, the promise
    sendRequest returned ends as the promise of the step-by-step model
    of sendRequest does in that world, and no error event goes uncaught;
    when the write fails and the socket had no listener for errors, the
    error event is thrown and ends the process.  When encrypt throws,
    the promise is rejected with that exception at once, as in the
    step-by-step model, and nothing is written. *)
Theorem client_sendRequest_in_the_loop (st : State) (request : JSValue) :
  quiet st -> tidy st ->
  let outer := fst (sendRequest request st) in
  let st1 := snd (sendRequest request st) in
  let st' := run (map outside (happenings_of (os st))) st1 in
  (well_keyed_old (PapayaClient.encryption (this st)) ->
   (listenerCount ev_error st <> 0 \/ hd None (write_faults (os st)) = None ->
    state_of outer st' = answer (fst (PapayaClient.sendRequest (this st) request (os st))) /\
    uncaught st' = None) /\
   (listenerCount ev_error st = 0 ->
    forall message : jsstring,
    hd None (write_faults (os st)) = Some message ->
    uncaught st' = Some (SocketError message))) /\
  (forall e : Error,
   PapayaClient.PNPEncryption.encrypt (PapayaClient.encryption (this st))
     (JSON.stringify request) = Throw e ->
   state_of outer st1 = Rejected e /\
   answer (fst (PapayaClient.sendRequest (this st) request (os st))) = Rejected e /\
   writes st1 = [] /\ socket st1 = socket st).
Proof.
  destruct st as [t w L W P R M C K U]. unfold quiet, tidy, listenerCount.
  cbn [this os writes reactions microtasks uncaught listeners promises socket].
  intros (-> & -> & -> & ->) HL.
  rewrite old_sendRequest_cases.
  split.
  - intro Hk.
    pose proof (old_encrypt_eq _ Hk (JSON.stringify request)) as He.
    rewrite He.
    rewrite (client_sendRequest_mk request _ t w L [] P [] C K He). cbv zeta.
    cbn [fst snd app].
    match goal with |- context [call_write ?x] => set (payload := x) end.
    unfold happenings_of.
    destruct (hd None (write_faults w)) as [message|].
    + cbn [map]. rewrite client_run_cons, client_run_nil, client_act_mk. cbv iota. split.
      * intros [Hl|Hn]; [|discriminate].
        assert (Hne : filter (listens ev_error) L <> [])
          by (intro E; rewrite E in Hl; now apply Hl).
        destruct (client_broken_mk message t w L P C (K ++ [call_write payload]) HL Hne)
          as (P' & lines & HP' & ->).
        rewrite state_of_mk, <- HP', nth_len. split; reflexivity.
      * intros Hz message' [= <-]. apply length_zero_iff_nil in Hz.
        destruct (client_broken_unheard_mk message t w L P C (K ++ [call_write payload]) Hz)
          as [lines ->].
        reflexivity.
    + split; [intros _|intros _ message' Hm; discriminate].
      destruct (incoming w) as [|[c|message] rest]; cbn [map fst];
        rewrite client_run_cons, client_act_mk; cbv iota;
        rewrite (client_written_mk t w L P C).
      * rewrite client_run_nil, state_of_mk, nth_len. split; reflexivity.
      * rewrite client_run_cons, client_run_nil, client_act_mk. cbv iota.
        destruct (client_received_mk c t w L P C (K ++ [call_write payload]) HL)
          as (P' & lines & HP' & ->).
        rewrite state_of_mk, <- HP', nth_len. split; reflexivity.
      * rewrite client_run_cons, client_run_nil, client_act_mk. cbv iota.
        destruct (client_errored_mk message t w L P C (K ++ [call_write payload]) HL)
          as (P' & lines & HP' & ->).
        rewrite state_of_mk, <- HP', nth_len. split; reflexivity.
  - intros e He. rewrite He.
    rewrite (client_sendRequest_throws_mk request e t w L [] P [] C K He)
      by (intros x []).
    cbn [fst snd writes socket]. rewrite state_of_mk, nth_len.
    split; [reflexivity|]. split; [reflexivity|]. split; reflexivity.
Qed.

Lemma client_sendRequest_in_the_loop_witness :
  let request := request_of (lit "get") (lit "/") [] (lit "") in
  (let st :=
     sample_client [OnData (Utf8.encode (lit "d2c5e85e7efbb8cab9001b5c8a40791a"))] in
   state_of (fst (sendRequest request st))
     (run (map outside (happenings_of (os st))) (snd (sendRequest request st)))
   = answer (fst (PapayaClient.sendRequest (this st) request (os st))) /\
   uncaught (run (map outside (happenings_of (os st))) (snd (sendRequest request st)))
   = None)
  /\
  (let st := failing_client (lit "EPIPE") in
   uncaught (run (map outside (happenings_of (os st))) (snd (sendRequest request st)))
   = Some (SocketError (lit "EPIPE"))).
Proof.
  intro request. split; intro st.
  - apply (proj1 (proj1 (client_sendRequest_in_the_loop st request
                           (proj1 (client_constructor_quiet _ _ _ _ _))
                           (proj2 (client_constructor_quiet _ _ _ _ _)))
                    (conj eq_refl (conj eq_refl eq_refl)))).
    right. reflexivity.
  - apply (proj2 (proj1 (client_sendRequest_in_the_loop st request
                           (proj1 (client_constructor_quiet _ _ _ _ _))
                           (proj2 (client_constructor_quiet _ _ _ _ _)))
                    (conj eq_refl (conj eq_refl eq_refl)))
             eq_refl (lit "EPIPE") eq_refl).
Defined.

(** [connect], up to its [await]. *)
Lemma client_connect_mk t w L P C K :
  valid_port (PapayaClient.PNPConnection.port (PapayaClient.connection t)) = true ->
  let n := length P in
  connect (mk t w L [] P [] [] C K None)
  = (n, mk t w
          (L ++ [ {| event := ev_connect; one_time := true;
                     callback := connect_listener (n + 1) |};
                  {| event := ev_error; one_time := false;
                     callback := connect_on_error (n + 1) |} ])
          [] (P ++ [Pending; Pending]) [(n + 1, connect_awaited n)] [] C
          (K ++ [call_connect (PapayaClient.PNPConnection.port (PapayaClient.connection t))
                   (PapayaClient.PNPConnection.host (PapayaClient.connection t))]) None).
Proof.
  intros Hp n. subst n. unfold connect. rewrite new_promise_mk. cbv iota beta.
  rewrite (client_connection_connect_mk t w L [] (P ++ [Pending]) [] [] C K None Hp).
  cbv iota beta. run_client_loop. reflexivity.
Qed.

(** [connect] with a port that is out of range, up to its [await]. *)
Lemma client_connect_bad_mk t w L P C K :
  valid_port (PapayaClient.PNPConnection.port (PapayaClient.connection t)) = false ->
  let n := length P in
  connect (mk t w L [] P [] [] C K None)
  = (n, mk t w
          (L ++ [ {| event := ev_connect; one_time := true;
                     callback := connect_listener (n + 1) |} ])
          [] (P ++ [Pending; Rejected ERR_SOCKET_BAD_PORT]) []
          [(connect_awaited n, Rejected ERR_SOCKET_BAD_PORT)] C K None).
Proof.
  intros Hp n. subst n. unfold connect. rewrite new_promise_mk. cbv iota beta.
  rewrite (client_connection_connect_bad_mk t w L [] (P ++ [Pending]) C K None Hp).
  cbv iota beta. run_client_loop. reflexivity.
Qed.

(** The socket is connected while [connect] waits. *)
Lemma client_connected_mk t w L P C K :
  let n := length P in
  Forall (fun l => promise_of (callback l) < n) L ->
  exists P' lines,
    length P' = n /\
    happen invoke resume cost connected
      (mk t w
         (L ++ [ {| event := ev_connect; one_time := true;
                    callback := connect_listener (n + 1) |};
                 {| event := ev_error; one_time := false;
                    callback := connect_on_error (n + 1) |} ])
         [] (P ++ [Pending; Pending]) [(n + 1, connect_awaited n)] [] C K None)
    = mk t w
        (filter (fun l => negb (listens ev_connect l && one_time l)) L
         ++ [ {| event := ev_error; one_time := false;
                 callback := connect_on_error (n + 1) |} ])
        [] (P' ++ [Fulfilled undefined; Fulfilled undefined]) [] []
        (C ++ lines
           ++ [console_log
                 (lit "Connected to " ++ PapayaClient.PNPConnection.host (PapayaClient.connection t)
                  ++ lit ":"
                  ++ decimal (PapayaClient.PNPConnection.port (PapayaClient.connection t)))])
        K None.
Proof.
  intros n HL. subst n.
  match goal with
  | |- exists _ _, _ /\ ?lhs = _ => remember lhs as x eqn:Hx
  end.
  revert Hx.
  rewrite happen_mk, drain_done_mk, turn_mk. cbv iota. rewrite emit_mk.
  rewrite !filter_listeners_app3, fold_left_app.
  cbn [filter listens event one_time EventName_eqb andb negb app].
  match goal with
  | |- context [fold_left ?f (filter ?g L) (mk ?t0 ?w0 ?L0 ?W0 (P ++ ?Q0) ?R0 ?M0 ?C0 ?K0 ?U0)] =>
      destruct (client_fold_old (length P) no_argument (filter g L)
                  (Forall_filter_incl _ g L HL) t0 w0 L0 W0 P Q0 R0 M0 C0 K0 U0 eq_refl)
        as (P' & lines & HP' & ->)
  end.
  { intros y [<-|[]]. cbn [fst]. lia. }
  rewrite <- HP'.
  run_client_loop; intros ->; do 2 eexists; (split; [reflexivity|]); reflexivity.
Qed.

(** The socket emits an error while [connect] waits. *)
Lemma client_connect_errored_mk (message : jsstring) t w L P C K :
  let n := length P in
  Forall (fun l => promise_of (callback l) < n) L ->
  exists P' lines,
    length P' = n /\
    happen invoke resume cost (errored message)
      (mk t w
         (L ++ [ {| event := ev_connect; one_time := true;
                    callback := connect_listener (n + 1) |};
                 {| event := ev_error; one_time := false;
                    callback := connect_on_error (n + 1) |} ])
         [] (P ++ [Pending; Pending]) [(n + 1, connect_awaited n)] [] C K None)
    = mk t w
        (filter (fun l => negb (listens ev_error l && one_time l)) L
         ++ [ {| event := ev_connect; one_time := true;
                 callback := connect_listener (n + 1) |};
              {| event := ev_error; one_time := false;
                 callback := connect_on_error (n + 1) |} ])
        [] (P' ++ [Rejected (NoReason); Rejected (NoReason)]) [] []
        (C ++ lines ++ [console_error (lit "Caught an error " ++ message)])
        K None.
Proof.
  intros n HL. subst n.
  match goal with
  | |- exists _ _, _ /\ ?lhs = _ => remember lhs as x eqn:Hx
  end.
  revert Hx.
  rewrite happen_mk, drain_done_mk, turn_mk. cbv iota. rewrite emit_error_mk.
  rewrite filter_listeners_app3.
  cbn [filter listens event one_time EventName_eqb andb negb app].
  rewrite match_app_cons, emit_mk.
  rewrite !filter_listeners_app3, fold_left_app.
  cbn [filter listens event one_time EventName_eqb andb negb app].
  match goal with
  | |- context [fold_left ?f (filter ?g L) (mk ?t0 ?w0 ?L0 ?W0 (P ++ ?Q0) ?R0 ?M0 ?C0 ?K0 ?U0)] =>
      destruct (client_fold_old (length P) (failure message) (filter g L)
                  (Forall_filter_incl _ g L HL) t0 w0 L0 W0 P Q0 R0 M0 C0 K0 U0 eq_refl)
        as (P' & lines & HP' & ->)
  end.
  { intros y [<-|[]]. cbn [fst]. lia. }
  rewrite <- HP'.
  run_client_loop; intros ->; do 2 eexists; (split; [reflexivity|]); reflexivity.
Qed.

(** X17.  connect of PapayaClient.ts in the event loop, called in a
    quiet and tidy state.  With a port from 0 to 65535 its promise is
    pending until something happens, the connect event fulfils it, and an
    error event rejects it with no reason at all: the message of the
    error is printed with console.error and is not handed to the caller;
    the error does not go uncaught.  With a port that is out of range
    socket.connect throws inside the promise: once the microtasks have
    run the promise of connect is rejected with that RangeError, no
    listener for errors was added and nothing was done to reach the
    host. *)
Theorem client_connect_in_the_loop (st : State) :
  quiet st -> tidy st ->
  let outer := fst (connect st) in
  let st1 := snd (connect st) in
  (valid_port (PapayaClient.PNPConnection.port (PapayaClient.connection (this st))) = true ->
   state_of outer st1 = Pending /\
   state_of outer (run [outside connected] st1) = Fulfilled undefined /\
   (forall message : jsstring,
     let st2 := run [outside (errored message)] st1 in
     state_of outer st2 = Rejected NoReason /\
     In (console_error (lit "Caught an error " ++ message)) (console st2) /\
     uncaught st2 = None)) /\
  (valid_port (PapayaClient.PNPConnection.port (PapayaClient.connection (this st))) = false ->
   state_of outer (drain resume cost st1) = Rejected ERR_SOCKET_BAD_PORT /\
   listenerCount ev_error st1 = listenerCount ev_error st /\
   socket st1 = socket st).
Proof.
  destruct st as [t w L W P R M C K U]. unfold quiet, tidy.
  cbn [this os writes reactions microtasks uncaught listeners promises].
  intros (-> & -> & -> & ->) HL.
  split; intro Hp.
  - rewrite (client_connect_mk t w L P C K Hp). cbv zeta. cbn [fst snd].
    split; [|split].
    + rewrite state_of_mk, nth_len. reflexivity.
    + rewrite client_run_cons, client_run_nil, client_act_mk. cbv iota.
      destruct (client_connected_mk t w L P C
                  (K ++ [call_connect (PapayaClient.PNPConnection.port (PapayaClient.connection t))
                           (PapayaClient.PNPConnection.host (PapayaClient.connection t))]) HL)
        as (P' & lines & HP' & ->).
      rewrite state_of_mk, <- HP', nth_len. reflexivity.
    + intro message.
      rewrite client_run_cons, client_run_nil, client_act_mk. cbv iota.
      destruct (client_connect_errored_mk message t w L P C
                  (K ++ [call_connect (PapayaClient.PNPConnection.port (PapayaClient.connection t))
                           (PapayaClient.PNPConnection.host (PapayaClient.connection t))]) HL)
        as (P' & lines & HP' & ->).
      rewrite state_of_mk, <- HP', nth_len. cbn [console uncaught].
    split; [reflexivity|]. split; [|reflexivity].
    apply in_or_app. right. apply in_or_app. right. now left.
  - rewrite (client_connect_bad_mk t w L P C K Hp). cbv zeta. cbn [fst snd].
    unfold listenerCount. cbn [listeners socket].
    rewrite filter_app. cbn [filter listens event EventName_eqb]. rewrite app_nil_r.
    split; [|split; reflexivity].
    run_client_loop. rewrite state_of_mk, nth_len. reflexivity.
Qed.

Lemma client_connect_in_the_loop_witness :
  (let st := sample_client [] in
   state_of (fst (connect st))
     (run [outside (errored (lit "ECONNREFUSED"))] (snd (connect st)))
   = Rejected NoReason)
  /\
  (let st := constructor (lit "localhost") 70000 (repeat x00 32) (repeat x01 16) sample_world in
   state_of (fst (connect st)) (drain resume cost (snd (connect st)))
   = Rejected ERR_SOCKET_BAD_PORT).
Proof.
  split; intro st.
  - apply (proj1 (proj2 (proj2 (proj1 (client_connect_in_the_loop st (proj1 (client_constructor_quiet _ _ _ _ _)) (proj2 (client_constructor_quiet _ _ _ _ _)))
                                  eq_refl))
                    (lit "ECONNREFUSED"))).
  - apply (proj1 (proj2 (client_connect_in_the_loop st (proj1 (client_constructor_quiet _ _ _ _ _)) (proj2 (client_constructor_quiet _ _ _ _ _))) eq_refl)).
Defined.

Lemma client_run_app (a b : list Action) (st : State) :
  run (a ++ b) st = run b (run a st).
Proof. unfold run. apply fold_left_app. Qed.

(** One request in a quiet state, answered by a chunk: the state is
    quiet again, and the socket has one more listener for errors. *)
Lemma client_one_exchange (st : State) (request : JSValue) (c : Buffer) :
  quiet st -> tidy st -> well_keyed_old (PapayaClient.encryption (this st)) ->
  let st' := run [do_sendRequest request; outside written; outside (received c)] st in
  quiet st' /\ tidy st' /\ this st' = this st /\
  listenerCount ev_error st' = listenerCount ev_error st + 1 /\
  length (promises st') = length (promises st) + 3.
Proof.
  destruct st as [t w L W P R M C K U]. unfold quiet, tidy.
  cbn [this writes reactions microtasks uncaught listeners promises].
  intros (-> & -> & -> & ->) HL Hk.
  rewrite !client_run_cons, client_run_nil, client_act_mk. cbv iota.
  rewrite (client_sendRequest_mk request _ t w L [] P [] C K
             (old_encrypt_eq _ Hk (JSON.stringify request))).
  cbv zeta. cbn [snd app].
  match goal with |- context [call_write ?x] => set (payload := x) end.
  rewrite client_act_mk. cbv iota.
  rewrite (client_written_mk t w L P C).
  rewrite client_act_mk. cbv iota.
  destruct (client_received_mk c t w L P C (K ++ [call_write payload]) HL)
    as (P' & lines & HP' & ->).
  unfold listenerCount.
  cbn [this writes reactions microtasks uncaught listeners promises].
  rewrite !filter_app, !length_app.
  cbn [filter listens event EventName_eqb length].
  rewrite (filter_filter_weaker (listens ev_error)).
  2:{ intros y Hy. rewrite (listens_one_event ev_error ev_data y); [reflexivity|discriminate|exact Hy]. }
  rewrite HP'.
  split; [repeat split|]. split; [|repeat split].
  apply Forall_app. split.
  - apply Forall_filter_incl. revert HL. apply Forall_impl. intros l Hl. lia.
  - constructor; [|constructor]. cbn [callback promise_of]. lia.
Qed.

(** X18.  In PapayaClient.ts, too, the listeners for the error event pile
    up: every request that is sent and answered, begun in a quiet and tidy
    state with a key of 32 and an IV of 16 octets, leaves the state quiet
    and the socket with one listener for errors more than it had; after
    any number of such exchanges the socket has as many more. *)
Theorem client_error_listeners_pile_up (l : list (JSValue * Buffer)) (st : State) :
  quiet st -> tidy st -> well_keyed_old (PapayaClient.encryption (this st)) ->
  quiet (run (exchanges l) st) /\
  listenerCount ev_error (run (exchanges l) st) = listenerCount ev_error st + length l /\
  length (promises (run (exchanges l) st)) = length (promises st) + 3 * length l.
Proof.
  revert st. induction l as [|[request c] l IH]; intros st Hq Ht Hk.
  - cbn [exchanges flat_map length]. rewrite client_run_nil.
    split; [exact Hq|]. split; lia.
  - change (exchanges ((request, c) :: l))
      with ([do_sendRequest request; outside written; outside (received c)] ++ exchanges l).
    rewrite client_run_app.
    destruct (client_one_exchange st request c Hq Ht Hk) as (Hq' & Ht' & Hthis & He & Hp).
    rewrite <- Hthis in Hk.
    destruct (IH _ Hq' Ht' Hk) as (Hq2 & He2 & Hp2).
    split; [exact Hq2|]. rewrite He2, Hp2, He, Hp. cbn [length]. split; lia.
Qed.

Lemma client_error_listeners_pile_up_witness :
  listenerCount ev_error
    (run (exchanges [(request_of (lit "get") (lit "/") [] (lit ""), []);
                     (request_of (lit "post") (lit "/") [] (lit "x"), [])])
       (sample_client []))
  = listenerCount ev_error (sample_client []) + 2.
Proof.
  apply (client_error_listeners_pile_up
           [(request_of (lit "get") (lit "/") [] (lit ""), []);
            (request_of (lit "post") (lit "/") [] (lit "x"), [])]
           (sample_client [])
           (proj1 (client_constructor_quiet _ _ _ _ _))
           (proj2 (client_constructor_quiet _ _ _ _ _))).
  split; [reflexivity|]. split; reflexivity.
Defined.




End PNPClientLoop_steps.

